(** * SDLGLTiles: camera, viewport and level-of-detail arithmetic

    A shallow embedding of the tile-map demo ([main.c], the SDL renderer with
    integer zoom, and [maingl.c], the OpenGL renderer with continuous zoom and
    level of detail).

    - C [int] values are integers [Z].  The integer arithmetic of the
      modelled code (tile indices, map coordinates, pointer differences)
      stays inside the 32-bit range on the inputs the program receives;
      division by zero and float-to-int casts out of range are undefined
      and modelled by [None].
    - C [float] values are IEEE-754 binary32 numbers: [SpecFloat.spec_float]
      with a 24-bit significand and [emax = 128], every operation rounding to
      nearest-even as on a target that evaluates [float] expressions in
      [float] precision.
    - The event loop is a transition function on an explicit session state. *)

From Stdlib Require Import ZArith Bool List Lia.
From Stdlib Require Import Floats.SpecFloat.
Import ListNotations.

Local Open Scope Z_scope.

(** ** C [int] *)

Module CInt.

Definition INT_MIN : Z := - 2 ^ 31.
Definition INT_MAX : Z := 2 ^ 31 - 1.

Definition in_range (n : Z) : bool := (INT_MIN <=? n) && (n <=? INT_MAX).

(** [a / b] and [a % b] on [int]: truncation towards zero; undefined for
    a zero divisor. *)
Definition div (a b : Z) : option Z :=
  if b =? 0 then None else Some (Z.quot a b).

Definition rem (a b : Z) : option Z :=
  if b =? 0 then None else Some (Z.rem a b).

(** [a - b] on [int]: the difference when it is in the range of [int];
    out of the range C leaves the behaviour undefined, and the model takes
    the two's-complement result that the compiled subtraction gives. *)
Definition wrap (n : Z) : Z := (n - INT_MIN) mod 2 ^ 32 + INT_MIN.

Definition sub (a b : Z) : Z := wrap (a - b).

End CInt.

(** ** C [float]: IEEE-754 binary32 *)

Module F32.

Definition prec : Z := 24.
Definition emax : Z := 128.

Definition float : Type := spec_float.

Definition add : float -> float -> float := SFadd prec emax.
Definition sub : float -> float -> float := SFsub prec emax.
Definition mul : float -> float -> float := SFmul prec emax.
Definition div : float -> float -> float := SFdiv prec emax.
Definition opp : float -> float := SFopp.
Definition ltb : float -> float -> bool := SFltb.
Definition leb : float -> float -> bool := SFleb.

(** Conversion [(float) n] of an [int]: the nearest binary32 number. *)
Definition of_int (n : Z) : float := binary_normalize prec emax n 0 false.

(** A decimal literal [n / 10^k] with the [f] suffix: the binary32 number
    nearest to the quotient.  Both [n] and [10^k] are exactly representable
    for the literals of the program, so one correctly rounded division
    yields it. *)
Definition literal (n : Z) (k : Z) : float := div (of_int n) (of_int (10 ^ k)).

(** The integer part of a finite number, rounded down: [Z.shiftl] with a
    negative amount is a right shift, which rounds towards minus infinity
    on negative numbers as well. *)
Definition Zfloor (s : bool) (m : positive) (e : Z) : Z :=
  Z.shiftl (cond_Zopp s (Zpos m)) e.

Definition Zceil (s : bool) (m : positive) (e : Z) : Z :=
  - Z.shiftl (cond_Zopp (negb s) (Zpos m)) e.

(** [floorf] and [ceilf]: the result is integral and exactly
    representable; zeros, infinities and NaN are returned unchanged and a
    zero result keeps the sign of the argument. *)
Definition floorf (x : float) : float :=
  match x with
  | S754_finite s m e => binary_normalize prec emax (Zfloor s m e) 0 s
  | _ => x
  end.

Definition ceilf (x : float) : float :=
  match x with
  | S754_finite s m e => binary_normalize prec emax (Zceil s m e) 0 s
  | _ => x
  end.

(** The cast [(int) x]: truncation towards zero.  The behaviour is
    undefined ([None]) for NaN, the infinities and values whose integer
    part does not fit in [int]. *)
Definition Ztrunc (x : float) : option Z :=
  match x with
  | S754_zero _ => Some 0
  | S754_finite s m e => Some (cond_Zopp s (Z.shiftl (Zpos m) e))
  | _ => None
  end.

Definition int_of_float (x : float) : option Z :=
  match Ztrunc x with
  | Some n => if CInt.in_range n then Some n else None
  | None => None
  end.

Definition is_finite (x : float) : bool :=
  match x with
  | S754_zero _ | S754_finite _ _ _ => true
  | _ => false
  end.

(** A well-formed binary32 number: canonical significand, exponent in
    range. *)
Definition valid (x : float) : Prop := valid_binary prec emax x = true.

(** The value of a finite number in units of [2^-149], the smallest
    positive binary32 number: an integer for every valid number. *)
Definition val (x : float) : Z :=
  match x with
  | S754_finite s m e => cond_Zopp s (Zpos m * 2 ^ (e + 149))
  | _ => 0
  end.

(** The canonical exponent of binary32. *)
Definition fexp32 (e : Z) : Z := Z.max (e - 24) (-149).

(** The record reached from an exact [M] after [k] right shifts: the
    quotient, and the position of the remainder relative to one half. *)
Definition shifted (M k : Z) : shr_record :=
  {| shr_m := M / 2 ^ k;
     shr_r := 2 ^ k <=? 2 * (M mod 2 ^ k);
     shr_s := negb ((2 * (M mod 2 ^ k)) mod 2 ^ k =? 0) |}.

(** The second half of [binary_round_aux]: renormalise the rounded
    mantissa and detect overflow. *)
Definition finish (sx : bool) (m1 e1 : Z) : float :=
  let '(mrs, e) := shr_fexp prec emax m1 e1 loc_Exact in
  match shr_m mrs with
  | Z0 => S754_zero sx
  | Zpos m => if e <=? 104 then S754_finite sx m e else S754_infinity sx
  | Zneg _ => S754_nan
  end.

(** [r] is the finite number or infinity that the rounded mantissa [m1]
    at exponent [e1] denotes. *)
Definition rounded (sx : bool) (m1 e1 : Z) (r : float) : Prop :=
  exists (m : positive) (e : Z),
    r = (if e <=? 104 then S754_finite sx m e else S754_infinity sx) /\
    Zpos m * 2 ^ (e - e1) = m1 /\ e1 <= e <= e1 + 1 /\
    canonical_mantissa prec emax m e = true.

End F32.

(** ** Configuration constants shared by both renderers *)

Definition SCREEN_WIDTH : Z := 800.
Definition SCREEN_HEIGHT : Z := 600.
Definition MAP_WIDTH : Z := 1000.
Definition MAP_HEIGHT : Z := 1000.
Definition TILE_WIDTH : Z := 32.
Definition TILE_HEIGHT : Z := 32.

(** A loop [for (x = start; x < max; x += step)]: the values of [x] at which
    the body runs, or [None] when [fuel] iterations do not finish it. *)
Fixpoint for_loop (fuel : nat) (x max step : Z) : option (list Z) :=
  match fuel with
  | O => None
  | S fuel' =>
      if x <? max then
        match for_loop fuel' (x + step) max step with
        | Some xs => Some (x :: xs)
        | None => None
        end
      else Some []
  end.

(** The nested loop over rows and columns of the map: the cells [(x, y)] in
    the order the body visits them. *)
Definition for_cells (fuel : nat) (start_x start_y max_x max_y step : Z)
  : option (list (Z * Z)) :=
  match for_loop fuel start_y max_y step, for_loop fuel start_x max_x step with
  | Some ys, Some xs => Some (flat_map (fun y => map (fun x => (x, y)) xs) ys)
  | _, _ => None
  end.

(** The flat array index [y * MAP_WIDTH + x] of a cell. *)
Definition tile_offset (c : Z * Z) : Z := snd c * MAP_WIDTH + fst c.

Definition in_map (c : Z * Z) : Prop :=
  0 <= fst c < MAP_WIDTH /\ 0 <= snd c < MAP_HEIGHT.

(** [fill_random_tilemap]: every cell receives [rand() % max_tile_index],
    where [rand k] is the result of the [k]-th call of [rand()].  The
    remainder is undefined for a zero divisor. *)
Definition fill_random_tilemap (rand : nat -> Z) (max_tile_index : Z)
  : option (list Z) :=
  if max_tile_index =? 0 then None
  else Some (map (fun k => Z.rem (rand k) max_tile_index)
                 (seq 0 (Z.to_nat (MAP_WIDTH * MAP_HEIGHT)))).

(** The stores of [fill_random_tilemap] in the order its nested loops
    perform them: the array index [y * MAP_WIDTH + x] and the value stored
    there, the [k]-th store taking the result of the [k]-th call of
    [rand()]. *)
Definition fill_stores (rand : nat -> Z) (max_tile_index : Z)
  : option (list (Z * Z)) :=
  if max_tile_index =? 0 then None
  else
    match for_cells 1001 0 0 MAP_WIDTH MAP_HEIGHT 1 with
    | Some cells =>
        Some (map (fun kc => (tile_offset (snd kc),
                              Z.rem (rand (fst kc)) max_tile_index))
                  (combine (seq 0 (length cells)) cells))
    | None => None
    end.

(** The read [map.tiles[y * MAP_WIDTH + x]] of the draw loop; undefined
    outside the array. *)
Definition read_tile (tiles : list Z) (c : Z * Z) : option Z :=
  if tile_offset c <? 0 then None
  else nth_error tiles (Z.to_nat (tile_offset c)).

(** A list of results, when each of them is defined. *)
Fixpoint all_some {A : Type} (l : list (option A)) : option (list A) :=
  match l with
  | [] => Some []
  | None :: _ => None
  | Some a :: l' =>
      match all_some l' with
      | Some r => Some (a :: r)
      | None => None
      end
  end.

(** How the start-up code of [main] ends: it returns 1 before the map is
    filled, or a loop of it is still running when its fuel is spent, or it
    calls [fill_random_tilemap] with [max_tile_index], whose result is the
    filled map or undefined. *)
Inductive Startup : Type :=
| Fatal
| Unfinished
| Filled (max_tile_index : Z) (tiles : option (list Z)).

(** * [maingl.c]: the OpenGL renderer *)

Module Gl.

Import F32.

Definition LOD_PIXEL_THRESHOLD : float := of_int 8.
Definition MAX_ZOOM : float := of_int 16.
Definition MIN_ZOOM : float := literal 1 3.
Definition ZOOM_STEP : float := literal 11 1.

Record Tileset : Type := {
  tile_width : Z;
  tile_height : Z;
  rows : Z;
  cols : Z;
  use_shift : bool;
  shift_bits : Z
}.

Definition is_power_of_two (x : Z) : bool :=
  (0 <? x) && (Z.land x (x - 1) =? 0).

(** [load_tileset]: [surface] is the size [(w, h)] of the decoded image, or
    [None] when [IMG_Load] fails.  [(int) log2f((float) cols)] is taken
    only of a power of two, where it is the exact logarithm. *)
Definition load_tileset (ts : Tileset) (surface : option (Z * Z))
  : option Tileset :=
  match surface with
  | None => None
  | Some (w, h) =>
      let cols' := Z.quot w (tile_width ts) in
      let rows' := Z.quot h (tile_height ts) in
      let use := is_power_of_two cols' in
      Some {| tile_width := tile_width ts;
              tile_height := tile_height ts;
              rows := rows';
              cols := cols';
              use_shift := use;
              shift_bits := if use then Z.log2 cols' else shift_bits ts |}
  end.

(** [while ((1 << shift) < tileset.cols) shift++;] *)
Fixpoint shift_loop (fuel : nat) (shift cols : Z) : option Z :=
  match fuel with
  | O => None
  | S fuel' =>
      if Z.shiftl 1 shift <? cols then shift_loop fuel' (shift + 1) cols
      else Some shift
  end.

(** The power-of-two detection that [main] runs after loading. *)
Definition detect_shift (ts : Tileset) : option Tileset :=
  let use := Z.land (cols ts) (cols ts - 1) =? 0 in
  if use then
    match shift_loop 32 0 (cols ts) with
    | Some shift =>
        Some {| tile_width := tile_width ts; tile_height := tile_height ts;
                rows := rows ts; cols := cols ts;
                use_shift := true; shift_bits := shift |}
    | None => None
    end
  else
    Some {| tile_width := tile_width ts; tile_height := tile_height ts;
            rows := rows ts; cols := cols ts;
            use_shift := false; shift_bits := shift_bits ts |}.

(** The atlas cell [(sx, sy)] that [draw_tile] computes for a tile index:
    the two branches of its [if (tileset->use_shift)]. *)
Definition atlas_cell_shift (ts : Tileset) (tile_index : Z) : Z * Z :=
  (Z.land tile_index (cols ts - 1), Z.shiftr tile_index (shift_bits ts)).

Definition atlas_cell_divmod (ts : Tileset) (tile_index : Z) : option (Z * Z) :=
  match CInt.rem tile_index (cols ts), CInt.div tile_index (cols ts) with
  | Some sx, Some sy => Some (sx, sy)
  | _, _ => None
  end.

Definition atlas_cell (ts : Tileset) (tile_index : Z) : option (Z * Z) :=
  if use_shift ts then Some (atlas_cell_shift ts tile_index)
  else atlas_cell_divmod ts tile_index.

(** The textured quad that [draw_tile] emits. *)
Record Quad : Type := {
  quad_u : float; quad_v : float; quad_u2 : float; quad_v2 : float;
  quad_x : float; quad_y : float; quad_w : float; quad_h : float
}.

Definition draw_tile (tx ty tile_index : Z) (ts : Tileset)
    (zoom offset_x offset_y : float) (lod : Z) (step_u step_v : float)
  : option Quad :=
  match atlas_cell ts tile_index with
  | None => None
  | Some (sx, sy) =>
      let u := mul (of_int sx) step_u in
      let v := mul (of_int sy) step_v in
      Some {| quad_u := u; quad_v := v;
              quad_u2 := add u step_u; quad_v2 := add v step_v;
              quad_x := mul (add (of_int (tx * tile_width ts)) offset_x) zoom;
              quad_y := mul (add (of_int (ty * tile_height ts)) offset_y) zoom;
              quad_w := mul (mul (of_int (tile_width ts)) zoom) (of_int lod);
              quad_h := mul (mul (of_int (tile_height ts)) zoom) (of_int lod) |}
  end.

(** Start-up of [main] up to the call of [fill_random_tilemap]:
    [malloc_ok] tells whether the map was allocated. *)
Definition initial_tileset : Tileset :=
  {| tile_width := TILE_WIDTH; tile_height := TILE_HEIGHT;
     rows := 0; cols := 0; use_shift := false; shift_bits := 0 |}.

Definition startup (surface : option (Z * Z)) (malloc_ok : bool)
    (rand : nat -> Z) : Startup :=
  match load_tileset initial_tileset surface with
  | None => Fatal
  | Some ts =>
      if negb malloc_ok then Fatal
      else
        match detect_shift ts with
        | None => Unfinished
        | Some ts' =>
            Filled (cols ts' * rows ts')
                   (fill_random_tilemap rand (cols ts' * rows ts'))
        end
  end.

(** *** Session state and events *)

Record Session : Type := {
  offset_x : float;
  offset_y : float;
  zoom : float;
  dragging : bool;
  last_mouse_x : Z;
  last_mouse_y : Z;
  running : bool
}.

(** The events [main] reacts to.  A wheel event carries, besides
    [e.wheel.y], the pointer position that [SDL_GetMouseState] reports
    while it is handled. *)
Inductive Event : Type :=
| Quit
| LeftButtonDown (x y : Z)
| LeftButtonUp
| MouseMotion (x y : Z)
| MouseWheel (wheel_y mx my : Z)
| WindowResized (width height : Z)
| OtherEvent.

Definition initial_session : Session :=
  {| offset_x := div (of_int (MAP_WIDTH * TILE_WIDTH - SCREEN_WIDTH)) (opp (of_int 2));
     offset_y := div (of_int (MAP_HEIGHT * TILE_HEIGHT - SCREEN_HEIGHT)) (opp (of_int 2));
     zoom := of_int 1;
     dragging := false;
     last_mouse_x := 0;
     last_mouse_y := 0;
     running := true |}.

(** The clamp of the wheel handler:
    [if (zoom < MIN_ZOOM) zoom = MIN_ZOOM; if (zoom > MAX_ZOOM) zoom = MAX_ZOOM;] *)
Definition clamp_zoom (z : float) : float :=
  let z1 := if ltb z MIN_ZOOM then MIN_ZOOM else z in
  if ltb MAX_ZOOM z1 then MAX_ZOOM else z1.

Definition zoom_factor (wheel_y : Z) : float :=
  if 0 <? wheel_y then ZOOM_STEP else div (of_int 1) ZOOM_STEP.

(** The world coordinate under the screen coordinate [p]:
    [p / zoom - offset]. *)
Definition world_of_screen (p : Z) (zoom offset : float) : float :=
  sub (div (of_int p) zoom) offset.

(** One event of the [SDL_PollEvent] loop.  The pointer difference of a
    drag step, [e.motion.x - last_mouse_x], is a subtraction of two
    [int]s. *)
Definition handle_event (s : Session) (e : Event) : Session :=
  match e with
  | Quit =>
      {| offset_x := offset_x s; offset_y := offset_y s; zoom := zoom s;
         dragging := dragging s; last_mouse_x := last_mouse_x s;
         last_mouse_y := last_mouse_y s; running := false |}
  | LeftButtonDown x y =>
      {| offset_x := offset_x s; offset_y := offset_y s; zoom := zoom s;
         dragging := true; last_mouse_x := x; last_mouse_y := y;
         running := running s |}
  | LeftButtonUp =>
      {| offset_x := offset_x s; offset_y := offset_y s; zoom := zoom s;
         dragging := false; last_mouse_x := last_mouse_x s;
         last_mouse_y := last_mouse_y s; running := running s |}
  | MouseMotion x y =>
      if dragging s then
        {| offset_x := add (offset_x s) (div (of_int (CInt.sub x (last_mouse_x s))) (zoom s));
           offset_y := add (offset_y s) (div (of_int (CInt.sub y (last_mouse_y s))) (zoom s));
           zoom := zoom s; dragging := dragging s;
           last_mouse_x := x; last_mouse_y := y; running := running s |}
      else s
  | MouseWheel wheel_y mx my =>
      let world_x := world_of_screen mx (zoom s) (offset_x s) in
      let world_y := world_of_screen my (zoom s) (offset_y s) in
      let zoom' := clamp_zoom (mul (zoom s) (zoom_factor wheel_y)) in
      {| offset_x := sub (div (of_int mx) zoom') world_x;
         offset_y := sub (div (of_int my) zoom') world_y;
         zoom := zoom'; dragging := dragging s;
         last_mouse_x := last_mouse_x s; last_mouse_y := last_mouse_y s;
         running := running s |}
  | WindowResized _ _ => s
  | OtherEvent => s
  end.

Definition handle_events (s : Session) (es : list Event) : Session :=
  fold_left handle_event es s.

Definition zoom_in_range (z : float) : Prop :=
  leb MIN_ZOOM z = true /\ leb z MAX_ZOOM = true.

(** The invariant of the zoom: a well-formed number within the range. *)
Definition zoom_ok (s : Session) : Prop := valid (zoom s) /\ zoom_in_range (zoom s).

(** A camera offset within [2^30] pixels of the origin: a well-formed
    finite number below [2^30] in absolute value. *)
Definition near (o : float) : Prop :=
  valid o /\ is_finite o = true /\ Z.abs (val o) < 2 ^ (30 + 149).

(** A running session that is not dragging, with the given camera. *)
Definition session_at (ox oy z : float) : Session :=
  {| offset_x := ox; offset_y := oy; zoom := z; dragging := false;
     last_mouse_x := 0; last_mouse_y := 0; running := true |}.

(** *** One frame: level of detail, visible range, draw loop, hover *)

(** [lod]: the stride of the draw loop. *)
Definition tile_screen_size (zoom : float) : float :=
  mul (of_int TILE_WIDTH) zoom.

Definition lod_of_zoom (zoom : float) : option Z :=
  let tsz := tile_screen_size zoom in
  if ltb tsz LOD_PIXEL_THRESHOLD
  then int_of_float (ceilf (div LOD_PIXEL_THRESHOLD tsz))
  else Some 1.

(** The visible tile bounds before clamping. *)
Definition raw_min (offset : float) (tile : Z) : option Z :=
  int_of_float (floorf (div (opp offset) (of_int tile))).

Definition raw_max (screen : Z) (zoom offset : float) (tile : Z) : option Z :=
  int_of_float (ceilf (div (sub (div (of_int screen) zoom) offset) (of_int tile))).

Definition clamp_min (n : Z) : Z := if n <? 0 then 0 else n.
Definition clamp_max (n limit : Z) : Z := if limit <? n then limit else n.

(** [(min / lod) * lod] *)
Definition align_start (min lod : Z) : option Z :=
  match CInt.div min lod with
  | Some q => Some (q * lod)
  | None => None
  end.

Record VisibleRange : Type := {
  min_x : Z; min_y : Z; max_x : Z; max_y : Z;
  lod : Z;
  start_x : Z; start_y : Z
}.

(** The range that one iteration of the main loop computes from the
    session and the window size; [None] when a cast or a division of it is
    undefined. *)
Definition visible_range (s : Session) (screen_w screen_h : Z)
  : option VisibleRange :=
  match lod_of_zoom (zoom s),
        raw_min (offset_x s) TILE_WIDTH, raw_min (offset_y s) TILE_HEIGHT,
        raw_max screen_w (zoom s) (offset_x s) TILE_WIDTH,
        raw_max screen_h (zoom s) (offset_y s) TILE_HEIGHT with
  | Some l, Some mnx, Some mny, Some mxx, Some mxy =>
      let mnx' := clamp_min mnx in
      let mny' := clamp_min mny in
      match align_start mnx' l, align_start mny' l with
      | Some sx, Some sy =>
          Some {| min_x := mnx'; min_y := mny';
                  max_x := clamp_max mxx MAP_WIDTH;
                  max_y := clamp_max mxy MAP_HEIGHT;
                  lod := l; start_x := sx; start_y := sy |}
      | _, _ => None
      end
  | _, _, _, _, _ => None
  end.

(** The cells whose tile index the draw loop reads. *)
Definition draw_cells (fuel : nat) (r : VisibleRange) : option (list (Z * Z)) :=
  for_cells fuel (start_x r) (start_y r) (max_x r) (max_y r) (lod r).

(** The hovered tile: [Some None] when no outline is drawn, [Some (Some
    (tile_x, tile_y))] when [draw_tile_outline] is called, [None] when a
    cast is undefined. *)
Definition hover_coord (p : Z) (zoom offset : float) (tile : Z) : option Z :=
  int_of_float (div (world_of_screen p zoom offset) (of_int tile)).

Definition in_grid (tile_x tile_y : Z) : bool :=
  (0 <=? tile_x) && (tile_x <? MAP_WIDTH) && (0 <=? tile_y) && (tile_y <? MAP_HEIGHT).

Definition hover (s : Session) (mx my : Z) : option (option (Z * Z)) :=
  match hover_coord mx (zoom s) (offset_x s) TILE_WIDTH,
        hover_coord my (zoom s) (offset_y s) TILE_HEIGHT with
  | Some tile_x, Some tile_y =>
      Some (if in_grid tile_x tile_y then Some (tile_x, tile_y) else None)
  | _, _ => None
  end.

(** The hovered tile as the specification words it: the floor of the
    inverse camera transform, as for the visible-range minimum. *)
Definition hover_coord_floor (p : Z) (zoom offset : float) (tile : Z) : option Z :=
  int_of_float (floorf (div (world_of_screen p zoom offset) (of_int tile))).

Definition hover_floor (s : Session) (mx my : Z) : option (option (Z * Z)) :=
  match hover_coord_floor mx (zoom s) (offset_x s) TILE_WIDTH,
        hover_coord_floor my (zoom s) (offset_y s) TILE_HEIGHT with
  | Some tile_x, Some tile_y =>
      Some (if in_grid tile_x tile_y then Some (tile_x, tile_y) else None)
  | _, _ => None
  end.

(** *** The draw calls of one frame *)

(** The tileset with which [main] enters its loop: [load_tileset], then
    the power-of-two detection. *)
Definition main_tileset (surface : option (Z * Z)) : option Tileset :=
  match load_tileset initial_tileset surface with
  | Some ts => detect_shift ts
  | None => None
  end.

(** [step_u = 1.0f / tileset.cols] and [step_v = 1.0f / tileset.rows]. *)
Definition uv_step (n : Z) : float := div (of_int 1) (of_int n).

(** The quads that the draw loop of one frame emits, in order; [None] when
    a cast, a division or a read of the frame is undefined. *)
Definition frame_quads (ts : Tileset) (tiles : list Z) (s : Session)
    (screen_w screen_h : Z) : option (list Quad) :=
  match visible_range s screen_w screen_h with
  | Some r =>
      match draw_cells 1001 r with
      | Some cells =>
          all_some
            (map (fun c =>
                    match read_tile tiles c with
                    | Some tile_index =>
                        draw_tile (fst c) (snd c) tile_index ts
                                  (zoom s) (offset_x s) (offset_y s) (lod r)
                                  (uv_step (cols ts)) (uv_step (rows ts))
                    | None => None
                    end) cells)
      | None => None
      end
  | None => None
  end.

End Gl.

(** * [main.c]: the SDL renderer with integer zoom *)

Module Sdl.

Import F32.

Record Tileset : Type := {
  tile_width : Z;
  tile_height : Z;
  rows : Z;
  cols : Z
}.

Definition initial_tileset : Tileset :=
  {| tile_width := 32; tile_height := 32; rows := 0; cols := 0 |}.

(** Start-up of [main]: [texture] is the size of the texture made from the
    decoded image, or [None] when [IMG_Load] or
    [SDL_CreateTextureFromSurface] fails. *)
Definition startup (texture : option (Z * Z)) (rand : nat -> Z) : Startup :=
  match texture with
  | None => Fatal
  | Some (tex_w, tex_h) =>
      let cols' := Z.quot tex_w (tile_width initial_tileset) in
      let rows' := Z.quot tex_h (tile_height initial_tileset) in
      Filled (cols' * rows') (fill_random_tilemap rand (cols' * rows'))
  end.

Record Session : Type := {
  offset_x : float;
  offset_y : float;
  zoom : Z;
  dragging : bool;
  last_mouse_x : Z;
  last_mouse_y : Z;
  running : bool
}.

Inductive Event : Type :=
| Quit
| LeftButtonDown (x y : Z)
| LeftButtonUp
| MouseMotion (x y : Z)
| MouseWheel (wheel_y : Z)
| OtherEvent.

Definition initial_session : Session :=
  {| offset_x := div (of_int (MAP_WIDTH * 32 - SCREEN_WIDTH)) (opp (of_int 2));
     offset_y := div (of_int (MAP_HEIGHT * 32 - SCREEN_HEIGHT)) (opp (of_int 2));
     zoom := 1;
     dragging := false;
     last_mouse_x := 0;
     last_mouse_y := 0;
     running := true |}.

Definition wheel_zoom (zoom wheel_y : Z) : Z :=
  if (0 <? wheel_y) && (zoom <? 4) then zoom * 2
  else if (wheel_y <? 0) && (1 <? zoom) then Z.quot zoom 2
  else zoom.

(** One event of the [SDL_PollEvent] loop; the pointer difference of a
    drag step is a subtraction of two [int]s, the divisor [(float) zoom]. *)
Definition handle_event (s : Session) (e : Event) : Session :=
  match e with
  | Quit =>
      {| offset_x := offset_x s; offset_y := offset_y s; zoom := zoom s;
         dragging := dragging s; last_mouse_x := last_mouse_x s;
         last_mouse_y := last_mouse_y s; running := false |}
  | LeftButtonDown x y =>
      {| offset_x := offset_x s; offset_y := offset_y s; zoom := zoom s;
         dragging := true; last_mouse_x := x; last_mouse_y := y;
         running := running s |}
  | LeftButtonUp =>
      {| offset_x := offset_x s; offset_y := offset_y s; zoom := zoom s;
         dragging := false; last_mouse_x := last_mouse_x s;
         last_mouse_y := last_mouse_y s; running := running s |}
  | MouseMotion x y =>
      if dragging s then
        {| offset_x := add (offset_x s)
                           (div (of_int (CInt.sub x (last_mouse_x s))) (of_int (zoom s)));
           offset_y := add (offset_y s)
                           (div (of_int (CInt.sub y (last_mouse_y s))) (of_int (zoom s)));
           zoom := zoom s; dragging := dragging s;
           last_mouse_x := x; last_mouse_y := y; running := running s |}
      else s
  | MouseWheel wheel_y =>
      {| offset_x := offset_x s; offset_y := offset_y s;
         zoom := wheel_zoom (zoom s) wheel_y;
         dragging := dragging s; last_mouse_x := last_mouse_x s;
         last_mouse_y := last_mouse_y s; running := running s |}
  | OtherEvent => s
  end.

Definition handle_events (s : Session) (es : list Event) : Session :=
  fold_left handle_event es s.

Definition session_at (ox oy : float) (z : Z) : Session :=
  {| offset_x := ox; offset_y := oy; zoom := z; dragging := false;
     last_mouse_x := 0; last_mouse_y := 0; running := true |}.

(** The visible bounds of one frame: truncating casts, the maximum one
    past the last visible tile. *)
Definition raw_min (offset : float) (tile : Z) : option Z :=
  int_of_float (div (opp offset) (of_int tile)).

Definition raw_max (screen zoom : Z) (offset : float) (tile : Z) : option Z :=
  match int_of_float (div (sub (div (of_int screen) (of_int zoom)) offset) (of_int tile)) with
  | Some n => Some (n + 1)
  | None => None
  end.

Record VisibleRange : Type := {
  min_x : Z; min_y : Z; max_x : Z; max_y : Z
}.

Definition visible_range (s : Session) : option VisibleRange :=
  match raw_min (offset_x s) (tile_width initial_tileset),
        raw_min (offset_y s) (tile_height initial_tileset),
        raw_max SCREEN_WIDTH (zoom s) (offset_x s) (tile_width initial_tileset),
        raw_max SCREEN_HEIGHT (zoom s) (offset_y s) (tile_height initial_tileset) with
  | Some mnx, Some mny, Some mxx, Some mxy =>
      Some {| min_x := Gl.clamp_min mnx; min_y := Gl.clamp_min mny;
              max_x := Gl.clamp_max mxx MAP_WIDTH;
              max_y := Gl.clamp_max mxy MAP_HEIGHT |}
  | _, _, _, _ => None
  end.

Definition draw_cells (fuel : nat) (r : VisibleRange) : option (list (Z * Z)) :=
  for_cells fuel (min_x r) (min_y r) (max_x r) (max_y r) 1.

(** The hovered tile, in [int] arithmetic:
    [(mx / zoom - (int) offset_x) / tileset.tile_width]; undefined when the
    cast is, or when the difference leaves the range of [int]. *)
Definition hover_coord (p zoom : Z) (offset : float) (tile : Z) : option Z :=
  match CInt.div p zoom, int_of_float offset with
  | Some q, Some o =>
      if CInt.in_range (q - o) then CInt.div (q - o) tile else None
  | _, _ => None
  end.

Definition hover (s : Session) (mx my : Z) : option (option (Z * Z)) :=
  match hover_coord mx (zoom s) (offset_x s) (tile_width initial_tileset),
        hover_coord my (zoom s) (offset_y s) (tile_height initial_tileset) with
  | Some tile_x, Some tile_y =>
      Some (if Gl.in_grid tile_x tile_y then Some (tile_x, tile_y) else None)
  | _, _ => None
  end.

(** *** The draw calls of one frame *)

(** The tileset after [SDL_QueryTexture]. *)
Definition main_tileset (tex_w tex_h : Z) : Tileset :=
  {| tile_width := tile_width initial_tileset;
     tile_height := tile_height initial_tileset;
     rows := Z.quot tex_h (tile_height initial_tileset);
     cols := Z.quot tex_w (tile_width initial_tileset) |}.

Record Rect : Type := {
  rect_x : Z; rect_y : Z; rect_w : Z; rect_h : Z
}.

(** The source rectangle of a tile in the atlas texture. *)
Definition src_rect (ts : Tileset) (tile_index : Z) : option Rect :=
  match CInt.rem tile_index (cols ts), CInt.div tile_index (cols ts) with
  | Some c, Some r =>
      Some {| rect_x := c * tile_width ts; rect_y := r * tile_height ts;
              rect_w := tile_width ts; rect_h := tile_height ts |}
  | _, _ => None
  end.

(** [(x * tileset.tile_width + (int) offset_x) * zoom], undefined when the
    cast is or when a step leaves the range of [int]. *)
Definition screen_coord (tile size : Z) (offset : float) (zoom : Z) : option Z :=
  match int_of_float offset with
  | Some o =>
      if CInt.in_range (tile * size) && CInt.in_range (tile * size + o)
         && CInt.in_range ((tile * size + o) * zoom)
      then Some ((tile * size + o) * zoom)
      else None
  | None => None
  end.

(** The rectangle on screen of the tile [(x, y)]: the destination of its
    [SDL_RenderCopy] and, for the hovered tile, the highlight. *)
Definition tile_rect (ts : Tileset) (s : Session) (x y : Z) : option Rect :=
  match screen_coord x (tile_width ts) (offset_x s) (zoom s),
        screen_coord y (tile_height ts) (offset_y s) (zoom s) with
  | Some dx, Some dy =>
      Some {| rect_x := dx; rect_y := dy;
              rect_w := tile_width ts * zoom s; rect_h := tile_height ts * zoom s |}
  | _, _ => None
  end.

(** The highlight of one frame: [Some None] when none is drawn. *)
Definition highlight (s : Session) (mx my : Z) : option (option Rect) :=
  match hover s mx my with
  | Some (Some (tile_x, tile_y)) =>
      match tile_rect initial_tileset s tile_x tile_y with
      | Some r => Some (Some r)
      | None => None
      end
  | Some None => Some None
  | None => None
  end.

(** A camera offset within [2^28] pixels of the origin, where the [int]
    arithmetic of the frame does not overflow. *)
Definition near (o : float) : Prop :=
  valid o /\ is_finite o = true /\ Z.abs (val o) < 2 ^ (28 + 149).

End Sdl.

(** * Facts about binary32 arithmetic

    The operations of [SpecFloat] are characterised through the value
    [F32.val] of their results.  Everything goes through
    [binary_round_aux], which shifts the mantissa to the canonical
    exponent, rounds to nearest-even and renormalises. *)

Module F32Facts.

Import F32.

(** ** Binary digits *)

Lemma digits2_pos_bounds (p : positive) :
  2 ^ (Zpos (digits2_pos p) - 1) <= Zpos p < 2 ^ Zpos (digits2_pos p).
Proof.
  induction p as [p IH | p IH | ]; simpl digits2_pos.
  - rewrite Pos2Z.inj_succ, (Pos2Z.inj_xI p).
    replace (Z.succ (Zpos (digits2_pos p)) - 1) with (Z.succ (Zpos (digits2_pos p) - 1)) by lia.
    rewrite !Z.pow_succ_r by lia.
    destruct IH as [IH1 IH2]. revert IH1 IH2.
    generalize (2 ^ (Zpos (digits2_pos p) - 1)) (2 ^ Zpos (digits2_pos p)). lia.
  - rewrite Pos2Z.inj_succ, (Pos2Z.inj_xO p).
    replace (Z.succ (Zpos (digits2_pos p)) - 1) with (Z.succ (Zpos (digits2_pos p) - 1)) by lia.
    rewrite !Z.pow_succ_r by lia.
    destruct IH as [IH1 IH2]. revert IH1 IH2.
    generalize (2 ^ (Zpos (digits2_pos p) - 1)) (2 ^ Zpos (digits2_pos p)). lia.
  - simpl. lia.
Qed.

Lemma pow2_pos (k : Z) : 0 <= k -> 0 < 2 ^ k.
Proof. intros; apply Z.pow_pos_nonneg; lia. Qed.

Lemma pow2_le (a b : Z) : 0 <= a <= b -> 2 ^ a <= 2 ^ b.
Proof. intros; apply Z.pow_le_mono_r; lia. Qed.

Lemma mul_le_bound (a b A B : Z) : 0 <= a <= A -> 0 <= b <= B -> a * b <= A * B.
Proof. intros. apply Z.mul_le_mono_nonneg; lia. Qed.

Lemma pow2_split (a b : Z) : 0 <= a <= b -> 2 ^ b = 2 ^ (b - a) * 2 ^ a.
Proof. intros. rewrite <- Z.pow_add_r by lia. f_equal. lia. Qed.

(** A number between [2^(d-1)] and [2^d] has [d] binary digits. *)
Lemma digits2_pos_unique (p : positive) (d : Z) :
  2 ^ (d - 1) <= Zpos p < 2 ^ d -> 0 < d -> Zpos (digits2_pos p) = d.
Proof.
  intros [Hlo Hhi] Hd.
  pose proof (digits2_pos_bounds p) as [Blo Bhi].
  set (k := Zpos (digits2_pos p)) in *.
  assert (Hk : 0 < k) by (subst k; lia).
  destruct (Z.lt_trichotomy k d) as [Hlt | [Heq | Hgt]]; [ | exact Heq | ].
  - pose proof (pow2_le k (d - 1) ltac:(lia)). lia.
  - pose proof (pow2_le d (k - 1) ltac:(lia)). lia.
Qed.

Lemma digits2_pos_mono (p q : positive) :
  (p <= q)%positive -> Zpos (digits2_pos p) <= Zpos (digits2_pos q).
Proof.
  intros Hpq.
  pose proof (digits2_pos_bounds p) as [Plo _].
  pose proof (digits2_pos_bounds q) as [_ Qhi].
  destruct (Z_le_gt_dec (Zpos (digits2_pos p)) (Zpos (digits2_pos q))) as [H | H]; [exact H | ].
  pose proof (pow2_le (Zpos (digits2_pos q)) (Zpos (digits2_pos p) - 1) ltac:(lia)). lia.
Qed.

(** ** Right shifts of the rounding record *)

Lemma shr_1_spec (m : Z) (r s : bool) :
  0 <= m ->
  shr_1 {| shr_m := m; shr_r := r; shr_s := s |}
  = {| shr_m := m / 2; shr_r := Z.odd m; shr_s := r || s |}.
Proof.
  intros Hm. destruct m as [ | p | p]; [reflexivity | | lia].
  destruct p as [p | p | ]; unfold shr_1.
  - rewrite (Pos2Z.inj_xI p). f_equal.
    apply Z.div_unique with (r := 1); lia.
  - rewrite (Pos2Z.inj_xO p). f_equal.
    apply Z.div_unique with (r := 0); lia.
  - reflexivity.
Qed.


Lemma shifted_0 (M : Z) : shifted M 0 = {| shr_m := M; shr_r := false; shr_s := false |}.
Proof.
  unfold shifted. rewrite Z.pow_0_r, Z.div_1_r, Z.mod_1_r. reflexivity.
Qed.

Lemma shifted_succ (M k : Z) :
  0 <= M -> 0 <= k -> shr_1 (shifted M k) = shifted M (k + 1).
Proof.
  intros HM Hk. unfold shifted.
  pose proof (pow2_pos k Hk) as Hp.
  rewrite shr_1_spec by (apply Z.div_pos; lia).
  rewrite Z.pow_add_r, Z.pow_1_r by lia.
  set (P := 2 ^ k) in *.
  assert (Hdd : M / P / 2 = M / (P * 2)) by (rewrite Z.div_div by lia; reflexivity).
  pose proof (Z.div_mod M P ltac:(lia)) as E1.
  pose proof (Z.mod_pos_bound M P ltac:(lia)) as B1.
  pose proof (Z.div_mod (M / P) 2 ltac:(lia)) as E2.
  pose proof (Z.mod_pos_bound (M / P) 2 ltac:(lia)) as B2.
  assert (Hmod : M mod (P * 2) = M mod P + P * ((M / P) mod 2)).
  { symmetry. apply Z.mod_unique with (q := M / P / 2); [ left; nia | nia ]. }
  assert (Hodd : Z.odd (M / P) = ((M / P) mod 2 =? 1)).
  { rewrite Zmod_odd. destruct (Z.odd (M / P)); reflexivity. }
  f_equal.
  - exact Hdd.
  - rewrite Hodd, Hmod.
    destruct (Z.eqb_spec ((M / P) mod 2) 1) as [H1 | H1];
      symmetry; [apply Z.leb_le | apply Z.leb_gt]; nia.
  - rewrite Hmod.
    assert (Hr : (2 * (M mod P + P * ((M / P) mod 2))) mod (P * 2) = 2 * (M mod P)).
    { symmetry. apply Z.mod_unique with (q := (M / P) mod 2); [ left; nia | nia ]. }
    rewrite Hr. clear Hr Hmod Hodd E1 E2 Hdd.
    set (R := M mod P) in *.
    destruct (Z.leb_spec P (2 * R)) as [H1 | H1]; cbn [orb].
    + symmetry. apply negb_true_iff, Z.eqb_neq. lia.
    + rewrite Z.mod_small by lia. reflexivity.
Qed.

Lemma iter_pos_shifted (n : positive) (M k : Z) :
  0 <= M -> 0 <= k -> iter_pos shr_1 n (shifted M k) = shifted M (k + Zpos n).
Proof.
  intros HM. revert k.
  induction n as [n IH | n IH | ]; intros k Hk; cbn [iter_pos].
  - rewrite shifted_succ, !IH by lia. f_equal. lia.
  - rewrite !IH by lia. f_equal. lia.
  - apply shifted_succ; assumption.
Qed.

(** Whatever the round and sticky bits are, [n] right shifts divide the
    mantissa by [2^n]. *)
Lemma iter_pos_shr_m (n : positive) (mrs : shr_record) :
  0 <= shr_m mrs -> shr_m (iter_pos shr_1 n mrs) = shr_m mrs / 2 ^ Zpos n.
Proof.
  revert mrs.
  assert (H1 : forall mrs, 0 <= shr_m mrs -> shr_m (shr_1 mrs) = shr_m mrs / 2).
  { intros [m r s] Hm. simpl in Hm. rewrite shr_1_spec by assumption. reflexivity. }
  assert (Hnn : forall a k, 0 <= a -> 0 <= k -> 0 <= a / 2 ^ k).
  { intros. apply Z.div_pos; [assumption | apply pow2_pos; assumption]. }
  induction n as [n IH | n IH | ]; intros mrs Hm; cbn [iter_pos].
  - assert (H0 : 0 <= shr_m (shr_1 mrs)) by (rewrite H1 by assumption; apply Z.div_pos; lia).
    rewrite IH; [ | rewrite IH by assumption; apply Hnn; lia].
    rewrite IH, H1 by assumption.
    rewrite !Z.div_div by (try apply pow2_pos; lia).
    f_equal.
    replace (Zpos n~1) with (1 + Zpos n + Zpos n) by lia.
    rewrite !Z.pow_add_r by lia. rewrite Z.pow_1_r. ring.
  - rewrite IH; [ | rewrite IH by assumption; apply Hnn; lia].
    rewrite IH by assumption.
    rewrite !Z.div_div by (try apply pow2_pos; lia).
    f_equal.
    replace (Zpos n~0) with (Zpos n + Zpos n) by lia.
    rewrite !Z.pow_add_r by lia. ring.
  - rewrite H1 by assumption. rewrite Z.pow_1_r. reflexivity.
Qed.

Lemma Zdigits2_bounds (m : Z) :
  0 < m -> 2 ^ (Zdigits2 m - 1) <= m < 2 ^ Zdigits2 m.
Proof.
  destruct m as [ | p | p]; try lia. intros _. apply digits2_pos_bounds.
Qed.

Lemma Zdigits2_pos (m : Z) : 0 < m -> 0 < Zdigits2 m.
Proof. destruct m; simpl; lia. Qed.

Lemma Zdigits2_unique (m d : Z) :
  2 ^ (d - 1) <= m < 2 ^ d -> 0 < d -> Zdigits2 m = d.
Proof.
  intros H Hd.
  assert (0 < m) by (pose proof (pow2_pos (d - 1) ltac:(lia)); lia).
  destruct m as [ | p | p]; try lia. apply digits2_pos_unique; assumption.
Qed.

Lemma Zdigits2_mono (a b : Z) : 0 < a <= b -> Zdigits2 a <= Zdigits2 b.
Proof.
  intros [Ha Hab]. destruct a as [ | p | p]; try lia.
  destruct b as [ | q | q]; try lia. apply digits2_pos_mono. exact Hab.
Qed.

(** Dropping [n] low bits of a number with more than [n] digits. *)
Lemma Zdigits2_div_pow2 (m n : Z) :
  0 < m -> 0 <= n < Zdigits2 m -> Zdigits2 (m / 2 ^ n) = Zdigits2 m - n.
Proof.
  intros Hm Hn.
  pose proof (Zdigits2_bounds m Hm) as [Hlo Hhi].
  pose proof (pow2_pos n ltac:(lia)) as Hp.
  apply Zdigits2_unique; [ | lia]. split.
  - apply Z.div_le_lower_bound; [lia | ].
    rewrite Z.mul_comm, <- Z.pow_add_r by lia.
    replace (Zdigits2 m - n - 1 + n) with (Zdigits2 m - 1) by lia. exact Hlo.
  - apply Z.div_lt_upper_bound; [lia | ].
    rewrite <- Z.pow_add_r by lia.
    replace (n + (Zdigits2 m - n)) with (Zdigits2 m) by lia. exact Hhi.
Qed.

Lemma Zdigits2_pow2 (k : Z) : 0 <= k -> Zdigits2 (2 ^ k) = k + 1.
Proof.
  intros Hk. apply Zdigits2_unique; [ | lia].
  replace (k + 1 - 1) with k by lia. split; [lia | ].
  apply Z.pow_lt_mono_r; lia.
Qed.

(** ** Rounding to nearest, ties to even *)

Lemma round_nearest_even_bounds (m : Z) (l : location) :
  m <= round_nearest_even m l <= m + 1.
Proof.
  destruct l as [ | [ | | ]]; simpl; try lia. destruct (Z.even m); lia.
Qed.

Lemma round_nearest_even_shifted (M k : Z) :
  0 <= M -> 0 <= k ->
  2 * Z.abs (round_nearest_even (M / 2 ^ k) (loc_of_shr_record (shifted M k)) * 2 ^ k - M)
  <= 2 ^ k.
Proof.
  intros HM Hk. unfold shifted.
  pose proof (pow2_pos k Hk) as Hp.
  set (P := 2 ^ k) in *.
  pose proof (Z.div_mod M P ltac:(lia)) as E.
  pose proof (Z.mod_pos_bound M P ltac:(lia)) as B.
  set (R := M mod P) in *. set (q := M / P) in *.
  destruct (Z.leb_spec P (2 * R)) as [H1 | H1].
  - assert (Hr : (2 * R) mod P = 2 * R - P).
    { symmetry. apply Z.mod_unique with (q := 1); [left | ]; lia. }
    rewrite Hr. destruct (Z.eqb_spec (2 * R - P) 0) as [H2 | H2];
      cbn [negb loc_of_shr_record round_nearest_even].
    + destruct (Z.even q); nia.
    + nia.
  - rewrite Z.mod_small by lia.
    destruct (Z.eqb_spec (2 * R) 0) as [H2 | H2];
      cbn [negb loc_of_shr_record round_nearest_even]; nia.
Qed.

(** ** The two shifts of [binary_round_aux] at binary32 *)


Lemma fexp_32 (e : Z) : fexp prec emax e = fexp32 e.
Proof. reflexivity. Qed.

Lemma shr_exact (m e n : Z) :
  0 <= m ->
  shr (shr_record_of_loc m loc_Exact) e n = (shifted m (Z.max n 0), e + Z.max n 0).
Proof.
  intros Hm. cbn [shr_record_of_loc]. rewrite <- shifted_0.
  destruct n as [ | p | p]; cbn [shr].
  - rewrite Z.add_0_r. reflexivity.
  - rewrite iter_pos_shifted by lia.
    replace (Z.max (Zpos p) 0) with (Zpos p) by lia. reflexivity.
  - replace (Z.max (Zneg p) 0) with 0 by lia. rewrite Z.add_0_r. reflexivity.
Qed.

Lemma shr_any (mrs : shr_record) (e n : Z) :
  0 <= shr_m mrs ->
  shr_m (fst (shr mrs e n)) = shr_m mrs / 2 ^ Z.max n 0 /\
  snd (shr mrs e n) = e + Z.max n 0.
Proof.
  intros Hm. destruct n as [ | p | p]; cbn [shr fst snd].
  - rewrite Z.add_0_r, Z.pow_0_r, Z.div_1_r. split; reflexivity.
  - rewrite iter_pos_shr_m by assumption.
    replace (Z.max (Zpos p) 0) with (Zpos p) by lia. split; reflexivity.
  - replace (Z.max (Zneg p) 0) with 0 by lia.
    rewrite Z.add_0_r, Z.pow_0_r, Z.div_1_r. split; reflexivity.
Qed.

Lemma shr_record_of_loc_m (m : Z) (l : location) : shr_m (shr_record_of_loc m l) = m.
Proof. destruct l as [ | [ | | ]]; reflexivity. Qed.


Lemma binary_round_aux_finish (sx : bool) (mx ex : Z) (lx : location) :
  binary_round_aux prec emax sx mx ex lx
  = finish sx (round_nearest_even (shr_m (fst (shr_fexp prec emax mx ex lx)))
                                  (loc_of_shr_record (fst (shr_fexp prec emax mx ex lx))))
           (snd (shr_fexp prec emax mx ex lx)).
Proof.
  unfold binary_round_aux, finish.
  destruct (shr_fexp prec emax mx ex lx) as [mrs' e']. reflexivity.
Qed.


Lemma finish_spec (sx : bool) (m1 e1 : Z) :
  0 < m1 ->
  e1 <= fexp32 (Zdigits2 m1 + e1) <= e1 + 1 ->
  (fexp32 (Zdigits2 m1 + e1) = e1 + 1 -> Z.even m1 = true) ->
  rounded sx m1 e1 (finish sx m1 e1).
Proof.
  intros Hm Hc Hev. unfold finish, shr_fexp. rewrite fexp_32.
  rewrite shr_exact by lia.
  destruct (Z.eq_dec (fexp32 (Zdigits2 m1 + e1)) e1) as [H0 | H1].
  - replace (Z.max (fexp32 (Zdigits2 m1 + e1) - e1) 0) with 0 by lia.
    rewrite shifted_0, Z.add_0_r. cbn [shr_m].
    destruct m1 as [ | p | p]; try lia.
    exists p, e1. repeat split; try lia.
    + rewrite Z.sub_diag, Z.pow_0_r. lia.
    + unfold canonical_mantissa. rewrite fexp_32. apply Z.eqb_eq. exact H0.
  - assert (H2 : fexp32 (Zdigits2 m1 + e1) = e1 + 1) by lia.
    specialize (Hev H2).
    replace (Z.max (fexp32 (Zdigits2 m1 + e1) - e1) 0) with 1 by lia.
    unfold shifted. cbn [shr_m]. rewrite Z.pow_1_r.
    apply Z.even_spec in Hev. destruct Hev as [h Hh].
    assert (Hdiv : m1 / 2 = h).
    { symmetry. apply Z.div_unique with (r := 0); lia. }
    rewrite Hdiv. destruct h as [ | p | p]; try lia.
    exists p, (e1 + 1). repeat split; try lia.
    + replace (e1 + 1 - e1) with 1 by lia. rewrite Z.pow_1_r. lia.
    + unfold canonical_mantissa. rewrite fexp_32. apply Z.eqb_eq.
      assert (Hd : Zdigits2 (Zpos p) = Zdigits2 m1 - 1).
      { rewrite <- Hdiv. replace 2 with (2 ^ 1) at 1 by reflexivity.
        apply Zdigits2_div_pow2; [lia | ].
        pose proof (Zdigits2_pos m1 Hm).
        assert (Zdigits2 m1 <> 1); [ | lia].
        intros E1. pose proof (Zdigits2_bounds m1 Hm) as B. rewrite E1 in B.
        simpl in B. lia. }
      change (Zpos (digits2_pos p)) with (Zdigits2 (Zpos p)). rewrite Hd.
      replace (Zdigits2 m1 - 1 + (e1 + 1)) with (Zdigits2 m1 + e1) by lia. exact H2.
Qed.

(** ** [binary_round_aux] on a non-negative mantissa

    When the input exponent [ex] is at most the canonical exponent [e1] of
    the input, the mantissa loses [n = e1 - ex] bits: the rounded mantissa
    [m1] is the quotient or its successor, within half a unit of the exact
    value when the input was exact, and the result is the zero, finite
    number or infinity that [m1 * 2^e1] denotes. *)
Theorem binary_round_aux_spec (sx : bool) (mx ex : Z) (lx : location) :
  0 <= mx ->
  ex <= fexp32 (Zdigits2 mx + ex) ->
  exists m1 : Z,
    mx / 2 ^ (fexp32 (Zdigits2 mx + ex) - ex) <= m1
      <= mx / 2 ^ (fexp32 (Zdigits2 mx + ex) - ex) + 1 /\
    (lx = loc_Exact ->
     2 * Z.abs (m1 * 2 ^ (fexp32 (Zdigits2 mx + ex) - ex) - mx)
       <= 2 ^ (fexp32 (Zdigits2 mx + ex) - ex)) /\
    ((m1 = 0 /\ binary_round_aux prec emax sx mx ex lx = S754_zero sx) \/
     rounded sx m1 (fexp32 (Zdigits2 mx + ex)) (binary_round_aux prec emax sx mx ex lx)).
Proof.
  intros Hmx Hex.
  set (e1 := fexp32 (Zdigits2 mx + ex)) in *.
  set (n := e1 - ex).
  assert (Hn : 0 <= n) by (subst n; lia).
  pose proof (pow2_pos n Hn) as Hp.
  rewrite binary_round_aux_finish. unfold shr_fexp. rewrite fexp_32. fold e1. fold n.
  pose proof (shr_any (shr_record_of_loc mx lx) ex n) as [Hm' He'].
  { rewrite shr_record_of_loc_m. lia. }
  rewrite shr_record_of_loc_m in Hm'.
  replace (Z.max n 0) with n in Hm', He' by lia.
  replace (ex + n) with e1 in He' by (subst n; lia).
  rewrite He', Hm'.
  set (mrs := fst (shr (shr_record_of_loc mx lx) ex n)) in *.
  set (m0 := mx / 2 ^ n) in *.
  set (m1 := round_nearest_even m0 (loc_of_shr_record mrs)).
  assert (H0 : 0 <= m0) by (apply Z.div_pos; lia).
  pose proof (round_nearest_even_bounds m0 (loc_of_shr_record mrs)) as Hb. fold m1 in Hb.
  exists m1. split; [exact Hb | ]. split.
  { intros ->. subst m1 mrs. rewrite shr_exact by lia.
    replace (Z.max n 0) with n by lia. cbn [fst].
    apply round_nearest_even_shifted; lia. }
  destruct (Z.eq_dec m1 0) as [Hz | Hnz].
  { left. split; [exact Hz | ]. rewrite Hz.
    unfold finish, shr_fexp. rewrite shr_exact by lia.
    unfold shifted. cbn [shr_m]. rewrite Z.div_0_l; [reflexivity | ].
    apply Z.pow_nonzero; lia. }
  assert (Hlow : m0 = 0 -> e1 = -149).
  { intros Hm0. destruct (Z.eq_dec mx 0) as [Hz | Hz].
    - subst e1. rewrite Hz in *. change (Zdigits2 0) with 0 in *.
      unfold fexp32 in *. lia.
    - assert (Hlt : mx < 2 ^ n).
      { destruct (Z_lt_ge_dec mx (2 ^ n)) as [H | H]; [exact H | ].
        assert (1 <= m0); [ | lia].
        apply Z.div_le_lower_bound; lia. }
      pose proof (Zdigits2_bounds mx ltac:(lia)) as [Blo _].
      assert (Hd : Zdigits2 mx - 1 < n).
      { apply (Z.pow_lt_mono_r_iff 2); lia. }
      subst n e1. unfold fexp32 in *. lia. }
  assert (Hpos : m0 <> 0 -> 0 < mx).
  { intros Hm0. destruct (Z.eq_dec mx 0) as [Hz | Hz]; [ | lia].
    exfalso. apply Hm0. subst m0. rewrite Hz. apply Z.div_0_l.
    apply Z.pow_nonzero; lia. }
  right. apply finish_spec; [lia | | ].
  - (* canonical exponent of the rounded mantissa *)
    destruct (Z.eq_dec m0 0) as [Hm0 | Hm0].
    + assert (Hm1 : m1 = 1) by lia. rewrite Hm1.
      change (Zdigits2 1) with 1. rewrite (Hlow Hm0). unfold fexp32. lia.
    + pose proof (Hpos Hm0) as Hmx'.
      assert (Hge : 2 ^ n <= mx).
      { destruct (Z_lt_ge_dec mx (2 ^ n)) as [H | H]; [ | lia].
        assert (m0 = 0); [ | lia]. apply Z.div_small. lia. }
      pose proof (Zdigits2_bounds mx Hmx') as [_ Bhi].
      pose proof (Zdigits2_pos mx Hmx') as Hdp.
      assert (Hd : n < Zdigits2 mx).
      { apply (Z.pow_lt_mono_r_iff 2); lia. }
      pose proof (Zdigits2_div_pow2 mx n Hmx' ltac:(lia)) as Hd0. fold m0 in Hd0.
      pose proof (Zdigits2_bounds m0 ltac:(lia)) as [B0lo B0hi].
      assert (Hcan : fexp32 (Zdigits2 m0 + e1) = e1).
      { rewrite Hd0. replace (Zdigits2 mx - n + e1) with (Zdigits2 mx + ex) by (subst n; lia).
        reflexivity. }
      destruct (Z.eq_dec m1 m0) as [E | E]; [rewrite E, Hcan; lia | ].
      assert (E1 : m1 = m0 + 1) by lia.
      destruct (Z_lt_ge_dec m1 (2 ^ Zdigits2 m0)) as [Hs | Hs].
      * rewrite (Zdigits2_unique m1 (Zdigits2 m0)); [rewrite Hcan; lia | lia | lia].
      * assert (E2 : m1 = 2 ^ Zdigits2 m0) by lia.
        rewrite E2, Zdigits2_pow2 by lia. unfold fexp32 in *. lia.
  - (* a carry into one more digit yields a power of two *)
    intros Hcarry.
    destruct (Z.eq_dec m0 0) as [Hm0 | Hm0].
    + exfalso. assert (Hm1 : m1 = 1) by lia. rewrite Hm1 in Hcarry.
      change (Zdigits2 1) with 1 in Hcarry. rewrite (Hlow Hm0) in Hcarry.
      discriminate Hcarry.
    + pose proof (Hpos Hm0) as Hmx'.
      assert (Hge : 2 ^ n <= mx).
      { destruct (Z_lt_ge_dec mx (2 ^ n)) as [H | H]; [ | lia].
        assert (m0 = 0); [ | lia]. apply Z.div_small. lia. }
      pose proof (Zdigits2_bounds mx Hmx') as [_ Bhi].
      pose proof (Zdigits2_pos mx Hmx') as Hdp.
      assert (Hd : n < Zdigits2 mx).
      { apply (Z.pow_lt_mono_r_iff 2); lia. }
      pose proof (Zdigits2_div_pow2 mx n Hmx' ltac:(lia)) as Hd0. fold m0 in Hd0.
      pose proof (Zdigits2_bounds m0 ltac:(lia)) as [B0lo B0hi].
      pose proof (Zdigits2_pos m0 ltac:(lia)) as Hd0p.
      assert (Hcan : fexp32 (Zdigits2 m0 + e1) = e1).
      { rewrite Hd0. replace (Zdigits2 mx - n + e1) with (Zdigits2 mx + ex) by (subst n; lia).
        reflexivity. }
      destruct (Z_lt_ge_dec m1 (2 ^ Zdigits2 m0)) as [Hs | Hs].
      * exfalso.
        assert (Hsame : Zdigits2 m1 = Zdigits2 m0).
        { destruct (Z.eq_dec m1 m0) as [E | E]; [rewrite E; reflexivity | ].
          apply Zdigits2_unique; lia. }
        rewrite Hsame in Hcarry. lia.
      * assert (E2 : m1 = 2 ^ Zdigits2 m0) by lia.
        rewrite E2. rewrite Z.even_pow by lia. reflexivity.
Qed.

(** ** Values *)


Lemma canonical_inv (m : positive) (e : Z) :
  canonical_mantissa prec emax m e = true ->
  -149 <= e /\ Zpos m < 2 ^ 24 /\ (2 ^ 23 <= Zpos m \/ e = -149).
Proof.
  unfold canonical_mantissa. rewrite fexp_32. intros H. apply Z.eqb_eq in H.
  pose proof (digits2_pos_bounds m) as [Blo Bhi].
  set (d := Zpos (digits2_pos m)) in *.
  assert (Hd : 0 < d) by (subst d; lia).
  unfold fexp32 in H.
  assert (Hd24 : d <= 24) by lia.
  split; [lia | ]. split.
  - pose proof (pow2_le d 24 ltac:(lia)). lia.
  - destruct (Z.eq_dec d 24) as [E | E]; [left | right; lia].
    rewrite E in Blo. exact Blo.
Qed.

Lemma valid_finite_inv (s : bool) (m : positive) (e : Z) :
  valid (S754_finite s m e) ->
  -149 <= e <= 104 /\ Zpos m < 2 ^ 24 /\ (2 ^ 23 <= Zpos m \/ e = -149).
Proof.
  unfold valid, valid_binary, bounded. intros H.
  apply andb_true_iff in H. destruct H as [Hc He]. apply Z.leb_le in He.
  pose proof (canonical_inv m e Hc). change (emax - prec) with 104 in He. lia.
Qed.

Lemma rounded_valid (sx : bool) (m1 e1 : Z) (r : spec_float) :
  rounded sx m1 e1 r -> valid r.
Proof.
  intros (m & e & -> & _ & _ & Hc). unfold valid.
  destruct (Z.leb_spec e 104) as [H | H]; [ | reflexivity].
  cbn [valid_binary]. unfold bounded. rewrite Hc.
  apply andb_true_iff. split; [reflexivity | apply Z.leb_le; exact H].
Qed.

Lemma rounded_not_nan (sx : bool) (m1 e1 : Z) (r : spec_float) :
  rounded sx m1 e1 r -> r <> S754_nan.
Proof.
  intros (m & e & -> & _). destruct (e <=? 104); discriminate.
Qed.

Lemma rounded_val (sx : bool) (m1 e1 : Z) (r : spec_float) :
  rounded sx m1 e1 r -> -149 <= e1 -> is_finite r = true ->
  val r = cond_Zopp sx (m1 * 2 ^ (e1 + 149)).
Proof.
  intros (m & e & -> & Hm & He & _) He1.
  destruct (e <=? 104); [ | discriminate]. intros _. cbn [val].
  f_equal. rewrite <- Hm, <- Z.mul_assoc, <- Z.pow_add_r by lia.
  do 2 f_equal. lia.
Qed.

(** No overflow below [2^128]. *)
Lemma rounded_finite (sx : bool) (m1 e1 : Z) (r : spec_float) :
  rounded sx m1 e1 r -> -149 <= e1 ->
  m1 * 2 ^ (e1 + 149) < 2 ^ 277 -> is_finite r = true.
Proof.
  intros (m & e & -> & Hm & He & Hc) He1 Hlt.
  destruct (Z.leb_spec e 104) as [H | H]; [reflexivity | exfalso].
  apply canonical_inv in Hc. destruct Hc as (_ & _ & [Hn | Hn]); [ | lia].
  assert (Hv : Zpos m * 2 ^ (e + 149) < 2 ^ 277).
  { rewrite <- Hm, <- Z.mul_assoc, <- Z.pow_add_r in Hlt by lia.
    replace (e - e1 + (e1 + 149)) with (e + 149) in Hlt by lia. exact Hlt. }
  pose proof (pow2_le 254 (e + 149) ltac:(lia)) as Hp.
  change (2 ^ 277) with (2 ^ 23 * 2 ^ 254) in Hv.
  pose proof (pow2_pos 254 ltac:(lia)). nia.
Qed.

(** ** Alignment and rounding of an exact integer mantissa *)

Lemma pos_iter_xO (p d : positive) : Zpos (Pos.iter xO p d) = Zpos p * 2 ^ Zpos d.
Proof.
  induction d as [ | d IH] using Pos.peano_ind.
  - cbn [Pos.iter]. rewrite Z.pow_1_r. lia.
  - rewrite Pos.iter_succ, Pos2Z.inj_succ, Z.pow_succ_r by lia.
    rewrite (Pos2Z.inj_xO (Pos.iter xO p d)), IH. ring.
Qed.

Lemma shl_align_spec (mx : positive) (ex ex' : Z) :
  snd (shl_align mx ex ex') = Z.min ex ex' /\
  Zpos (fst (shl_align mx ex ex')) = Zpos mx * 2 ^ (ex - Z.min ex ex').
Proof.
  unfold shl_align. destruct (ex' - ex) as [ | d | d] eqn:E; cbn [fst snd].
  - replace (Z.min ex ex') with ex by lia. rewrite Z.sub_diag. simpl. lia.
  - replace (Z.min ex ex') with ex by lia. rewrite Z.sub_diag. simpl. lia.
  - replace (Z.min ex ex') with ex' by lia. split; [reflexivity | ].
    rewrite pos_iter_xO. do 2 f_equal. lia.
Qed.

Lemma Zdigits2_mul_pow2 (m k : Z) :
  0 < m -> 0 <= k -> Zdigits2 (m * 2 ^ k) = Zdigits2 m + k.
Proof.
  intros Hm Hk. pose proof (Zdigits2_bounds m Hm) as [Blo Bhi].
  pose proof (Zdigits2_pos m Hm) as Hd. pose proof (pow2_pos k Hk) as Hp.
  apply Zdigits2_unique; [ | lia]. split.
  - replace (Zdigits2 m + k - 1) with (Zdigits2 m - 1 + k) by lia.
    rewrite Z.pow_add_r by lia. nia.
  - rewrite Z.pow_add_r by lia. nia.
Qed.

(** [binary_round] of [mx * 2^ex] with [ex] above the subnormal exponent:
    the result denotes a rounded mantissa within relative error [2^-24] of
    the exact value. *)
Theorem binary_round_spec (sx : bool) (mx : positive) (ex : Z) :
  -149 <= ex ->
  exists m1 e1 : Z,
    -149 <= e1 /\
    2 ^ 24 * Z.abs (m1 * 2 ^ (e1 + 149) - Zpos mx * 2 ^ (ex + 149))
      <= Zpos mx * 2 ^ (ex + 149) /\
    (Zdigits2 (Zpos mx) <= 24 -> m1 * 2 ^ (e1 + 149) = Zpos mx * 2 ^ (ex + 149)) /\
    ((m1 = 0 /\ binary_round prec emax sx mx ex = S754_zero sx) \/
     rounded sx m1 e1 (binary_round prec emax sx mx ex)).
Proof.
  intros Hex. unfold binary_round. rewrite fexp_32.
  change (Zpos (digits2_pos mx)) with (Zdigits2 (Zpos mx)).
  set (c := fexp32 (Zdigits2 (Zpos mx) + ex)).
  pose proof (shl_align_spec mx ex c) as [Hez Hmz].
  destruct (shl_align mx ex c) as [mz ez]. cbn [fst snd] in Hez, Hmz.
  rewrite <- Hez in Hmz.
  pose proof (Zdigits2_bounds (Zpos mx) ltac:(lia)) as [Blo Bhi].
  pose proof (Zdigits2_pos (Zpos mx) ltac:(lia)) as Hd.
  assert (Hc : -149 <= c) by (subst c; unfold fexp32; lia).
  assert (Hpre : fexp32 (Zdigits2 (Zpos mz) + ez) = c).
  { rewrite Hmz, Zdigits2_mul_pow2 by lia. subst c.
    destruct (Z_le_gt_dec ex (fexp32 (Zdigits2 (Zpos mx) + ex))) as [H | H].
    - replace (ex - ez) with 0 by lia. rewrite Z.add_0_r.
      replace ez with ex by lia. reflexivity.
    - replace (Zdigits2 (Zpos mx) + (ex - ez) + ez) with (Zdigits2 (Zpos mx) + ex) by lia.
      reflexivity. }
  destruct (binary_round_aux_spec sx (Zpos mz) ez loc_Exact ltac:(lia) ltac:(lia))
    as (m1 & Hb & Herr & Hres).
  rewrite Hpre in *. specialize (Herr eq_refl).
  exists m1, c. split; [exact Hc | ].
  cut (2 ^ 24 * Z.abs (m1 * 2 ^ (c + 149) - Zpos mx * 2 ^ (ex + 149))
         <= Zpos mx * 2 ^ (ex + 149) /\
       (Zdigits2 (Zpos mx) <= 24 -> m1 * 2 ^ (c + 149) = Zpos mx * 2 ^ (ex + 149))).
  { intros [H1 H2]. repeat split; assumption. }
  assert (Hn : 0 <= c - ez) by lia.
  pose proof (pow2_pos (c - ez) Hn) as Hp.
  pose proof (pow2_pos (ez + 149) ltac:(lia)) as Hq.
  assert (E1 : 2 ^ (c + 149) = 2 ^ (c - ez) * 2 ^ (ez + 149)).
  { rewrite <- Z.pow_add_r by lia. f_equal. lia. }
  assert (E2 : Zpos mx * 2 ^ (ex + 149) = Zpos mz * 2 ^ (ez + 149)).
  { rewrite Hmz, <- Z.mul_assoc, <- Z.pow_add_r by lia. do 2 f_equal. lia. }
  rewrite E1, E2.
  replace (m1 * (2 ^ (c - ez) * 2 ^ (ez + 149)) - Zpos mz * 2 ^ (ez + 149))
    with ((m1 * 2 ^ (c - ez) - Zpos mz) * 2 ^ (ez + 149)) by ring.
  rewrite Z.abs_mul, (Z.abs_eq (2 ^ (ez + 149))) by lia.
  assert (Hrel : 2 ^ 24 * Z.abs (m1 * 2 ^ (c - ez) - Zpos mz) <= Zpos mz).
  { destruct (Z.eq_dec c ez) as [E | E].
    - rewrite E, Z.sub_diag, Z.pow_0_r in *. lia.
    - (* some bits are lost: the mantissa has more than 24 digits *)
      assert (Hgt : ez < c) by lia.
      assert (Hsame : ez = ex /\ mz = mx).
      { destruct (Z_le_gt_dec ex c) as [H | H]; [ | lia].
        split; [lia | ]. replace (ex - ez) with 0 in Hmz by lia.
        rewrite Z.pow_0_r in Hmz. lia. }
      destruct Hsame as [-> ->].
      assert (Hcd : c - ex = Zdigits2 (Zpos mx) - 24) by (subst c; unfold fexp32 in *; lia).
      rewrite Hcd in *.
      assert (E3 : 2 ^ (Zdigits2 (Zpos mx) - 1) = 2 ^ 23 * 2 ^ (Zdigits2 (Zpos mx) - 24)).
      { rewrite <- Z.pow_add_r by lia. f_equal. lia. }
      change (2 ^ 24) with (2 * 2 ^ 23). nia. }
  split; [nia | ].
  intros Hsmall.
  assert (E : c = ez).
  { destruct (Z_le_gt_dec ex c) as [H | H]; [ | lia].
    subst c. unfold fexp32 in *. lia. }
  rewrite E, Z.sub_diag, Z.pow_0_r in *.
  assert (m1 = Zpos mz) by lia. subst m1. ring.
Qed.

(** [binary_normalize]: valid, never NaN, and within relative error [2^-24]
    of the exact integer value [M * 2^e]; exact for fewer than 25 digits. *)
Theorem binary_normalize_spec (M e : Z) (szero : bool) :
  -149 <= e ->
  valid (binary_normalize prec emax M e szero) /\
  binary_normalize prec emax M e szero <> S754_nan /\
  (is_finite (binary_normalize prec emax M e szero) = true ->
   2 ^ 24 * Z.abs (val (binary_normalize prec emax M e szero) - M * 2 ^ (e + 149))
     <= Z.abs (M * 2 ^ (e + 149)) /\
   (Z.abs M < 2 ^ 24 -> val (binary_normalize prec emax M e szero) = M * 2 ^ (e + 149))).
Proof.
  intros He. pose proof (pow2_pos (e + 149) ltac:(lia)) as Hp.
  assert (Hdig : forall p : positive, Zpos p < 2 ^ 24 -> Zdigits2 (Zpos p) <= 24).
  { intros p Hlt. pose proof (Zdigits2_bounds (Zpos p) ltac:(lia)) as [Blo _].
    destruct (Z_le_gt_dec (Zdigits2 (Zpos p)) 24) as [H | H]; [exact H | ].
    pose proof (pow2_le 24 (Zdigits2 (Zpos p) - 1) ltac:(lia)). lia. }
  destruct M as [ | p | p]; cbn [binary_normalize].
  - repeat split; try reflexivity; discriminate.
  - destruct (binary_round_spec false p e He) as (m1 & e1 & He1 & Herr & Hex & Hres).
    assert (Hex' : Zpos p < 2 ^ 24 -> m1 * 2 ^ (e1 + 149) = Zpos p * 2 ^ (e + 149))
      by (intros Hs; apply Hex, Hdig, Hs).
    clear Hex.
    remember (m1 * 2 ^ (e1 + 149)) as T eqn:ET.
    remember (Zpos p * 2 ^ (e + 149)) as P eqn:EP.
    assert (HP : 0 < P) by (subst P; lia). clear EP.
    destruct Hres as [[Hz Hr] | Hr].
    + rewrite Hr. cbn [val]. rewrite Hz in ET. simpl in ET.
      repeat split; try reflexivity; try discriminate; lia.
    + split; [exact (rounded_valid _ _ _ _ Hr) | ].
      split; [exact (rounded_not_nan _ _ _ _ Hr) | ].
      intros Hf. rewrite (rounded_val _ _ _ _ Hr He1 Hf). cbn [cond_Zopp].
      rewrite <- ET. lia.
  - destruct (binary_round_spec true p e He) as (m1 & e1 & He1 & Herr & Hex & Hres).
    assert (Hex' : Zpos p < 2 ^ 24 -> m1 * 2 ^ (e1 + 149) = Zpos p * 2 ^ (e + 149))
      by (intros Hs; apply Hex, Hdig, Hs).
    clear Hex.
    replace (Zneg p * 2 ^ (e + 149)) with (- (Zpos p * 2 ^ (e + 149))) by lia.
    remember (m1 * 2 ^ (e1 + 149)) as T eqn:ET.
    remember (Zpos p * 2 ^ (e + 149)) as P eqn:EP.
    assert (HP : 0 < P) by (subst P; lia). clear EP.
    destruct Hres as [[Hz Hr] | Hr].
    + rewrite Hr. cbn [val]. rewrite Hz in ET. simpl in ET.
      repeat split; try reflexivity; try discriminate; lia.
    + split; [exact (rounded_valid _ _ _ _ Hr) | ].
      split; [exact (rounded_not_nan _ _ _ _ Hr) | ].
      intros Hf. rewrite (rounded_val _ _ _ _ Hr He1 Hf). cbn [cond_Zopp].
      rewrite <- ET. lia.
Qed.

(** ** Subtraction *)

Lemma val_aligned (s : bool) (m : positive) (e ez : Z) :
  -149 <= ez <= e ->
  cond_Zopp s (Zpos (fst (shl_align m e ez))) * 2 ^ (ez + 149) = val (S754_finite s m e).
Proof.
  intros H. pose proof (shl_align_spec m e ez) as [_ Hm]. rewrite Hm.
  replace (Z.min e ez) with ez by lia. cbn [val].
  assert (E : Zpos m * 2 ^ (e - ez) * 2 ^ (ez + 149) = Zpos m * 2 ^ (e + 149)).
  { rewrite <- Z.mul_assoc, <- Z.pow_add_r by lia. do 2 f_equal. lia. }
  destruct s; cbn [cond_Zopp]; lia.
Qed.

Lemma SFsub_finite (x y : spec_float) :
  is_finite (SFsub prec emax x y) = true -> is_finite x = true /\ is_finite y = true.
Proof.
  destruct x as [sx | sx | | sx mx ex], y as [sy | sy | | sy my ey];
    try destruct sx; try destruct sy; cbn; intros H; try discriminate H;
    split; reflexivity.
Qed.

(** The difference of two finite numbers is valid, is not NaN, and, unless
    it overflows, is within relative error [2^-24] of the exact
    difference. *)
Theorem SFsub_spec (x y : spec_float) :
  valid x -> valid y -> is_finite x = true -> is_finite y = true ->
  valid (SFsub prec emax x y) /\
  SFsub prec emax x y <> S754_nan /\
  (is_finite (SFsub prec emax x y) = true ->
   2 ^ 24 * Z.abs (val (SFsub prec emax x y) - (val x - val y)) <= Z.abs (val x - val y)).
Proof.
  intros Vx Vy Fx Fy.
  destruct x as [sx | sx | | sx mx ex]; try discriminate Fx;
    destruct y as [sy | sy | | sy my ey]; try discriminate Fy.
  - destruct sx, sy; cbn; repeat split; try discriminate; lia.
  - cbn [SFsub]. repeat split; try discriminate.
    + exact Vy.
    + intros _. cbn [val]. destruct sy; cbn [negb cond_Zopp]; lia.
  - cbn [SFsub]. repeat split; try discriminate.
    + exact Vx.
    + intros _. cbn [val]. lia.
  - pose proof (valid_finite_inv _ _ _ Vx) as (Hex & _).
    pose proof (valid_finite_inv _ _ _ Vy) as (Hey & _).
    cbn [SFsub]. set (ez := Z.min ex ey).
    pose proof (val_aligned sx mx ex ez ltac:(lia)) as Ax.
    pose proof (val_aligned sy my ey ez ltac:(lia)) as Ay.
    destruct (binary_normalize_spec
                (cond_Zopp sx (Zpos (fst (shl_align mx ex ez)))
                 - cond_Zopp sy (Zpos (fst (shl_align my ey ez)))) ez false ltac:(lia))
      as (Hv & Hn & Hf).
    split; [exact Hv | ]. split; [exact Hn | ].
    intros Hfin. destruct (Hf Hfin) as [Herr _].
    rewrite Z.mul_sub_distr_r, Ax, Ay in Herr. exact Herr.
Qed.

(** ** Comparison *)

Lemma SFcompare_antisym (x y : spec_float) (c : comparison) :
  SFcompare x y = Some c -> SFcompare y x = Some (CompOpp c).
Proof.
  destruct x as [sx | sx | | sx mx ex], y as [sy | sy | | sy my ey];
    try destruct sx; try destruct sy; cbn; intros H;
    try discriminate H; try (injection H as <-; reflexivity).
  - injection H as <-. f_equal. rewrite (Z.compare_antisym ex ey).
    destruct (ex ?= ey); cbn; try reflexivity.
    rewrite (Pos.compare_cont_antisym mx my Eq). cbn.
    destruct (Pos.compare_cont Eq mx my); reflexivity.
  - injection H as <-. f_equal. rewrite (Z.compare_antisym ex ey).
    destruct (ex ?= ey); cbn; try reflexivity.
    rewrite (Pos.compare_cont_antisym mx my Eq). reflexivity.
Qed.

(** Canonical positive numbers are ordered by exponent first. *)
Lemma canonical_lt (m1 m2 : positive) (e1 e2 : Z) :
  canonical_mantissa prec emax m1 e1 = true ->
  canonical_mantissa prec emax m2 e2 = true ->
  e1 < e2 -> Zpos m1 * 2 ^ (e1 + 149) < Zpos m2 * 2 ^ (e2 + 149).
Proof.
  intros C1 C2 Hlt.
  apply canonical_inv in C1. apply canonical_inv in C2.
  destruct C1 as (He1 & Hm1 & _). destruct C2 as (He2 & _ & [Hm2 | Hm2]); [ | lia].
  pose proof (pow2_pos (e1 + 149) ltac:(lia)) as Hp.
  pose proof (pow2_le (e1 + 150) (e2 + 149) ltac:(lia)) as Hle.
  replace (e1 + 150) with (1 + (e1 + 149)) in Hle by lia.
  rewrite Z.pow_add_r, Z.pow_1_r in Hle by lia.
  change (2 ^ 24) with (2 * 2 ^ 23) in Hm1. nia.
Qed.

Theorem SFcompare_val (x y : spec_float) :
  valid x -> valid y -> is_finite x = true -> is_finite y = true ->
  SFcompare x y = Some (val x ?= val y).
Proof.
  intros Vx Vy Fx Fy.
  destruct x as [sx | sx | | sx mx ex]; try discriminate Fx;
    destruct y as [sy | sy | | sy my ey]; try discriminate Fy.
  - reflexivity.
  - pose proof (valid_finite_inv _ _ _ Vy) as (Hey & _).
    pose proof (pow2_pos (ey + 149) ltac:(lia)).
    cbn [SFcompare val]. f_equal. symmetry.
    destruct sy; cbn [cond_Zopp]; [apply Z.compare_gt_iff | apply Z.compare_lt_iff]; lia.
  - pose proof (valid_finite_inv _ _ _ Vx) as (Hex & _).
    pose proof (pow2_pos (ex + 149) ltac:(lia)).
    cbn [SFcompare val]. f_equal. symmetry.
    destruct sx; cbn [cond_Zopp]; [apply Z.compare_lt_iff | apply Z.compare_gt_iff]; lia.
  - pose proof (valid_finite_inv _ _ _ Vx) as (Hex & _).
    pose proof (valid_finite_inv _ _ _ Vy) as (Hey & _).
    pose proof (pow2_pos (ex + 149) ltac:(lia)) as Px.
    pose proof (pow2_pos (ey + 149) ltac:(lia)) as Py.
    unfold valid, valid_binary, bounded in Vx, Vy.
    apply andb_true_iff in Vx, Vy. destruct Vx as [Cx _], Vy as [Cy _].
    cbn [SFcompare val]. f_equal. symmetry.
    destruct sx, sy; cbn [cond_Zopp].
    + destruct (Z.compare_spec ex ey) as [E | E | E].
      * subst ey. rewrite Z.compare_opp, <- Zmult_compare_compat_r by lia.
        exact (Pos.compare_antisym mx my).
      * apply Z.compare_gt_iff. pose proof (canonical_lt _ _ _ _ Cx Cy E). lia.
      * apply Z.compare_lt_iff. pose proof (canonical_lt _ _ _ _ Cy Cx E). lia.
    + apply Z.compare_lt_iff. lia.
    + apply Z.compare_gt_iff. lia.
    + destruct (Z.compare_spec ex ey) as [E | E | E].
      * subst ey. rewrite <- Zmult_compare_compat_r by lia. reflexivity.
      * apply Z.compare_lt_iff. exact (canonical_lt _ _ _ _ Cx Cy E).
      * apply Z.compare_gt_iff. exact (canonical_lt _ _ _ _ Cy Cx E).
Qed.

(** ** Multiplication *)

Lemma Zdigits2_ge (m k : Z) : 0 <= k -> 2 ^ k <= m -> k + 1 <= Zdigits2 m.
Proof.
  intros Hk Hm. pose proof (pow2_pos k Hk).
  rewrite <- (Zdigits2_pow2 k Hk). apply Zdigits2_mono. lia.
Qed.

(** The product of two valid finite numbers reaches [binary_round_aux] with
    an exponent that is not above the canonical one. *)
Lemma mul_exponent_ok (mx my : positive) (ex ey : Z) :
  canonical_mantissa prec emax mx ex = true ->
  canonical_mantissa prec emax my ey = true ->
  ex + ey <= fexp32 (Zdigits2 (Zpos mx * Zpos my) + (ex + ey)).
Proof.
  intros Cx Cy. apply canonical_inv in Cx, Cy.
  destruct Cx as (Hex & _ & Nx), Cy as (Hey & _ & Ny).
  assert (Hbig : 2 ^ 23 <= Zpos mx * Zpos my ->
                 ex + ey <= fexp32 (Zdigits2 (Zpos mx * Zpos my) + (ex + ey))).
  { intros H. pose proof (Zdigits2_ge _ 23 ltac:(lia) H). unfold fexp32. lia. }
  destruct Nx as [Nx | Nx]; [apply Hbig; nia | ].
  destruct Ny as [Ny | Ny]; [apply Hbig; nia | ].
  unfold fexp32. lia.
Qed.

Theorem SFmul_spec (sx sy : bool) (mx my : positive) (ex ey : Z) :
  valid (S754_finite sx mx ex) -> valid (S754_finite sy my ey) ->
  exists m1 : Z,
    0 <= m1 /\
    2 * Z.abs (m1 * 2 ^ (fexp32 (Zdigits2 (Zpos mx * Zpos my) + (ex + ey)) - (ex + ey))
               - Zpos mx * Zpos my)
      <= 2 ^ (fexp32 (Zdigits2 (Zpos mx * Zpos my) + (ex + ey)) - (ex + ey)) /\
    ((m1 = 0 /\
      SFmul prec emax (S754_finite sx mx ex) (S754_finite sy my ey) = S754_zero (xorb sx sy)) \/
     rounded (xorb sx sy) m1 (fexp32 (Zdigits2 (Zpos mx * Zpos my) + (ex + ey)))
             (SFmul prec emax (S754_finite sx mx ex) (S754_finite sy my ey))).
Proof.
  intros Vx Vy. unfold valid, valid_binary, bounded in Vx, Vy.
  apply andb_true_iff in Vx, Vy. destruct Vx as [Cx _], Vy as [Cy _].
  cbn [SFmul]. rewrite Pos2Z.inj_mul.
  destruct (binary_round_aux_spec (xorb sx sy) (Zpos mx * Zpos my) (ex + ey) loc_Exact
              ltac:(lia) (mul_exponent_ok _ _ _ _ Cx Cy)) as (m1 & Hb & Herr & Hres).
  exists m1. split; [ | split; [exact (Herr eq_refl) | exact Hres]].
  assert (0 <= Zpos mx * Zpos my
               / 2 ^ (fexp32 (Zdigits2 (Zpos mx * Zpos my) + (ex + ey)) - (ex + ey)));
    [ | lia].
  apply Z.div_pos; [lia | ]. apply pow2_pos.
  pose proof (mul_exponent_ok _ _ _ _ Cx Cy). lia.
Qed.

Theorem SFmul_valid (x y : spec_float) :
  valid x -> valid y -> valid (SFmul prec emax x y).
Proof.
  intros Vx Vy.
  destruct x as [sx | sx | | sx mx ex], y as [sy | sy | | sy my ey]; try reflexivity.
  destruct (SFmul_spec sx sy mx my ex ey Vx Vy) as (m1 & _ & _ & [[_ Hr] | Hr]).
  - rewrite Hr. reflexivity.
  - exact (rounded_valid _ _ _ _ Hr).
Qed.

(** ** Division *)

Lemma SFdiv_core_binary_eq (m1 m2 : positive) (e1 e2 : Z) :
  let e' := Z.min (fexp32 (Zdigits2 (Zpos m1) + e1 - (Zdigits2 (Zpos m2) + e2))) (e1 - e2) in
  let s := e1 - e2 - e' in
  SFdiv_core_binary prec emax (Zpos m1) e1 (Zpos m2) e2
  = ((Zpos m1 * 2 ^ s) / Zpos m2, e', new_location (Zpos m2) ((Zpos m1 * 2 ^ s) mod Zpos m2)).
Proof.
  intros e' s. unfold SFdiv_core_binary. rewrite fexp_32. fold e'. fold s.
  assert (Hs : 0 <= s) by (subst s e'; lia).
  assert (Hm : match s with
               | Zpos _ => Z.shiftl (Zpos m1) s
               | Z0 => Zpos m1
               | Zneg _ => 0
               end = Zpos m1 * 2 ^ s).
  { destruct s as [ | p | p]; [rewrite Z.pow_0_r; lia | | lia].
    apply Z.shiftl_mul_pow2. lia. }
  rewrite Hm. unfold Z.div, Z.modulo.
  destruct (Z.div_eucl (Zpos m1 * 2 ^ s) (Zpos m2)) as [q r]. reflexivity.
Qed.

Lemma div_exponent_ok (m1 m2 : positive) (e1 e2 : Z) :
  let e' := Z.min (fexp32 (Zdigits2 (Zpos m1) + e1 - (Zdigits2 (Zpos m2) + e2))) (e1 - e2) in
  let q := (Zpos m1 * 2 ^ (e1 - e2 - e')) / Zpos m2 in
  0 <= q /\ e' <= fexp32 (Zdigits2 q + e').
Proof.
  intros e' q. set (s := e1 - e2 - e') in *.
  assert (Hs : 0 <= s) by (subst s e'; lia).
  pose proof (pow2_pos s Hs) as Hp.
  assert (Hq : 0 <= q) by (subst q; apply Z.div_pos; lia).
  split; [exact Hq | ].
  set (d1 := Zdigits2 (Zpos m1)) in *. set (d2 := Zdigits2 (Zpos m2)) in *.
  pose proof (Zdigits2_bounds (Zpos m1) ltac:(lia)) as [B1 _]. fold d1 in B1.
  pose proof (Zdigits2_bounds (Zpos m2) ltac:(lia)) as [_ B2]. fold d2 in B2.
  pose proof (Zdigits2_pos (Zpos m1) ltac:(lia)) as P1. fold d1 in P1.
  pose proof (Zdigits2_pos (Zpos m2) ltac:(lia)) as P2. fold d2 in P2.
  assert (Hd : d1 + s - d2 <= Zdigits2 q).
  { destruct (Z_le_gt_dec (d1 + s - d2) 0) as [H0 | H0].
    - destruct q as [ | p | p]; cbn [Zdigits2]; lia.
    - replace (d1 + s - d2) with (d1 + s - d2 - 1 + 1) by lia.
      apply Zdigits2_ge; [lia | ].
      subst q. apply Z.div_le_lower_bound; [lia | ].
      assert (E : 2 ^ (d1 - 1) * 2 ^ s = 2 ^ (d1 + s - d2 - 1) * 2 ^ d2).
      { rewrite <- !Z.pow_add_r by lia. f_equal. lia. }
      pose proof (pow2_pos (d1 + s - d2 - 1) ltac:(lia)). nia. }
  assert (Hmono : fexp32 (d1 + e1 - (d2 + e2)) <= fexp32 (Zdigits2 q + e')).
  { unfold fexp32. subst s. lia. }
  subst e'. lia.
Qed.

Theorem SFdiv_spec (sx sy : bool) (mx my : positive) (ex ey : Z) :
  let e' := Z.min (fexp32 (Zdigits2 (Zpos mx) + ex - (Zdigits2 (Zpos my) + ey))) (ex - ey) in
  let q := (Zpos mx * 2 ^ (ex - ey - e')) / Zpos my in
  exists m1 : Z,
    q / 2 ^ (fexp32 (Zdigits2 q + e') - e') <= m1 <= q / 2 ^ (fexp32 (Zdigits2 q + e') - e') + 1 /\
    ((m1 = 0 /\
      SFdiv prec emax (S754_finite sx mx ex) (S754_finite sy my ey) = S754_zero (xorb sx sy)) \/
     rounded (xorb sx sy) m1 (fexp32 (Zdigits2 q + e'))
             (SFdiv prec emax (S754_finite sx mx ex) (S754_finite sy my ey))).
Proof.
  intros e' q. cbn [SFdiv].
  pose proof (SFdiv_core_binary_eq mx my ex ey) as E. cbv zeta in E.
  fold e' in E. fold q in E. rewrite E.
  pose proof (div_exponent_ok mx my ex ey) as [Hq He]. cbv zeta in Hq, He.
  fold e' in Hq, He. fold q in Hq, He.
  destruct (binary_round_aux_spec (xorb sx sy) q e'
              (new_location (Zpos my) ((Zpos mx * 2 ^ (ex - ey - e')) mod Zpos my)) Hq He)
    as (m1 & Hb & _ & Hres).
  exists m1. split; [exact Hb | exact Hres].
Qed.

Theorem SFdiv_valid (x y : spec_float) : valid (SFdiv prec emax x y).
Proof.
  destruct x as [sx | sx | | sx mx ex], y as [sy | sy | | sy my ey]; try reflexivity.
  destruct (SFdiv_spec sx sy mx my ex ey) as (m1 & _ & [[_ Hr] | Hr]).
  - rewrite Hr. reflexivity.
  - exact (rounded_valid _ _ _ _ Hr).
Qed.

(** ** Consequences for the operations of [F32] *)

Lemma leb_val (x y : float) :
  valid x -> valid y -> is_finite x = true -> is_finite y = true ->
  leb x y = true <-> val x <= val y.
Proof.
  intros Vx Vy Fx Fy. unfold leb, SFleb. rewrite (SFcompare_val x y Vx Vy Fx Fy).
  destruct (Z.compare_spec (val x) (val y)); split; intros; try lia; try reflexivity;
    discriminate.
Qed.

Lemma ltb_val (x y : float) :
  valid x -> valid y -> is_finite x = true -> is_finite y = true ->
  ltb x y = true <-> val x < val y.
Proof.
  intros Vx Vy Fx Fy. unfold ltb, SFltb. rewrite (SFcompare_val x y Vx Vy Fx Fy).
  destruct (Z.compare_spec (val x) (val y)); split; intros; try lia; try reflexivity;
    discriminate.
Qed.

Lemma of_int_valid (n : Z) : valid (of_int n).
Proof. apply (binary_normalize_spec n 0 false). lia. Qed.

(** A finite number of positive value is a positive finite number. *)
Lemma positive_val_inv (x : float) :
  0 < val x -> exists m e, x = S754_finite false m e.
Proof.
  destruct x as [s | s | | s m e]; cbn [val]; try lia.
  destruct s; cbn [cond_Zopp]; [ | intros _; exists m, e; reflexivity].
  destruct (Z_le_gt_dec 0 (e + 149)) as [H | H].
  - pose proof (pow2_pos (e + 149) H). lia.
  - rewrite Z.pow_neg_r by lia. lia.
Qed.

(** The cast to [int] of a number whose value is the integer [N]. *)
Lemma Ztrunc_integer (x : float) (N : Z) :
  valid x -> is_finite x = true -> val x = N * 2 ^ 149 -> Ztrunc x = Some N.
Proof.
  intros V F Hv. pose proof (pow2_pos 149 ltac:(lia)) as H149.
  destruct x as [s | s | | s m e]; try discriminate F; cbn [val Ztrunc] in *.
  - f_equal. nia.
  - f_equal. apply valid_finite_inv in V. destruct V as (He & _).
    assert (Hm : cond_Zopp s (Z.shiftl (Zpos m) e) * 2 ^ 149
                 = cond_Zopp s (Zpos m * 2 ^ (e + 149))).
    { destruct (Z_le_gt_dec 0 e) as [H | H].
      - rewrite Z.shiftl_mul_pow2 by lia. rewrite Z.pow_add_r by lia.
        destruct s; cbn [cond_Zopp]; ring.
      - rewrite Z.shiftl_div_pow2 by lia.
        assert (E : 2 ^ 149 = 2 ^ (- e) * 2 ^ (e + 149)).
        { rewrite <- Z.pow_add_r by lia. f_equal. lia. }
        pose proof (pow2_pos (- e) ltac:(lia)) as Hp.
        pose proof (pow2_pos (e + 149) ltac:(lia)) as Hq.
        (* the mantissa is a multiple of [2^-e] *)
        assert (Hdvd : Zpos m = Z.abs N * 2 ^ (- e)).
        { assert (Zpos m * 2 ^ (e + 149) = Z.abs N * 2 ^ (- e) * 2 ^ (e + 149)).
          { rewrite <- Z.mul_assoc, <- E. destruct s; cbn [cond_Zopp] in Hv; lia. }
          nia. }
        rewrite Hdvd, Z.div_mul by lia. rewrite E.
        destruct s; cbn [cond_Zopp]; ring. }
    rewrite Hv in Hm. nia.
Qed.

(** Below [2^127] the rounding of an integer mantissa does not overflow. *)
Lemma binary_normalize_finite (M e : Z) (szero : bool) :
  -149 <= e -> Z.abs (M * 2 ^ (e + 149)) < 2 ^ 276 ->
  is_finite (binary_normalize prec emax M e szero) = true.
Proof.
  intros He Hlt. pose proof (pow2_pos (e + 149) ltac:(lia)) as Hp.
  assert (Hround : forall (sx : bool) (p : positive),
             Zpos p * 2 ^ (e + 149) < 2 ^ 276 ->
             is_finite (binary_round prec emax sx p e) = true).
  { intros sx p Hb.
    destruct (binary_round_spec sx p e He) as (m1 & e1 & He1 & Herr & _ & [[_ Hr] | Hr]).
    - rewrite Hr. reflexivity.
    - apply (rounded_finite _ _ _ _ Hr He1).
      change (2 ^ 277) with (2 * 2 ^ 276). change (2 ^ 24) with 16777216 in Herr. lia. }
  destruct M as [ | p | p]; cbn [binary_normalize].
  - reflexivity.
  - apply Hround. lia.
  - apply Hround. lia.
Qed.

Lemma of_int_small (N : Z) :
  Z.abs N < 2 ^ 24 ->
  valid (of_int N) /\ is_finite (of_int N) = true /\ val (of_int N) = N * 2 ^ 149.
Proof.
  intros HN. unfold of_int.
  destruct (binary_normalize_spec N 0 false ltac:(lia)) as (V & _ & H).
  assert (F : is_finite (binary_normalize prec emax N 0 false) = true).
  { apply binary_normalize_finite; [lia | ].
    rewrite Z.abs_mul. change (Z.abs (2 ^ (0 + 149))) with (2 ^ 149).
    change (2 ^ 276) with (2 ^ 127 * 2 ^ 149).
    pose proof (pow2_pos 149 ltac:(lia)). change (2 ^ 24) with 16777216 in HN.
    assert (16777216 < 2 ^ 127) by reflexivity. nia. }
  destruct (H F) as [_ Hx]. repeat split; [exact V | exact F | apply Hx, HN].
Qed.

Lemma int_of_float_of_int (N : Z) :
  Z.abs N < 2 ^ 24 -> int_of_float (of_int N) = Some N.
Proof.
  intros HN. destruct (of_int_small N HN) as (V & F & Hv).
  unfold int_of_float. rewrite (Ztrunc_integer _ N V F Hv).
  assert (R : CInt.in_range N = true).
  { unfold CInt.in_range, CInt.INT_MIN, CInt.INT_MAX.
    change (2 ^ 24) with 16777216 in HN. change (2 ^ 31) with 2147483648.
    apply andb_true_iff. split; apply Z.leb_le; lia. }
  rewrite R. reflexivity.
Qed.

(** [ceilf] followed by the cast: the least integer not below a positive
    number of moderate size. *)
Lemma int_of_ceilf (m : positive) (e : Z) :
  valid (S754_finite false m e) -> e <= 0 ->
  exists N : Z,
    int_of_float (ceilf (S754_finite false m e)) = Some N /\
    1 <= N /\
    (N - 1) * 2 ^ 149 < val (S754_finite false m e) <= N * 2 ^ 149.
Proof.
  intros V He. pose proof (valid_finite_inv _ _ _ V) as (Hb & Hm & _).
  cbn [ceilf]. unfold Zceil. cbn [negb cond_Zopp].
  rewrite Z.shiftl_div_pow2 by lia.
  pose proof (pow2_pos (- e) ltac:(lia)) as Hp.
  set (P := 2 ^ (- e)) in *. set (N := - (Zneg m / P)).
  pose proof (Z.div_mod (Zneg m) P ltac:(lia)) as E.
  pose proof (Z.mod_pos_bound (Zneg m) P ltac:(lia)) as B.
  fold (of_int N).
  assert (HN : 1 <= N <= Zpos m) by (subst N; nia).
  exists N. split; [apply int_of_float_of_int; lia | ]. split; [lia | ].
  cbn [val cond_Zopp].
  assert (E2 : 2 ^ 149 = P * 2 ^ (e + 149)).
  { subst P. rewrite <- Z.pow_add_r by lia. f_equal. lia. }
  pose proof (pow2_pos (e + 149) ltac:(lia)) as Hq.
  rewrite E2. subst N. nia.
Qed.

Lemma SFsub_valid (x y : spec_float) :
  valid x -> valid y -> valid (SFsub prec emax x y).
Proof.
  intros Vx Vy.
  destruct (is_finite x) eqn:Fx; [destruct (is_finite y) eqn:Fy | ].
  - apply SFsub_spec; assumption.
  - destruct x as [sx | sx | | sx mx ex], y as [sy | sy | | sy my ey];
      try discriminate; reflexivity.
  - destruct x as [sx | sx | | sx mx ex], y as [sy | sy | | sy my ey];
      try discriminate; try destruct sx; try destruct sy; reflexivity.
Qed.

(** ** Magnitudes

    The magnitude of a finite non-zero number is the number of digits of its
    mantissa plus its exponent: the number lies in
    [[2^(magnitude - 1), 2^magnitude)]. *)

Lemma magnitude_le (s : bool) (m : positive) (e K : Z) :
  -149 <= e -> Z.abs (val (S754_finite s m e)) < 2 ^ (K + 149) ->
  Zdigits2 (Zpos m) + e <= K.
Proof.
  intros He Hv. cbn [val] in Hv.
  assert (Ha : Z.abs (cond_Zopp s (Zpos m * 2 ^ (e + 149))) = Zpos m * 2 ^ (e + 149)).
  { pose proof (pow2_pos (e + 149) ltac:(lia)). destruct s; cbn [cond_Zopp]; lia. }
  rewrite Ha in Hv.
  pose proof (Zdigits2_bounds (Zpos m) ltac:(lia)) as [Blo _].
  pose proof (Zdigits2_pos (Zpos m) ltac:(lia)) as Hd.
  destruct (Z_le_gt_dec (Zdigits2 (Zpos m) + e) K) as [H | H]; [exact H | exfalso].
  assert (Hk : 0 <= K + 149).
  { destruct (Z_le_gt_dec 0 (K + 149)) as [H0 | H0]; [exact H0 | ].
    rewrite (Z.pow_neg_r 2 (K + 149)) in Hv by lia.
    pose proof (Z.mul_pos_pos (Zpos m) (2 ^ (e + 149)) ltac:(lia)
                              (pow2_pos (e + 149) ltac:(lia))).
    lia. }
  pose proof (pow2_le (K + 149) (Zdigits2 (Zpos m) - 1 + (e + 149)) ltac:(lia)) as Hle.
  rewrite (Z.pow_add_r 2 (Zdigits2 (Zpos m) - 1) (e + 149)) in Hle by lia.
  pose proof (pow2_pos (e + 149) ltac:(lia)).
  pose proof (mul_le_bound (2 ^ (Zdigits2 (Zpos m) - 1)) (2 ^ (e + 149))
                (Zpos m) (2 ^ (e + 149))
                ltac:(pose proof (pow2_pos (Zdigits2 (Zpos m) - 1) ltac:(lia)); lia)
                ltac:(lia)).
  lia.
Qed.

(** The quotient of two finite non-zero numbers has at most the magnitude
    [E] of the dividend minus that of the divisor, plus one: it does not
    overflow when [E <= 127] and is then below [2^E] (or the largest
    subnormal bound). *)
Lemma SFdiv_magnitude (sx sy : bool) (mx my : positive) (ex ey : Z) :
  let E := Zdigits2 (Zpos mx) + ex - (Zdigits2 (Zpos my) + ey) + 1 in
  E <= 127 ->
  is_finite (SFdiv prec emax (S754_finite sx mx ex) (S754_finite sy my ey)) = true /\
  Z.abs (val (SFdiv prec emax (S754_finite sx mx ex) (S754_finite sy my ey)))
    <= 2 ^ (Z.max E (-125) + 149).
Proof.
  intros E HE.
  destruct (SFdiv_spec sx sy mx my ex ey) as (m1 & Hb & Hres). cbv zeta in Hb, Hres.
  pose proof (div_exponent_ok mx my ex ey) as [Hq0 Hpre]. cbv zeta in Hq0, Hpre.
  set (d1 := Zdigits2 (Zpos mx)) in *. set (d2 := Zdigits2 (Zpos my)) in *.
  set (e' := Z.min (fexp32 (d1 + ex - (d2 + ey))) (ex - ey)) in *.
  set (s := ex - ey - e') in *.
  set (q := Zpos mx * 2 ^ s / Zpos my) in *.
  set (e1 := fexp32 (Zdigits2 q + e')) in *.
  assert (Hs : 0 <= s) by (subst s e'; lia).
  pose proof (pow2_pos s Hs) as Hps.
  pose proof (Zdigits2_bounds (Zpos mx) ltac:(lia)) as [_ B1]. fold d1 in B1.
  pose proof (Zdigits2_bounds (Zpos my) ltac:(lia)) as [B2 _]. fold d2 in B2.
  pose proof (Zdigits2_pos (Zpos mx) ltac:(lia)) as P1. fold d1 in P1.
  pose proof (Zdigits2_pos (Zpos my) ltac:(lia)) as P2. fold d2 in P2.
  (* digits of the integer quotient *)
  assert (He1 : e1 <= fexp32 E).
  { destruct (Z.eq_dec q 0) as [Hz | Hz].
    - (* q = 0: the result is at the subnormal exponent *)
      subst e1. rewrite Hz in *. change (Zdigits2 0) with 0 in *.
      unfold fexp32 in *. lia.
    - assert (Hqlt : q < 2 ^ (d1 + s - d2 + 1)).
      { destruct (Z_le_gt_dec 0 (d1 + s - d2 + 1)) as [Hk | Hk].
        - subst q. apply Z.div_lt_upper_bound; [lia | ].
          assert (E2 : 2 ^ (d1 + s) = 2 ^ (d2 - 1) * 2 ^ (d1 + s - d2 + 1)).
          { rewrite <- Z.pow_add_r by lia. f_equal. lia. }
          assert (2 ^ d1 * 2 ^ s = 2 ^ (d1 + s)) by (rewrite Z.pow_add_r by lia; reflexivity).
          pose proof (pow2_pos (d1 + s - d2 + 1) Hk).
          pose proof (mul_le_bound (2 ^ (d2 - 1)) (2 ^ (d1 + s - d2 + 1)) (Zpos my)
                        (2 ^ (d1 + s - d2 + 1))
                        ltac:(pose proof (pow2_pos (d2 - 1) ltac:(lia)); lia) ltac:(lia)).
          assert (Zpos mx * 2 ^ s < 2 ^ d1 * 2 ^ s) by (apply Z.mul_lt_mono_pos_r; lia).
          lia.
        - exfalso. (* then the dividend is below the divisor *)
          assert (q = 0); [ | lia]. subst q. apply Z.div_small. split; [lia | ].
          assert (Zpos mx * 2 ^ s < 2 ^ d1 * 2 ^ s) by (apply Z.mul_lt_mono_pos_r; lia).
          assert (2 ^ d1 * 2 ^ s = 2 ^ (d1 + s)) by (rewrite Z.pow_add_r by lia; reflexivity).
          pose proof (pow2_le (d1 + s) (d2 - 1) ltac:(lia)). lia. }
      pose proof (Zdigits2_bounds q ltac:(lia)) as [Bq _].
      pose proof (Zdigits2_pos q ltac:(lia)) as Pq.
      assert (Zdigits2 q - 1 < d1 + s - d2 + 1).
      { apply (Z.pow_lt_mono_r_iff 2); [lia | | lia].
        destruct (Z_le_gt_dec 0 (d1 + s - d2 + 1)) as [Hk | Hk]; [exact Hk | ].
        rewrite Z.pow_neg_r in Hqlt by lia. lia. }
      subst e1 E s. unfold fexp32. lia. }
  assert (Hn : 0 <= e1 - e') by lia.
  pose proof (pow2_pos (e1 - e') Hn) as Hpn.
  (* the rounded mantissa has at most 24 digits, or is 2^24 *)
  assert (Hm1 : 0 <= m1 <= 2 ^ 24).
  { assert (Hq' : 0 <= q / 2 ^ (e1 - e') < 2 ^ 24); [ | lia].
    split; [apply Z.div_pos; lia | ].
    apply Z.div_lt_upper_bound; [lia | ].
    destruct (Z.eq_dec q 0) as [Hz | Hz]; [rewrite Hz; lia | ].
    pose proof (Zdigits2_bounds q ltac:(lia)) as [_ Bq].
    pose proof (Zdigits2_pos q ltac:(lia)) as Pq.
    assert (Hdn : Zdigits2 q <= e1 - e' + 24) by (subst e1; unfold fexp32; lia).
    pose proof (pow2_le (Zdigits2 q) (e1 - e' + 24) ltac:(lia)) as Hle.
    rewrite Z.pow_add_r in Hle by lia. lia. }
  assert (He1lo : -149 <= e1) by (subst e1; unfold fexp32; lia).
  pose proof (pow2_pos (e1 + 149) ltac:(lia)) as Hpe.
  assert (Hmag : m1 * 2 ^ (e1 + 149) <= 2 ^ (Z.max E (-125) + 149)).
  { assert (Hexp : e1 + 149 <= Z.max E (-125) + 149 - 24) by (unfold fexp32 in He1; lia).
    pose proof (pow2_le (e1 + 149) (Z.max E (-125) + 149 - 24) ltac:(lia)) as Hle.
    assert (E3 : 2 ^ (Z.max E (-125) + 149) = 2 ^ 24 * 2 ^ (Z.max E (-125) + 149 - 24)).
    { rewrite <- Z.pow_add_r by lia. f_equal. lia. }
    rewrite E3. apply mul_le_bound; lia. }
  assert (Htop : 2 ^ (Z.max E (-125) + 149) < 2 ^ 277).
  { apply Z.pow_lt_mono_r; lia. }
  destruct Hres as [[Hz Hr] | Hr].
  - rewrite Hr. split; [reflexivity | ]. cbn [val].
    pose proof (pow2_pos (Z.max E (-125) + 149) ltac:(lia)). lia.
  - assert (F : is_finite (SFdiv prec emax (S754_finite sx mx ex) (S754_finite sy my ey)) = true).
    { apply (rounded_finite _ _ _ _ Hr He1lo). lia. }
    split; [exact F | ]. rewrite (rounded_val _ _ _ _ Hr He1lo F).
    destruct (xorb sx sy); cbn [cond_Zopp]; lia.
Qed.

Lemma SFsub_no_overflow (x y : spec_float) :
  valid x -> valid y -> is_finite x = true -> is_finite y = true ->
  Z.abs (val x - val y) < 2 ^ 276 ->
  is_finite (SFsub prec emax x y) = true.
Proof.
  intros Vx Vy Fx Fy Hlt.
  destruct x as [sx | sx | | sx mx ex]; try discriminate Fx;
    destruct y as [sy | sy | | sy my ey]; try discriminate Fy;
    try (destruct sx, sy; reflexivity); try reflexivity.
  pose proof (valid_finite_inv _ _ _ Vx) as (Hex & _).
  pose proof (valid_finite_inv _ _ _ Vy) as (Hey & _).
  cbn [SFsub]. apply binary_normalize_finite; [lia | ].
  rewrite Z.mul_sub_distr_r, !val_aligned by lia. exact Hlt.
Qed.

Lemma opp_spec (x : float) :
  valid x -> valid (opp x) /\ is_finite (opp x) = is_finite x /\ val (opp x) = - val x.
Proof.
  intros V. destruct x as [s | s | | s m e]; cbn; repeat split; try exact V.
  destruct s; cbn [negb cond_Zopp]; lia.
Qed.

(** The floor and the ceiling of a finite number are within one of it. *)
Lemma Zfloor_Zceil_bound (s : bool) (m : positive) (e : Z) :
  -149 <= e ->
  Z.abs (Zfloor s m e) * 2 ^ 149 <= Zpos m * 2 ^ (e + 149) + 2 ^ 149 /\
  Z.abs (Zceil s m e) * 2 ^ 149 <= Zpos m * 2 ^ (e + 149) + 2 ^ 149.
Proof.
  intros He. unfold Zfloor, Zceil. rewrite Z.abs_opp.
  pose proof (pow2_pos 149 ltac:(lia)) as H149.
  assert (Hgen : forall a : Z, Z.abs a = Zpos m ->
                 Z.abs (Z.shiftl a e) * 2 ^ 149 <= Zpos m * 2 ^ (e + 149) + 2 ^ 149).
  { intros a Ha. destruct (Z_le_gt_dec 0 e) as [H | H].
    - rewrite Z.shiftl_mul_pow2, Z.abs_mul, Ha, Z.pow_add_r by lia.
      rewrite (Z.abs_eq (2 ^ e)) by (pose proof (pow2_pos e H); lia). lia.
    - rewrite Z.shiftl_div_pow2 by lia.
      pose proof (pow2_pos (- e) ltac:(lia)) as Hp.
      pose proof (pow2_pos (e + 149) ltac:(lia)) as Hq.
      assert (E : 2 ^ 149 = 2 ^ (- e) * 2 ^ (e + 149)).
      { rewrite <- Z.pow_add_r by lia. f_equal. lia. }
      pose proof (Z.div_mod a (2 ^ (- e)) ltac:(lia)) as Hdm.
      pose proof (Z.mod_pos_bound a (2 ^ (- e)) ltac:(lia)) as Hb.
      assert (Hn : Z.abs (a / 2 ^ (- e)) * 2 ^ (- e) <= Zpos m + 2 ^ (- e)) by nia.
      rewrite E.
      pose proof (Z.mul_le_mono_nonneg_r _ _ (2 ^ (e + 149)) ltac:(lia) Hn). lia. }
  split; apply Hgen; [destruct s | destruct s]; cbn [negb cond_Zopp]; lia.
Qed.

(** The integer part of a finite number is not above the number in absolute
    value. *)
Lemma Ztrunc_bound (x : float) :
  valid x -> is_finite x = true ->
  exists n, Ztrunc x = Some n /\ Z.abs n * 2 ^ 149 <= Z.abs (val x).
Proof.
  intros V F. destruct x as [s | s | | s m e]; try discriminate F; cbn [Ztrunc val].
  - exists 0. split; [reflexivity | simpl; lia].
  - apply valid_finite_inv in V. destruct V as (He & _).
    eexists. split; [reflexivity | ].
    pose proof (pow2_pos (e + 149) ltac:(lia)) as Hq.
    assert (Ha : forall a, Z.abs (cond_Zopp s a) = Z.abs a)
      by (intros a; destruct s; cbn [cond_Zopp]; lia).
    rewrite !Ha. rewrite (Z.abs_eq (Zpos m * _)) by lia.
    destruct (Z_le_gt_dec 0 e) as [H | H].
    + rewrite Z.shiftl_mul_pow2, Z.pow_add_r by lia.
      rewrite Z.abs_eq by (pose proof (pow2_pos e H); lia). lia.
    + rewrite Z.shiftl_div_pow2 by lia.
      pose proof (pow2_pos (- e) ltac:(lia)) as Hp.
      assert (E : 2 ^ 149 = 2 ^ (- e) * 2 ^ (e + 149)).
      { rewrite <- Z.pow_add_r by lia. f_equal. lia. }
      pose proof (Z.div_mod (Zpos m) (2 ^ (- e)) ltac:(lia)) as Hdm.
      pose proof (Z.mod_pos_bound (Zpos m) (2 ^ (- e)) ltac:(lia)) as Hb.
      assert (H0 : 0 <= Zpos m / 2 ^ (- e)) by (apply Z.div_pos; lia).
      rewrite Z.abs_eq by lia. rewrite E.
      assert (Hn : Zpos m / 2 ^ (- e) * 2 ^ (- e) <= Zpos m) by nia.
      pose proof (Z.mul_le_mono_nonneg_r _ _ (2 ^ (e + 149)) ltac:(lia) Hn). lia.
Qed.

(** [floorf] or [ceilf] followed by the cast is defined on every finite
    number below [2^28] in absolute value. *)
Lemma int_of_rounded_defined (x : float) :
  valid x -> is_finite x = true -> Z.abs (val x) <= 2 ^ (28 + 149) ->
  (exists n, int_of_float (floorf x) = Some n) /\
  (exists n, int_of_float (ceilf x) = Some n).
Proof.
  intros V F Hv.
  assert (Hint : forall N sz, Z.abs N * 2 ^ 149 <= 2 ^ (28 + 149) + 2 ^ 149 ->
                 exists n, int_of_float (binary_normalize prec emax N 0 sz) = Some n).
  { intros N sz HN.
    pose proof (pow2_pos 149 ltac:(lia)) as H149.
    change (2 ^ (28 + 149)) with (2 ^ 28 * 2 ^ 149) in HN.
    assert (HN' : Z.abs N <= 2 ^ 28 + 1) by nia.
    destruct (binary_normalize_spec N 0 sz ltac:(lia)) as (Vn & _ & Hn).
    assert (Fn : is_finite (binary_normalize prec emax N 0 sz) = true).
    { apply binary_normalize_finite; [lia | ].
      rewrite Z.abs_mul. change (Z.abs (2 ^ (0 + 149))) with (2 ^ 149).
      change (2 ^ 276) with (2 ^ 127 * 2 ^ 149).
      assert (2 ^ 28 + 1 < 2 ^ 127) by reflexivity. nia. }
    destruct (Hn Fn) as [Herr _].
    destruct (Ztrunc_bound _ Vn Fn) as (n & Hn1 & Hn2).
    unfold int_of_float. rewrite Hn1.
    assert (R : CInt.in_range n = true).
    { unfold CInt.in_range, CInt.INT_MIN, CInt.INT_MAX.
      change (0 + 149) with 149 in Herr.
      rewrite Z.abs_mul, (Z.abs_eq (2 ^ 149)) in Herr by lia.
      change (2 ^ 24) with 16777216 in Herr. change (2 ^ 28) with 268435456 in HN'.
      change (2 ^ 31) with 2147483648.
      assert (Z.abs n * 2 ^ 149 <= 2 * (Z.abs N * 2 ^ 149)) by lia.
      assert (Z.abs n <= 2 * Z.abs N) by nia.
      apply andb_true_iff. split; apply Z.leb_le; lia. }
    rewrite R. eexists. reflexivity. }
  destruct x as [s | s | | s m e]; try discriminate F.
  - split; exists 0; reflexivity.
  - pose proof (valid_finite_inv _ _ _ V) as (He & _).
    destruct (Zfloor_Zceil_bound s m e ltac:(lia)) as [Hf Hc].
    cbn [val] in Hv.
    assert (Ha : Z.abs (cond_Zopp s (Zpos m * 2 ^ (e + 149))) = Zpos m * 2 ^ (e + 149)).
    { pose proof (pow2_pos (e + 149) ltac:(lia)). destruct s; cbn [cond_Zopp]; lia. }
    rewrite Ha in Hv. cbn [floorf ceilf]. split; apply Hint; lia.
Qed.

(** A finite number below [2^33] in absolute value, divided by the tile
    size, is finite and below [2^28]. *)
Lemma div_tile_spec (x : float) :
  valid x -> is_finite x = true -> Z.abs (val x) < 2 ^ (33 + 149) ->
  valid (div x (of_int 32)) /\ is_finite (div x (of_int 32)) = true /\
  Z.abs (val (div x (of_int 32))) <= 2 ^ (28 + 149).
Proof.
  intros V F Hv. split; [apply SFdiv_valid | ].
  change (of_int 32) with (S754_finite false 8388608 (-18)). unfold div.
  destruct x as [s | s | | s m e]; try discriminate F.
  - split; [reflexivity | ]. cbn. lia.
  - pose proof (valid_finite_inv _ _ _ V) as (He & _).
    pose proof (magnitude_le s m e 33 ltac:(lia) Hv) as Hmag.
    destruct (SFdiv_magnitude s false m 8388608 e (-18)) as [Fd Hd].
    { change (Zdigits2 8388608) with 24. lia. }
    split; [exact Fd | ].
    eapply Z.le_trans; [exact Hd | ].
    apply pow2_le. change (Zdigits2 8388608) with 24. lia.
Qed.

End F32Facts.

(** * Facts about the OpenGL renderer *)

Module GlFacts.

Import F32 F32Facts Gl.

(** ** The zoom range *)

Lemma MIN_ZOOM_eq : MIN_ZOOM = S754_finite false 8589935 (-33).
Proof. reflexivity. Qed.

Lemma MAX_ZOOM_eq : MAX_ZOOM = S754_finite false 8388608 (-19).
Proof. reflexivity. Qed.

Lemma ZOOM_STEP_eq : ZOOM_STEP = S754_finite false 9227469 (-23).
Proof. reflexivity. Qed.

Lemma LOD_PIXEL_THRESHOLD_eq : LOD_PIXEL_THRESHOLD = S754_finite false 8388608 (-20).
Proof. reflexivity. Qed.

Lemma zoom_in_range_finite (z : float) : zoom_in_range z -> is_finite z = true.
Proof.
  intros [Hlo Hhi]. rewrite MIN_ZOOM_eq in Hlo. rewrite MAX_ZOOM_eq in Hhi.
  destruct z as [s | [ | ] | | s m e]; try reflexivity; discriminate.
Qed.

(** A valid zoom within the range is a normal positive number with an
    exponent between those of [MIN_ZOOM] and [MAX_ZOOM]. *)
Lemma zoom_in_range_inv (z : float) :
  valid z -> zoom_in_range z ->
  exists m e, z = S754_finite false m e /\
              2 ^ 23 <= Zpos m < 2 ^ 24 /\ -33 <= e <= -19 /\
              val MIN_ZOOM <= val z <= val MAX_ZOOM.
Proof.
  intros V R. pose proof (zoom_in_range_finite z R) as F. destruct R as [Hlo Hhi].
  apply leb_val in Hlo; [ | reflexivity | exact V | reflexivity | exact F].
  apply leb_val in Hhi; [ | exact V | reflexivity | exact F | reflexivity].
  pose proof (conj Hlo Hhi) as Hrange.
  assert (Hpos : 0 < val z).
  { rewrite MIN_ZOOM_eq in Hlo. cbn [val cond_Zopp] in Hlo.
    pose proof (pow2_pos (-33 + 149) ltac:(lia)). lia. }
  destruct (positive_val_inv z Hpos) as (m & e & ->).
  exists m, e. split; [reflexivity | ].
  pose proof (valid_finite_inv _ _ _ V) as (He & Hm & Hn).
  rewrite MIN_ZOOM_eq in Hlo. rewrite MAX_ZOOM_eq in Hhi.
  cbn [val cond_Zopp] in Hlo, Hhi.
  change (-33 + 149) with 116 in *. change (-19 + 149) with 130 in *.
  pose proof (pow2_pos (e + 149) ltac:(lia)) as Hp.
  assert (He1 : -33 <= e).
  { destruct (Z_le_gt_dec (-33) e) as [H | H]; [exact H | exfalso].
    pose proof (pow2_le (e + 149) 115 ltac:(lia)) as Hle.
    change (2 ^ 116) with (2 * 2 ^ 115) in Hlo.
    change (2 ^ 24) with 16777216 in Hm.
    pose proof (pow2_pos 115 ltac:(lia)).
    pose proof (mul_le_bound (Zpos m) (2 ^ (e + 149)) 16777215 (2 ^ 115)
                  ltac:(lia) ltac:(lia)).
    lia. }
  assert (Hn' : 2 ^ 23 <= Zpos m) by (destruct Hn; [assumption | lia]).
  assert (He2 : e <= -19).
  { destruct (Z_le_gt_dec e (-19)) as [H | H]; [exact H | exfalso].
    pose proof (pow2_le 131 (e + 149) ltac:(lia)) as Hle.
    change (2 ^ 131) with (2 * 2 ^ 130) in Hle.
    change (2 ^ 23) with 8388608 in Hn'.
    pose proof (pow2_pos 130 ltac:(lia)).
    pose proof (mul_le_bound 8388608 (2 * 2 ^ 130) (Zpos m) (2 ^ (e + 149))
                  ltac:(lia) ltac:(lia)).
    lia. }
  repeat split; try lia; apply Hrange.
Qed.

(** ** Level of detail *)

(** The on-screen tile size is exactly [TILE_WIDTH * zoom]. *)
Lemma tile_screen_size_spec (z : float) :
  valid z -> zoom_in_range z ->
  valid (tile_screen_size z) /\ is_finite (tile_screen_size z) = true /\
  val (tile_screen_size z) = TILE_WIDTH * val z.
Proof.
  intros V R. destruct (zoom_in_range_inv z V R) as (m & e & -> & Hm & He & _).
  unfold tile_screen_size, mul.
  change (of_int TILE_WIDTH) with (S754_finite false 8388608 (-18)).
  destruct (SFmul_spec false false 8388608 m (-18) e eq_refl V) as (m1 & _ & Herr & Hres).
  assert (Hd : Zdigits2 (8388608 * Zpos m) = 47).
  { apply Zdigits2_unique; [ | lia].
    change (2 ^ (47 - 1)) with (8388608 * 2 ^ 23). change (2 ^ 47) with (8388608 * 2 ^ 24). lia. }
  rewrite Hd in *.
  assert (Hf : fexp32 (47 + (-18 + e)) = e + 5) by (unfold fexp32; lia).
  rewrite Hf in *. replace (e + 5 - (-18 + e)) with 23 in Herr by lia.
  assert (Hm1 : m1 = Zpos m) by (change (2 ^ 23) with 8388608 in Herr; lia).
  subst m1. destruct Hres as [[H0 _] | Hr]; [lia | ]. cbn [xorb] in Hr.
  pose proof (pow2_pos (e + 149) ltac:(lia)) as Hp.
  assert (E : 2 ^ (e + 5 + 149) = 32 * 2 ^ (e + 149)).
  { replace (e + 5 + 149) with (5 + (e + 149)) by lia. rewrite Z.pow_add_r by lia. reflexivity. }
  assert (F : is_finite (SFmul prec emax (S754_finite false 8388608 (-18))
                                         (S754_finite false m e)) = true).
  { apply (rounded_finite _ _ _ _ Hr); [lia | ]. rewrite E.
    pose proof (pow2_le (e + 149) 130 ltac:(lia)) as Hle.
    pose proof (mul_le_bound (Zpos m) (2 ^ (e + 149)) (2 ^ 24) (2 ^ 130)
                  ltac:(lia) ltac:(lia)) as Hb.
    assert (32 * (2 ^ 24 * 2 ^ 130) < 2 ^ 277) by reflexivity. lia. }
  split; [exact (rounded_valid _ _ _ _ Hr) | ]. split; [exact F | ].
  rewrite (rounded_val _ _ _ _ Hr ltac:(lia) F). cbn [cond_Zopp val].
  rewrite E. unfold TILE_WIDTH. ring.
Qed.

(** The quotient [LOD_PIXEL_THRESHOLD / tsz] for a tile size below the
    threshold: a positive finite number of moderate size. *)
Lemma lod_quotient_spec (t : float) :
  valid t -> is_finite t = true ->
  TILE_WIDTH * val MIN_ZOOM <= val t < val LOD_PIXEL_THRESHOLD ->
  exists m e, div LOD_PIXEL_THRESHOLD t = S754_finite false m e /\
              valid (S754_finite false m e) /\ -23 <= e <= -14.
Proof.
  intros V F [Hlo Hhi].
  rewrite MIN_ZOOM_eq in Hlo. rewrite LOD_PIXEL_THRESHOLD_eq in Hhi |- *.
  cbn [val cond_Zopp] in Hlo, Hhi. unfold TILE_WIDTH in Hlo.
  change (-33 + 149) with 116 in Hlo. change (-20 + 149) with 129 in Hhi.
  assert (Hpos : 0 < val t) by (pose proof (pow2_pos 116 ltac:(lia)); lia).
  destruct (positive_val_inv t Hpos) as (mt & et & ->).
  pose proof (valid_finite_inv _ _ _ V) as (He & Hm & Hn).
  cbn [val cond_Zopp] in Hlo, Hhi.
  pose proof (pow2_pos (et + 149) ltac:(lia)) as Hp.
  assert (He1 : -28 <= et).
  { destruct (Z_le_gt_dec (-28) et) as [H | H]; [exact H | exfalso].
    pose proof (pow2_le (et + 149) 120 ltac:(lia)) as Hle.
    change (2 ^ 120) with (16 * 2 ^ 116) in Hle.
    change (2 ^ 24) with 16777216 in Hm.
    pose proof (pow2_pos 116 ltac:(lia)).
    pose proof (mul_le_bound (Zpos mt) (2 ^ (et + 149)) 16777215 (16 * 2 ^ 116)
                  ltac:(lia) ltac:(lia)).
    lia. }
  assert (Hn' : 2 ^ 23 <= Zpos mt) by (destruct Hn; [assumption | lia]).
  assert (He2 : et <= -21).
  { destruct (Z_le_gt_dec et (-21)) as [H | H]; [exact H | exfalso].
    pose proof (pow2_le 129 (et + 149) ltac:(lia)) as Hle.
    change (2 ^ 23) with 8388608 in *.
    pose proof (pow2_pos 129 ltac:(lia)).
    pose proof (mul_le_bound 8388608 (2 ^ 129) (Zpos mt) (2 ^ (et + 149))
                  ltac:(lia) ltac:(lia)).
    lia. }
  destruct (SFdiv_spec false false 8388608 mt (-20) et) as (m1 & Hb & Hres).
  assert (Hd2 : Zdigits2 (Zpos mt) = 24) by (apply Zdigits2_unique; [exact (conj Hn' Hm) | lia]).
  change (Zdigits2 8388608) with 24 in *. rewrite Hd2 in *.
  assert (He' : Z.min (fexp32 (24 + -20 - (24 + et))) (-20 - et) = -44 - et)
    by (unfold fexp32; lia).
  rewrite He' in *. replace (-20 - et - (-44 - et)) with 24 in * by lia.
  set (q := 8388608 * 2 ^ 24 / Zpos mt) in *.
  assert (Hq : 2 ^ 23 <= q <= 2 ^ 24).
  { subst q. change (8388608 * 2 ^ 24) with (2 ^ 47). split.
    - apply Z.div_le_lower_bound; [lia | ]. change (2 ^ 47) with (2 ^ 23 * 2 ^ 24). nia.
    - apply Z.div_le_upper_bound; [lia | ]. change (2 ^ 47) with (2 ^ 23 * 2 ^ 24). nia. }
  assert (Hdq : Zdigits2 q = 24 \/ Zdigits2 q = 25).
  { destruct (Z.eq_dec q (2 ^ 24)) as [E | E].
    - right. rewrite E. reflexivity.
    - left. apply Zdigits2_unique; [ | lia]. change (24 - 1) with 23. lia. }
  set (e1 := fexp32 (Zdigits2 q + (-44 - et))) in *.
  assert (He1' : e1 = -44 - et \/ e1 = -43 - et)
    by (subst e1; unfold fexp32; destruct Hdq as [-> | ->]; lia).
  assert (Hm1 : 0 < m1).
  { assert (2 ^ 22 <= q / 2 ^ (e1 - (-44 - et))); [ | change (2 ^ 22) with 4194304 in *; lia].
    apply Z.div_le_lower_bound.
    - apply pow2_pos. lia.
    - destruct He1' as [-> | ->].
      + replace (-44 - et - (-44 - et)) with 0 by lia. change (2 ^ 0) with 1.
        change (2 ^ 22) with 4194304. change (2 ^ 23) with 8388608 in Hq. lia.
      + replace (-43 - et - (-44 - et)) with 1 by lia. change (2 ^ 1) with 2.
        change (2 ^ 22) with 4194304. change (2 ^ 23) with 8388608 in Hq. lia. }
  destruct Hres as [[H0 _] | Hr]; [lia | ].
  cbn [xorb] in Hr. pose proof (rounded_valid _ _ _ _ Hr) as Vr.
  destruct Hr as (m & e & Hr & Hme & Hee & Hc).
  assert (Hle : (e <=? 104) = true) by (apply Z.leb_le; lia).
  rewrite Hle in Hr. unfold div. rewrite Hr in Vr |- *.
  exists m, e. split; [reflexivity | ]. split; [exact Vr | lia].
Qed.

(** The stride is defined for every zoom in the range: it is 1 when the
    on-screen tile is not below the threshold, and otherwise the least
    integer not below the binary32 quotient of the threshold by the
    on-screen tile size; it is at least 1 and at most 1024. *)
Theorem lod_of_zoom_defined (z : float) :
  valid z -> zoom_in_range z ->
  exists l : Z,
    lod_of_zoom z = Some l /\ 1 <= l <= 1024 /\
    (val (tile_screen_size z) < val LOD_PIXEL_THRESHOLD ->
     (l - 1) * 2 ^ 149 < val (div LOD_PIXEL_THRESHOLD (tile_screen_size z)) <= l * 2 ^ 149) /\
    (val LOD_PIXEL_THRESHOLD <= val (tile_screen_size z) -> l = 1).
Proof.
  intros V R. destruct (tile_screen_size_spec z V R) as (Vt & Ft & Hv).
  destruct (zoom_in_range_inv z V R) as (_ & _ & _ & _ & _ & Hz).
  unfold lod_of_zoom.
  destruct (ltb (tile_screen_size z) LOD_PIXEL_THRESHOLD) eqn:Hlt.
  - apply ltb_val in Hlt; [ | exact Vt | reflexivity | exact Ft | reflexivity].
    destruct (lod_quotient_spec (tile_screen_size z) Vt Ft) as (m & e & Hq & Vq & He).
    { split; [rewrite Hv; unfold TILE_WIDTH; lia | exact Hlt]. }
    rewrite Hq. destruct (int_of_ceilf m e Vq ltac:(lia)) as (N & HN & H1 & Hc).
    exists N. split; [exact HN | ]. split; [ | split; [intros _; exact Hc | lia]].
    split; [exact H1 | ].
    (* the quotient is below 2^10 *)
    pose proof (valid_finite_inv _ _ _ Vq) as (_ & Hm & _).
    cbn [val cond_Zopp] in Hc.
    pose proof (pow2_le (e + 149) 135 ltac:(lia)) as Hle.
    pose proof (pow2_pos (e + 149) ltac:(lia)) as Hp.
    change (2 ^ 149) with (16384 * 2 ^ 135) in Hc.
    change (2 ^ 24) with 16777216 in Hm.
    pose proof (pow2_pos 135 ltac:(lia)).
    pose proof (mul_le_bound (Zpos m) (2 ^ (e + 149)) 16777215 (2 ^ 135)
                  ltac:(lia) ltac:(lia)).
    lia.
  - exists 1. split; [reflexivity | ]. split; [lia | ]. split; [ | reflexivity].
    intros Hlt'. apply ltb_val in Hlt'; [ | exact Vt | reflexivity | exact Ft | reflexivity].
    rewrite Hlt' in Hlt. discriminate Hlt.
Qed.

End GlFacts.

(** * Atlas index decomposition *)

Module AtlasFacts.

Import Gl.

Lemma shift_loop_pow2 (k : Z) (fuel : nat) (shift : Z) :
  0 <= shift <= k -> (Z.to_nat (k - shift) < fuel)%nat ->
  shift_loop fuel shift (2 ^ k) = Some k.
Proof.
  revert shift. induction fuel as [ | fuel IH]; intros shift Hs Hf; [lia | ].
  cbn [shift_loop]. rewrite Z.shiftl_1_l.
  destruct (Z.ltb_spec (2 ^ shift) (2 ^ k)) as [Hlt | Hge].
  - assert (shift < k) by (apply (Z.pow_lt_mono_r_iff 2); lia).
    apply IH; lia.
  - assert (~ shift < k).
    { intros Hlt. apply (Z.pow_lt_mono_r 2) in Hlt; lia. }
    f_equal. lia.
Qed.

(** The loop ends within its fuel for every column count of type [int]. *)
Lemma shift_loop_total (fuel : nat) (shift cols : Z) :
  0 <= shift -> cols <= 2 ^ (shift + Z.of_nat fuel - 1) -> (0 < fuel)%nat ->
  exists k, shift_loop fuel shift cols = Some k.
Proof.
  revert shift. induction fuel as [ | fuel IH]; intros shift Hs Hc Hf; [lia | ].
  cbn [shift_loop]. rewrite Z.shiftl_1_l.
  destruct (Z.ltb_spec (2 ^ shift) cols) as [Hlt | Hge]; [ | eexists; reflexivity].
  destruct fuel as [ | fuel'].
  - exfalso. replace (shift + Z.of_nat 1 - 1) with shift in Hc by lia. lia.
  - apply IH; [lia | | lia].
    replace (shift + 1 + Z.of_nat (S fuel') - 1) with (shift + Z.of_nat (S (S fuel')) - 1)
      by lia.
    exact Hc.
Qed.

Lemma startup_finishes (w h : Z) (malloc_ok : bool) (rand : nat -> Z) :
  0 <= w <= CInt.INT_MAX ->
  startup (Some (w, h)) malloc_ok rand <> Unfinished.
Proof.
  intros Hw. unfold startup, load_tileset. cbn [tile_width initial_tileset].
  destruct (negb malloc_ok); [discriminate | ].
  unfold detect_shift. cbn [cols].
  destruct (Z.land _ _ =? 0); [ | discriminate].
  destruct (shift_loop_total 32 0 (Z.quot w TILE_WIDTH)) as [k Hk]; try lia.
  - unfold TILE_WIDTH. rewrite Z.quot_div_nonneg by lia.
    assert (w / 32 <= w) by (apply Z.div_le_upper_bound; lia).
    unfold CInt.INT_MAX in Hw. change (2 ^ (0 + Z.of_nat 32 - 1)) with (2 ^ 31). lia.
  - rewrite Hk. discriminate.
Qed.

Lemma land_pow2_pred (k : Z) : 0 <= k -> Z.land (2 ^ k) (2 ^ k - 1) = 0.
Proof.
  intros Hk. replace (2 ^ k - 1) with (Z.ones k) by (rewrite Z.ones_equiv; lia).
  rewrite Z.land_ones by lia. apply Z.mod_same. apply Z.pow_nonzero; lia.
Qed.

(** On a non-negative index and a power-of-two column count, masking and
    shifting are remainder and quotient. *)
Lemma atlas_cell_shift_divmod (ts : Tileset) (k tile_index : Z) :
  0 <= k -> cols ts = 2 ^ k -> shift_bits ts = k -> 0 <= tile_index ->
  atlas_cell_shift ts tile_index = (tile_index mod cols ts, tile_index / cols ts).
Proof.
  intros Hk Hc Hs Hi. unfold atlas_cell_shift. rewrite Hc, Hs.
  replace (2 ^ k - 1) with (Z.ones k) by (rewrite Z.ones_equiv; lia).
  rewrite Z.land_ones, Z.shiftr_div_pow2 by lia. reflexivity.
Qed.

Lemma atlas_cell_divmod_nonneg (ts : Tileset) (tile_index : Z) :
  0 < cols ts -> 0 <= tile_index ->
  atlas_cell_divmod ts tile_index = Some (tile_index mod cols ts, tile_index / cols ts).
Proof.
  intros Hc Hi. unfold atlas_cell_divmod, CInt.rem, CInt.div.
  destruct (Z.eqb_spec (cols ts) 0) as [E | E]; [lia | ].
  rewrite Z.rem_mod_nonneg, Z.quot_div_nonneg by lia. reflexivity.
Qed.

End AtlasFacts.

(** * Loops over the map *)

Lemma for_loop_spec (fuel : nat) (x max step : Z) :
  1 <= step -> (Z.to_nat (max - x) < fuel)%nat ->
  exists xs, for_loop fuel x max step = Some xs /\
             Forall (fun v => x <= v < max) xs /\
             (max <= x -> xs = []).
Proof.
  intros Hstep. revert x. induction fuel as [ | fuel IH]; intros x Hf; [lia | ].
  cbn [for_loop]. destruct (Z.ltb_spec x max) as [Hlt | Hge].
  - destruct (IH (x + step) ltac:(lia)) as (xs & -> & Hall & _).
    exists (x :: xs). split; [reflexivity | ]. split; [ | lia].
    constructor; [lia | ].
    apply Forall_impl with (2 := Hall). intros v Hv. lia.
  - exists []. repeat split. constructor.
Qed.

Lemma for_cells_spec (fuel : nat) (start_x start_y max_x max_y step : Z) :
  1 <= step ->
  (Z.to_nat (max_x - start_x) < fuel)%nat -> (Z.to_nat (max_y - start_y) < fuel)%nat ->
  exists cells,
    for_cells fuel start_x start_y max_x max_y step = Some cells /\
    Forall (fun c => start_x <= fst c < max_x /\ start_y <= snd c < max_y) cells /\
    (max_x <= start_x \/ max_y <= start_y -> cells = []).
Proof.
  intros Hstep Hfx Hfy. unfold for_cells.
  destruct (for_loop_spec fuel start_y max_y step Hstep Hfy) as (ys & -> & Hys & Ey).
  destruct (for_loop_spec fuel start_x max_x step Hstep Hfx) as (xs & -> & Hxs & Ex).
  eexists. split; [reflexivity | ]. split.
  - apply Forall_forall. intros [cx cy] Hin.
    apply in_flat_map in Hin. destruct Hin as (y & Hy & Hin).
    apply in_map_iff in Hin. destruct Hin as (x & E & Hx). injection E as <- <-.
    rewrite Forall_forall in Hys, Hxs. cbn [fst snd].
    split; [apply Hxs, Hx | apply Hys, Hy].
  - intros [H | H].
    + rewrite (Ex H). cbn [map]. clear. induction ys as [ | y ys IH]; [reflexivity | exact IH].
    + rewrite (Ey H). reflexivity.
Qed.

(** * Camera *)

Module CameraFacts.

Import F32 F32Facts Gl GlFacts.

Lemma SFcompare_defined (x y : float) :
  x <> S754_nan -> y <> S754_nan -> exists c, SFcompare x y = Some c.
Proof.
  intros Hx Hy.
  destruct x as [sx | sx | | sx mx ex], y as [sy | sy | | sy my ey];
    try congruence; cbn [SFcompare]; eexists; reflexivity.
Qed.

Lemma leb_of_not_ltb (x y : float) :
  x <> S754_nan -> y <> S754_nan -> ltb x y = false -> leb y x = true.
Proof.
  intros Hx Hy. destruct (SFcompare_defined x y Hx Hy) as [c Hc].
  pose proof (SFcompare_antisym x y c Hc) as Ha.
  unfold ltb, leb, SFltb, SFleb. rewrite Hc, Ha.
  destruct c; cbn [CompOpp]; intros H; try reflexivity; discriminate H.
Qed.

(** The clamp brings every number except NaN into the zoom range. *)
Lemma clamp_zoom_in_range (z : float) :
  z <> S754_nan -> zoom_in_range (clamp_zoom z).
Proof.
  intros Hz. unfold clamp_zoom, zoom_in_range.
  destruct (ltb z MIN_ZOOM) eqn:H1.
  - change (ltb MAX_ZOOM MIN_ZOOM) with false. cbv iota. split; reflexivity.
  - destruct (ltb MAX_ZOOM z) eqn:H2.
    + split; reflexivity.
    + split; apply leb_of_not_ltb; try assumption;
        rewrite ?MIN_ZOOM_eq, ?MAX_ZOOM_eq; discriminate.
Qed.

Lemma clamp_zoom_valid (z : float) : valid z -> valid (clamp_zoom z).
Proof.
  intros V. unfold clamp_zoom.
  destruct (ltb z MIN_ZOOM).
  - change (ltb MAX_ZOOM MIN_ZOOM) with false. reflexivity.
  - destruct (ltb MAX_ZOOM z); [reflexivity | exact V].
Qed.

Lemma zoom_factor_cases (wheel_y : Z) :
  zoom_factor wheel_y = S754_finite false 9227469 (-23) \/
  zoom_factor wheel_y = S754_finite false 15252014 (-24).
Proof.
  unfold zoom_factor. destruct (0 <? wheel_y); [left | right]; reflexivity.
Qed.

(** The product of a zoom in the range with either step factor is valid and
    is not NaN. *)
Lemma zoom_step_product (z : float) (wheel_y : Z) :
  valid z -> zoom_in_range z ->
  valid (mul z (zoom_factor wheel_y)) /\ mul z (zoom_factor wheel_y) <> S754_nan.
Proof.
  intros V R. destruct (zoom_in_range_inv z V R) as (m & e & -> & _).
  assert (Hf : exists mf ef, zoom_factor wheel_y = S754_finite false mf ef /\
                             valid (S754_finite false mf ef)).
  { destruct (zoom_factor_cases wheel_y) as [-> | ->]; eexists; eexists;
      (split; [reflexivity | reflexivity]). }
  destruct Hf as (mf & ef & -> & Vf). unfold mul.
  split; [apply SFmul_valid; assumption | ].
  destruct (SFmul_spec false false m mf e ef V Vf) as (m1 & _ & _ & [[_ Hr] | Hr]).
  - rewrite Hr. discriminate.
  - exact (rounded_not_nan _ _ _ _ Hr).
Qed.

Lemma handle_event_zoom_ok (s : Session) (e : Event) :
  zoom_ok s -> zoom_ok (handle_event s e).
Proof.
  intros [V R]. destruct e; cbn [handle_event]; try (split; assumption).
  - destruct (dragging s); split; assumption.
  - destruct (zoom_step_product (zoom s) wheel_y V R) as [Vm Nm].
    split; cbn [zoom]; [apply clamp_zoom_valid, Vm | apply clamp_zoom_in_range, Nm].
Qed.

Lemma handle_events_zoom_ok (es : list Event) (s : Session) :
  zoom_ok s -> zoom_ok (handle_events s es).
Proof.
  revert s. induction es as [ | e es IH]; intros s H; [exact H | ].
  apply IH, handle_event_zoom_ok, H.
Qed.

Lemma initial_session_zoom_ok : zoom_ok initial_session.
Proof. split; [reflexivity | split; reflexivity]. Qed.

(** Recomputing [a - (a - w)] in binary32: two roundings, each of relative
    size [2^-24]. *)
Lemma anchor_tolerance (a w : float) :
  valid a -> valid w ->
  is_finite (sub a (sub a w)) = true ->
  2 ^ 22 * Z.abs (val (sub a (sub a w)) - val w) <= Z.abs (val a) + Z.abs (val w).
Proof.
  intros Va Vw Fr. unfold sub in *.
  destruct (SFsub_finite _ _ Fr) as [Fa Fo].
  destruct (SFsub_finite _ _ Fo) as [_ Fw].
  destruct (SFsub_spec a w Va Vw Fa Fw) as (Vo & _ & Ho). specialize (Ho Fo).
  destruct (SFsub_spec a _ Va Vo Fa Fo) as (_ & _ & Hr). specialize (Hr Fr).
  change (2 ^ 24) with 16777216 in *. change (2 ^ 22) with 4194304. lia.
Qed.

End CameraFacts.

(** * Viewport *)

Module ViewportFacts.

Import F32 F32Facts Gl GlFacts.

Lemma clamp_min_nonneg (n : Z) : 0 <= clamp_min n.
Proof. unfold clamp_min. destruct (Z.ltb_spec n 0); lia. Qed.

Lemma clamp_max_le (n limit : Z) : clamp_max n limit <= limit.
Proof. unfold clamp_max. destruct (Z.ltb_spec limit n); lia. Qed.

Lemma align_start_nonneg (min lod start : Z) :
  0 <= min -> 1 <= lod -> align_start min lod = Some start -> 0 <= start.
Proof.
  intros Hmin Hlod. unfold align_start, CInt.div.
  destruct (Z.eqb_spec lod 0) as [E | E]; [lia | ].
  intros H. injection H as <-.
  pose proof (Z.quot_pos min lod ltac:(lia) ltac:(lia)). nia.
Qed.

Lemma in_map_offset (c : Z * Z) :
  in_map c -> in_map c /\ 0 <= tile_offset c < MAP_WIDTH * MAP_HEIGHT.
Proof.
  unfold in_map, tile_offset, MAP_WIDTH, MAP_HEIGHT. intros H. split; [exact H | nia].
Qed.

(** Whatever integers the casts of the raw bounds yield, the loop from the
    aligned start to the clamped maximum ends within 1001 iterations per
    axis and stays inside the map. *)
Lemma clamped_loop_in_map (mnx mny mxx mxy l sx sy : Z) :
  1 <= l ->
  align_start (clamp_min mnx) l = Some sx ->
  align_start (clamp_min mny) l = Some sy ->
  exists cells,
    for_cells 1001 sx sy (clamp_max mxx MAP_WIDTH) (clamp_max mxy MAP_HEIGHT) l = Some cells /\
    Forall (fun c => in_map c /\ 0 <= tile_offset c < MAP_WIDTH * MAP_HEIGHT) cells /\
    (clamp_max mxx MAP_WIDTH <= sx \/ clamp_max mxy MAP_HEIGHT <= sy -> cells = []).
Proof.
  intros Hl Hsx Hsy.
  pose proof (clamp_max_le mxx MAP_WIDTH) as HMx.
  pose proof (clamp_max_le mxy MAP_HEIGHT) as HMy.
  pose proof (align_start_nonneg _ _ _ (clamp_min_nonneg mnx) Hl Hsx) as Hx.
  pose proof (align_start_nonneg _ _ _ (clamp_min_nonneg mny) Hl Hsy) as Hy.
  destruct (for_cells_spec 1001 sx sy (clamp_max mxx MAP_WIDTH) (clamp_max mxy MAP_HEIGHT) l)
    as (cells & Hc & Hall & Hempty).
  - exact Hl.
  - unfold MAP_WIDTH in *. lia.
  - unfold MAP_HEIGHT in *. lia.
  - exists cells. split; [exact Hc | ]. split; [ | exact Hempty].
    apply Forall_impl with (2 := Hall). intros [cx cy]. cbn [fst snd].
    intros Hin. apply in_map_offset. unfold in_map. cbn [fst snd]. lia.
Qed.

(** The fields of a computed visible range. *)
Lemma visible_range_inv (s : Session) (screen_w screen_h : Z) (r : VisibleRange) :
  visible_range s screen_w screen_h = Some r ->
  exists mnx mny mxx mxy : Z,
    min_x r = clamp_min mnx /\ min_y r = clamp_min mny /\
    max_x r = clamp_max mxx MAP_WIDTH /\ max_y r = clamp_max mxy MAP_HEIGHT /\
    lod_of_zoom (zoom s) = Some (lod r) /\
    align_start (min_x r) (lod r) = Some (start_x r) /\
    align_start (min_y r) (lod r) = Some (start_y r).
Proof.
  unfold visible_range.
  destruct (lod_of_zoom (zoom s)) as [l | ]; [ | discriminate].
  destruct (raw_min (offset_x s) TILE_WIDTH) as [mnx | ]; [ | discriminate].
  destruct (raw_min (offset_y s) TILE_HEIGHT) as [mny | ]; [ | discriminate].
  destruct (raw_max screen_w (zoom s) (offset_x s) TILE_WIDTH) as [mxx | ]; [ | discriminate].
  destruct (raw_max screen_h (zoom s) (offset_y s) TILE_HEIGHT) as [mxy | ]; [ | discriminate].
  destruct (align_start (clamp_min mnx) l) as [sx | ] eqn:Esx; [ | discriminate].
  destruct (align_start (clamp_min mny) l) as [sy | ] eqn:Esy; [ | discriminate].
  intros H. injection H as <-. cbn.
  exists mnx, mny, mxx, mxy. repeat split; assumption.
Qed.

Lemma sdl_visible_range_inv (t : Sdl.Session) (r : Sdl.VisibleRange) :
  Sdl.visible_range t = Some r ->
  exists mnx mny mxx mxy : Z,
    Sdl.min_x r = clamp_min mnx /\ Sdl.min_y r = clamp_min mny /\
    Sdl.max_x r = clamp_max mxx MAP_WIDTH /\ Sdl.max_y r = clamp_max mxy MAP_HEIGHT.
Proof.
  unfold Sdl.visible_range.
  destruct (Sdl.raw_min (Sdl.offset_x t) _) as [mnx | ]; [ | discriminate].
  destruct (Sdl.raw_min (Sdl.offset_y t) _) as [mny | ]; [ | discriminate].
  destruct (Sdl.raw_max SCREEN_WIDTH _ _ _) as [mxx | ]; [ | discriminate].
  destruct (Sdl.raw_max SCREEN_HEIGHT _ _ _) as [mxy | ]; [ | discriminate].
  intros H. injection H as <-. cbn.
  exists mnx, mny, mxx, mxy. repeat split.
Qed.

(** ** The visible range is defined on every camera within [2^30] pixels *)

Lemma raw_min_defined (o : float) :
  near o -> exists n, raw_min o 32 = Some n.
Proof.
  intros (V & F & Hv). unfold raw_min.
  destruct (opp_spec o V) as (Vo & Fo & Ho). rewrite F in Fo.
  destruct (div_tile_spec (opp o) Vo Fo) as (Vd & Fd & Hd).
  { rewrite Ho, Z.abs_opp. eapply Z.lt_trans; [exact Hv | ]. reflexivity. }
  exact (proj1 (int_of_rounded_defined _ Vd Fd Hd)).
Qed.

(** The width of the screen in world units, [screen / zoom], is below
    [2^27]. *)
Lemma screen_over_zoom (screen : Z) (z : float) :
  valid z -> zoom_in_range z -> 0 < screen <= 65536 ->
  valid (div (of_int screen) z) /\ is_finite (div (of_int screen) z) = true /\
  Z.abs (val (div (of_int screen) z)) <= 2 ^ (27 + 149).
Proof.
  intros V R Hs. split; [apply SFdiv_valid | ].
  destruct (zoom_in_range_inv z V R) as (mz & ez & -> & Hm & He & _).
  destruct (of_int_small screen ltac:(change (2 ^ 24) with 16777216; lia)) as (Vs & Fs & Hv).
  pose proof (pow2_pos 149 ltac:(lia)) as H149.
  destruct (positive_val_inv (of_int screen) ltac:(nia)) as (ms & es & Es).
  rewrite Es in *. pose proof (valid_finite_inv _ _ _ Vs) as (Hes & _).
  assert (Hmag : Zdigits2 (Zpos ms) + es <= 17).
  { apply (magnitude_le false); [lia | ]. rewrite Hv.
    change (2 ^ (17 + 149)) with (131072 * 2 ^ 149). rewrite Z.abs_eq by nia. nia. }
  assert (Hdz : Zdigits2 (Zpos mz) = 24) by (apply Zdigits2_unique; [exact Hm | lia]).
  unfold div.
  destruct (SFdiv_magnitude false false ms mz es ez) as [Fd Hd]; [rewrite Hdz; lia | ].
  split; [exact Fd | ].
  eapply Z.le_trans; [exact Hd | ]. apply pow2_le. rewrite Hdz. lia.
Qed.

Lemma raw_max_defined (screen : Z) (z o : float) :
  valid z -> zoom_in_range z -> 0 < screen <= 65536 -> near o ->
  exists n, raw_max screen z o 32 = Some n.
Proof.
  intros V R Hs (Vo & Fo & Ho). unfold raw_max.
  destruct (screen_over_zoom screen z V R Hs) as (Va & Fa & Ha).
  set (a := div (of_int screen) z) in *.
  assert (Hdiff : Z.abs (val a - val o) < 2 ^ (27 + 149) + 2 ^ (30 + 149)) by lia.
  assert (Fb : is_finite (sub a o) = true).
  { apply SFsub_no_overflow; try assumption.
    eapply Z.lt_trans; [exact Hdiff | ]. reflexivity. }
  destruct (SFsub_spec a o Va Vo Fa Fo) as (Vb & _ & Herr). specialize (Herr Fb).
  fold (sub a o) in Vb, Herr.
  destruct (div_tile_spec (sub a o) Vb Fb) as (Vd & Fd & Hd).
  { change (2 ^ 24) with 16777216 in Herr.
    assert (2 ^ (27 + 149) + 2 ^ (30 + 149) + 2 ^ (30 + 149) < 2 ^ (33 + 149)) by reflexivity.
    pose proof (pow2_pos (30 + 149) ltac:(lia)). lia. }
  exact (proj2 (int_of_rounded_defined _ Vd Fd Hd)).
Qed.

(** For a camera within [2^30] pixels of the origin, a zoom in the range
    and a window of at most 65536 pixels a side, no cast or division of the
    frame is undefined. *)
Theorem visible_range_defined (s : Session) (screen_w screen_h : Z) :
  near (offset_x s) -> near (offset_y s) -> zoom_ok s ->
  0 < screen_w <= 65536 -> 0 < screen_h <= 65536 ->
  exists r, visible_range s screen_w screen_h = Some r.
Proof.
  intros Nx Ny [V R] Hw Hh. unfold visible_range.
  destruct (lod_of_zoom_defined (zoom s) V R) as (l & -> & Hl & _).
  unfold TILE_WIDTH, TILE_HEIGHT.
  destruct (raw_min_defined _ Nx) as [mnx ->].
  destruct (raw_min_defined _ Ny) as [mny ->].
  destruct (raw_max_defined screen_w _ _ V R Hw Nx) as [mxx ->].
  destruct (raw_max_defined screen_h _ _ V R Hh Ny) as [mxy ->].
  unfold align_start, CInt.div.
  destruct (Z.eqb_spec l 0) as [E | E]; [lia | ].
  eexists. reflexivity.
Qed.

End ViewportFacts.

(** * The claims *)

Import F32 F32Facts GlFacts AtlasFacts CameraFacts ViewportFacts.

(** ** Atlas metadata *)

(** C2. For a column count that is an exact power of two, [main] enables the
    shift path with [shift_bits] the logarithm of the column count, and for
    every tile index in [0, columns * rows) the cell that the shift path of
    [draw_tile] computes (mask by [columns - 1], shift right by
    [shift_bits]) is the cell of the division path (remainder and quotient
    by [columns]). *)
Theorem atlas_shift_path_equals_divmod (ts : Gl.Tileset) (k tile_index : Z) :
  0 <= k <= 30 ->
  Gl.cols ts = 2 ^ k ->
  0 <= tile_index < Gl.cols ts * Gl.rows ts ->
  exists ts' : Gl.Tileset,
    Gl.detect_shift ts = Some ts' /\
    Gl.use_shift ts' = true /\
    2 ^ Gl.shift_bits ts' = Gl.cols ts' /\
    Gl.atlas_cell ts' tile_index = Some (Gl.atlas_cell_shift ts' tile_index) /\
    Gl.atlas_cell_divmod ts' tile_index = Some (Gl.atlas_cell_shift ts' tile_index) /\
    Gl.atlas_cell_shift ts' tile_index = (tile_index mod Gl.cols ts, tile_index / Gl.cols ts).
Proof.
  intros Hk Hc Hi.
  pose proof (pow2_pos k ltac:(lia)) as Hp.
  unfold Gl.detect_shift. rewrite Hc, land_pow2_pred by lia.
  rewrite Z.eqb_refl, (shift_loop_pow2 k 32 0) by lia.
  eexists. split; [reflexivity | ]. cbn [Gl.use_shift Gl.shift_bits Gl.cols].
  split; [reflexivity | ]. split; [reflexivity | ].
  unfold Gl.atlas_cell. cbn [Gl.use_shift]. split; [reflexivity | ].
  rewrite atlas_cell_divmod_nonneg by (cbn [Gl.cols]; lia).
  rewrite (atlas_cell_shift_divmod _ k) by (cbn [Gl.cols Gl.shift_bits]; lia).
  cbn [Gl.cols]. split; reflexivity.
Qed.

Lemma atlas_shift_path_equals_divmod_witness :
  0 <= 3 <= 30 /\
  Gl.cols (Gl.Build_Tileset 32 32 4 8 false 0) = 2 ^ 3 /\
  0 <= 13 < 8 * 4 /\
  exists ts' : Gl.Tileset,
    Gl.detect_shift (Gl.Build_Tileset 32 32 4 8 false 0) = Some ts' /\
    Gl.use_shift ts' = true /\
    2 ^ Gl.shift_bits ts' = Gl.cols ts' /\
    Gl.atlas_cell ts' 13 = Some (Gl.atlas_cell_shift ts' 13) /\
    Gl.atlas_cell_divmod ts' 13 = Some (Gl.atlas_cell_shift ts' 13) /\
    Gl.atlas_cell_shift ts' 13 = (13 mod 8, 13 / 8).
Proof.
  split; [lia | ]. split; [reflexivity | ]. split; [lia | ].
  apply (atlas_shift_path_equals_divmod (Gl.Build_Tileset 32 32 4 8 false 0) 3 13).
  - lia.
  - reflexivity.
  - simpl. lia.
Defined.

(** C9 (the code differs). A decoded atlas image smaller than one tile is
    not rejected: both start-up paths reach [fill_random_tilemap] with
    [max_tile_index = 0], where the remainder [rand() % 0] is undefined. *)
Theorem degenerate_atlas_reaches_fill (rand : nat -> Z) :
  Gl.startup (Some (16, 16)) true rand = Filled 0 None /\
  Sdl.startup (Some (16, 16)) rand = Filled 0 None.
Proof. split; reflexivity. Qed.

(** ** Camera *)

(** C3. From the initial zoom 1.0, after every sequence of events the zoom
    lies in [MIN_ZOOM, MAX_ZOOM]. *)
Theorem zoom_range_invariant (es : list Gl.Event) :
  Gl.zoom Gl.initial_session = of_int 1 /\
  Gl.zoom_in_range (Gl.zoom (Gl.handle_events Gl.initial_session es)).
Proof.
  split; [reflexivity | ].
  apply (handle_events_zoom_ok es Gl.initial_session initial_session_zoom_ok).
Qed.

(** C1, as stated, fails in binary32: with offset 3 and zoom 1, zooming out
    at the pointer 1 moves the world point under the pointer from -2 to a
    neighbouring number. *)
Lemma anchored_zoom_inexact :
  Gl.zoom_in_range (Gl.zoom (Gl.session_at (of_int 3) (of_int 3) (of_int 1))) /\
  Gl.world_of_screen 1 (of_int 1) (of_int 3) = of_int (-2) /\
  Gl.world_of_screen 1
    (Gl.zoom (Gl.handle_event (Gl.session_at (of_int 3) (of_int 3) (of_int 1))
                              (Gl.MouseWheel (-1) 1 1)))
    (Gl.offset_x (Gl.handle_event (Gl.session_at (of_int 3) (of_int 3) (of_int 1))
                                  (Gl.MouseWheel (-1) 1 1)))
  = S754_finite true 16777215 (-23) /\
  SFeqb (S754_finite true 16777215 (-23)) (of_int (-2)) = false.
Proof. repeat split; reflexivity. Qed.

(** C1 (amended). The wheel handler computes the world point [w] under the
    pointer, multiplies the zoom by the step or its reciprocal, clamps it,
    and recomputes the offset as [p / zoom' - w] from the clamped zoom.  In
    binary32 the world point under the pointer afterwards,
    [p / zoom' - offset'], equals [w] up to two roundings: unless it
    overflows, it differs from [w] by at most
    [2^-22 * (|p / zoom'| + |w|)], on both axes, also when the zoom
    saturates. *)
Theorem anchored_zoom_tolerance (s : Gl.Session) (wheel_y mx my : Z) :
  valid (Gl.offset_x s) ->
  valid (Gl.offset_y s) ->
  let s' := Gl.handle_event s (Gl.MouseWheel wheel_y mx my) in
  Gl.zoom s' = Gl.clamp_zoom (mul (Gl.zoom s) (Gl.zoom_factor wheel_y)) /\
  (is_finite (Gl.world_of_screen mx (Gl.zoom s') (Gl.offset_x s')) = true ->
   2 ^ 22 * Z.abs (val (Gl.world_of_screen mx (Gl.zoom s') (Gl.offset_x s'))
                   - val (Gl.world_of_screen mx (Gl.zoom s) (Gl.offset_x s)))
   <= Z.abs (val (div (of_int mx) (Gl.zoom s')))
      + Z.abs (val (Gl.world_of_screen mx (Gl.zoom s) (Gl.offset_x s)))) /\
  (is_finite (Gl.world_of_screen my (Gl.zoom s') (Gl.offset_y s')) = true ->
   2 ^ 22 * Z.abs (val (Gl.world_of_screen my (Gl.zoom s') (Gl.offset_y s'))
                   - val (Gl.world_of_screen my (Gl.zoom s) (Gl.offset_y s)))
   <= Z.abs (val (div (of_int my) (Gl.zoom s')))
      + Z.abs (val (Gl.world_of_screen my (Gl.zoom s) (Gl.offset_y s)))).
Proof.
  intros Vx Vy s'. subst s'. cbn [Gl.handle_event Gl.zoom Gl.offset_x Gl.offset_y].
  split; [reflexivity | ].
  assert (Hw : forall p o, valid o -> valid (Gl.world_of_screen p (Gl.zoom s) o)).
  { intros p o Vo. apply SFsub_valid; [apply SFdiv_valid | exact Vo]. }
  split; intros F; apply anchor_tolerance;
    try (apply SFdiv_valid); try (apply Hw; assumption); exact F.
Qed.

Lemma anchored_zoom_tolerance_witness :
  valid (Gl.offset_x (Gl.session_at (of_int 3) (of_int 3) (of_int 1))) /\
  valid (Gl.offset_y (Gl.session_at (of_int 3) (of_int 3) (of_int 1))) /\
  is_finite (S754_finite true 16777215 (-23)) = true /\
  2 ^ 22 * Z.abs (val (S754_finite true 16777215 (-23)) - val (of_int (-2)))
  <= Z.abs (val (div (of_int 1) (S754_finite false 15252014 (-24))))
     + Z.abs (val (of_int (-2))).
Proof.
  split; [reflexivity | ]. split; [reflexivity | ]. split; [reflexivity | ].
  exact (proj1 (proj2 (anchored_zoom_tolerance
                         (Gl.session_at (of_int 3) (of_int 3) (of_int 1)) (-1) 1 1
                         eq_refl eq_refl)) eq_refl).
Defined.

(** ** Viewport resolver *)


(** The quotient whose ceiling is taken is the rounded one: at zoom 0.01 the
    on-screen size is just below 0.32, the binary32 quotient is exactly 25
    and the stride is 25, although 25 times the on-screen size is below the
    threshold. *)
Remark lod_at_one_hundredth :
  Gl.lod_of_zoom (literal 1 2) = Some 25 /\
  div Gl.LOD_PIXEL_THRESHOLD (Gl.tile_screen_size (literal 1 2)) = of_int 25 /\
  25 * val (Gl.tile_screen_size (literal 1 2)) < val Gl.LOD_PIXEL_THRESHOLD.
Proof. repeat split; reflexivity. Qed.


(** C6. For a clamped minimum [min >= 0] and a stride [lod >= 1] the start
    coordinate [(min / lod) * lod] is a multiple of the stride, is at most
    [min] and is above [min - lod]; both axes use the same computation. *)
Theorem start_alignment (min lod : Z) :
  0 <= min ->
  1 <= lod ->
  exists start : Z,
    Gl.align_start min lod = Some start /\
    start mod lod = 0 /\ start <= min /\ min - lod < start.
Proof.
  intros Hmin Hlod. unfold Gl.align_start, CInt.div.
  destruct (Z.eqb_spec lod 0) as [E | E]; [lia | ].
  rewrite Z.quot_div_nonneg by lia.
  exists (min / lod * lod). split; [reflexivity | ].
  pose proof (Z.div_mod min lod ltac:(lia)) as Hdm.
  pose proof (Z.mod_pos_bound min lod ltac:(lia)) as Hb.
  split; [apply Z.mod_mul; lia | ]. lia.
Qed.

Lemma start_alignment_witness :
  0 <= 1001 /\ 1 <= 3 /\
  exists start : Z,
    Gl.align_start 1001 3 = Some start /\
    start mod 3 = 0 /\ start <= 1001 /\ 1001 - 3 < start.
Proof.
  split; [lia | ]. split; [lia | ]. apply (start_alignment 1001 3); lia.
Defined.

(** C4, as stated, fails: panned far to the left (offset -100000, zoom 1,
    screen 800 x 600) the clamped minimum 3125 exceeds both the grid width
    and the clamped maximum 1000; panned far to the right (offset 100000)
    the maximum is negative. *)
Lemma visible_range_min_exceeds_max :
  Gl.zoom_in_range (of_int 1) /\
  Gl.visible_range (Gl.session_at (of_int (-100000)) (of_int 0) (of_int 1)) 800 600
  = Some {| Gl.min_x := 3125; Gl.min_y := 0; Gl.max_x := 1000; Gl.max_y := 19;
            Gl.lod := 1; Gl.start_x := 3125; Gl.start_y := 0 |} /\
  Gl.visible_range (Gl.session_at (of_int 100000) (of_int 0) (of_int 1)) 800 600
  = Some {| Gl.min_x := 0; Gl.min_y := 0; Gl.max_x := -3100; Gl.max_y := 19;
            Gl.lod := 1; Gl.start_x := 0; Gl.start_y := 0 |}.
Proof. repeat split; reflexivity. Qed.

(** C10, as stated, fails in its aside: at zoom 0.1 (stride 3) and offset
    -32040 the clamped minimum 1001 exceeds the clamped maximum 1000, yet
    the aligned start is 999 and the loop reads column 999. *)
Lemma degenerate_range_still_read :
  Gl.zoom_in_range (literal 1 1) /\
  Gl.visible_range (Gl.session_at (of_int (-32040)) (of_int 0) (literal 1 1)) 800 600
  = Some {| Gl.min_x := 1001; Gl.min_y := 0; Gl.max_x := 1000; Gl.max_y := 188;
            Gl.lod := 3; Gl.start_x := 999; Gl.start_y := 0 |} /\
  exists cells,
    Gl.draw_cells 1001 {| Gl.min_x := 1001; Gl.min_y := 0; Gl.max_x := 1000; Gl.max_y := 188;
                          Gl.lod := 3; Gl.start_x := 999; Gl.start_y := 0 |}
    = Some ((999, 0) :: cells).
Proof.
  split; [split; reflexivity | ]. split; [reflexivity | ].
  eexists. vm_compute. reflexivity.
Qed.

(** C10 (amended). For every session whose zoom is in the range the frame
    is computed when the camera is within [2^30] pixels of the origin and
    the window has at most 65536 pixels a side; and whenever the visible
    range is computed, the draw loop of either renderer terminates and
    every cell it reads lies inside the map, with a flat index inside the
    tile array.  It reads nothing when the start coordinate is not below
    the clamped maximum on some axis. *)
Theorem draw_loop_reads_in_bounds
    (s : Gl.Session) (screen_w screen_h : Z) (t : Sdl.Session) :
  Gl.zoom_ok s ->
  (Gl.near (Gl.offset_x s) -> Gl.near (Gl.offset_y s) ->
   0 < screen_w <= 65536 -> 0 < screen_h <= 65536 ->
   exists r, Gl.visible_range s screen_w screen_h = Some r) /\
  (forall r : Gl.VisibleRange,
     Gl.visible_range s screen_w screen_h = Some r ->
     exists cells,
       Gl.draw_cells 1001 r = Some cells /\
       Forall (fun c => in_map c /\ 0 <= tile_offset c < MAP_WIDTH * MAP_HEIGHT) cells /\
       (Gl.max_x r <= Gl.start_x r \/ Gl.max_y r <= Gl.start_y r -> cells = [])) /\
  (forall r' : Sdl.VisibleRange,
     Sdl.visible_range t = Some r' ->
     exists cells,
       Sdl.draw_cells 1001 r' = Some cells /\
       Forall (fun c => in_map c /\ 0 <= tile_offset c < MAP_WIDTH * MAP_HEIGHT) cells /\
       (Sdl.max_x r' <= Sdl.min_x r' \/ Sdl.max_y r' <= Sdl.min_y r' -> cells = [])).
Proof.
  intros [V R]. split; [ | split].
  - intros Nx Ny Hw Hh. apply visible_range_defined; try assumption. split; assumption.
  - intros r Hr. destruct (visible_range_inv s screen_w screen_h r Hr)
      as (mnx & mny & mxx & mxy & Ex & Ey & Emx & Emy & El & Esx & Esy).
    destruct (lod_of_zoom_defined (Gl.zoom s) V R) as (l & Hl & Hb & _).
    rewrite Hl in El. injection El as El.
    unfold Gl.draw_cells. rewrite Emx, Emy.
    apply (clamped_loop_in_map mnx mny mxx mxy (Gl.lod r)); [lia | | ].
    + rewrite <- Ex. exact Esx.
    + rewrite <- Ey. exact Esy.
  - intros r' Hr'. destruct (sdl_visible_range_inv t r' Hr')
      as (mnx & mny & mxx & mxy & Ex & Ey & Emx & Emy).
    assert (Hmx : 0 <= Sdl.min_x r') by (rewrite Ex; apply clamp_min_nonneg).
    assert (Hmy : 0 <= Sdl.min_y r') by (rewrite Ey; apply clamp_min_nonneg).
    assert (HMx : Sdl.max_x r' <= MAP_WIDTH) by (rewrite Emx; apply clamp_max_le).
    assert (HMy : Sdl.max_y r' <= MAP_HEIGHT) by (rewrite Emy; apply clamp_max_le).
    unfold Sdl.draw_cells.
    destruct (for_cells_spec 1001 (Sdl.min_x r') (Sdl.min_y r') (Sdl.max_x r') (Sdl.max_y r') 1)
      as (cells & Hc & Hall & Hempty).
    + lia.
    + unfold MAP_WIDTH in *. lia.
    + unfold MAP_HEIGHT in *. lia.
    + exists cells. split; [exact Hc | ]. split; [ | exact Hempty].
      apply Forall_impl with (2 := Hall). intros [cx cy]. cbn [fst snd].
      intros Hin. apply in_map_offset. unfold in_map. cbn [fst snd]. lia.
Qed.

Lemma draw_loop_reads_in_bounds_witness :
  Gl.zoom_ok (Gl.session_at (of_int (-32040)) (of_int 0) (literal 1 1)) /\
  exists cells,
    Gl.draw_cells 1001 {| Gl.min_x := 1001; Gl.min_y := 0; Gl.max_x := 1000; Gl.max_y := 188;
                          Gl.lod := 3; Gl.start_x := 999; Gl.start_y := 0 |} = Some cells /\
    Forall (fun c => in_map c /\ 0 <= tile_offset c < MAP_WIDTH * MAP_HEIGHT) cells.
Proof.
  assert (Z1 : Gl.zoom_ok (Gl.session_at (of_int (-32040)) (of_int 0) (literal 1 1)))
    by (repeat split; reflexivity).
  split; [exact Z1 | ].
  destruct (draw_loop_reads_in_bounds
              (Gl.session_at (of_int (-32040)) (of_int 0) (literal 1 1)) 800 600
              (Sdl.session_at (of_int 16) (of_int 0) 1) Z1) as (_ & Hgl & _).
  destruct (Hgl _ eq_refl) as (cells & Hc & Hall & _).
  exists cells. exact (conj Hc Hall).
Defined.

(** ** Hover highlight *)

(** C7 (the code differs). Both renderers truncate the hovered tile
    coordinate towards zero where the visible-range minimum of [maingl.c]
    takes the floor: with offset 16 at zoom 1 the pointer at pixel (0, 0)
    is half a tile to the left of the grid, the floor-based coordinate is
    -1 and nothing should be highlighted, but the code highlights tile
    (0, 0). *)
Theorem hover_truncates_towards_zero :
  Gl.hover (Gl.session_at (of_int 16) (of_int 0) (of_int 1)) 0 0 = Some (Some (0, 0)) /\
  Sdl.hover (Sdl.session_at (of_int 16) (of_int 0) 1) 0 0 = Some (Some (0, 0)) /\
  Gl.hover_floor (Gl.session_at (of_int 16) (of_int 0) (of_int 1)) 0 0 = Some None /\
  Gl.raw_min (of_int 16) TILE_WIDTH = Some (-1).
Proof. repeat split; reflexivity. Qed.

(** * Further properties of the code

    The rest of the development goes beyond the camera and viewport
    arithmetic: start-up, the loops over the map, the events, and whole
    frames of both renderers. *)

(** ** Loops that count by one, and the cells of nested loops *)

(** Loops that count up by one. *)

Lemma for_loop_count (n : nat) : forall (fuel : nat) (x : Z),
  (n < fuel)%nat ->
  for_loop fuel x (x + Z.of_nat n) 1 = Some (map (fun i => x + Z.of_nat i) (seq 0 n)).
Proof.
  induction n as [ | n IH]; intros fuel x Hf.
  - destruct fuel as [ | fuel]; [lia | ]. cbn [for_loop].
    destruct (Z.ltb_spec x (x + Z.of_nat 0)); [lia | reflexivity].
  - destruct fuel as [ | fuel]; [lia | ]. cbn [for_loop].
    destruct (Z.ltb_spec x (x + Z.of_nat (S n))); [ | lia].
    replace (x + Z.of_nat (S n)) with (x + 1 + Z.of_nat n) by lia.
    rewrite IH by lia. cbn [seq map]. f_equal. f_equal; [f_equal; lia | ].
    rewrite <- seq_shift, map_map. apply map_ext. intros i. lia.
Qed.

Lemma map_fst_combine (A B : Type) (l1 : list A) : forall (l2 : list B),
  length l1 = length l2 -> map fst (combine l1 l2) = l1.
Proof.
  induction l1 as [ | a l1 IH]; intros [ | b l2] H; try discriminate; [reflexivity | ].
  cbn [combine map fst]. f_equal. apply IH. injection H as H. exact H.
Qed.

Lemma map_snd_combine (A B : Type) (l1 : list A) : forall (l2 : list B),
  length l1 = length l2 -> map snd (combine l1 l2) = l2.
Proof.
  induction l1 as [ | a l1 IH]; intros [ | b l2] H; try discriminate; [reflexivity | ].
  cbn [combine map snd]. f_equal. apply IH. injection H as H. exact H.
Qed.

Lemma seq_from (k w : nat) : seq k w = map (fun i => (k + i)%nat) (seq 0 w).
Proof.
  induction k as [ | k IH].
  - rewrite <- (map_id (seq 0 w)) at 1. apply map_ext. intros; lia.
  - rewrite <- seq_shift, IH, map_map. apply map_ext. intros; lia.
Qed.

Lemma row_major_offsets (w : nat) : forall h : nat,
  flat_map (fun y => map (fun x => Z.of_nat y * Z.of_nat w + Z.of_nat x) (seq 0 w)) (seq 0 h)
  = map Z.of_nat (seq 0 (h * w)).
Proof.
  induction h as [ | h IH]; [reflexivity | ].
  rewrite seq_S, flat_map_app, IH. cbn [flat_map plus]. rewrite app_nil_r.
  replace (S h * w)%nat with (h * w + w)%nat by lia.
  rewrite seq_app, map_app. f_equal. cbn [plus].
  rewrite (seq_from (h * w) w), map_map. apply map_ext. intros x. lia.
Qed.

Lemma for_cells_row_major (w h : nat) (fuel : nat) :
  (w < fuel)%nat -> (h < fuel)%nat ->
  for_cells fuel 0 0 (Z.of_nat w) (Z.of_nat h) 1
  = Some (flat_map (fun y => map (fun x => (Z.of_nat x, Z.of_nat y)) (seq 0 w)) (seq 0 h)).
Proof.
  intros Hw Hh. unfold for_cells.
  pose proof (for_loop_count h fuel 0 Hh) as Eh.
  pose proof (for_loop_count w fuel 0 Hw) as Ew.
  rewrite Z.add_0_l in Eh, Ew. rewrite Eh, Ew. f_equal. rewrite flat_map_concat_map, map_map, <- flat_map_concat_map.
  apply flat_map_ext. intros y. rewrite map_map. reflexivity.
Qed.

Lemma map_flat_map (A B C : Type) (g : B -> C) (f : A -> list B) (l : list A) :
  map g (flat_map f l) = flat_map (fun a => map g (f a)) l.
Proof.
  induction l as [ | a l IH]; [reflexivity | ]. cbn [flat_map]. rewrite map_app, IH. reflexivity.
Qed.

Lemma map_width_nat : MAP_WIDTH = Z.of_nat (Z.to_nat MAP_WIDTH).
Proof. symmetry. apply Z2Nat.id. unfold MAP_WIDTH. lia. Qed.

Lemma map_height_nat : MAP_HEIGHT = Z.of_nat (Z.to_nat MAP_HEIGHT).
Proof. symmetry. apply Z2Nat.id. unfold MAP_HEIGHT. lia. Qed.

Lemma fill_cells_offsets :
  exists cells,
    for_cells 1001 0 0 MAP_WIDTH MAP_HEIGHT 1 = Some cells /\
    map tile_offset cells = map Z.of_nat (seq 0 (Z.to_nat (MAP_WIDTH * MAP_HEIGHT))).
Proof.
  eexists. split.
  - rewrite map_width_nat at 1. rewrite map_height_nat at 1.
    apply for_cells_row_major; unfold MAP_WIDTH, MAP_HEIGHT; lia.
  - rewrite map_flat_map.
    replace (Z.to_nat (MAP_WIDTH * MAP_HEIGHT))
      with (Z.to_nat MAP_HEIGHT * Z.to_nat MAP_WIDTH)%nat
      by (rewrite <- Z2Nat.inj_mul by (unfold MAP_WIDTH, MAP_HEIGHT; lia); f_equal; lia).
    rewrite <- row_major_offsets. apply flat_map_ext. intros y.
    rewrite map_map. apply map_ext. intros x. unfold tile_offset. cbn [fst snd].
    rewrite <- map_width_nat. reflexivity.
Qed.

Theorem fill_stores_spec (rand : nat -> Z) (max_tile_index : Z) :
  max_tile_index <> 0 ->
  exists stores tiles,
    fill_stores rand max_tile_index = Some stores /\
    fill_random_tilemap rand max_tile_index = Some tiles /\
    map snd stores = tiles /\
    map fst stores = map Z.of_nat (seq 0 (Z.to_nat (MAP_WIDTH * MAP_HEIGHT))).
Proof.
  intros Hm. destruct fill_cells_offsets as (cells & Hc & Ho).
  assert (Hlen : length cells = Z.to_nat (MAP_WIDTH * MAP_HEIGHT)).
  { rewrite <- (length_map tile_offset cells), Ho, length_map, length_seq. reflexivity. }
  unfold fill_stores, fill_random_tilemap.
  destruct (Z.eqb_spec max_tile_index 0) as [E | _]; [contradiction | ].
  rewrite Hc. eexists. eexists. split; [reflexivity | ]. split; [reflexivity | ].
  rewrite !map_map. cbn [fst snd]. split.
  - rewrite <- Hlen.
    transitivity (map (fun k => Z.rem (rand k) max_tile_index)
                      (map fst (combine (seq 0 (length cells)) cells))).
    + rewrite map_map. reflexivity.
    + rewrite map_fst_combine by (rewrite length_seq; reflexivity). reflexivity.
  - rewrite <- Ho.
    transitivity (map tile_offset (map snd (combine (seq 0 (length cells)) cells))).
    + rewrite map_map. reflexivity.
    + rewrite map_snd_combine by (rewrite length_seq; reflexivity). reflexivity.
Qed.

(** The number of iterations of [for (x = start; x < max; x += step)]. *)
Lemma trip_count_step (a b : Z) :
  1 <= b -> 0 < a -> (a + b - 1) / b = 1 + (a - b + b - 1) / b /\ 0 <= (a - b + b - 1) / b.
Proof.
  intros Hb Ha. split.
  - replace (a + b - 1) with (a - b + b - 1 + 1 * b) by lia.
    rewrite Z.div_add by lia. lia.
  - apply Z.div_pos; lia.
Qed.

Lemma for_loop_exact (step : Z) (Hstep : 1 <= step) : forall (fuel : nat) (x max : Z),
  (Z.to_nat (max - x) < fuel)%nat ->
  for_loop fuel x max step
  = Some (map (fun i => x + Z.of_nat i * step)
              (seq 0 (Z.to_nat ((max - x + step - 1) / step)))).
Proof.
  induction fuel as [ | fuel IH]; intros x max Hf; [lia | ].
  cbn [for_loop]. destruct (Z.ltb_spec x max) as [Hlt | Hge].
  - rewrite IH by lia.
    destruct (trip_count_step (max - x) step Hstep ltac:(lia)) as [E Hq].
    rewrite E. replace (max - (x + step) + step - 1) with (max - x - step + step - 1) by lia.
    rewrite Z2Nat.inj_add by lia. change (Z.to_nat 1) with 1%nat. cbn [plus seq map].
    f_equal. f_equal; [lia | ].
    rewrite <- seq_shift, map_map. apply map_ext. intros i. lia.
  - assert (E : (max - x + step - 1) / step <= 0).
    { apply Z.lt_succ_r. apply Z.div_lt_upper_bound; lia. }
    replace (Z.to_nat ((max - x + step - 1) / step)) with 0%nat by lia. reflexivity.
Qed.

Lemma for_loop_In (fuel : nat) (x max step : Z) (xs : list Z) :
  1 <= step -> (Z.to_nat (max - x) < fuel)%nat ->
  for_loop fuel x max step = Some xs ->
  forall v, In v xs <-> (x <= v < max /\ (v - x) mod step = 0).
Proof.
  intros Hstep Hf H v. rewrite (for_loop_exact step Hstep fuel x max Hf) in H.
  injection H as <-. rewrite in_map_iff. split.
  - intros (i & <- & Hi). apply in_seq in Hi.
    replace (x + Z.of_nat i * step - x) with (Z.of_nat i * step) by lia.
    rewrite Z.mod_mul by lia. split; [ | reflexivity].
    assert (Hn : Z.of_nat i < (max - x + step - 1) / step) by lia.
    assert (Hm : Z.of_nat i * step <= max - x - 1).
    { assert (Z.of_nat i + 1 <= (max - x + step - 1) / step) by lia.
      pose proof (Z.mul_div_le (max - x + step - 1) step ltac:(lia)). nia. }
    nia.
  - intros [Hv Hm]. apply Z.mod_divide in Hm; [ | lia]. destruct Hm as [q Hq].
    assert (0 <= q) by nia.
    exists (Z.to_nat q). split; [rewrite Z2Nat.id by lia; lia | ].
    apply in_seq. split; [lia | ]. cbn [plus].
    assert (q + 1 <= (max - x + step - 1) / step)
      by (apply Z.div_le_lower_bound; nia).
    lia.
Qed.

Lemma for_cells_In (fuel : nat) (start_x start_y max_x max_y step : Z) (cells : list (Z * Z)) :
  1 <= step ->
  (Z.to_nat (max_x - start_x) < fuel)%nat -> (Z.to_nat (max_y - start_y) < fuel)%nat ->
  for_cells fuel start_x start_y max_x max_y step = Some cells ->
  forall c, In c cells <->
            (start_x <= fst c < max_x /\ (fst c - start_x) mod step = 0) /\
            (start_y <= snd c < max_y /\ (snd c - start_y) mod step = 0).
Proof.
  intros Hstep Hfx Hfy H [cx cy]. unfold for_cells in H.
  destruct (for_loop fuel start_y max_y step) as [ys | ] eqn:Ey; [ | discriminate].
  destruct (for_loop fuel start_x max_x step) as [xs | ] eqn:Ex; [ | discriminate].
  injection H as <-. cbn [fst snd].
  rewrite <- (for_loop_In fuel start_x max_x step xs Hstep Hfx Ex cx).
  rewrite <- (for_loop_In fuel start_y max_y step ys Hstep Hfy Ey cy).
  rewrite in_flat_map. split.
  - intros (y & Hy & Hin). apply in_map_iff in Hin. destruct Hin as (x & E & Hx).
    injection E as <- <-. split; assumption.
  - intros [Hx Hy]. exists cy. split; [exact Hy | ]. apply in_map_iff.
    exists cx. split; [reflexivity | exact Hx].
Qed.

Lemma for_cells_length (fuel : nat) (start_x start_y max_x max_y step : Z) (cells : list (Z * Z)) :
  1 <= step ->
  (Z.to_nat (max_x - start_x) < fuel)%nat -> (Z.to_nat (max_y - start_y) < fuel)%nat ->
  for_cells fuel start_x start_y max_x max_y step = Some cells ->
  length cells
  = (Z.to_nat ((max_y - start_y + step - 1) / step)
     * Z.to_nat ((max_x - start_x + step - 1) / step))%nat.
Proof.
  intros Hstep Hfx Hfy H. unfold for_cells in H.
  rewrite (for_loop_exact step Hstep fuel start_y max_y Hfy) in H.
  rewrite (for_loop_exact step Hstep fuel start_x max_x Hfx) in H.
  injection H as <-.
  set (n := Z.to_nat ((max_x - start_x + step - 1) / step)).
  set (m := Z.to_nat ((max_y - start_y + step - 1) / step)).
  assert (E : forall ys : list Z,
             length (flat_map (fun y => map (fun x => (x, y))
                        (map (fun i : nat => start_x + Z.of_nat i * step) (seq 0 n))) ys)
             = (length ys * n)%nat).
  { clear. induction ys as [ | y ys IH]; [reflexivity | ].
    cbn [flat_map length]. rewrite length_app, IH, !length_map, length_seq. lia. }
  rewrite E, length_map, length_seq. reflexivity.
Qed.

Lemma NoDup_map_injective (A B : Type) (f : A -> B) (l : list A) :
  (forall a b, f a = f b -> a = b) -> NoDup l -> NoDup (map f l).
Proof.
  intros Hf Hl. induction Hl as [ | a l Hn Hl IH]; [constructor | ].
  cbn [map]. constructor; [ | exact IH].
  intros Hin. apply in_map_iff in Hin. destruct Hin as (b & E & Hb).
  apply Hf in E. subst b. exact (Hn Hb).
Qed.

Lemma NoDup_flat_map_rows (xs ys : list Z) :
  NoDup xs -> NoDup ys ->
  NoDup (flat_map (fun y => map (fun x => (x, y)) xs) ys).
Proof.
  intros Hx Hy. induction Hy as [ | y ys Hn Hy IH]; [constructor | ].
  cbn [flat_map]. apply NoDup_app.
  - apply NoDup_map_injective; [ | exact Hx].
    intros a b E. injection E as E. exact E.
  - exact IH.
  - intros [cx cy] H1 H2. apply in_map_iff in H1. destruct H1 as (x & E & _).
    injection E as <- <-. apply in_flat_map in H2. destruct H2 as (y' & Hy' & H2).
    apply in_map_iff in H2. destruct H2 as (x' & E & _). injection E as <- <-.
    exact (Hn Hy').
Qed.

Lemma NoDup_strides (x step : Z) (n : nat) :
  1 <= step -> NoDup (map (fun i => x + Z.of_nat i * step) (seq 0 n)).
Proof.
  intros Hs. apply NoDup_map_injective; [ | apply seq_NoDup].
  intros a b E. nia.
Qed.

Lemma for_cells_NoDup (fuel : nat) (start_x start_y max_x max_y step : Z) (cells : list (Z * Z)) :
  1 <= step ->
  (Z.to_nat (max_x - start_x) < fuel)%nat -> (Z.to_nat (max_y - start_y) < fuel)%nat ->
  for_cells fuel start_x start_y max_x max_y step = Some cells ->
  NoDup cells.
Proof.
  intros Hstep Hfx Hfy H. unfold for_cells in H.
  rewrite (for_loop_exact step Hstep fuel start_y max_y Hfy) in H.
  rewrite (for_loop_exact step Hstep fuel start_x max_x Hfx) in H.
  injection H as <-. apply NoDup_flat_map_rows; apply NoDup_strides; exact Hstep.
Qed.

(** ** The tileset of [maingl.c] *)

Module TilesetFacts.

Import Gl AtlasFacts.

Lemma land_zero_pow2 (x : Z) :
  0 < x -> Z.land x (x - 1) = 0 -> x = 2 ^ Z.log2 x.
Proof.
  intros Hx Hl.
  destruct (Z.log2_spec x Hx) as [Hlo Hhi].
  destruct (Z.eq_dec x (2 ^ Z.log2 x)) as [E | N]; [exact E | exfalso].
  assert (Hk : 0 <= Z.log2 x) by apply Z.log2_nonneg.
  assert (L1 : Z.log2 (x - 1) = Z.log2 x).
  { apply Z.log2_unique; [exact Hk | ]. lia. }
  assert (B1 : Z.testbit x (Z.log2 x) = true) by (apply Z.bit_log2; lia).
  assert (B2 : Z.testbit (x - 1) (Z.log2 x) = true).
  { rewrite <- L1. apply Z.bit_log2. pose proof (Z.pow_pos_nonneg 2 (Z.log2 x)). lia. }
  assert (B : Z.testbit (Z.land x (x - 1)) (Z.log2 x) = true).
  { rewrite Z.land_spec, B1, B2. reflexivity. }
  rewrite Hl, Z.bits_0 in B. discriminate.
Qed.

Lemma is_power_of_two_iff (x : Z) :
  is_power_of_two x = true <-> exists k, 0 <= k /\ x = 2 ^ k.
Proof.
  unfold is_power_of_two. rewrite andb_true_iff, Z.ltb_lt, Z.eqb_eq. split.
  - intros [Hx Hl]. exists (Z.log2 x). split; [apply Z.log2_nonneg | ].
    apply land_zero_pow2; assumption.
  - intros (k & Hk & ->). split; [apply Z.pow_pos_nonneg; lia | apply land_pow2_pred; exact Hk].
Qed.

Lemma main_tileset_eq (w h : Z) :
  32 <= w <= CInt.INT_MAX ->
  main_tileset (Some (w, h)) = load_tileset initial_tileset (Some (w, h)).
Proof.
  intros Hw. unfold main_tileset, load_tileset, detect_shift.
  cbn [tile_width tile_height initial_tileset cols rows use_shift shift_bits].
  unfold TILE_WIDTH, TILE_HEIGHT.
  rewrite (Z.quot_div_nonneg w 32) by lia.
  assert (Hc : 1 <= w / 32) by (apply Z.div_le_lower_bound; lia).
  assert (Hu : w / 32 <= w) by (apply Z.div_le_upper_bound; lia).
  unfold is_power_of_two.
  destruct (Z.ltb_spec 0 (w / 32)) as [_ | ]; [ | lia]. cbn [andb].
  destruct (Z.eqb_spec (Z.land (w / 32) (w / 32 - 1)) 0) as [E | E]; [ | reflexivity].
  pose proof (land_zero_pow2 (w / 32) ltac:(lia) E) as Hp.
  pose proof (Z.log2_nonneg (w / 32)) as Hk.
  assert (Hk' : Z.log2 (w / 32) <= 30).
  { apply Z.lt_succ_r. apply (Z.pow_lt_mono_r_iff 2); [lia | lia | ].
    unfold CInt.INT_MAX in Hw. change (2 ^ Z.succ 30) with (2 ^ 31). lia. }
  rewrite Hp at 1. rewrite (shift_loop_pow2 (Z.log2 (w / 32)) 32 0) by lia.
  reflexivity.
Qed.

Lemma main_tileset_geometry (w h : Z) :
  32 <= w <= CInt.INT_MAX -> 32 <= h ->
  exists ts,
    main_tileset (Some (w, h)) = Some ts /\
    cols ts = w / 32 /\ rows ts = h / 32 /\ 1 <= cols ts /\ 1 <= rows ts /\
    (use_shift ts = true -> 0 <= shift_bits ts /\ cols ts = 2 ^ shift_bits ts).
Proof.
  intros Hw Hh. rewrite main_tileset_eq by exact Hw.
  unfold load_tileset. cbn [tile_width tile_height initial_tileset].
  unfold TILE_WIDTH, TILE_HEIGHT.
  rewrite (Z.quot_div_nonneg w 32), (Z.quot_div_nonneg h 32) by lia.
  eexists. split; [reflexivity | ]. cbn [cols rows use_shift shift_bits].
  split; [reflexivity | ]. split; [reflexivity | ].
  split; [apply Z.div_le_lower_bound; lia | ].
  split; [apply Z.div_le_lower_bound; lia | ].
  intros Hu. rewrite Hu. split; [apply Z.log2_nonneg | ].
  apply is_power_of_two_iff in Hu. destruct Hu as (k & Hk & E).
  rewrite E, Z.log2_pow2 by exact Hk. reflexivity.
Qed.

Lemma atlas_cell_in_atlas (ts : Tileset) (tile_index : Z) :
  1 <= cols ts -> 1 <= rows ts ->
  (use_shift ts = true -> 0 <= shift_bits ts /\ cols ts = 2 ^ shift_bits ts) ->
  0 <= tile_index < cols ts * rows ts ->
  atlas_cell ts tile_index = Some (tile_index mod cols ts, tile_index / cols ts) /\
  0 <= tile_index mod cols ts < cols ts /\
  0 <= tile_index / cols ts < rows ts.
Proof.
  intros Hc Hr Hs Hi. split; [ | split].
  - unfold atlas_cell. destruct (use_shift ts) eqn:Hu.
    + destruct (Hs eq_refl) as [Hk E].
      rewrite (atlas_cell_shift_divmod ts (shift_bits ts)) by (auto; lia). reflexivity.
    + apply atlas_cell_divmod_nonneg; lia.
  - apply Z.mod_pos_bound. lia.
  - split; [apply Z.div_pos; lia | ]. apply Z.div_lt_upper_bound; lia.
Qed.

Lemma fill_in_range (rand : nat -> Z) (max_tile_index : Z) :
  0 < max_tile_index -> (forall k, 0 <= rand k) ->
  exists tiles,
    fill_random_tilemap rand max_tile_index = Some tiles /\
    Z.of_nat (length tiles) = MAP_WIDTH * MAP_HEIGHT /\
    Forall (fun t => 0 <= t < max_tile_index) tiles.
Proof.
  intros Hm Hr. unfold fill_random_tilemap.
  destruct (Z.eqb_spec max_tile_index 0) as [E | _]; [lia | ].
  eexists. split; [reflexivity | ]. split.
  - rewrite length_map, length_seq. apply Z2Nat.id. unfold MAP_WIDTH, MAP_HEIGHT. lia.
  - apply Forall_forall. intros t Ht. apply in_map_iff in Ht. destruct Ht as (k & <- & _).
    apply Z.rem_bound_pos; [apply Hr | exact Hm].
Qed.

Lemma all_some_map (A B : Type) (f : A -> option B) (l : list A) :
  (forall a, In a l -> exists b, f a = Some b) ->
  exists r, all_some (map f l) = Some r /\ length r = length l.
Proof.
  induction l as [ | a l IH]; intros H.
  - exists []. split; reflexivity.
  - destruct (H a (or_introl eq_refl)) as [b Hb].
    destruct IH as (r & Hr & Hl); [intros a' Ha'; apply H; right; exact Ha' | ].
    exists (b :: r). cbn [map all_some]. rewrite Hb, Hr. split; [reflexivity | ].
    cbn [length]. rewrite Hl. reflexivity.
Qed.

Lemma read_tile_in_map (tiles : list Z) (c : Z * Z) :
  Z.of_nat (length tiles) = MAP_WIDTH * MAP_HEIGHT ->
  0 <= tile_offset c < MAP_WIDTH * MAP_HEIGHT ->
  exists t, read_tile tiles c = Some t /\ In t tiles.
Proof.
  intros Hl Hc. unfold read_tile.
  destruct (Z.ltb_spec (tile_offset c) 0) as [ | _]; [lia | ].
  destruct (nth_error tiles (Z.to_nat (tile_offset c))) as [t | ] eqn:E.
  - exists t. split; [reflexivity | ]. apply nth_error_In with (1 := E).
  - apply nth_error_None in E. lia.
Qed.

End TilesetFacts.

Import TilesetFacts.

(** ** Start-up: tileset and map *)

(** X1. [is_power_of_two] accepts exactly the powers of two. *)
Theorem power_of_two_test_exact (x : Z) :
  Gl.is_power_of_two x = true <-> exists k : Z, 0 <= k /\ x = 2 ^ k.
Proof. apply is_power_of_two_iff. Qed.

(** X2. For an atlas at least one tile wide, the detection that [main] runs
    after [load_tileset] leaves [use_shift] and [shift_bits] as
    [load_tileset] set them; for a narrower one (no column) [load_tileset]
    clears [use_shift] and [main] sets it. *)
Theorem main_detection_repeats_load (w h : Z) :
  0 <= w <= CInt.INT_MAX ->
  (32 <= w ->
   Gl.main_tileset (Some (w, h)) = Gl.load_tileset Gl.initial_tileset (Some (w, h))) /\
  (w < 32 ->
   exists ts ts' : Gl.Tileset,
     Gl.load_tileset Gl.initial_tileset (Some (w, h)) = Some ts /\
     Gl.main_tileset (Some (w, h)) = Some ts' /\
     Gl.cols ts = 0 /\ Gl.use_shift ts = false /\
     Gl.cols ts' = 0 /\ Gl.use_shift ts' = true /\ Gl.shift_bits ts' = 0).
Proof.
  intros Hw. split.
  - intros H. apply main_tileset_eq. lia.
  - intros H. unfold Gl.main_tileset, Gl.load_tileset.
    cbn [Gl.tile_width Gl.tile_height Gl.initial_tileset]. unfold TILE_WIDTH.
    rewrite (Z.quot_small w 32) by lia.
    eexists. eexists. split; [reflexivity | ]. split; [reflexivity | ].
    repeat split.
Qed.

Lemma main_detection_repeats_load_witness :
  0 <= 256 <= CInt.INT_MAX /\
  Gl.main_tileset (Some (256, 64)) = Gl.load_tileset Gl.initial_tileset (Some (256, 64)).
Proof.
  assert (H : 0 <= 256 <= CInt.INT_MAX) by (unfold CInt.INT_MAX; lia).
  split; [exact H | ].
  apply (proj1 (main_detection_repeats_load 256 64 H)). lia.
Defined.

(** X3. With an atlas of at least one tile, [main] enters its loop with a
    tileset on which [draw_tile] finds, for every tile index below
    [cols * rows], a cell inside the atlas: the column is the remainder and
    the row the quotient by [cols], on the shift path as on the division
    path. *)
Theorem atlas_cell_inside_atlas (w h tile_index : Z) :
  32 <= w <= CInt.INT_MAX -> 32 <= h <= CInt.INT_MAX ->
  0 <= tile_index < (w / 32) * (h / 32) ->
  exists ts : Gl.Tileset,
    Gl.main_tileset (Some (w, h)) = Some ts /\
    Gl.cols ts = w / 32 /\ Gl.rows ts = h / 32 /\
    Gl.atlas_cell ts tile_index
    = Some (tile_index mod Gl.cols ts, tile_index / Gl.cols ts) /\
    0 <= tile_index mod Gl.cols ts < Gl.cols ts /\
    0 <= tile_index / Gl.cols ts < Gl.rows ts.
Proof.
  intros Hw Hh Hi.
  destruct (main_tileset_geometry w h Hw ltac:(lia)) as (ts & Hts & Hc & Hr & Hc1 & Hr1 & Hs).
  exists ts. split; [exact Hts | ]. split; [exact Hc | ]. split; [exact Hr | ].
  apply atlas_cell_in_atlas; try assumption. rewrite Hc, Hr. exact Hi.
Qed.

Lemma atlas_cell_inside_atlas_witness :
  32 <= 320 <= CInt.INT_MAX /\ 32 <= 96 <= CInt.INT_MAX /\
  0 <= 27 < (320 / 32) * (96 / 32) /\
  exists ts : Gl.Tileset,
    Gl.main_tileset (Some (320, 96)) = Some ts /\
    Gl.cols ts = 320 / 32 /\ Gl.rows ts = 96 / 32 /\
    Gl.atlas_cell ts 27 = Some (27 mod Gl.cols ts, 27 / Gl.cols ts) /\
    0 <= 27 mod Gl.cols ts < Gl.cols ts /\
    0 <= 27 / Gl.cols ts < Gl.rows ts.
Proof.
  assert (H1 : 32 <= 320 <= CInt.INT_MAX) by (unfold CInt.INT_MAX; lia).
  assert (H2 : 32 <= 96 <= CInt.INT_MAX) by (unfold CInt.INT_MAX; lia).
  assert (H3 : 0 <= 27 < (320 / 32) * (96 / 32)) by (vm_compute; split; [discriminate | reflexivity]).
  split; [exact H1 | ]. split; [exact H2 | ]. split; [exact H3 | ].
  exact (atlas_cell_inside_atlas 320 96 27 H1 H2 H3).
Defined.

(** X4. [fill_random_tilemap] with a positive bound and the non-negative
    results of [rand()] fills all [MAP_WIDTH * MAP_HEIGHT] cells with values
    in [0, max_tile_index). *)
Theorem fill_values_below_bound (rand : nat -> Z) (max_tile_index : Z) :
  0 < max_tile_index -> (forall k, 0 <= rand k) ->
  exists tiles : list Z,
    fill_random_tilemap rand max_tile_index = Some tiles /\
    Z.of_nat (length tiles) = MAP_WIDTH * MAP_HEIGHT /\
    Forall (fun t => 0 <= t < max_tile_index) tiles.
Proof. apply fill_in_range. Qed.

Lemma fill_values_below_bound_witness :
  0 < 12 /\ (forall k : nat, 0 <= Z.of_nat k * 7) /\
  exists tiles : list Z,
    fill_random_tilemap (fun k => Z.of_nat k * 7) 12 = Some tiles /\
    Z.of_nat (length tiles) = MAP_WIDTH * MAP_HEIGHT /\
    Forall (fun t => 0 <= t < 12) tiles.
Proof.
  assert (H1 : 0 < 12) by lia.
  assert (H2 : forall k : nat, 0 <= Z.of_nat k * 7) by (intros k; lia).
  split; [exact H1 | ]. split; [exact H2 | ].
  exact (fill_values_below_bound (fun k => Z.of_nat k * 7) 12 H1 H2).
Defined.

(** X5. The nested loops of [fill_random_tilemap] store to the array indices
    [0, 1, ..., MAP_WIDTH * MAP_HEIGHT - 1] in this order, each once: no
    cell is left unwritten and no store falls outside the array, and the
    cell of index [k] receives the result of the [k]-th call of [rand()]
    reduced modulo the bound. *)
Theorem fill_stores_each_cell_once (rand : nat -> Z) (max_tile_index : Z) :
  max_tile_index <> 0 ->
  exists (stores : list (Z * Z)) (tiles : list Z),
    fill_stores rand max_tile_index = Some stores /\
    fill_random_tilemap rand max_tile_index = Some tiles /\
    map snd stores = tiles /\
    map fst stores = map Z.of_nat (seq 0 (Z.to_nat (MAP_WIDTH * MAP_HEIGHT))).
Proof. apply fill_stores_spec. Qed.

Lemma fill_stores_each_cell_once_witness :
  12 <> 0 /\
  exists (stores : list (Z * Z)) (tiles : list Z),
    fill_stores (fun k => Z.of_nat k) 12 = Some stores /\
    fill_random_tilemap (fun k => Z.of_nat k) 12 = Some tiles /\
    map snd stores = tiles /\
    map fst stores = map Z.of_nat (seq 0 (Z.to_nat (MAP_WIDTH * MAP_HEIGHT))).
Proof.
  assert (H : 12 <> 0) by discriminate.
  split; [exact H | ].
  exact (fill_stores_each_cell_once (fun k => Z.of_nat k) 12 H).
Defined.

(** X6. Start-up returns 1 before the map is filled exactly when the image
    cannot be loaded or, in [maingl.c], the map cannot be allocated; in
    every other case, whatever the size of the image, it goes on to
    [fill_random_tilemap]. *)
Theorem startup_fatal_cases
    (surface : option (Z * Z)) (malloc_ok : bool) (rand : nat -> Z) :
  (forall w h, surface = Some (w, h) -> 0 <= w <= CInt.INT_MAX) ->
  (Gl.startup surface malloc_ok rand = Fatal <-> surface = None \/ malloc_ok = false) /\
  (Gl.startup surface malloc_ok rand <> Fatal ->
   exists max tiles, Gl.startup surface malloc_ok rand = Filled max tiles) /\
  (Sdl.startup surface rand = Fatal <-> surface = None) /\
  (Sdl.startup surface rand <> Fatal ->
   exists max tiles, Sdl.startup surface rand = Filled max tiles).
Proof.
  intros Hw. destruct surface as [[w h] | ].
  - pose proof (startup_finishes w h malloc_ok rand (Hw w h eq_refl)) as Hf.
    assert (HG : Gl.startup (Some (w, h)) malloc_ok rand = Fatal <-> malloc_ok = false).
    { revert Hf. unfold Gl.startup, Gl.load_tileset. destruct malloc_ok; cbn [negb].
      - destruct (Gl.detect_shift _); [ | congruence]. intros _. split; discriminate.
      - intros _. split; reflexivity. }
    split; [ | split; [ | split]].
    + rewrite HG. split; [intros H; right; exact H | intros [H | H]; [discriminate | exact H]].
    + intros Hn. destruct (Gl.startup (Some (w, h)) malloc_ok rand) as [ | | m t];
        [congruence | congruence | ]. exists m, t. reflexivity.
    + cbn. split; discriminate.
    + intros _. cbn. eexists. eexists. reflexivity.
  - split; [ | split; [ | split]].
    + cbn. split; [intros _; left; reflexivity | reflexivity].
    + cbn. congruence.
    + cbn. split; reflexivity.
    + cbn. congruence.
Qed.

Lemma startup_fatal_cases_witness :
  (forall w h, Some (16, 16) = Some (w, h) -> 0 <= w <= CInt.INT_MAX) /\
  (Gl.startup (Some (16, 16)) false (fun _ => 0) = Fatal <-> Some (16, 16) = @None (Z * Z) \/ false = false).
Proof.
  assert (H : forall w h, Some (16, 16) = Some (w, h) -> 0 <= w <= CInt.INT_MAX).
  { intros w h E. injection E as <- <-. unfold CInt.INT_MAX. lia. }
  split; [exact H | ].
  exact (proj1 (startup_fatal_cases (Some (16, 16)) false (fun _ => 0) H)).
Defined.

(** helper lemmas *)

Lemma sdl_wheel_zoom_levels (z wheel_y : Z) :
  z = 1 \/ z = 2 \/ z = 4 ->
  Sdl.wheel_zoom z wheel_y = 1 \/ Sdl.wheel_zoom z wheel_y = 2 \/ Sdl.wheel_zoom z wheel_y = 4.
Proof.
  unfold Sdl.wheel_zoom. intros [-> | [-> | ->]];
    destruct (0 <? wheel_y), (wheel_y <? 0); cbn; lia.
Qed.

Lemma sdl_handle_events_zoom (es : list Sdl.Event) : forall s : Sdl.Session,
  Sdl.zoom s = 1 \/ Sdl.zoom s = 2 \/ Sdl.zoom s = 4 ->
  Sdl.zoom (Sdl.handle_events s es) = 1 \/ Sdl.zoom (Sdl.handle_events s es) = 2
  \/ Sdl.zoom (Sdl.handle_events s es) = 4.
Proof.
  induction es as [ | e es IH]; intros s Hs; [exact Hs | ].
  apply IH. destruct e; cbn [Sdl.handle_event Sdl.zoom]; try exact Hs.
  - destruct (Sdl.dragging s); exact Hs.
  - apply sdl_wheel_zoom_levels, Hs.
Qed.

Lemma gl_running_step (s : Gl.Session) (e : Gl.Event) :
  Gl.running (Gl.handle_event s e) = true <-> Gl.running s = true /\ e <> Gl.Quit.
Proof.
  destruct e; cbn [Gl.handle_event]; try (destruct (Gl.dragging s)); cbn [Gl.running];
    (split; [intros H; first [discriminate | split; [exact H | discriminate]]
            | intros [H N]; first [exact H | exfalso; apply N; reflexivity]]).
Qed.

Lemma gl_running_latch (es : list Gl.Event) : forall s : Gl.Session,
  Gl.running (Gl.handle_events s es) = true <-> Gl.running s = true /\ ~ In Gl.Quit es.
Proof.
  induction es as [ | e es IH]; intros s.
  - cbn. tauto.
  - change (Gl.handle_events s (e :: es)) with (Gl.handle_events (Gl.handle_event s e) es).
    rewrite IH, gl_running_step. cbn [In]. split.
    + intros [[H1 H2] H3]. split; [exact H1 | ]. intros [H | H]; [exact (H2 H) | exact (H3 H)].
    + intros [H1 H2]. split; [split; [exact H1 | ] | ].
      * intros H. apply H2. left. exact H.
      * intros H. apply H2. right. exact H.
Qed.

Lemma sdl_running_step (s : Sdl.Session) (e : Sdl.Event) :
  Sdl.running (Sdl.handle_event s e) = true <-> Sdl.running s = true /\ e <> Sdl.Quit.
Proof.
  destruct e; cbn [Sdl.handle_event]; try (destruct (Sdl.dragging s)); cbn [Sdl.running];
    (split; [intros H; first [discriminate | split; [exact H | discriminate]]
            | intros [H N]; first [exact H | exfalso; apply N; reflexivity]]).
Qed.

Lemma sdl_running_latch (es : list Sdl.Event) : forall s : Sdl.Session,
  Sdl.running (Sdl.handle_events s es) = true <-> Sdl.running s = true /\ ~ In Sdl.Quit es.
Proof.
  induction es as [ | e es IH]; intros s.
  - cbn. tauto.
  - change (Sdl.handle_events s (e :: es)) with (Sdl.handle_events (Sdl.handle_event s e) es).
    rewrite IH, sdl_running_step. cbn [In]. split.
    + intros [[H1 H2] H3]. split; [exact H1 | ]. intros [H | H]; [exact (H2 H) | exact (H3 H)].
    + intros [H1 H2]. split; [split; [exact H1 | ] | ].
      * intros H. apply H2. left. exact H.
      * intros H. apply H2. right. exact H.
Qed.

(** ** Events *)

(** X7. In [main.c] the zoom is 1, 2 or 4 after every sequence of events: the
    wheel doubles it below 4 and halves it above 1. *)
Theorem sdl_zoom_levels (es : list Sdl.Event) :
  Sdl.zoom (Sdl.handle_events Sdl.initial_session es) = 1 \/
  Sdl.zoom (Sdl.handle_events Sdl.initial_session es) = 2 \/
  Sdl.zoom (Sdl.handle_events Sdl.initial_session es) = 4.
Proof. apply sdl_handle_events_zoom. left. reflexivity. Qed.

(** X8. [running] is cleared by a quit event and by nothing else, and no event
    sets it again: after a batch of events the loop goes on exactly when
    it was running and the batch holds no quit event. *)
Theorem quit_is_latched (s : Gl.Session) (es : list Gl.Event)
    (t : Sdl.Session) (es' : list Sdl.Event) :
  (Gl.running (Gl.handle_events s es) = true <-> Gl.running s = true /\ ~ In Gl.Quit es) /\
  (Sdl.running (Sdl.handle_events t es') = true
   <-> Sdl.running t = true /\ ~ In Sdl.Quit es').
Proof. split; [apply gl_running_latch | apply sdl_running_latch]. Qed.

Lemma gl_idle_step (s : Gl.Session) (e : Gl.Event) :
  Gl.dragging s = false ->
  (forall x y, e <> Gl.LeftButtonDown x y) ->
  (forall wy mx my, e <> Gl.MouseWheel wy mx my) ->
  Gl.dragging (Gl.handle_event s e) = false /\
  Gl.offset_x (Gl.handle_event s e) = Gl.offset_x s /\
  Gl.offset_y (Gl.handle_event s e) = Gl.offset_y s /\
  Gl.zoom (Gl.handle_event s e) = Gl.zoom s.
Proof.
  intros Hd Hb Hw. destruct e; cbn [Gl.handle_event]; try rewrite Hd; cbn;
    try (repeat split; assumption).
  - exfalso. exact (Hb x y eq_refl).
  - exfalso. exact (Hw wheel_y mx my eq_refl).
Qed.

Lemma gl_idle_events (es : list Gl.Event) : forall s : Gl.Session,
  Gl.dragging s = false ->
  (forall x y, ~ In (Gl.LeftButtonDown x y) es) ->
  (forall wy mx my, ~ In (Gl.MouseWheel wy mx my) es) ->
  Gl.offset_x (Gl.handle_events s es) = Gl.offset_x s /\
  Gl.offset_y (Gl.handle_events s es) = Gl.offset_y s /\
  Gl.zoom (Gl.handle_events s es) = Gl.zoom s.
Proof.
  induction es as [ | e es IH]; intros s Hd Hb Hw; [repeat split | ].
  change (Gl.handle_events s (e :: es)) with (Gl.handle_events (Gl.handle_event s e) es).
  destruct (gl_idle_step s e Hd) as (Hd' & Ex & Ey & Ez).
  - intros x y E. apply (Hb x y). left. exact E.
  - intros wy mx my E. apply (Hw wy mx my). left. exact E.
  - destruct (IH (Gl.handle_event s e) Hd') as (Ex' & Ey' & Ez').
    + intros x y H. apply (Hb x y). right. exact H.
    + intros wy mx my H. apply (Hw wy mx my). right. exact H.
    + rewrite Ex', Ey', Ez'. repeat split; assumption.
Qed.

Lemma sdl_idle_step (s : Sdl.Session) (e : Sdl.Event) :
  Sdl.dragging s = false ->
  (forall x y, e <> Sdl.LeftButtonDown x y) ->
  Sdl.dragging (Sdl.handle_event s e) = false /\
  Sdl.offset_x (Sdl.handle_event s e) = Sdl.offset_x s /\
  Sdl.offset_y (Sdl.handle_event s e) = Sdl.offset_y s.
Proof.
  intros Hd Hb. destruct e; cbn [Sdl.handle_event]; try rewrite Hd; cbn;
    try (repeat split; assumption).
  exfalso. exact (Hb x y eq_refl).
Qed.

Lemma sdl_idle_events (es : list Sdl.Event) : forall s : Sdl.Session,
  Sdl.dragging s = false ->
  (forall x y, ~ In (Sdl.LeftButtonDown x y) es) ->
  Sdl.offset_x (Sdl.handle_events s es) = Sdl.offset_x s /\
  Sdl.offset_y (Sdl.handle_events s es) = Sdl.offset_y s.
Proof.
  induction es as [ | e es IH]; intros s Hd Hb; [repeat split | ].
  change (Sdl.handle_events s (e :: es)) with (Sdl.handle_events (Sdl.handle_event s e) es).
  destruct (sdl_idle_step s e Hd) as (Hd' & Ex & Ey).
  - intros x y E. apply (Hb x y). left. exact E.
  - destruct (IH (Sdl.handle_event s e) Hd') as (Ex' & Ey').
    + intros x y H. apply (Hb x y). right. exact H.
    + rewrite Ex', Ey'. repeat split; assumption.
Qed.

(** X9. While the left button is not held, pointer motion and every event other
    than a button press and (in [maingl.c]) the wheel leave the camera as
    it is.  In [main.c] the wheel changes the zoom and never the offset. *)
Theorem camera_still_without_drag (s : Gl.Session) (es : list Gl.Event)
    (t : Sdl.Session) (es' : list Sdl.Event) :
  Gl.dragging s = false ->
  (forall x y, ~ In (Gl.LeftButtonDown x y) es) ->
  (forall wheel_y mx my, ~ In (Gl.MouseWheel wheel_y mx my) es) ->
  Sdl.dragging t = false ->
  (forall x y, ~ In (Sdl.LeftButtonDown x y) es') ->
  (Gl.offset_x (Gl.handle_events s es) = Gl.offset_x s /\
   Gl.offset_y (Gl.handle_events s es) = Gl.offset_y s /\
   Gl.zoom (Gl.handle_events s es) = Gl.zoom s) /\
  (Sdl.offset_x (Sdl.handle_events t es') = Sdl.offset_x t /\
   Sdl.offset_y (Sdl.handle_events t es') = Sdl.offset_y t).
Proof.
  intros Hd Hb Hw Hd' Hb'. split.
  - apply gl_idle_events; assumption.
  - apply sdl_idle_events; assumption.
Qed.

Lemma camera_still_without_drag_witness :
  Gl.offset_x (Gl.handle_events Gl.initial_session
                 [Gl.MouseMotion 10 20; Gl.LeftButtonUp; Gl.MouseMotion 300 5;
                  Gl.WindowResized 640 480])
  = Gl.offset_x Gl.initial_session /\
  Sdl.offset_x (Sdl.handle_events Sdl.initial_session
                  [Sdl.MouseMotion 10 20; Sdl.MouseWheel 1; Sdl.MouseMotion 300 5])
  = Sdl.offset_x Sdl.initial_session.
Proof.
  destruct (camera_still_without_drag
              Gl.initial_session
              [Gl.MouseMotion 10 20; Gl.LeftButtonUp; Gl.MouseMotion 300 5;
               Gl.WindowResized 640 480]
              Sdl.initial_session
              [Sdl.MouseMotion 10 20; Sdl.MouseWheel 1; Sdl.MouseMotion 300 5])
    as [(H1 & _) (H2 & _)].
  - reflexivity.
  - intros x y [H | [H | [H | [H | []]]]]; discriminate.
  - intros wy mx my [H | [H | [H | [H | []]]]]; discriminate.
  - reflexivity.
  - intros x y [H | [H | [H | []]]]; discriminate.
  - exact (conj H1 H2).
Defined.

(** ** The draw loop *)

Lemma align_start_multiple (min lod start : Z) :
  1 <= lod -> Gl.align_start min lod = Some start -> start mod lod = 0.
Proof.
  intros Hl. unfold Gl.align_start, CInt.div.
  destruct (Z.eqb_spec lod 0); [lia | ]. intros H. injection H as <-.
  apply Z.mod_mul. lia.
Qed.

Lemma align_start_bounds (min lod start : Z) :
  0 <= min -> 1 <= lod -> Gl.align_start min lod = Some start ->
  0 <= start <= min /\ min < start + lod.
Proof.
  intros Hm Hl. unfold Gl.align_start, CInt.div.
  destruct (Z.eqb_spec lod 0); [lia | ]. intros H. injection H as <-.
  rewrite Z.quot_div_nonneg by lia.
  pose proof (Z.mul_div_le min lod ltac:(lia)).
  pose proof (Z.mul_succ_div_gt min lod ltac:(lia)).
  assert (0 <= min / lod) by (apply Z.div_pos; lia). nia.
Qed.

Lemma mod_shift_multiple (v s l : Z) :
  1 <= l -> s mod l = 0 -> ((v - s) mod l = 0 <-> v mod l = 0).
Proof.
  intros Hl Hs. apply Z.mod_divide in Hs; [ | lia]. destruct Hs as [q ->].
  replace (v - q * l) with (v + (- q) * l) by lia. rewrite Z.mod_add by lia. reflexivity.
Qed.

Lemma gl_draw_cells_frame (s : Gl.Session) (screen_w screen_h : Z) (r : Gl.VisibleRange) :
  Gl.zoom_ok s -> Gl.visible_range s screen_w screen_h = Some r ->
  1 <= Gl.lod r /\
  0 <= Gl.min_x r /\ 0 <= Gl.min_y r /\
  Gl.max_x r <= MAP_WIDTH /\ Gl.max_y r <= MAP_HEIGHT /\
  (0 <= Gl.start_x r <= Gl.min_x r /\ Gl.min_x r < Gl.start_x r + Gl.lod r) /\
  (0 <= Gl.start_y r <= Gl.min_y r /\ Gl.min_y r < Gl.start_y r + Gl.lod r) /\
  Gl.start_x r mod Gl.lod r = 0 /\ Gl.start_y r mod Gl.lod r = 0.
Proof.
  intros [V R] Hr.
  destruct (visible_range_inv s screen_w screen_h r Hr)
    as (mnx & mny & mxx & mxy & Ex & Ey & Emx & Emy & El & Esx & Esy).
  destruct (lod_of_zoom_defined (Gl.zoom s) V R) as (l & Hl & Hb & _).
  rewrite Hl in El. injection El as El.
  assert (H1 : 1 <= Gl.lod r) by lia.
  assert (Hx : 0 <= Gl.min_x r) by (rewrite Ex; apply clamp_min_nonneg).
  assert (Hy : 0 <= Gl.min_y r) by (rewrite Ey; apply clamp_min_nonneg).
  split; [exact H1 | ]. split; [exact Hx | ]. split; [exact Hy | ].
  split; [rewrite Emx; apply clamp_max_le | ].
  split; [rewrite Emy; apply clamp_max_le | ].
  split; [exact (align_start_bounds _ _ _ Hx H1 Esx) | ].
  split; [exact (align_start_bounds _ _ _ Hy H1 Esy) | ].
  split; [exact (align_start_multiple _ _ _ H1 Esx) | exact (align_start_multiple _ _ _ H1 Esy)].
Qed.

(** X10. The cells that the draw loop of [maingl.c] visits are exactly the
    points of the lattice of the multiples of the stride, on both axes,
    that lie between the aligned start and the clamped maximum; each is
    visited once.  A cell drawn in one frame is therefore drawn in every
    frame of the same stride whose range holds it. *)
Theorem draw_loop_visits_stride_lattice
    (s : Gl.Session) (screen_w screen_h : Z) (r : Gl.VisibleRange) :
  Gl.zoom_ok s -> Gl.visible_range s screen_w screen_h = Some r ->
  exists cells : list (Z * Z),
    Gl.draw_cells 1001 r = Some cells /\
    NoDup cells /\
    forall c : Z * Z,
      In c cells <->
      (Gl.start_x r <= fst c < Gl.max_x r /\ Gl.start_y r <= snd c < Gl.max_y r /\
       fst c mod Gl.lod r = 0 /\ snd c mod Gl.lod r = 0).
Proof.
  intros Hz Hr.
  destruct (gl_draw_cells_frame s screen_w screen_h r Hz Hr)
    as (Hl & Hx & Hy & HMx & HMy & Hsx & Hsy & Dx & Dy).
  assert (Fx : (Z.to_nat (Gl.max_x r - Gl.start_x r) < 1001)%nat)
    by (unfold MAP_WIDTH in HMx; lia).
  assert (Fy : (Z.to_nat (Gl.max_y r - Gl.start_y r) < 1001)%nat)
    by (unfold MAP_HEIGHT in HMy; lia).
  destruct (for_cells_spec 1001 (Gl.start_x r) (Gl.start_y r) (Gl.max_x r) (Gl.max_y r)
              (Gl.lod r) Hl Fx Fy) as (cells & Hc & _).
  exists cells. unfold Gl.draw_cells. split; [exact Hc | ]. split.
  - exact (for_cells_NoDup _ _ _ _ _ _ _ Hl Fx Fy Hc).
  - intros c. rewrite (for_cells_In _ _ _ _ _ _ _ Hl Fx Fy Hc c).
    rewrite (mod_shift_multiple (fst c) _ _ Hl Dx), (mod_shift_multiple (snd c) _ _ Hl Dy).
    tauto.
Qed.

Lemma draw_loop_visits_stride_lattice_witness :
  Gl.zoom_ok (Gl.session_at (of_int (-32040)) (of_int 0) (literal 1 1)) /\
  exists cells : list (Z * Z),
    Gl.draw_cells 1001 {| Gl.min_x := 1001; Gl.min_y := 0; Gl.max_x := 1000; Gl.max_y := 188;
                          Gl.lod := 3; Gl.start_x := 999; Gl.start_y := 0 |} = Some cells /\
    NoDup cells.
Proof.
  assert (Z1 : Gl.zoom_ok (Gl.session_at (of_int (-32040)) (of_int 0) (literal 1 1)))
    by (repeat split; reflexivity).
  split; [exact Z1 | ].
  destruct (draw_loop_visits_stride_lattice
              (Gl.session_at (of_int (-32040)) (of_int 0) (literal 1 1)) 800 600 _ Z1 eq_refl)
    as (cells & Hc & Hn & _).
  exists cells. exact (conj Hc Hn).
Defined.

(** X11. Every cell of the visible range of [maingl.c] is covered by a drawn
    representative: the quad of a visited cell spans [lod] cells on each
    axis, and each cell between the clamped minimum and the clamped maximum
    lies in the span of one visited cell. *)
Theorem visible_cells_are_covered
    (s : Gl.Session) (screen_w screen_h : Z) (r : Gl.VisibleRange) (cx cy : Z) :
  Gl.zoom_ok s -> Gl.visible_range s screen_w screen_h = Some r ->
  Gl.min_x r <= cx < Gl.max_x r -> Gl.min_y r <= cy < Gl.max_y r ->
  exists (cells : list (Z * Z)) (c : Z * Z),
    Gl.draw_cells 1001 r = Some cells /\ In c cells /\
    fst c <= cx < fst c + Gl.lod r /\ snd c <= cy < snd c + Gl.lod r.
Proof.
  intros Hz Hr Hcx Hcy.
  destruct (gl_draw_cells_frame s screen_w screen_h r Hz Hr)
    as (Hl & Hx & Hy & HMx & HMy & Hsx & Hsy & Dx & Dy).
  assert (Fx : (Z.to_nat (Gl.max_x r - Gl.start_x r) < 1001)%nat)
    by (unfold MAP_WIDTH in HMx; lia).
  assert (Fy : (Z.to_nat (Gl.max_y r - Gl.start_y r) < 1001)%nat)
    by (unfold MAP_HEIGHT in HMy; lia).
  destruct (for_cells_spec 1001 (Gl.start_x r) (Gl.start_y r) (Gl.max_x r) (Gl.max_y r)
              (Gl.lod r) Hl Fx Fy) as (cells & Hc & _).
  exists cells, (cx / Gl.lod r * Gl.lod r, cy / Gl.lod r * Gl.lod r).
  unfold Gl.draw_cells. split; [exact Hc | ].
  pose proof (Z.mul_div_le cx (Gl.lod r) ltac:(lia)) as Ax.
  pose proof (Z.mul_succ_div_gt cx (Gl.lod r) ltac:(lia)) as Bx.
  pose proof (Z.mul_div_le cy (Gl.lod r) ltac:(lia)) as Ay.
  pose proof (Z.mul_succ_div_gt cy (Gl.lod r) ltac:(lia)) as By.
  assert (Gx : Gl.start_x r <= cx / Gl.lod r * Gl.lod r).
  { apply Z.mod_divide in Dx; [ | lia]. destruct Dx as [q Eq]. rewrite Eq.
    apply Z.mul_le_mono_nonneg_r; [lia | ]. apply Z.div_le_lower_bound; lia. }
  assert (Gy : Gl.start_y r <= cy / Gl.lod r * Gl.lod r).
  { apply Z.mod_divide in Dy; [ | lia]. destruct Dy as [q Eq]. rewrite Eq.
    apply Z.mul_le_mono_nonneg_r; [lia | ]. apply Z.div_le_lower_bound; lia. }
  cbn [fst snd]. split; [ | split; lia].
  apply (for_cells_In _ _ _ _ _ _ _ Hl Fx Fy Hc). cbn [fst snd].
  rewrite (mod_shift_multiple _ _ _ Hl Dx), (mod_shift_multiple _ _ _ Hl Dy).
  rewrite !Z.mod_mul by lia. repeat split; lia.
Qed.

Lemma visible_cells_are_covered_witness :
  Gl.zoom_ok (Gl.session_at (of_int (-100)) (of_int (-50)) (literal 1 1)) /\
  Gl.visible_range (Gl.session_at (of_int (-100)) (of_int (-50)) (literal 1 1)) 800 600
  = Some {| Gl.min_x := 3; Gl.min_y := 1; Gl.max_x := 254; Gl.max_y := 190;
            Gl.lod := 3; Gl.start_x := 3; Gl.start_y := 0 |} /\
  exists (cells : list (Z * Z)) (c : Z * Z),
    Gl.draw_cells 1001 {| Gl.min_x := 3; Gl.min_y := 1; Gl.max_x := 254; Gl.max_y := 190;
                          Gl.lod := 3; Gl.start_x := 3; Gl.start_y := 0 |} = Some cells /\
    In c cells /\ fst c <= 5 < fst c + 3 /\ snd c <= 2 < snd c + 3.
Proof.
  assert (Z1 : Gl.zoom_ok (Gl.session_at (of_int (-100)) (of_int (-50)) (literal 1 1)))
    by (repeat split; reflexivity).
  split; [exact Z1 | ]. split; [reflexivity | ].
  apply (visible_cells_are_covered
           (Gl.session_at (of_int (-100)) (of_int (-50)) (literal 1 1)) 800 600
           {| Gl.min_x := 3; Gl.min_y := 1; Gl.max_x := 254; Gl.max_y := 190;
              Gl.lod := 3; Gl.start_x := 3; Gl.start_y := 0 |} 5 2 Z1 eq_refl);
    cbn; lia.
Defined.

(** X12. The draw loop of [main.c] visits each cell between the clamped minimum
    and the clamped maximum once, inside the map, and no other cell. *)
Theorem sdl_draw_loop_visits_range (t : Sdl.Session) (r : Sdl.VisibleRange) :
  Sdl.visible_range t = Some r ->
  exists cells : list (Z * Z),
    Sdl.draw_cells 1001 r = Some cells /\
    NoDup cells /\
    (forall c : Z * Z,
       In c cells <->
       (Sdl.min_x r <= fst c < Sdl.max_x r /\ Sdl.min_y r <= snd c < Sdl.max_y r)) /\
    length cells
    = (Z.to_nat (Sdl.max_y r - Sdl.min_y r) * Z.to_nat (Sdl.max_x r - Sdl.min_x r))%nat.
Proof.
  intros Hr. destruct (sdl_visible_range_inv t r Hr)
    as (mnx & mny & mxx & mxy & Ex & Ey & Emx & Emy).
  assert (Hmx : 0 <= Sdl.min_x r) by (rewrite Ex; apply clamp_min_nonneg).
  assert (Hmy : 0 <= Sdl.min_y r) by (rewrite Ey; apply clamp_min_nonneg).
  assert (HMx : Sdl.max_x r <= MAP_WIDTH) by (rewrite Emx; apply clamp_max_le).
  assert (HMy : Sdl.max_y r <= MAP_HEIGHT) by (rewrite Emy; apply clamp_max_le).
  assert (Fx : (Z.to_nat (Sdl.max_x r - Sdl.min_x r) < 1001)%nat)
    by (unfold MAP_WIDTH in HMx; lia).
  assert (Fy : (Z.to_nat (Sdl.max_y r - Sdl.min_y r) < 1001)%nat)
    by (unfold MAP_HEIGHT in HMy; lia).
  assert (H1 : 1 <= 1) by lia.
  destruct (for_cells_spec 1001 (Sdl.min_x r) (Sdl.min_y r) (Sdl.max_x r) (Sdl.max_y r)
              1 H1 Fx Fy) as (cells & Hc & _).
  exists cells. unfold Sdl.draw_cells. split; [exact Hc | ]. split; [ | split].
  - exact (for_cells_NoDup _ _ _ _ _ _ _ H1 Fx Fy Hc).
  - intros c. rewrite (for_cells_In _ _ _ _ _ _ _ H1 Fx Fy Hc c).
    rewrite !Z.mod_1_r. tauto.
  - rewrite (for_cells_length _ _ _ _ _ _ _ H1 Fx Fy Hc).
    f_equal; f_equal; rewrite Z.div_1_r; lia.
Qed.

Lemma sdl_draw_loop_visits_range_witness :
  Sdl.visible_range Sdl.initial_session
  = Some {| Sdl.min_x := 487; Sdl.min_y := 490; Sdl.max_x := 513; Sdl.max_y := 510 |} /\
  exists cells : list (Z * Z),
    Sdl.draw_cells 1001 {| Sdl.min_x := 487; Sdl.min_y := 490;
                           Sdl.max_x := 513; Sdl.max_y := 510 |} = Some cells /\
    NoDup cells /\
    length cells = (Z.to_nat (510 - 490) * Z.to_nat (513 - 487))%nat.
Proof.
  split; [reflexivity | ].
  destruct (sdl_draw_loop_visits_range Sdl.initial_session
              {| Sdl.min_x := 487; Sdl.min_y := 490; Sdl.max_x := 513; Sdl.max_y := 510 |}
              eq_refl) as (cells & Hc & Hn & _ & Hl).
  exists cells. exact (conj Hc (conj Hn Hl)).
Defined.

(** ** Hover and frames *)

Module HoverFacts.

Import F32 F32Facts Gl GlFacts CameraFacts ViewportFacts.

(** The cast of a finite number below [2^28] in absolute value is defined,
    and not above the number in absolute value. *)
Lemma int_of_float_defined (x : float) :
  valid x -> is_finite x = true -> Z.abs (val x) <= 2 ^ (28 + 149) ->
  exists n, int_of_float x = Some n /\ Z.abs n * 2 ^ 149 <= Z.abs (val x).
Proof.
  intros V F Hv. destruct (Ztrunc_bound x V F) as (n & Hn & Hb).
  exists n. split; [ | exact Hb]. unfold int_of_float. rewrite Hn.
  assert (R : CInt.in_range n = true).
  { unfold CInt.in_range, CInt.INT_MIN, CInt.INT_MAX.
    pose proof (pow2_pos 149 ltac:(lia)) as H149.
    change (2 ^ (28 + 149)) with (2 ^ 28 * 2 ^ 149) in Hv.
    assert (Z.abs n <= 2 ^ 28) by nia.
    change (2 ^ 28) with 268435456 in *. change (2 ^ 31) with 2147483648.
    apply andb_true_iff. split; apply Z.leb_le; lia. }
  rewrite R. reflexivity.
Qed.

(** The pointer in world units, [p / zoom], for a pointer inside a window of
    at most 65536 pixels. *)
Lemma pointer_over_zoom (p : Z) (z : float) :
  valid z -> zoom_in_range z -> 0 <= p <= 65536 ->
  valid (div (of_int p) z) /\ is_finite (div (of_int p) z) = true /\
  Z.abs (val (div (of_int p) z)) <= 2 ^ (27 + 149).
Proof.
  intros V R Hp. destruct (Z.eq_dec p 0) as [-> | Hn].
  - destruct (zoom_in_range_inv z V R) as (mz & ez & -> & _).
    split; [reflexivity | ]. split; [reflexivity | ]. cbn. lia.
  - apply screen_over_zoom; [exact V | exact R | lia].
Qed.

(** The world coordinate under the pointer, in tiles. *)
Lemma world_tile_spec (p : Z) (z o : float) :
  valid z -> zoom_in_range z -> 0 <= p <= 65536 -> near o ->
  valid (div (world_of_screen p z o) (of_int 32)) /\
  is_finite (div (world_of_screen p z o) (of_int 32)) = true /\
  Z.abs (val (div (world_of_screen p z o) (of_int 32))) <= 2 ^ (28 + 149).
Proof.
  intros V R Hs (Vo & Fo & Ho). unfold world_of_screen.
  destruct (pointer_over_zoom p z V R Hs) as (Va & Fa & Ha).
  set (a := div (of_int p) z) in *.
  assert (Hdiff : Z.abs (val a - val o) < 2 ^ (27 + 149) + 2 ^ (30 + 149)) by lia.
  assert (Fb : is_finite (sub a o) = true).
  { apply SFsub_no_overflow; try assumption.
    eapply Z.lt_trans; [exact Hdiff | ]. reflexivity. }
  destruct (SFsub_spec a o Va Vo Fa Fo) as (Vb & _ & Herr). specialize (Herr Fb).
  fold (sub a o) in Vb, Herr.
  apply (div_tile_spec (sub a o) Vb Fb).
  change (2 ^ 24) with 16777216 in Herr.
  assert (2 ^ (27 + 149) + 2 ^ (30 + 149) + 2 ^ (30 + 149) < 2 ^ (33 + 149)) by reflexivity.
  pose proof (pow2_pos (30 + 149) ltac:(lia)). lia.
Qed.

Lemma hover_coord_defined (p : Z) (z o : float) :
  valid z -> zoom_in_range z -> 0 <= p <= 65536 -> near o ->
  exists n, hover_coord p z o 32 = Some n.
Proof.
  intros V R Hp Ho. destruct (world_tile_spec p z o V R Hp Ho) as (Vd & Fd & Hd).
  destruct (int_of_float_defined _ Vd Fd Hd) as (n & Hn & _).
  exists n. exact Hn.
Qed.

Lemma in_grid_in_map (tile_x tile_y : Z) :
  in_grid tile_x tile_y = true <-> in_map (tile_x, tile_y).
Proof.
  unfold in_grid, in_map. cbn [fst snd].
  rewrite !andb_true_iff, !Z.leb_le, !Z.ltb_lt. tauto.
Qed.

Lemma gl_hover_defined (s : Session) (mx my : Z) :
  zoom_ok s -> near (offset_x s) -> near (offset_y s) ->
  0 <= mx <= 65536 -> 0 <= my <= 65536 ->
  exists h, hover s mx my = Some h /\
            forall tile_x tile_y, h = Some (tile_x, tile_y) -> in_map (tile_x, tile_y).
Proof.
  intros [V R] Nx Ny Hx Hy. unfold hover, TILE_WIDTH, TILE_HEIGHT.
  destruct (hover_coord_defined mx _ _ V R Hx Nx) as [tx ->].
  destruct (hover_coord_defined my _ _ V R Hy Ny) as [ty ->].
  eexists. split; [reflexivity | ].
  intros tile_x tile_y. destruct (in_grid tx ty) eqn:G; [ | discriminate].
  intros E. injection E as <- <-. apply in_grid_in_map, G.
Qed.

End HoverFacts.

Import HoverFacts.

Lemma startup_main_tileset (surface : option (Z * Z)) (ts : Gl.Tileset) (rand : nat -> Z) :
  Gl.main_tileset surface = Some ts ->
  Gl.startup surface true rand
  = Filled (Gl.cols ts * Gl.rows ts) (fill_random_tilemap rand (Gl.cols ts * Gl.rows ts)).
Proof.
  unfold Gl.main_tileset, Gl.startup.
  destruct (Gl.load_tileset Gl.initial_tileset surface) as [ts0 | ]; [ | discriminate].
  intros ->. reflexivity.
Qed.

Lemma gl_draw_cells_in_map (s : Gl.Session) (screen_w screen_h : Z) (r : Gl.VisibleRange) :
  Gl.zoom_ok s -> Gl.visible_range s screen_w screen_h = Some r ->
  exists cells,
    Gl.draw_cells 1001 r = Some cells /\
    Forall (fun c => 0 <= tile_offset c < MAP_WIDTH * MAP_HEIGHT) cells.
Proof.
  intros Hz Hr.
  destruct (gl_draw_cells_frame s screen_w screen_h r Hz Hr)
    as (Hl & Hx & Hy & HMx & HMy & Hsx & Hsy & Dx & Dy).
  assert (Fx : (Z.to_nat (Gl.max_x r - Gl.start_x r) < 1001)%nat)
    by (unfold MAP_WIDTH in HMx; lia).
  assert (Fy : (Z.to_nat (Gl.max_y r - Gl.start_y r) < 1001)%nat)
    by (unfold MAP_HEIGHT in HMy; lia).
  destruct (for_cells_spec 1001 (Gl.start_x r) (Gl.start_y r) (Gl.max_x r) (Gl.max_y r)
              (Gl.lod r) Hl Fx Fy) as (cells & Hc & Hall & _).
  exists cells. split; [exact Hc | ].
  apply Forall_impl with (2 := Hall). intros c Hin.
  apply in_map_offset. unfold in_map. lia.
Qed.

Lemma gl_frame_quads_defined (ts : Gl.Tileset) (tiles : list Z) (s : Gl.Session)
    (screen_w screen_h : Z) (r : Gl.VisibleRange) :
  1 <= Gl.cols ts -> 1 <= Gl.rows ts ->
  (Gl.use_shift ts = true -> 0 <= Gl.shift_bits ts /\ Gl.cols ts = 2 ^ Gl.shift_bits ts) ->
  Z.of_nat (length tiles) = MAP_WIDTH * MAP_HEIGHT ->
  Forall (fun t => 0 <= t < Gl.cols ts * Gl.rows ts) tiles ->
  Gl.zoom_ok s -> Gl.visible_range s screen_w screen_h = Some r ->
  exists cells quads,
    Gl.draw_cells 1001 r = Some cells /\
    Gl.frame_quads ts tiles s screen_w screen_h = Some quads /\
    length quads = length cells.
Proof.
  intros Hc Hr Hs Hlen Hall Hz Hv.
  destruct (gl_draw_cells_in_map s screen_w screen_h r Hz Hv) as (cells & Hcells & Hin).
  destruct (all_some_map _ _
              (fun c => match read_tile tiles c with
                        | Some tile_index =>
                            Gl.draw_tile (fst c) (snd c) tile_index ts
                              (Gl.zoom s) (Gl.offset_x s) (Gl.offset_y s) (Gl.lod r)
                              (Gl.uv_step (Gl.cols ts)) (Gl.uv_step (Gl.rows ts))
                        | None => None
                        end) cells) as (quads & Hq & Hl).
  - intros c Hcin. rewrite Forall_forall in Hin, Hall.
    destruct (read_tile_in_map tiles c Hlen (Hin c Hcin)) as (t & -> & Ht).
    destruct (atlas_cell_in_atlas ts t Hc Hr Hs (Hall t Ht)) as (Ha & _).
    unfold Gl.draw_tile. rewrite Ha. eexists. reflexivity.
  - exists cells, quads. split; [exact Hcells | ]. split; [ | exact Hl].
    unfold Gl.frame_quads. rewrite Hv, Hcells. exact Hq.
Qed.

(** ** Frames of [main.c] *)

Lemma sdl_near_gl (o : float) : Sdl.near o -> Gl.near o.
Proof.
  intros (V & F & H). split; [exact V | ]. split; [exact F | ].
  eapply Z.lt_trans; [exact H | reflexivity].
Qed.

Lemma sdl_zoom_float (z : Z) :
  z = 1 \/ z = 2 \/ z = 4 -> valid (of_int z) /\ Gl.zoom_in_range (of_int z).
Proof. intros [-> | [-> | ->]]; repeat split; reflexivity. Qed.

Lemma sdl_int_of_offset (o : float) :
  Sdl.near o -> exists n, int_of_float o = Some n /\ Z.abs n < 2 ^ 28.
Proof.
  intros (V & F & H). destruct (int_of_float_defined o V F ltac:(lia)) as (n & Hn & Hb).
  exists n. split; [exact Hn | ].
  pose proof (pow2_pos 149 ltac:(lia)) as H149.
  change (2 ^ (28 + 149)) with (2 ^ 28 * 2 ^ 149) in H. nia.
Qed.

Lemma sdl_raw_min_defined (o : float) :
  Sdl.near o -> exists n, Sdl.raw_min o 32 = Some n.
Proof.
  intros N. apply sdl_near_gl in N. destruct N as (V & F & Hv). unfold Sdl.raw_min.
  destruct (opp_spec o V) as (Vo & Fo & Ho). rewrite F in Fo.
  destruct (div_tile_spec (opp o) Vo Fo) as (Vd & Fd & Hd).
  { rewrite Ho, Z.abs_opp. eapply Z.lt_trans; [exact Hv | ]. reflexivity. }
  destruct (int_of_float_defined _ Vd Fd Hd) as (n & Hn & _). exists n. exact Hn.
Qed.

Lemma sdl_raw_max_defined (screen z : Z) (o : float) :
  z = 1 \/ z = 2 \/ z = 4 -> 0 <= screen <= 65536 -> Sdl.near o ->
  exists n, Sdl.raw_max screen z o 32 = Some n.
Proof.
  intros Hz Hs N. apply sdl_near_gl in N. destruct (sdl_zoom_float z Hz) as [V R].
  destruct (world_tile_spec screen (of_int z) o V R Hs N) as (Vd & Fd & Hd).
  destruct (int_of_float_defined _ Vd Fd Hd) as (n & Hn & _).
  unfold Sdl.raw_max. unfold Gl.world_of_screen in Hn. rewrite Hn. eexists. reflexivity.
Qed.

Lemma sdl_visible_range_defined (t : Sdl.Session) :
  Sdl.zoom t = 1 \/ Sdl.zoom t = 2 \/ Sdl.zoom t = 4 ->
  Sdl.near (Sdl.offset_x t) -> Sdl.near (Sdl.offset_y t) ->
  exists r, Sdl.visible_range t = Some r.
Proof.
  intros Hz Nx Ny. unfold Sdl.visible_range. cbn [Sdl.tile_width Sdl.tile_height Sdl.initial_tileset].
  destruct (sdl_raw_min_defined _ Nx) as [mnx ->].
  destruct (sdl_raw_min_defined _ Ny) as [mny ->].
  destruct (sdl_raw_max_defined SCREEN_WIDTH _ _ Hz ltac:(unfold SCREEN_WIDTH; lia) Nx) as [mxx ->].
  destruct (sdl_raw_max_defined SCREEN_HEIGHT _ _ Hz ltac:(unfold SCREEN_HEIGHT; lia) Ny) as [mxy ->].
  eexists. reflexivity.
Qed.

Lemma sdl_screen_coord_defined (tile zoom : Z) (o : float) :
  0 <= tile <= 1000 -> zoom = 1 \/ zoom = 2 \/ zoom = 4 -> Sdl.near o ->
  exists d n, int_of_float o = Some n /\ Sdl.screen_coord tile 32 o zoom = Some d /\
              d = (tile * 32 + n) * zoom.
Proof.
  intros Ht Hz N. destruct (sdl_int_of_offset o N) as (n & Hn & Hb).
  unfold Sdl.screen_coord. rewrite Hn.
  change (2 ^ 28) with 268435456 in Hb.
  assert (R : CInt.in_range (tile * 32) && CInt.in_range (tile * 32 + n)
              && CInt.in_range ((tile * 32 + n) * zoom) = true).
  { unfold CInt.in_range, CInt.INT_MIN, CInt.INT_MAX. change (2 ^ 31) with 2147483648.
    rewrite !andb_true_iff, !Z.leb_le. destruct Hz as [-> | [-> | ->]]; lia. }
  rewrite R. eexists. eexists. split; [reflexivity | ]. split; reflexivity.
Qed.

Lemma sdl_hover_coord_defined (p zoom : Z) (o : float) :
  zoom = 1 \/ zoom = 2 \/ zoom = 4 -> Z.abs p <= 2 ^ 30 -> Sdl.near o ->
  exists n, int_of_float o = Some n /\
            Sdl.hover_coord p zoom o 32 = Some (Z.quot (Z.quot p zoom - n) 32).
Proof.
  intros Hz Hp N. destruct (sdl_int_of_offset o N) as (n & Hn & Bn).
  exists n. split; [exact Hn | ]. unfold Sdl.hover_coord, CInt.div. rewrite Hn.
  assert (Hq : Z.abs (Z.quot p zoom) <= Z.abs p).
  { pose proof (Z.quot_rem' p zoom) as Q.
    assert (Hzn : zoom <> 0) by lia.
    pose proof (Z.rem_bound_abs p zoom Hzn) as B.
    pose proof (Z.rem_sign_mul p zoom Hzn) as S.
    destruct Hz as [-> | [-> | ->]]; lia. }
  assert (R : CInt.in_range (Z.quot p zoom - n) = true).
  { unfold CInt.in_range, CInt.INT_MIN, CInt.INT_MAX. change (2 ^ 31) with 2147483648.
    change (2 ^ 30) with 1073741824 in Hp. change (2 ^ 28) with 268435456 in Bn.
    rewrite andb_true_iff, !Z.leb_le. lia. }
  destruct Hz as [-> | [-> | ->]]; cbn [Z.eqb]; rewrite R; reflexivity.
Qed.

(** ** Whole frames *)

(** X13. [maingl.c], from start-up to a frame.  With an atlas of at least one
    tile (and a tile count that fits in [int]) and the non-negative results
    of [rand()], after every sequence of events that leaves the camera
    within [2^30] pixels of the origin, in a window of at most 65536 pixels
    a side, the frame is computed: no cast, division or array read of the
    draw loop is undefined, and each visited cell yields one quad. *)
Theorem gl_frame_is_defined
    (w h : Z) (rand : nat -> Z) (es : list Gl.Event) (screen_w screen_h : Z) :
  32 <= w <= CInt.INT_MAX -> 32 <= h <= CInt.INT_MAX ->
  (w / 32) * (h / 32) <= CInt.INT_MAX ->
  (forall k, 0 <= rand k) ->
  Gl.near (Gl.offset_x (Gl.handle_events Gl.initial_session es)) ->
  Gl.near (Gl.offset_y (Gl.handle_events Gl.initial_session es)) ->
  0 < screen_w <= 65536 -> 0 < screen_h <= 65536 ->
  exists (ts : Gl.Tileset) (tiles : list Z) (r : Gl.VisibleRange)
         (cells : list (Z * Z)) (quads : list Gl.Quad),
    Gl.main_tileset (Some (w, h)) = Some ts /\
    Gl.startup (Some (w, h)) true rand = Filled (Gl.cols ts * Gl.rows ts) (Some tiles) /\
    Gl.visible_range (Gl.handle_events Gl.initial_session es) screen_w screen_h = Some r /\
    Gl.draw_cells 1001 r = Some cells /\
    Gl.frame_quads ts tiles (Gl.handle_events Gl.initial_session es) screen_w screen_h
    = Some quads /\
    length quads = length cells.
Proof.
  intros Hw Hh _ Hrand Nx Ny Hsw Hsh.
  destruct (main_tileset_geometry w h Hw ltac:(lia)) as (ts & Hts & Hc & Hr & Hc1 & Hr1 & Hs).
  destruct (fill_in_range rand (Gl.cols ts * Gl.rows ts) ltac:(nia) Hrand)
    as (tiles & Hfill & Hlen & Hall).
  pose proof (handle_events_zoom_ok es Gl.initial_session initial_session_zoom_ok) as Hz.
  destruct (visible_range_defined _ screen_w screen_h Nx Ny Hz Hsw Hsh) as [r Hv].
  destruct (gl_frame_quads_defined ts tiles _ screen_w screen_h r Hc1 Hr1 Hs Hlen Hall Hz Hv)
    as (cells & quads & Hcells & Hq & Hl).
  exists ts, tiles, r, cells, quads.
  split; [exact Hts | ]. split.
  - rewrite (startup_main_tileset _ ts rand Hts), Hfill. reflexivity.
  - repeat split; assumption.
Qed.

Lemma gl_frame_is_defined_witness :
  32 <= 256 <= CInt.INT_MAX /\ 32 <= 64 <= CInt.INT_MAX /\
  (256 / 32) * (64 / 32) <= CInt.INT_MAX /\
  Gl.near (Gl.offset_x (Gl.handle_events Gl.initial_session
             [Gl.LeftButtonDown 10 10; Gl.MouseMotion 30 50; Gl.MouseWheel (-1) 400 300])) /\
  Gl.near (Gl.offset_y (Gl.handle_events Gl.initial_session
             [Gl.LeftButtonDown 10 10; Gl.MouseMotion 30 50; Gl.MouseWheel (-1) 400 300])) /\
  exists (ts : Gl.Tileset) (tiles : list Z) (quads : list Gl.Quad),
    Gl.startup (Some (256, 64)) true (fun k => Z.of_nat k)
    = Filled (Gl.cols ts * Gl.rows ts) (Some tiles) /\
    Gl.frame_quads ts tiles
      (Gl.handle_events Gl.initial_session
         [Gl.LeftButtonDown 10 10; Gl.MouseMotion 30 50; Gl.MouseWheel (-1) 400 300])
      800 600 = Some quads.
Proof.
  assert (H1 : 32 <= 256 <= CInt.INT_MAX) by (unfold CInt.INT_MAX; lia).
  assert (H2 : 32 <= 64 <= CInt.INT_MAX) by (unfold CInt.INT_MAX; lia).
  assert (H3 : (256 / 32) * (64 / 32) <= CInt.INT_MAX) by (vm_compute; discriminate).
  assert (H4 : forall k : nat, 0 <= Z.of_nat k) by (intros k; lia).
  assert (H5 : Gl.near (Gl.offset_x (Gl.handle_events Gl.initial_session
             [Gl.LeftButtonDown 10 10; Gl.MouseMotion 30 50; Gl.MouseWheel (-1) 400 300])))
    by (repeat split; reflexivity).
  assert (H6 : Gl.near (Gl.offset_y (Gl.handle_events Gl.initial_session
             [Gl.LeftButtonDown 10 10; Gl.MouseMotion 30 50; Gl.MouseWheel (-1) 400 300])))
    by (repeat split; reflexivity).
  split; [exact H1 | ]. split; [exact H2 | ]. split; [exact H3 | ].
  split; [exact H5 | ]. split; [exact H6 | ].
  destruct (gl_frame_is_defined 256 64 (fun k => Z.of_nat k)
              [Gl.LeftButtonDown 10 10; Gl.MouseMotion 30 50; Gl.MouseWheel (-1) 400 300]
              800 600 H1 H2 H3 H4 H5 H6 ltac:(lia) ltac:(lia))
    as (ts & tiles & r & cells & quads & _ & Hs & _ & _ & Hq & _).
  exists ts, tiles, quads. exact (conj Hs Hq).
Defined.

(** X14. The hover of [maingl.c] is computed for every camera within [2^30]
    pixels of the origin, every zoom in the range and every pointer
    position inside a window of at most 65536 pixels a side, and
    [draw_tile_outline] is called only for a tile inside the map. *)
Theorem gl_hover_is_defined (s : Gl.Session) (mx my : Z) :
  Gl.zoom_ok s -> Gl.near (Gl.offset_x s) -> Gl.near (Gl.offset_y s) ->
  0 <= mx <= 65536 -> 0 <= my <= 65536 ->
  exists h : option (Z * Z),
    Gl.hover s mx my = Some h /\
    forall tile_x tile_y : Z, h = Some (tile_x, tile_y) -> in_map (tile_x, tile_y).
Proof. apply gl_hover_defined. Qed.

Lemma gl_hover_is_defined_witness :
  Gl.zoom_ok Gl.initial_session /\
  Gl.near (Gl.offset_x Gl.initial_session) /\ Gl.near (Gl.offset_y Gl.initial_session) /\
  exists h : option (Z * Z),
    Gl.hover Gl.initial_session 400 300 = Some h /\
    forall tile_x tile_y : Z, h = Some (tile_x, tile_y) -> in_map (tile_x, tile_y).
Proof.
  assert (H1 : Gl.zoom_ok Gl.initial_session) by (repeat split; reflexivity).
  assert (H2 : Gl.near (Gl.offset_x Gl.initial_session)) by (repeat split; reflexivity).
  assert (H3 : Gl.near (Gl.offset_y Gl.initial_session)) by (repeat split; reflexivity).
  split; [exact H1 | ]. split; [exact H2 | ]. split; [exact H3 | ].
  apply (gl_hover_is_defined Gl.initial_session 400 300 H1 H2 H3); lia.
Defined.

(** X15. [main.c]: after every sequence of events that leaves the camera within
    [2^28] pixels of the origin, the frame is computed.  The visible range
    and the draw loop are defined, every visited cell lies in the map and
    has a destination rectangle, and for every pointer position within
    [2^30] pixels of the origin the highlight is defined: no cast is out of
    range, no division is by zero and no [int] operation overflows, the
    subtraction [mx / zoom - (int) offset_x] of the hover included. *)
Theorem sdl_frame_is_defined (es : list Sdl.Event) (mx my : Z) :
  Sdl.near (Sdl.offset_x (Sdl.handle_events Sdl.initial_session es)) ->
  Sdl.near (Sdl.offset_y (Sdl.handle_events Sdl.initial_session es)) ->
  Z.abs mx <= 2 ^ 30 -> Z.abs my <= 2 ^ 30 ->
  exists (r : Sdl.VisibleRange) (cells : list (Z * Z)) (hl : option Sdl.Rect),
    Sdl.visible_range (Sdl.handle_events Sdl.initial_session es) = Some r /\
    Sdl.draw_cells 1001 r = Some cells /\
    (forall c : Z * Z, In c cells ->
       in_map c /\
       exists d : Sdl.Rect,
         Sdl.tile_rect Sdl.initial_tileset (Sdl.handle_events Sdl.initial_session es)
                       (fst c) (snd c) = Some d) /\
    Sdl.highlight (Sdl.handle_events Sdl.initial_session es) mx my = Some hl.
Proof.
  intros Nx Ny Pmx Pmy. set (t := Sdl.handle_events Sdl.initial_session es) in *.
  assert (Hz : Sdl.zoom t = 1 \/ Sdl.zoom t = 2 \/ Sdl.zoom t = 4).
  { apply sdl_handle_events_zoom. left. reflexivity. }
  destruct (sdl_visible_range_defined t Hz Nx Ny) as [r Hr].
  assert (Hrect : forall x y, 0 <= x <= 1000 -> 0 <= y <= 1000 ->
                  exists d, Sdl.tile_rect Sdl.initial_tileset t x y = Some d).
  { intros x y Hx Hy. unfold Sdl.tile_rect.
    cbn [Sdl.tile_width Sdl.tile_height Sdl.initial_tileset].
    destruct (sdl_screen_coord_defined x (Sdl.zoom t) _ Hx Hz Nx) as (dx & _ & _ & -> & _).
    destruct (sdl_screen_coord_defined y (Sdl.zoom t) _ Hy Hz Ny) as (dy & _ & _ & -> & _).
    eexists. reflexivity. }
  destruct (sdl_visible_range_inv t r Hr) as (mnx & mny & mxx & mxy & Ex & Ey & Emx & Emy).
  assert (Hmx : 0 <= Sdl.min_x r) by (rewrite Ex; apply clamp_min_nonneg).
  assert (Hmy : 0 <= Sdl.min_y r) by (rewrite Ey; apply clamp_min_nonneg).
  assert (HMx : Sdl.max_x r <= MAP_WIDTH) by (rewrite Emx; apply clamp_max_le).
  assert (HMy : Sdl.max_y r <= MAP_HEIGHT) by (rewrite Emy; apply clamp_max_le).
  destruct (for_cells_spec 1001 (Sdl.min_x r) (Sdl.min_y r) (Sdl.max_x r) (Sdl.max_y r) 1)
    as (cells & Hc & Hall & _);
    [lia | unfold MAP_WIDTH in *; lia | unfold MAP_HEIGHT in *; lia | ].
  assert (Hhl : exists hl, Sdl.highlight t mx my = Some hl).
  { unfold Sdl.highlight, Sdl.hover.
    cbn [Sdl.tile_width Sdl.tile_height Sdl.initial_tileset].
    destruct (sdl_hover_coord_defined mx (Sdl.zoom t) _ Hz Pmx Nx) as (ox & _ & ->).
    destruct (sdl_hover_coord_defined my (Sdl.zoom t) _ Hz Pmy Ny) as (oy & _ & ->).
    destruct (Gl.in_grid _ _) eqn:G; [ | eexists; reflexivity].
    apply in_grid_in_map in G. unfold in_map, MAP_WIDTH, MAP_HEIGHT in G. cbn [fst snd] in G.
    match goal with
    | |- context [Sdl.tile_rect _ t ?x ?y] => destruct (Hrect x y) as [d ->]; [lia | lia | ]
    end.
    eexists. reflexivity. }
  destruct Hhl as [hl Hhl].
  exists r, cells, hl. split; [exact Hr | ]. split; [exact Hc | ]. split; [ | exact Hhl].
  intros c Hin. rewrite Forall_forall in Hall. specialize (Hall c Hin).
  unfold in_map, MAP_WIDTH, MAP_HEIGHT in *. split; [lia | ].
  apply Hrect; lia.
Qed.

Lemma sdl_frame_is_defined_witness :
  Sdl.near (Sdl.offset_x (Sdl.handle_events Sdl.initial_session
              [Sdl.LeftButtonDown 10 10; Sdl.MouseWheel 1; Sdl.MouseMotion 30 50])) /\
  Sdl.near (Sdl.offset_y (Sdl.handle_events Sdl.initial_session
              [Sdl.LeftButtonDown 10 10; Sdl.MouseWheel 1; Sdl.MouseMotion 30 50])) /\
  exists (r : Sdl.VisibleRange) (hl : option Sdl.Rect),
    Sdl.visible_range (Sdl.handle_events Sdl.initial_session
                         [Sdl.LeftButtonDown 10 10; Sdl.MouseWheel 1; Sdl.MouseMotion 30 50])
    = Some r /\
    Sdl.highlight (Sdl.handle_events Sdl.initial_session
                     [Sdl.LeftButtonDown 10 10; Sdl.MouseWheel 1; Sdl.MouseMotion 30 50])
                  400 300 = Some hl.
Proof.
  assert (H1 : Sdl.near (Sdl.offset_x (Sdl.handle_events Sdl.initial_session
              [Sdl.LeftButtonDown 10 10; Sdl.MouseWheel 1; Sdl.MouseMotion 30 50])))
    by (repeat split; reflexivity).
  assert (H2 : Sdl.near (Sdl.offset_y (Sdl.handle_events Sdl.initial_session
              [Sdl.LeftButtonDown 10 10; Sdl.MouseWheel 1; Sdl.MouseMotion 30 50])))
    by (repeat split; reflexivity).
  split; [exact H1 | ]. split; [exact H2 | ].
  assert (P1 : Z.abs 400 <= 2 ^ 30) by (vm_compute; discriminate).
  assert (P2 : Z.abs 300 <= 2 ^ 30) by (vm_compute; discriminate).
  destruct (sdl_frame_is_defined
              [Sdl.LeftButtonDown 10 10; Sdl.MouseWheel 1; Sdl.MouseMotion 30 50]
              400 300 H1 H2 P1 P2) as (r & cells & hl & Hr & _ & _ & Hh).
  exists r, hl. exact (conj Hr Hh).
Defined.

(** X16. In [main.c] the source rectangle of every tile index below
    [cols * rows] lies inside the atlas texture. *)
Theorem sdl_src_rect_inside_texture (tex_w tex_h tile_index : Z) :
  32 <= tex_w -> 32 <= tex_h ->
  0 <= tile_index < (tex_w / 32) * (tex_h / 32) ->
  exists r : Sdl.Rect,
    Sdl.src_rect (Sdl.main_tileset tex_w tex_h) tile_index = Some r /\
    0 <= Sdl.rect_x r /\ Sdl.rect_x r + Sdl.rect_w r <= tex_w /\
    0 <= Sdl.rect_y r /\ Sdl.rect_y r + Sdl.rect_h r <= tex_h.
Proof.
  intros Hw Hh Hi. unfold Sdl.src_rect, Sdl.main_tileset, CInt.rem, CInt.div.
  cbn [Sdl.cols Sdl.rows Sdl.tile_width Sdl.tile_height Sdl.initial_tileset].
  rewrite (Z.quot_div_nonneg tex_w 32) by lia.
  assert (Hc : 1 <= tex_w / 32) by (apply Z.div_le_lower_bound; lia).
  assert (Hr : 1 <= tex_h / 32) by (apply Z.div_le_lower_bound; lia).
  destruct (Z.eqb_spec (tex_w / 32) 0) as [E | _]; [lia | ].
  rewrite Z.rem_mod_nonneg, Z.quot_div_nonneg by lia.
  eexists. split; [reflexivity | ]. cbn [Sdl.rect_x Sdl.rect_y Sdl.rect_w Sdl.rect_h].
  pose proof (Z.mod_pos_bound tile_index (tex_w / 32) ltac:(lia)) as Hm.
  assert (Hq : 0 <= tile_index / (tex_w / 32) < tex_h / 32).
  { split; [apply Z.div_pos; lia | apply Z.div_lt_upper_bound; lia]. }
  pose proof (Z.mul_div_le tex_w 32 ltac:(lia)).
  pose proof (Z.mul_div_le tex_h 32 ltac:(lia)).
  lia.
Qed.

Lemma sdl_src_rect_inside_texture_witness :
  32 <= 320 /\ 32 <= 100 /\ 0 <= 29 < (320 / 32) * (100 / 32) /\
  exists r : Sdl.Rect,
    Sdl.src_rect (Sdl.main_tileset 320 100) 29 = Some r /\
    0 <= Sdl.rect_x r /\ Sdl.rect_x r + Sdl.rect_w r <= 320 /\
    0 <= Sdl.rect_y r /\ Sdl.rect_y r + Sdl.rect_h r <= 100.
Proof.
  assert (H1 : 32 <= 320) by lia. assert (H2 : 32 <= 100) by lia.
  assert (H3 : 0 <= 29 < (320 / 32) * (100 / 32))
    by (vm_compute; split; [discriminate | reflexivity]).
  split; [exact H1 | ]. split; [exact H2 | ]. split; [exact H3 | ].
  exact (sdl_src_rect_inside_texture 320 100 29 H1 H2 H3).
Defined.

(** X17. In [main.c], for a pointer whose window coordinates are not negative
    ([0 <= mx, my <= 65536]: inside the window, or right of or below it)
    and that is not left of or above the origin of the map (its world
    coordinate [mx / zoom - (int) offset_x], in [int] arithmetic, is not
    negative), when a tile is highlighted the highlight rectangle holds
    the pointer.  A pointer left of or above the window, which SDL reports
    with a negative coordinate while the button captures the mouse, is
    outside this statement: [mx / zoom] then rounds towards zero. *)
Theorem sdl_highlight_holds_pointer
    (t : Sdl.Session) (mx my ox oy tile_x tile_y : Z) :
  Sdl.zoom t = 1 \/ Sdl.zoom t = 2 \/ Sdl.zoom t = 4 ->
  0 <= mx <= 65536 -> 0 <= my <= 65536 ->
  int_of_float (Sdl.offset_x t) = Some ox -> int_of_float (Sdl.offset_y t) = Some oy ->
  Z.abs ox < 2 ^ 28 -> Z.abs oy < 2 ^ 28 ->
  0 <= mx / Sdl.zoom t - ox -> 0 <= my / Sdl.zoom t - oy ->
  Sdl.hover t mx my = Some (Some (tile_x, tile_y)) ->
  exists r : Sdl.Rect,
    Sdl.highlight t mx my = Some (Some r) /\
    Sdl.rect_x r <= mx < Sdl.rect_x r + Sdl.rect_w r /\
    Sdl.rect_y r <= my < Sdl.rect_y r + Sdl.rect_h r.
Proof.
  intros Hz Hmx Hmy Hox Hoy Box Boy Wx Wy Hh.
  assert (Zp : 0 < Sdl.zoom t) by lia.
  unfold Sdl.highlight. rewrite Hh.
  unfold Sdl.hover, Sdl.hover_coord, CInt.div in Hh. rewrite Hox, Hoy in Hh.
  cbn [Sdl.tile_width Sdl.tile_height Sdl.initial_tileset] in Hh.
  destruct (Z.eqb_spec (Sdl.zoom t) 0) as [E | _]; [lia | ].
  cbn [Z.eqb] in Hh.
  rewrite (Z.quot_div_nonneg mx), (Z.quot_div_nonneg my) in Hh by lia.
  destruct (CInt.in_range (mx / Sdl.zoom t - ox)); [ | discriminate Hh].
  destruct (CInt.in_range (my / Sdl.zoom t - oy)); [ | discriminate Hh].
  rewrite (Z.quot_div_nonneg (mx / Sdl.zoom t - ox)) in Hh by lia.
  rewrite (Z.quot_div_nonneg (my / Sdl.zoom t - oy)) in Hh by lia.
  destruct (Gl.in_grid _ _) eqn:G; [ | discriminate].
  injection Hh as Etx Ety.
  apply in_grid_in_map in G. rewrite Etx, Ety in G.
  unfold in_map, MAP_WIDTH, MAP_HEIGHT in G. cbn [fst snd] in G.
  pose proof (Z.mul_div_le mx (Sdl.zoom t) Zp) as A1.
  pose proof (Z.mul_succ_div_gt mx (Sdl.zoom t) Zp) as A2.
  pose proof (Z.mul_div_le my (Sdl.zoom t) Zp) as B1.
  pose proof (Z.mul_succ_div_gt my (Sdl.zoom t) Zp) as B2.
  pose proof (Z.mul_div_le (mx / Sdl.zoom t - ox) 32 ltac:(lia)) as C1.
  pose proof (Z.mul_succ_div_gt (mx / Sdl.zoom t - ox) 32 ltac:(lia)) as C2.
  pose proof (Z.mul_div_le (my / Sdl.zoom t - oy) 32 ltac:(lia)) as D1.
  pose proof (Z.mul_succ_div_gt (my / Sdl.zoom t - oy) 32 ltac:(lia)) as D2.
  rewrite Etx in C1, C2. rewrite Ety in D1, D2.
  change (2 ^ 28) with 268435456 in Box, Boy.
  unfold Sdl.tile_rect, Sdl.screen_coord. rewrite Hox, Hoy.
  cbn [Sdl.tile_width Sdl.tile_height Sdl.initial_tileset].
  assert (Rx : CInt.in_range (tile_x * 32) && CInt.in_range (tile_x * 32 + ox)
               && CInt.in_range ((tile_x * 32 + ox) * Sdl.zoom t) = true).
  { unfold CInt.in_range, CInt.INT_MIN, CInt.INT_MAX. change (2 ^ 31) with 2147483648.
    rewrite !andb_true_iff, !Z.leb_le. destruct Hz as [-> | [-> | ->]]; lia. }
  assert (Ry : CInt.in_range (tile_y * 32) && CInt.in_range (tile_y * 32 + oy)
               && CInt.in_range ((tile_y * 32 + oy) * Sdl.zoom t) = true).
  { unfold CInt.in_range, CInt.INT_MIN, CInt.INT_MAX. change (2 ^ 31) with 2147483648.
    rewrite !andb_true_iff, !Z.leb_le. destruct Hz as [-> | [-> | ->]]; lia. }
  rewrite Rx, Ry. eexists. split; [reflexivity | ].
  cbn [Sdl.rect_x Sdl.rect_y Sdl.rect_w Sdl.rect_h]. nia.
Qed.

Lemma sdl_highlight_holds_pointer_witness :
  Sdl.hover Sdl.initial_session 400 300 = Some (Some (500, 500)) /\
  exists r : Sdl.Rect,
    Sdl.highlight Sdl.initial_session 400 300 = Some (Some r) /\
    Sdl.rect_x r <= 400 < Sdl.rect_x r + Sdl.rect_w r /\
    Sdl.rect_y r <= 300 < Sdl.rect_y r + Sdl.rect_h r.
Proof.
  split; [reflexivity | ].
  apply (sdl_highlight_holds_pointer Sdl.initial_session 400 300 (-15600) (-15700) 500 500);
    try reflexivity; try (left; reflexivity); try lia; vm_compute; discriminate.
Defined.

(** * Rounding: what the frame computes exactly, and how far off the rest is *)

(** ** Exact results *)

(** A multiple of [2^s] within half of [2^s] of another multiple is that
    multiple. *)
Lemma half_step_multiple (a b s : Z) :
  0 <= s -> 2 * Z.abs (a * 2 ^ s - b * 2 ^ s) <= 2 ^ s -> a = b.
Proof.
  intros Hs H. pose proof (pow2_pos s Hs) as Hp.
  replace (a * 2 ^ s - b * 2 ^ s) with ((a - b) * 2 ^ s) in H by ring.
  rewrite Z.abs_mul, (Z.abs_eq (2 ^ s)) in H by lia. nia.
Qed.

(** The digits of [m' * 2^k] with [m'] below [2^24]. *)
Lemma digits_representable (m' k : Z) :
  0 < m' < 2 ^ 24 -> 0 <= k -> Zdigits2 (m' * 2 ^ k) <= 24 + k.
Proof.
  intros Hm Hk. rewrite Zdigits2_mul_pow2 by lia.
  pose proof (Zdigits2_bounds m' ltac:(lia)) as [Blo _].
  destruct (Z_le_gt_dec (Zdigits2 m') 24) as [H | H]; [lia | ].
  pose proof (pow2_le 24 (Zdigits2 m' - 1) ltac:(lia)). lia.
Qed.

(** [binary_round] of a representable value is exact. *)
Lemma binary_round_exact (sx : bool) (mx : positive) (ex m' k : Z) :
  -149 <= ex -> Zpos mx = m' * 2 ^ k -> 0 <= k -> 0 < m' < 2 ^ 24 ->
  exists m1 e1 : Z,
    -149 <= e1 /\
    m1 * 2 ^ (e1 + 149) = Zpos mx * 2 ^ (ex + 149) /\
    rounded sx m1 e1 (binary_round prec emax sx mx ex).
Proof.
  intros Hex Hrep Hk Hm'. unfold binary_round. rewrite fexp_32.
  change (Zpos (digits2_pos mx)) with (Zdigits2 (Zpos mx)).
  set (c := fexp32 (Zdigits2 (Zpos mx) + ex)).
  pose proof (shl_align_spec mx ex c) as [Hez Hmz].
  destruct (shl_align mx ex c) as [mz ez]. cbn [fst snd] in Hez, Hmz.
  rewrite <- Hez in Hmz.
  pose proof (Zdigits2_pos (Zpos mx) ltac:(lia)) as Hd.
  assert (Hc : -149 <= c) by (subst c; unfold fexp32; lia).
  assert (Hpre : fexp32 (Zdigits2 (Zpos mz) + ez) = c).
  { rewrite Hmz, Zdigits2_mul_pow2 by lia. subst c.
    destruct (Z_le_gt_dec ex (fexp32 (Zdigits2 (Zpos mx) + ex))) as [H | H].
    - replace (ex - ez) with 0 by lia. rewrite Z.add_0_r.
      replace ez with ex by lia. reflexivity.
    - replace (Zdigits2 (Zpos mx) + (ex - ez) + ez) with (Zdigits2 (Zpos mx) + ex) by lia.
      reflexivity. }
  destruct (binary_round_aux_spec sx (Zpos mz) ez loc_Exact ltac:(lia) ltac:(lia))
    as (m1 & Hb & Herr & Hres).
  rewrite Hpre in *. specialize (Herr eq_refl).
  assert (Hn : 0 <= c - ez) by lia.
  pose proof (pow2_pos (c - ez) Hn) as Hp.
  pose proof (pow2_pos (ez + 149) ltac:(lia)) as Hq.
  assert (E1 : 2 ^ (c + 149) = 2 ^ (c - ez) * 2 ^ (ez + 149)).
  { rewrite <- Z.pow_add_r by lia. f_equal. lia. }
  assert (E2 : Zpos mx * 2 ^ (ex + 149) = Zpos mz * 2 ^ (ez + 149)).
  { rewrite Hmz, <- Z.mul_assoc, <- Z.pow_add_r by lia. do 2 f_equal. lia. }
  assert (Hexact : m1 * 2 ^ (c - ez) = Zpos mz).
  { destruct (Z.eq_dec c ez) as [E | E].
    - rewrite E, Z.sub_diag, Z.pow_0_r in *. lia.
    - assert (Hgt : ez < c) by lia.
      assert (Hsame : ez = ex /\ mz = mx).
      { destruct (Z_le_gt_dec ex c) as [H | H]; [ | lia].
        split; [lia | ]. replace (ex - ez) with 0 in Hmz by lia.
        rewrite Z.pow_0_r in Hmz. lia. }
      destruct Hsame as [-> ->].
      assert (Hcd : c - ex = Zdigits2 (Zpos mx) - 24) by (subst c; unfold fexp32 in *; lia).
      pose proof (digits_representable m' k Hm' Hk) as Hdig. rewrite <- Hrep in Hdig.
      assert (Hsk : c - ex <= k) by lia.
      assert (Hsplit : Zpos mx = (m' * 2 ^ (k - (c - ex))) * 2 ^ (c - ex)).
      { rewrite Hrep, <- Z.mul_assoc, <- Z.pow_add_r by lia. do 2 f_equal. lia. }
      rewrite Hsplit in Herr |- *. f_equal.
      apply (half_step_multiple _ _ (c - ex)); [lia | exact Herr]. }
  exists m1, c. split; [exact Hc | ]. split.
  - rewrite E1, E2, Z.mul_assoc, Hexact. reflexivity.
  - destruct Hres as [[Hz _] | Hr]; [ | exact Hr].
    exfalso. rewrite Hz in Hexact. lia.
Qed.

(** [binary_normalize] of a representable value is exact. *)
Lemma binary_normalize_exact (M e m' k : Z) (szero : bool) :
  -149 <= e -> M = m' * 2 ^ k -> 0 <= k -> Z.abs m' < 2 ^ 24 ->
  is_finite (binary_normalize prec emax M e szero) = true ->
  val (binary_normalize prec emax M e szero) = M * 2 ^ (e + 149).
Proof.
  intros He Hrep Hk Hm' Hf. pose proof (pow2_pos k Hk) as Hp.
  destruct M as [ | p | p]; cbn [binary_normalize] in *.
  - reflexivity.
  - destruct (binary_round_exact false p e m' k He Hrep Hk ltac:(nia))
      as (m1 & e1 & He1 & Hex & Hr).
    rewrite (rounded_val _ _ _ _ Hr He1 Hf). cbn [cond_Zopp]. exact Hex.
  - destruct (binary_round_exact true p e (- m') k He ltac:(lia) Hk ltac:(nia))
      as (m1 & e1 & He1 & Hex & Hr).
    rewrite (rounded_val _ _ _ _ Hr He1 Hf). cbn [cond_Zopp]. rewrite Hex. lia.
Qed.

(** ** Integer parts *)

Lemma unit_cancel (a e : Z) :
  -149 <= e < 0 -> (a * 2 ^ (e + 149)) / 2 ^ 149 = a / 2 ^ (- e).
Proof.
  intros He. pose proof (pow2_pos (e + 149) ltac:(lia)) as Hp.
  pose proof (pow2_pos (- e) ltac:(lia)) as Hq.
  replace (2 ^ 149) with (2 ^ (- e) * 2 ^ (e + 149))
    by (rewrite <- Z.pow_add_r by lia; f_equal; lia).
  apply Z.div_mul_cancel_r; lia.
Qed.

Lemma unit_scale (a e : Z) :
  0 <= e -> (a * 2 ^ (e + 149)) / 2 ^ 149 = a * 2 ^ e.
Proof.
  intros He. rewrite Z.pow_add_r, Z.mul_assoc by lia.
  apply Z.div_mul. apply Z.pow_nonzero; lia.
Qed.

Lemma cond_Zopp_mul (s : bool) (a b : Z) : cond_Zopp s (a * b) = cond_Zopp s a * b.
Proof. destruct s; cbn [cond_Zopp]; ring. Qed.

Lemma Zfloor_val (s : bool) (m : positive) (e : Z) :
  -149 <= e -> Zfloor s m e = val (S754_finite s m e) / 2 ^ 149.
Proof.
  intros He. unfold Zfloor. cbn [val]. rewrite cond_Zopp_mul.
  destruct (Z_le_gt_dec 0 e) as [H | H].
  - rewrite unit_scale by lia. apply Z.shiftl_mul_pow2. lia.
  - rewrite unit_cancel by lia. apply Z.shiftl_div_pow2. lia.
Qed.

Lemma Zceil_val (s : bool) (m : positive) (e : Z) :
  -149 <= e -> Zceil s m e = - ((- val (S754_finite s m e)) / 2 ^ 149).
Proof.
  intros He. unfold Zceil. f_equal.
  replace (- val (S754_finite s m e)) with (val (S754_finite (negb s) m e))
    by (destruct s; cbn; lia).
  apply (Zfloor_val (negb s) m e He).
Qed.

(** The floor and the ceiling of a well-formed number are representable. *)
Lemma integer_part_representable (s : bool) (m : positive) (e : Z) :
  valid (S754_finite s m e) ->
  (exists m' k, Zfloor s m e = m' * 2 ^ k /\ 0 <= k /\ Z.abs m' < 2 ^ 24) /\
  (exists m' k, Zceil s m e = m' * 2 ^ k /\ 0 <= k /\ Z.abs m' < 2 ^ 24).
Proof.
  intros V. apply valid_finite_inv in V. destruct V as (He & Hm & _).
  assert (Hgen : forall a : Z, Z.abs a = Zpos m ->
                 exists m' k, Z.shiftl a e = m' * 2 ^ k /\ 0 <= k /\ Z.abs m' < 2 ^ 24).
  { intros a Ha. destruct (Z_le_gt_dec 0 e) as [H | H].
    - exists a, e. split; [apply Z.shiftl_mul_pow2; lia | ]. split; lia.
    - exists (Z.shiftl a e), 0. split; [rewrite Z.pow_0_r; lia | ]. split; [lia | ].
      rewrite Z.shiftl_div_pow2 by lia.
      pose proof (pow2_pos (- e) ltac:(lia)) as Hp.
      pose proof (Z.div_mod a (2 ^ (- e)) ltac:(lia)) as Hdm.
      pose proof (Z.mod_pos_bound a (2 ^ (- e)) ltac:(lia)) as Hb.
      assert (Z.abs (a / 2 ^ (- e)) <= Z.abs a) by nia. lia. }
  split.
  - apply Hgen. destruct s; cbn [cond_Zopp]; lia.
  - unfold Zceil. destruct (Hgen (cond_Zopp (negb s) (Zpos m))) as (m' & k & E & Hk & Hb).
    + destruct s; cbn [negb cond_Zopp]; lia.
    + exists (- m'), k. rewrite E. split; [ring | ]. split; [exact Hk | lia].
Qed.

Lemma integer_normalize (N : Z) (sz : bool) :
  (exists m' k, N = m' * 2 ^ k /\ 0 <= k /\ Z.abs m' < 2 ^ 24) ->
  Z.abs N < 2 ^ 127 ->
  valid (binary_normalize prec emax N 0 sz) /\
  is_finite (binary_normalize prec emax N 0 sz) = true /\
  val (binary_normalize prec emax N 0 sz) = N * 2 ^ 149.
Proof.
  intros (m' & k & E & Hk & Hm) Hb.
  destruct (binary_normalize_spec N 0 sz ltac:(lia)) as (Vn & _ & _).
  assert (Fn : is_finite (binary_normalize prec emax N 0 sz) = true).
  { apply binary_normalize_finite; [lia | ].
    rewrite Z.abs_mul. change (Z.abs (2 ^ (0 + 149))) with (2 ^ 149).
    change (2 ^ 276) with (2 ^ 127 * 2 ^ 149).
    apply Z.mul_lt_mono_pos_r; [reflexivity | exact Hb]. }
  split; [exact Vn | ]. split; [exact Fn | ].
  exact (binary_normalize_exact N 0 m' k sz ltac:(lia) E Hk Hm Fn).
Qed.

(** [floorf] and [ceilf] are exact: the value of the result is the integer
    part, rounded down or up. *)
Lemma floorf_spec (x : float) :
  valid x -> is_finite x = true -> Z.abs (val x) < 2 ^ (126 + 149) ->
  valid (floorf x) /\ is_finite (floorf x) = true /\
  val (floorf x) = val x / 2 ^ 149 * 2 ^ 149.
Proof.
  intros V F Hb. destruct x as [s | s | | s m e]; try discriminate F.
  - repeat split.
  - pose proof (valid_finite_inv _ _ _ V) as (He & _).
    cbn [floorf]. rewrite <- (Zfloor_val s m e) by lia.
    apply integer_normalize; [exact (proj1 (integer_part_representable s m e V)) | ].
    rewrite (Zfloor_val s m e) by lia.
    pose proof (pow2_pos 149 ltac:(lia)) as H149.
    change (2 ^ (126 + 149)) with (2 ^ 126 * 2 ^ 149) in Hb.
    pose proof (Z.div_mod (val (S754_finite s m e)) (2 ^ 149) ltac:(lia)) as Hdm.
    pose proof (Z.mod_pos_bound (val (S754_finite s m e)) (2 ^ 149) ltac:(lia)) as Hmb.
    assert (Z.abs (val (S754_finite s m e) / 2 ^ 149) <= 2 ^ 126) by nia.
    change (2 ^ 127) with (2 * 2 ^ 126). lia.
Qed.

Lemma ceilf_spec (x : float) :
  valid x -> is_finite x = true -> Z.abs (val x) < 2 ^ (126 + 149) ->
  valid (ceilf x) /\ is_finite (ceilf x) = true /\
  val (ceilf x) = - ((- val x) / 2 ^ 149) * 2 ^ 149.
Proof.
  intros V F Hb. destruct x as [s | s | | s m e]; try discriminate F.
  - repeat split.
  - pose proof (valid_finite_inv _ _ _ V) as (He & _).
    cbn [ceilf]. rewrite <- (Zceil_val s m e) by lia.
    apply integer_normalize; [exact (proj2 (integer_part_representable s m e V)) | ].
    rewrite (Zceil_val s m e) by lia.
    pose proof (pow2_pos 149 ltac:(lia)) as H149.
    change (2 ^ (126 + 149)) with (2 ^ 126 * 2 ^ 149) in Hb.
    pose proof (Z.div_mod (- val (S754_finite s m e)) (2 ^ 149) ltac:(lia)) as Hdm.
    pose proof (Z.mod_pos_bound (- val (S754_finite s m e)) (2 ^ 149) ltac:(lia)) as Hmb.
    assert (Z.abs ((- val (S754_finite s m e)) / 2 ^ 149) <= 2 ^ 126) by nia.
    change (2 ^ 127) with (2 * 2 ^ 126). lia.
Qed.

(** The cast truncates towards zero. *)
Lemma Ztrunc_val (x : float) :
  valid x -> is_finite x = true -> Ztrunc x = Some (Z.quot (val x) (2 ^ 149)).
Proof.
  intros V F. destruct x as [s | s | | s m e]; try discriminate F; cbn [Ztrunc val].
  - reflexivity.
  - pose proof (valid_finite_inv _ _ _ V) as (He & _). f_equal.
    pose proof (pow2_pos (e + 149) ltac:(lia)) as Hp.
    assert (E : Z.shiftl (Zpos m) e = (Zpos m * 2 ^ (e + 149)) / 2 ^ 149).
    { destruct (Z_le_gt_dec 0 e) as [H | H].
      - rewrite unit_scale by lia. apply Z.shiftl_mul_pow2. lia.
      - rewrite unit_cancel by lia. apply Z.shiftl_div_pow2. lia. }
    rewrite E. destruct s; cbn [cond_Zopp].
    + rewrite Z.quot_opp_l by (apply Z.pow_nonzero; lia).
      rewrite Z.quot_div_nonneg by lia. reflexivity.
    + rewrite Z.quot_div_nonneg by lia. reflexivity.
Qed.

Lemma int_of_float_val (x : float) :
  valid x -> is_finite x = true -> Z.abs (val x) <= 2 ^ (28 + 149) ->
  int_of_float x = Some (Z.quot (val x) (2 ^ 149)).
Proof.
  intros V F Hb. destruct (Ztrunc_bound x V F) as (n & Hn & Hnb).
  assert (En : Z.quot (val x) (2 ^ 149) = n)
    by (rewrite (Ztrunc_val x V F) in Hn; congruence).
  unfold int_of_float. rewrite Hn, En.
  assert (R : CInt.in_range n = true).
  { unfold CInt.in_range, CInt.INT_MIN, CInt.INT_MAX.
    pose proof (pow2_pos 149 ltac:(lia)) as H149.
    change (2 ^ (28 + 149)) with (2 ^ 28 * 2 ^ 149) in Hb.
    assert (Z.abs n <= 2 ^ 28) by nia.
    change (2 ^ 28) with 268435456 in *. change (2 ^ 31) with 2147483648.
    apply andb_true_iff. split; apply Z.leb_le; lia. }
  rewrite R. reflexivity.
Qed.

Lemma int_of_floorf_val (x : float) :
  valid x -> is_finite x = true -> Z.abs (val x) <= 2 ^ (28 + 149) ->
  int_of_float (floorf x) = Some (val x / 2 ^ 149).
Proof.
  intros V F Hb.
  destruct (floorf_spec x V F) as (Vf & Ff & Ef).
  { eapply Z.le_lt_trans; [exact Hb | reflexivity]. }
  pose proof (pow2_pos 149 ltac:(lia)) as H149.
  change (2 ^ (28 + 149)) with (2 ^ 28 * 2 ^ 149) in Hb.
  pose proof (Z.div_mod (val x) (2 ^ 149) ltac:(lia)) as Hdm.
  pose proof (Z.mod_pos_bound (val x) (2 ^ 149) ltac:(lia)) as Hmb.
  assert (Hq : Z.abs (val x / 2 ^ 149) <= 2 ^ 28) by nia.
  unfold int_of_float. rewrite (Ztrunc_integer _ _ Vf Ff Ef).
  assert (R : CInt.in_range (val x / 2 ^ 149) = true).
  { unfold CInt.in_range, CInt.INT_MIN, CInt.INT_MAX.
    change (2 ^ 28) with 268435456 in *. change (2 ^ 31) with 2147483648.
    apply andb_true_iff. split; apply Z.leb_le; lia. }
  rewrite R. reflexivity.
Qed.

Lemma int_of_ceilf_val (x : float) :
  valid x -> is_finite x = true -> Z.abs (val x) <= 2 ^ (28 + 149) ->
  int_of_float (ceilf x) = Some (- ((- val x) / 2 ^ 149)).
Proof.
  intros V F Hb.
  destruct (ceilf_spec x V F) as (Vf & Ff & Ef).
  { eapply Z.le_lt_trans; [exact Hb | reflexivity]. }
  pose proof (pow2_pos 149 ltac:(lia)) as H149.
  change (2 ^ (28 + 149)) with (2 ^ 28 * 2 ^ 149) in Hb.
  pose proof (Z.div_mod (- val x) (2 ^ 149) ltac:(lia)) as Hdm.
  pose proof (Z.mod_pos_bound (- val x) (2 ^ 149) ltac:(lia)) as Hmb.
  assert (Hq : Z.abs ((- val x) / 2 ^ 149) <= 2 ^ 28) by nia.
  unfold int_of_float. rewrite (Ztrunc_integer _ _ Vf Ff Ef).
  assert (R : CInt.in_range (- ((- val x) / 2 ^ 149)) = true).
  { unfold CInt.in_range, CInt.INT_MIN, CInt.INT_MAX.
    change (2 ^ 28) with 268435456 in *. change (2 ^ 31) with 2147483648.
    apply andb_true_iff. split; apply Z.leb_le; lia. }
  rewrite R. reflexivity.
Qed.

(** ** Exact quotients *)

Lemma new_location_zero (n : Z) : new_location n 0 = loc_Exact.
Proof.
  unfold new_location, new_location_even, new_location_odd.
  destruct (Z.even n); reflexivity.
Qed.

Lemma pow2_shift_eq (A B a b c : Z) :
  0 <= a -> 0 <= b -> 0 <= a + c -> 0 <= b + c ->
  A * 2 ^ (a + c) = B * 2 ^ (b + c) -> A * 2 ^ a = B * 2 ^ b.
Proof.
  intros Ha Hb Hac Hbc H. destruct (Z_le_gt_dec 0 c) as [Hc | Hc].
  - rewrite !Z.pow_add_r, !Z.mul_assoc in H by lia.
    pose proof (pow2_pos c Hc). nia.
  - replace a with (a + c + (- c)) by lia. replace b with (b + c + (- c)) by lia.
    rewrite !(Z.pow_add_r 2 _ (- c)), !Z.mul_assoc by lia. rewrite H. reflexivity.
Qed.

Lemma SFdiv_exact (sx sy : bool) (mx my : positive) (ex ey m' k : Z) :
  valid (S754_finite sx mx ex) -> valid (S754_finite sy my ey) ->
  0 < m' < 2 ^ 24 -> 0 <= k ->
  m' * 2 ^ k * (Zpos my * 2 ^ (ey + 149)) = Zpos mx * 2 ^ (ex + 149) * 2 ^ 149 ->
  m' * 2 ^ k < 2 ^ 277 ->
  is_finite (SFdiv prec emax (S754_finite sx mx ex) (S754_finite sy my ey)) = true /\
  val (SFdiv prec emax (S754_finite sx mx ex) (S754_finite sy my ey))
  = cond_Zopp (xorb sx sy) (m' * 2 ^ k).
Proof.
  intros Vx Vy Hm' Hk Hq Hlt.
  pose proof (valid_finite_inv _ _ _ Vx) as (Hex & Hmx & _).
  pose proof (valid_finite_inv _ _ _ Vy) as (Hey & Hmy & _).
  cbn [SFdiv].
  pose proof (SFdiv_core_binary_eq mx my ex ey) as E. cbv zeta in E.
  pose proof (div_exponent_ok mx my ex ey) as [Hq0 He]. cbv zeta in Hq0, He.
  set (e' := Z.min (fexp32 (Zdigits2 (Zpos mx) + ex - (Zdigits2 (Zpos my) + ey))) (ex - ey)) in *.
  set (sg := ex - ey - e') in *.
  assert (Hsg : 0 <= sg) by (subst sg e'; lia).
  set (dx := Zdigits2 (Zpos mx)) in *. set (dy := Zdigits2 (Zpos my)) in *.
  pose proof (Zdigits2_bounds (Zpos mx) ltac:(lia)) as [Bx _]. fold dx in Bx.
  pose proof (Zdigits2_bounds (Zpos my) ltac:(lia)) as [_ By]. fold dy in By.
  pose proof (Zdigits2_pos (Zpos mx) ltac:(lia)) as Px. fold dx in Px.
  pose proof (Zdigits2_pos (Zpos my) ltac:(lia)) as Py. fold dy in Py.
  pose proof (pow2_pos k Hk) as Hpk.
  (* the exponent of the quotient *)
  assert (Hke : e' <= k - 149).
  { assert (Hf : fexp32 (dx + ex - (dy + ey)) <= k - 149).
    { unfold fexp32. apply Z.max_lub; [ | lia].
      destruct (Z_le_gt_dec (dx + ex - (dy + ey) - 24) (k - 149)) as [H | H]; [exact H | exfalso].
      pose proof (pow2_pos (ey + 149) ltac:(lia)) as HP.
      pose proof (pow2_pos (ex + 149) ltac:(lia)) as HA.
      pose proof (pow2_pos 149 ltac:(lia)) as HB.
      pose proof (pow2_pos (dy + (ey + 149)) ltac:(lia)) as HC.
      assert (EC : 2 ^ (dy + (ey + 149)) = 2 ^ dy * 2 ^ (ey + 149))
        by (apply Z.pow_add_r; lia).
      assert (L : 2 ^ 24 * (2 ^ k * 2 ^ (dy + (ey + 149))) = 2 ^ (24 + (k + (dy + (ey + 149)))))
        by (rewrite <- !Z.pow_add_r by lia; reflexivity).
      assert (Rr : 2 ^ (dx - 1) * (2 ^ (ex + 149) * 2 ^ 149) = 2 ^ (dx - 1 + (ex + 149 + 149)))
        by (rewrite <- !Z.pow_add_r by lia; reflexivity).
      assert (H1 : Zpos mx * (2 ^ (ex + 149) * 2 ^ 149) < m' * (2 ^ k * 2 ^ (dy + (ey + 149)))).
      { rewrite Z.mul_assoc, <- Hq, EC.
        replace (m' * 2 ^ k * (Zpos my * 2 ^ (ey + 149)))
          with (Zpos my * (m' * 2 ^ k * 2 ^ (ey + 149))) by ring.
        replace (m' * (2 ^ k * (2 ^ dy * 2 ^ (ey + 149))))
          with (2 ^ dy * (m' * 2 ^ k * 2 ^ (ey + 149))) by ring.
        apply Z.mul_lt_mono_pos_r; [ | lia].
        apply Z.mul_pos_pos; [apply Z.mul_pos_pos; lia | lia]. }
      assert (H2 : 2 ^ (dx - 1 + (ex + 149 + 149)) < 2 ^ (24 + (k + (dy + (ey + 149))))).
      { rewrite <- L, <- Rr.
        set (AB := 2 ^ (ex + 149) * 2 ^ 149) in *.
        set (KC := 2 ^ k * 2 ^ (dy + (ey + 149))) in *.
        assert (0 < AB) by (subst AB; apply Z.mul_pos_pos; lia).
        assert (0 < KC) by (subst KC; apply Z.mul_pos_pos; lia).
        assert (2 ^ (dx - 1) * AB <= Zpos mx * AB) by (apply Z.mul_le_mono_nonneg_r; lia).
        assert (m' * KC < 2 ^ 24 * KC) by (apply Z.mul_lt_mono_pos_r; lia).
        lia. }
      apply Z.pow_lt_mono_r_iff in H2; lia. }
    subst e'. lia. }
  set (t := k - 149 - e') in *.
  assert (Ht : 0 <= t) by (subst t; lia).
  assert (Hdiv : m' * 2 ^ t * Zpos my = Zpos mx * 2 ^ sg).
  { replace (m' * 2 ^ t * Zpos my) with (m' * Zpos my * 2 ^ t) by ring.
    apply (pow2_shift_eq _ _ t sg (ey + 149 + 149 + e')); try (unfold t, sg; lia).
    replace (t + (ey + 149 + 149 + e')) with (k + (ey + 149)) by (unfold t; lia).
    replace (sg + (ey + 149 + 149 + e')) with (ex + 149 + 149) by (unfold sg; lia).
    rewrite (Z.pow_add_r 2 k), (Z.pow_add_r 2 (ex + 149)) by lia.
    rewrite !Z.mul_assoc, <- Hq. ring. }
  assert (Eq : (Zpos mx * 2 ^ sg) / Zpos my = m' * 2 ^ t).
  { rewrite <- Hdiv. apply Z.div_mul. lia. }
  assert (Er : (Zpos mx * 2 ^ sg) mod Zpos my = 0).
  { rewrite <- Hdiv. apply Z.mod_mul. lia. }
  rewrite E, Eq, Er, new_location_zero. rewrite Eq in Hq0, He.
  pose proof (pow2_pos t Ht) as Hpt.
  destruct (binary_round_aux_spec (xorb sx sy) (m' * 2 ^ t) e' loc_Exact Hq0 He)
    as (m1 & _ & Herr & Hres). specialize (Herr eq_refl).
  set (c := fexp32 (Zdigits2 (m' * 2 ^ t) + e')) in *.
  assert (Hc : -149 <= c) by (subst c; unfold fexp32; lia).
  assert (Hst : c - e' <= t).
  { pose proof (digits_representable m' t Hm' Ht). subst c t. unfold fexp32. lia. }
  assert (Hm1 : m1 = m' * 2 ^ (t - (c - e'))).
  { apply (half_step_multiple _ _ (c - e')); [lia | ].
    rewrite <- (Z.mul_assoc m'), <- Z.pow_add_r by lia.
    replace (t - (c - e') + (c - e')) with t by lia. exact Herr. }
  assert (Hv : m1 * 2 ^ (c + 149) = m' * 2 ^ k).
  { rewrite Hm1, <- Z.mul_assoc, <- Z.pow_add_r by lia. do 2 f_equal. subst t. lia. }
  destruct Hres as [[Hz _] | Hr].
  - exfalso. rewrite Hz in Hv. lia.
  - assert (Hf : is_finite (binary_round_aux prec emax (xorb sx sy) (m' * 2 ^ t) e' loc_Exact)
                 = true).
    { apply (rounded_finite _ _ _ _ Hr Hc). rewrite Hv. exact Hlt. }
    split; [exact Hf | ].
    rewrite (rounded_val _ _ _ _ Hr Hc Hf), Hv. reflexivity.
Qed.

(** Division by a power of two is exact on its multiples. *)
Lemma div_pow2_exact (x y : float) (j : Z) :
  valid x -> is_finite x = true -> valid y ->
  0 <= j -> val y = 2 ^ (j + 149) -> (2 ^ j | val x) ->
  valid (div x y) /\ is_finite (div x y) = true /\ val (div x y) = val x / 2 ^ j.
Proof.
  intros Vx Fx Vy Hj Hy Hd. split; [apply SFdiv_valid | ].
  pose proof (pow2_pos j Hj) as Hpj.
  pose proof (pow2_pos (j + 149) ltac:(lia)) as Hpy.
  destruct (positive_val_inv y ltac:(lia)) as (my & ey & ->).
  cbn [val cond_Zopp] in Hy.
  destruct x as [sx | sx | | sx mx ex]; try discriminate Fx.
  - unfold div. cbn [SFdiv is_finite val]. split; [reflexivity | ].
    symmetry. apply Z.div_0_l. lia.
  - pose proof (valid_finite_inv _ _ _ Vx) as (Hex & Hmx & _).
    pose proof (pow2_pos (ex + 149) ltac:(lia)) as Hpx.
    set (a := ex + 149) in *.
    assert (Hd' : (2 ^ j | Zpos mx * 2 ^ a)).
    { cbn [val] in Hd. destruct sx; cbn [cond_Zopp] in Hd; [ | exact Hd].
      apply Z.divide_opp_r. exact Hd. }
    destruct Hd' as [Q HQ].
    assert (HQpos : 0 < Q) by nia.
    assert (Hrep : exists m' k, Q = m' * 2 ^ k /\ 0 < m' < 2 ^ 24 /\ 0 <= k).
    { destruct (Z_le_gt_dec j a) as [H | H].
      - exists (Zpos mx), (a - j). split; [ | split; lia].
        assert (E : 2 ^ a = 2 ^ (a - j) * 2 ^ j)
          by (rewrite <- Z.pow_add_r by lia; f_equal; lia).
        rewrite E in HQ. nia.
      - exists Q, 0. rewrite Z.pow_0_r. split; [lia | ]. split; [ | lia]. split; [lia | ].
        assert (E : 2 ^ j = 2 ^ (j - a) * 2 ^ a)
          by (rewrite <- Z.pow_add_r by lia; f_equal; lia).
        rewrite E in HQ. pose proof (pow2_pos (j - a) ltac:(lia)).
        assert (Zpos mx = Q * 2 ^ (j - a)) by nia. nia. }
    destruct Hrep as (m' & k & EQ & Hm' & Hk).
    assert (Hval : val (S754_finite sx mx ex) / 2 ^ j = cond_Zopp sx Q).
    { cbn [val]. fold a. destruct sx; cbn [cond_Zopp].
      - rewrite HQ, <- Z.mul_opp_l. apply Z.div_mul. lia.
      - rewrite HQ. apply Z.div_mul. lia. }
    unfold div.
    destruct (SFdiv_exact sx false mx my ex ey m' k Vx Vy Hm' Hk) as [Hf Hv].
    + rewrite <- EQ, Hy. fold a. rewrite HQ, Z.pow_add_r by lia. ring.
    + rewrite <- EQ.
      assert (Q <= Zpos mx * 2 ^ a) by nia.
      assert (Zpos mx * 2 ^ a <= Zpos mx * 2 ^ 253)
        by (apply Z.mul_le_mono_nonneg_l; [lia | apply pow2_le; unfold a; lia]).
      assert (Zpos mx * 2 ^ 253 < 2 ^ 24 * 2 ^ 253)
        by (apply Z.mul_lt_mono_pos_r; [reflexivity | lia]).
      change (2 ^ 277) with (2 ^ 24 * 2 ^ 253). lia.
    + split; [exact Hf | ]. rewrite Hv, xorb_false_r, <- EQ, Hval. reflexivity.
Qed.

(** ** Addition *)

Lemma SFadd_aligned (sx sy : bool) (mx my : positive) (ex ey : Z) :
  -149 <= ex -> -149 <= ey ->
  (cond_Zopp sx (Zpos (fst (shl_align mx ex (Z.min ex ey))))
   + cond_Zopp sy (Zpos (fst (shl_align my ey (Z.min ex ey))))) * 2 ^ (Z.min ex ey + 149)
  = val (S754_finite sx mx ex) + val (S754_finite sy my ey).
Proof.
  intros Hex Hey. rewrite Z.mul_add_distr_r, !val_aligned by lia. reflexivity.
Qed.

(** The sum of two finite numbers is valid, is not NaN, and, unless it
    overflows, is within relative error [2^-24] of the exact sum. *)
Theorem SFadd_spec (x y : spec_float) :
  valid x -> valid y -> is_finite x = true -> is_finite y = true ->
  valid (SFadd prec emax x y) /\
  SFadd prec emax x y <> S754_nan /\
  (is_finite (SFadd prec emax x y) = true ->
   2 ^ 24 * Z.abs (val (SFadd prec emax x y) - (val x + val y)) <= Z.abs (val x + val y)).
Proof.
  intros Vx Vy Fx Fy.
  destruct x as [sx | sx | | sx mx ex]; try discriminate Fx;
    destruct y as [sy | sy | | sy my ey]; try discriminate Fy.
  - destruct sx, sy; cbn; repeat split; try discriminate; lia.
  - cbn [SFadd]. repeat split; try discriminate.
    + exact Vy.
    + intros _. cbn [val]. lia.
  - cbn [SFadd]. repeat split; try discriminate.
    + exact Vx.
    + intros _. cbn [val]. lia.
  - pose proof (valid_finite_inv _ _ _ Vx) as (Hex & _).
    pose proof (valid_finite_inv _ _ _ Vy) as (Hey & _).
    cbn [SFadd].
    pose proof (SFadd_aligned sx sy mx my ex ey (proj1 Hex) (proj1 Hey)) as A.
    destruct (binary_normalize_spec
                (cond_Zopp sx (Zpos (fst (shl_align mx ex (Z.min ex ey))))
                 + cond_Zopp sy (Zpos (fst (shl_align my ey (Z.min ex ey)))))
                (Z.min ex ey) false ltac:(lia))
      as (Hv & Hn & Hf).
    split; [exact Hv | ]. split; [exact Hn | ].
    intros Hfin. destruct (Hf Hfin) as [Herr _].
    rewrite A in Herr. exact Herr.
Qed.

Lemma SFadd_no_overflow (x y : spec_float) :
  valid x -> valid y -> is_finite x = true -> is_finite y = true ->
  Z.abs (val x + val y) < 2 ^ 276 ->
  is_finite (SFadd prec emax x y) = true.
Proof.
  intros Vx Vy Fx Fy Hlt.
  destruct x as [sx | sx | | sx mx ex]; try discriminate Fx;
    destruct y as [sy | sy | | sy my ey]; try discriminate Fy;
    try (destruct sx, sy; reflexivity); try reflexivity.
  pose proof (valid_finite_inv _ _ _ Vx) as (Hex & _).
  pose proof (valid_finite_inv _ _ _ Vy) as (Hey & _).
  cbn [SFadd]. apply binary_normalize_finite; [lia | ].
  rewrite SFadd_aligned by lia. exact Hlt.
Qed.

(** A representable sum is computed exactly. *)
Lemma SFadd_exact (x y : spec_float) (m' k : Z) :
  valid x -> valid y -> is_finite x = true -> is_finite y = true ->
  val x + val y = m' * 2 ^ k -> 0 <= k -> Z.abs m' < 2 ^ 24 ->
  Z.abs (val x + val y) < 2 ^ 276 ->
  valid (SFadd prec emax x y) /\ is_finite (SFadd prec emax x y) = true /\
  val (SFadd prec emax x y) = val x + val y.
Proof.
  intros Vx Vy Fx Fy Hrep Hk Hm' Hlt.
  split; [exact (proj1 (SFadd_spec x y Vx Vy Fx Fy)) | ].
  pose proof (SFadd_no_overflow x y Vx Vy Fx Fy Hlt) as Hf.
  split; [exact Hf | ].
  destruct x as [sx | sx | | sx mx ex]; try discriminate Fx;
    destruct y as [sy | sy | | sy my ey]; try discriminate Fy.
  - destruct sx, sy; reflexivity.
  - cbn. lia.
  - cbn. lia.
  - pose proof (valid_finite_inv _ _ _ Vx) as (Hex & _).
    pose proof (valid_finite_inv _ _ _ Vy) as (Hey & _).
    cbn [SFadd] in *.
    pose proof (SFadd_aligned sx sy mx my ex ey (proj1 Hex) (proj1 Hey)) as A.
    set (M := cond_Zopp sx (Zpos (fst (shl_align mx ex (Z.min ex ey))))
              + cond_Zopp sy (Zpos (fst (shl_align my ey (Z.min ex ey))))) in *.
    set (ez := Z.min ex ey) in *.
    assert (Hez : -149 <= ez) by (subst ez; lia).
    pose proof (pow2_pos (ez + 149) ltac:(lia)) as Hp.
    pose proof (pow2_pos k Hk) as Hpk.
    rewrite <- A.
    assert (Hr : exists m2 k2, M = m2 * 2 ^ k2 /\ 0 <= k2 /\ Z.abs m2 < 2 ^ 24).
    { rewrite Hrep in A. destruct (Z_le_gt_dec (ez + 149) k) as [H | H].
      - exists m', (k - (ez + 149)). split; [ | split; lia].
        assert (E : 2 ^ k = 2 ^ (k - (ez + 149)) * 2 ^ (ez + 149))
          by (rewrite <- Z.pow_add_r by lia; f_equal; lia).
        rewrite E in A. nia.
      - exists M, 0. rewrite Z.pow_0_r. split; [lia | ]. split; [lia | ].
        assert (E : 2 ^ (ez + 149) = 2 ^ (ez + 149 - k) * 2 ^ k)
          by (rewrite <- Z.pow_add_r by lia; f_equal; lia).
        rewrite E in A. pose proof (pow2_pos (ez + 149 - k) ltac:(lia)).
        assert (M * 2 ^ (ez + 149 - k) = m') by nia.
        assert (Z.abs M <= Z.abs m') by nia. lia. }
    destruct Hr as (m2 & k2 & E2 & Hk2 & Hm2).
    exact (binary_normalize_exact M ez m2 k2 false Hez E2 Hk2 Hm2 Hf).
Qed.

(** ** Division by the tile size *)

Lemma tile_size_val : val (of_int 32) = 2 ^ (5 + 149).
Proof. reflexivity. Qed.

Lemma tile_multiple_dec (v : Z) : (2 ^ 5 | v) \/ ~ (2 ^ 5 | v).
Proof.
  destruct (Z.eq_dec (v mod 2 ^ 5) 0) as [D | D].
  - left. apply Z.mod_divide; [lia | exact D].
  - right. intros H. apply D. apply Z.mod_divide; [lia | exact H].
Qed.

(** A number that is not a multiple of [2^5] units is below [2^-121]. *)
Lemma not_tile_multiple_tiny (x : float) :
  valid x -> is_finite x = true -> ~ (2 ^ 5 | val x) ->
  exists s m e, x = S754_finite s m e /\ e + 149 < 5.
Proof.
  intros V F Hn. destruct x as [s | s | | s m e]; try discriminate F.
  - exfalso. apply Hn. cbn [val]. apply Z.divide_0_r.
  - exists s, m, e. split; [reflexivity | ].
    destruct (Z_lt_ge_dec (e + 149) 5) as [H | H]; [exact H | exfalso].
    apply Hn. cbn [val].
    assert (D : (2 ^ 5 | Zpos m * 2 ^ (e + 149))).
    { replace (e + 149) with (e + 149 - 5 + 5) by lia.
      rewrite Z.pow_add_r by lia. rewrite Z.mul_assoc. apply Z.divide_factor_r. }
    destruct s; cbn [cond_Zopp]; [apply Z.divide_opp_r | ]; exact D.
Qed.

Lemma div_tile_tiny (s : bool) (m : positive) (e : Z) :
  valid (S754_finite s m e) -> e + 149 < 5 ->
  Z.abs (val (S754_finite s m e)) < 2 ^ 28 /\
  Z.abs (val (div (S754_finite s m e) (of_int 32))) <= 2 ^ 24.
Proof.
  intros V He. pose proof (valid_finite_inv _ _ _ V) as (Hex & Hm & _).
  split.
  - cbn [val]. pose proof (pow2_pos (e + 149) ltac:(lia)) as Hp.
    assert (Ha : Z.abs (cond_Zopp s (Zpos m * 2 ^ (e + 149))) = Zpos m * 2 ^ (e + 149))
      by (destruct s; cbn [cond_Zopp]; lia).
    rewrite Ha. pose proof (pow2_le (e + 149) 4 ltac:(lia)) as H4.
    change (2 ^ 28) with (2 ^ 24 * 2 ^ 4).
    assert (Zpos m * 2 ^ (e + 149) <= Zpos m * 2 ^ 4)
      by (apply Z.mul_le_mono_nonneg_l; lia).
    assert (Zpos m * 2 ^ 4 < 2 ^ 24 * 2 ^ 4)
      by (apply Z.mul_lt_mono_pos_r; [reflexivity | lia]).
    lia.
  - change (of_int 32) with (S754_finite false 8388608 (-18)). unfold div.
    pose proof (Zdigits2_bounds (Zpos m) ltac:(lia)) as [Blo _].
    assert (Hd : Zdigits2 (Zpos m) <= 24).
    { destruct (Z_le_gt_dec (Zdigits2 (Zpos m)) 24) as [H | H]; [exact H | ].
      pose proof (pow2_le 24 (Zdigits2 (Zpos m) - 1) ltac:(lia)). lia. }
    destruct (SFdiv_magnitude s false m 8388608 e (-18)) as [_ Hb].
    { change (Zdigits2 8388608) with 24. lia. }
    eapply Z.le_trans; [exact Hb | ]. apply pow2_le.
    change (Zdigits2 8388608) with 24. lia.
Qed.

(** The quotient by the tile size is exact, or both it and the dividend are
    below one in absolute value; the integer part of the quotient, clamped
    from below, is that of the exact quotient. *)
Lemma div_tile_floor (x : float) :
  valid x -> is_finite x = true -> Z.abs (val x) < 2 ^ (33 + 149) ->
  Z.max 0 (val (div x (of_int 32)) / 2 ^ 149) = Z.max 0 (val x / (32 * 2 ^ 149)).
Proof.
  intros V F Hb. pose proof (pow2_pos 149 ltac:(lia)) as H149.
  destruct (tile_multiple_dec (val x)) as [D | D].
  - destruct (div_pow2_exact x (of_int 32) 5 V F (of_int_valid 32) ltac:(lia)
                tile_size_val D) as (_ & _ & E).
    rewrite E, Z.div_div by lia. reflexivity.
  - destruct (not_tile_multiple_tiny x V F D) as (s & m & e & -> & He).
    destruct (div_tile_tiny s m e V He) as [H1 H2].
    assert (A1 : -1 <= val (div (S754_finite s m e) (of_int 32)) / 2 ^ 149 <= 0).
    { assert (2 ^ 24 < 2 ^ 149) by reflexivity.
      split; [apply Z.div_le_lower_bound; lia | ].
      apply Z.lt_succ_r. apply Z.div_lt_upper_bound; lia. }
    assert (A2 : -1 <= val (S754_finite s m e) / (32 * 2 ^ 149) <= 0).
    { assert (2 ^ 28 < 32 * 2 ^ 149) by reflexivity.
      split; [apply Z.div_le_lower_bound; lia | ].
      apply Z.lt_succ_r. apply Z.div_lt_upper_bound; lia. }
    lia.
Qed.

(** A non-negative dividend gives a non-negative quotient, whose integer
    part is that of the exact quotient. *)
Lemma div_tile_nonneg (x : float) :
  valid x -> is_finite x = true -> Z.abs (val x) < 2 ^ (33 + 149) -> 0 <= val x ->
  0 <= val (div x (of_int 32)) /\
  val (div x (of_int 32)) / 2 ^ 149 = val x / (32 * 2 ^ 149).
Proof.
  intros V F Hb Hx. pose proof (pow2_pos 149 ltac:(lia)) as H149.
  destruct (tile_multiple_dec (val x)) as [D | D].
  - destruct (div_pow2_exact x (of_int 32) 5 V F (of_int_valid 32) ltac:(lia)
                tile_size_val D) as (_ & _ & E).
    rewrite E, Z.div_div by lia. split; [apply Z.div_pos; lia | reflexivity].
  - destruct (not_tile_multiple_tiny x V F D) as (s & m & e & -> & He).
    destruct (div_tile_tiny s m e V He) as [H1 H2].
    destruct (div_tile_spec _ V F Hb) as (Vd & Fd & _).
    assert (Hs : s = false).
    { destruct s; [exfalso | reflexivity]. cbn [val cond_Zopp] in Hx.
      pose proof (valid_finite_inv _ _ _ V) as (Hex & _).
      pose proof (pow2_pos (e + 149) ltac:(lia)). lia. }
    subst s.
    assert (Hq : 0 <= val (div (S754_finite false m e) (of_int 32))).
    { change (of_int 32) with (S754_finite false 8388608 (-18)) in *. unfold div in *.
      destruct (SFdiv_spec false false m 8388608 e (-18)) as (m1 & Hm1 & [[_ Hr] | Hr]).
      - rewrite Hr. cbn. lia.
      - cbv zeta in Hm1.
        pose proof (div_exponent_ok m 8388608 e (-18)) as [Hq0 _]. cbv zeta in Hq0.
        assert (Hc : -149 <= fexp32 (Zdigits2 (Zpos m * 2 ^ (e - -18 - Z.min (fexp32 (Zdigits2 (Zpos m) + e - (Zdigits2 8388608 + -18))) (e - -18)) / 8388608) + Z.min (fexp32 (Zdigits2 (Zpos m) + e - (Zdigits2 8388608 + -18))) (e - -18)))
          by (unfold fexp32; lia).
        rewrite (rounded_val _ _ _ _ Hr Hc Fd). cbn [xorb cond_Zopp].
        apply Z.mul_nonneg_nonneg; [ | apply Z.pow_nonneg; lia].
        eapply Z.le_trans; [ | exact (proj1 Hm1)].
        apply Z.div_pos; [exact Hq0 | ]. apply Z.pow_pos_nonneg; [lia | ].
        pose proof (div_exponent_ok m 8388608 e (-18)) as [_ He']. cbv zeta in He'. lia. }
    split; [exact Hq | ].
    assert (2 ^ 24 < 2 ^ 149) by reflexivity.
    assert (2 ^ 28 < 32 * 2 ^ 149) by reflexivity.
    rewrite !Z.div_small by lia. reflexivity.
Qed.

(** ** The clamped minimum and the hovered tile, exactly *)

Lemma clamp_min_max (n : Z) : Gl.clamp_min n = Z.max 0 n.
Proof. unfold Gl.clamp_min. destruct (Z.ltb_spec n 0); lia. Qed.

Lemma max_quot_div (v b : Z) : 0 < b -> Z.max 0 (Z.quot v b) = Z.max 0 (v / b).
Proof.
  intros Hb. destruct (Z_le_gt_dec 0 v) as [H | H].
  - rewrite Z.quot_div_nonneg by lia. reflexivity.
  - assert (Z.quot v b <= 0).
    { replace v with (- (- v)) by lia. rewrite Z.quot_opp_l by lia.
      pose proof (Z.quot_pos (- v) b ltac:(lia) Hb). lia. }
    assert (v / b < 0) by (apply Z.div_lt_upper_bound; lia).
    lia.
Qed.

Lemma gl_raw_min_exact (o : float) :
  Gl.near o ->
  exists n, Gl.raw_min o 32 = Some n /\
            Gl.clamp_min n = Z.max 0 ((- val o) / (32 * 2 ^ 149)).
Proof.
  intros (V & F & Hv). unfold Gl.raw_min.
  destruct (opp_spec o V) as (Vo & Fo & Ho). rewrite F in Fo.
  assert (Hb : Z.abs (val (opp o)) < 2 ^ (33 + 149)).
  { rewrite Ho, Z.abs_opp. eapply Z.lt_trans; [exact Hv | ]. reflexivity. }
  destruct (div_tile_spec (opp o) Vo Fo Hb) as (Vd & Fd & Hd).
  rewrite (int_of_floorf_val _ Vd Fd Hd). eexists. split; [reflexivity | ].
  rewrite clamp_min_max, (div_tile_floor (opp o) Vo Fo Hb), Ho. reflexivity.
Qed.

Lemma sdl_raw_min_exact (o : float) :
  Gl.near o ->
  exists n, Sdl.raw_min o 32 = Some n /\
            Gl.clamp_min n = Z.max 0 ((- val o) / (32 * 2 ^ 149)).
Proof.
  intros (V & F & Hv). unfold Sdl.raw_min.
  destruct (opp_spec o V) as (Vo & Fo & Ho). rewrite F in Fo.
  assert (Hb : Z.abs (val (opp o)) < 2 ^ (33 + 149)).
  { rewrite Ho, Z.abs_opp. eapply Z.lt_trans; [exact Hv | ]. reflexivity. }
  destruct (div_tile_spec (opp o) Vo Fo Hb) as (Vd & Fd & Hd).
  rewrite (int_of_float_val _ Vd Fd Hd). eexists. split; [reflexivity | ].
  rewrite clamp_min_max, max_quot_div by (apply Z.pow_pos_nonneg; lia).
  rewrite (div_tile_floor (opp o) Vo Fo Hb), Ho. reflexivity.
Qed.

(** The raw bounds behind a computed visible range. *)
Lemma gl_visible_range_fields (s : Gl.Session) (screen_w screen_h : Z) (r : Gl.VisibleRange) :
  Gl.visible_range s screen_w screen_h = Some r ->
  exists mnx mny mxx mxy : Z,
    Gl.raw_min (Gl.offset_x s) TILE_WIDTH = Some mnx /\
    Gl.raw_min (Gl.offset_y s) TILE_HEIGHT = Some mny /\
    Gl.raw_max screen_w (Gl.zoom s) (Gl.offset_x s) TILE_WIDTH = Some mxx /\
    Gl.raw_max screen_h (Gl.zoom s) (Gl.offset_y s) TILE_HEIGHT = Some mxy /\
    Gl.min_x r = Gl.clamp_min mnx /\ Gl.min_y r = Gl.clamp_min mny /\
    Gl.max_x r = Gl.clamp_max mxx MAP_WIDTH /\ Gl.max_y r = Gl.clamp_max mxy MAP_HEIGHT.
Proof.
  unfold Gl.visible_range.
  destruct (Gl.lod_of_zoom (Gl.zoom s)) as [l | ]; [ | discriminate].
  destruct (Gl.raw_min (Gl.offset_x s) TILE_WIDTH) as [mnx | ]; [ | discriminate].
  destruct (Gl.raw_min (Gl.offset_y s) TILE_HEIGHT) as [mny | ]; [ | discriminate].
  destruct (Gl.raw_max screen_w (Gl.zoom s) (Gl.offset_x s) TILE_WIDTH) as [mxx | ];
    [ | discriminate].
  destruct (Gl.raw_max screen_h (Gl.zoom s) (Gl.offset_y s) TILE_HEIGHT) as [mxy | ];
    [ | discriminate].
  destruct (Gl.align_start (Gl.clamp_min mnx) l) as [sx | ]; [ | discriminate].
  destruct (Gl.align_start (Gl.clamp_min mny) l) as [sy | ]; [ | discriminate].
  intros H. injection H as <-. cbn.
  exists mnx, mny, mxx, mxy. repeat split.
Qed.

Lemma sdl_visible_range_fields (t : Sdl.Session) (r : Sdl.VisibleRange) :
  Sdl.visible_range t = Some r ->
  exists mnx mny mxx mxy : Z,
    Sdl.raw_min (Sdl.offset_x t) 32 = Some mnx /\
    Sdl.raw_min (Sdl.offset_y t) 32 = Some mny /\
    Sdl.raw_max SCREEN_WIDTH (Sdl.zoom t) (Sdl.offset_x t) 32 = Some mxx /\
    Sdl.raw_max SCREEN_HEIGHT (Sdl.zoom t) (Sdl.offset_y t) 32 = Some mxy /\
    Sdl.min_x r = Gl.clamp_min mnx /\ Sdl.min_y r = Gl.clamp_min mny /\
    Sdl.max_x r = Gl.clamp_max mxx MAP_WIDTH /\ Sdl.max_y r = Gl.clamp_max mxy MAP_HEIGHT.
Proof.
  unfold Sdl.visible_range. cbn [Sdl.tile_width Sdl.tile_height Sdl.initial_tileset].
  destruct (Sdl.raw_min (Sdl.offset_x t) 32) as [mnx | ]; [ | discriminate].
  destruct (Sdl.raw_min (Sdl.offset_y t) 32) as [mny | ]; [ | discriminate].
  destruct (Sdl.raw_max SCREEN_WIDTH _ _ _) as [mxx | ]; [ | discriminate].
  destruct (Sdl.raw_max SCREEN_HEIGHT _ _ _) as [mxy | ]; [ | discriminate].
  intros H. injection H as <-. cbn.
  exists mnx, mny, mxx, mxy. repeat split.
Qed.

(** The world coordinate under the pointer. *)
Lemma world_spec (p : Z) (z o : float) :
  valid z -> Gl.zoom_in_range z -> 0 <= p <= 65536 -> Gl.near o ->
  valid (Gl.world_of_screen p z o) /\
  is_finite (Gl.world_of_screen p z o) = true /\
  Z.abs (val (Gl.world_of_screen p z o)) < 2 ^ (33 + 149).
Proof.
  intros V R Hs (Vo & Fo & Ho). unfold Gl.world_of_screen.
  destruct (pointer_over_zoom p z V R Hs) as (Va & Fa & Ha).
  set (a := div (of_int p) z) in *.
  assert (Hdiff : Z.abs (val a - val o) < 2 ^ (27 + 149) + 2 ^ (30 + 149)) by lia.
  assert (Fb : is_finite (sub a o) = true).
  { apply SFsub_no_overflow; try assumption.
    eapply Z.lt_trans; [exact Hdiff | ]. reflexivity. }
  destruct (SFsub_spec a o Va Vo Fa Fo) as (Vb & _ & Herr). specialize (Herr Fb).
  fold (sub a o) in Vb, Herr.
  split; [exact Vb | ]. split; [exact Fb | ].
  change (2 ^ 24) with 16777216 in Herr.
  assert (2 ^ (27 + 149) + 2 ^ (30 + 149) + 2 ^ (30 + 149) < 2 ^ (33 + 149)) by reflexivity.
  pose proof (pow2_pos (30 + 149) ltac:(lia)). lia.
Qed.

Lemma gl_hover_coord_nonneg (p : Z) (z o : float) :
  valid z -> Gl.zoom_in_range z -> 0 <= p <= 65536 -> Gl.near o ->
  0 <= val (Gl.world_of_screen p z o) ->
  Gl.hover_coord p z o 32 = Some (val (Gl.world_of_screen p z o) / (32 * 2 ^ 149)).
Proof.
  intros V R Hp No Hw. destruct (world_spec p z o V R Hp No) as (Vw & Fw & Hb).
  destruct (div_tile_spec _ Vw Fw Hb) as (Vd & Fd & Hd).
  destruct (div_tile_nonneg _ Vw Fw Hb Hw) as [Hq Eq].
  unfold Gl.hover_coord. rewrite (int_of_float_val _ Vd Fd Hd).
  rewrite Z.quot_div_nonneg by (try exact Hq; apply Z.pow_pos_nonneg; lia).
  rewrite Eq. reflexivity.
Qed.

(** ** Panning in [main.c] is exact *)

(** The pointer difference of a drag, when it is in the range of [int]. *)
Lemma int_sub_exact (a b : Z) : CInt.in_range (a - b) = true -> CInt.sub a b = a - b.
Proof.
  unfold CInt.sub, CInt.wrap, CInt.in_range, CInt.INT_MIN, CInt.INT_MAX.
  change (2 ^ 31) with 2147483648. change (2 ^ 32) with 4294967296.
  rewrite andb_true_iff, !Z.leb_le. intros [Hlo Hhi].
  rewrite Z.mod_small by lia. lia.
Qed.

Lemma int_sub_small (a b : Z) : Z.abs (a - b) < 2 ^ 31 -> CInt.sub a b = a - b.
Proof.
  intros H. apply int_sub_exact.
  unfold CInt.in_range, CInt.INT_MIN, CInt.INT_MAX. change (2 ^ 31) with 2147483648 in *.
  rewrite andb_true_iff, !Z.leb_le. lia.
Qed.

(** The pointer difference divided by the integer zoom, in quarters of a
    pixel. *)
Lemma sdl_delta_exact (d zoom : Z) :
  zoom = 1 \/ zoom = 2 \/ zoom = 4 -> Z.abs d < 2 ^ 24 ->
  valid (div (of_int d) (of_int zoom)) /\
  is_finite (div (of_int d) (of_int zoom)) = true /\
  val (div (of_int d) (of_int zoom)) = d * (4 / zoom) * 2 ^ 147.
Proof.
  intros Hz Hd. destruct (of_int_small d Hd) as (Vd & Fd & Ed).
  assert (Hj : exists j, 0 <= j <= 2 /\ val (of_int zoom) = 2 ^ (j + 149) /\
                         4 / zoom = 2 ^ (2 - j)).
  { destruct Hz as [-> | [-> | ->]]; [exists 0 | exists 1 | exists 2];
      (split; [lia | split; reflexivity]). }
  destruct Hj as (j & Hj & Ez & E4).
  assert (D : (2 ^ j | val (of_int d))).
  { rewrite Ed. replace 149 with (149 - j + j) by lia. rewrite Z.pow_add_r by lia.
    rewrite Z.mul_assoc. apply Z.divide_factor_r. }
  destruct (div_pow2_exact (of_int d) (of_int zoom) j Vd Fd (of_int_valid zoom)
              ltac:(lia) Ez D) as (V & F & E).
  split; [exact V | ]. split; [exact F | ].
  rewrite E, Ed, E4.
  replace 149 with (2 - j + 147 + j) at 1 by lia.
  rewrite !Z.pow_add_r, !Z.mul_assoc by lia.
  rewrite Z.div_mul by (apply Z.pow_nonzero; lia). reflexivity.
Qed.

Lemma sdl_pan_step (o : float) (d zoom jo : Z) :
  zoom = 1 \/ zoom = 2 \/ zoom = 4 ->
  valid o -> is_finite o = true -> val o = jo * 2 ^ 147 ->
  Z.abs d < 2 ^ 24 -> Z.abs (jo + d * (4 / zoom)) < 2 ^ 24 ->
  valid (add o (div (of_int d) (of_int zoom))) /\
  is_finite (add o (div (of_int d) (of_int zoom))) = true /\
  val (add o (div (of_int d) (of_int zoom))) = (jo + d * (4 / zoom)) * 2 ^ 147.
Proof.
  intros Hz Vo Fo Eo Hd Hj.
  destruct (sdl_delta_exact d zoom Hz Hd) as (Vd & Fd & Ed).
  assert (Es : val o + val (div (of_int d) (of_int zoom)) = (jo + d * (4 / zoom)) * 2 ^ 147).
  { rewrite Eo, Ed. ring. }
  unfold add.
  destruct (SFadd_exact o (div (of_int d) (of_int zoom)) (jo + d * (4 / zoom)) 147
              Vo Vd Fo Fd Es ltac:(lia) Hj) as (V & F & E).
  - rewrite Es, Z.abs_mul. change (Z.abs (2 ^ 147)) with (2 ^ 147).
    change (2 ^ 276) with (2 ^ 129 * 2 ^ 147).
    apply Z.mul_lt_mono_pos_r; [reflexivity | ].
    eapply Z.lt_trans; [exact Hj | reflexivity].
  - split; [exact V | ]. split; [exact F | ]. rewrite E. exact Es.
Qed.

(** ** Exact results of the frame arithmetic *)

(** X18. The clamped minimum of the visible range is computed without rounding
    error, and is the same in both renderers: it is the floor of
    [-offset / 32], or 0 when that is negative ([val] counts in units of
    [2^-149], so [32 * 2^149] is the tile size). *)
Theorem clamped_minimum_is_exact
    (s : Gl.Session) (screen_w screen_h : Z) (r : Gl.VisibleRange)
    (t : Sdl.Session) (r' : Sdl.VisibleRange) :
  Gl.near (Gl.offset_x s) -> Gl.near (Gl.offset_y s) ->
  Gl.visible_range s screen_w screen_h = Some r ->
  Gl.near (Sdl.offset_x t) -> Gl.near (Sdl.offset_y t) ->
  Sdl.visible_range t = Some r' ->
  Gl.min_x r = Z.max 0 ((- val (Gl.offset_x s)) / (TILE_WIDTH * 2 ^ 149)) /\
  Gl.min_y r = Z.max 0 ((- val (Gl.offset_y s)) / (TILE_HEIGHT * 2 ^ 149)) /\
  Sdl.min_x r' = Z.max 0 ((- val (Sdl.offset_x t)) / (TILE_WIDTH * 2 ^ 149)) /\
  Sdl.min_y r' = Z.max 0 ((- val (Sdl.offset_y t)) / (TILE_HEIGHT * 2 ^ 149)).
Proof.
  intros Nx Ny Hr Nx' Ny' Hr'.
  destruct (gl_visible_range_fields s screen_w screen_h r Hr)
    as (mnx & mny & _ & _ & Hmnx & Hmny & _ & _ & Ex & Ey & _).
  destruct (sdl_visible_range_fields t r' Hr')
    as (mnx' & mny' & _ & _ & Hmnx' & Hmny' & _ & _ & Ex' & Ey' & _).
  unfold TILE_WIDTH, TILE_HEIGHT in *.
  destruct (gl_raw_min_exact _ Nx) as (n1 & H1 & E1).
  destruct (gl_raw_min_exact _ Ny) as (n2 & H2 & E2).
  destruct (sdl_raw_min_exact _ Nx') as (n3 & H3 & E3).
  destruct (sdl_raw_min_exact _ Ny') as (n4 & H4 & E4).
  rewrite Hmnx in H1. rewrite Hmny in H2. rewrite Hmnx' in H3. rewrite Hmny' in H4.
  injection H1 as <-. injection H2 as <-. injection H3 as <-. injection H4 as <-.
  rewrite Ex, Ey, Ex', Ey'. repeat split; assumption.
Qed.

Lemma clamped_minimum_is_exact_witness :
  Gl.near (of_int (-100)) /\ Gl.near (of_int (-50)) /\
  Gl.near (Sdl.offset_x Sdl.initial_session) /\ Gl.near (Sdl.offset_y Sdl.initial_session) /\
  3 = Z.max 0 ((- val (of_int (-100))) / (TILE_WIDTH * 2 ^ 149)) /\
  487 = Z.max 0 ((- val (Sdl.offset_x Sdl.initial_session)) / (TILE_WIDTH * 2 ^ 149)).
Proof.
  assert (N1 : Gl.near (of_int (-100))) by (repeat split; reflexivity).
  assert (N2 : Gl.near (of_int (-50))) by (repeat split; reflexivity).
  assert (N3 : Gl.near (Sdl.offset_x Sdl.initial_session)) by (repeat split; reflexivity).
  assert (N4 : Gl.near (Sdl.offset_y Sdl.initial_session)) by (repeat split; reflexivity).
  split; [exact N1 | ]. split; [exact N2 | ]. split; [exact N3 | ]. split; [exact N4 | ].
  destruct (clamped_minimum_is_exact
              (Gl.session_at (of_int (-100)) (of_int (-50)) (literal 1 1)) 800 600
              {| Gl.min_x := 3; Gl.min_y := 1; Gl.max_x := 254; Gl.max_y := 190;
                 Gl.lod := 3; Gl.start_x := 3; Gl.start_y := 0 |}
              Sdl.initial_session
              {| Sdl.min_x := 487; Sdl.min_y := 490; Sdl.max_x := 513; Sdl.max_y := 510 |}
              N1 N2 eq_refl N3 N4 eq_refl) as (H1 & _ & H3 & _).
  exact (conj H1 H3).
Defined.

(** X19. When the world coordinate under the pointer, as [maingl.c] computes
    it, is not negative on either axis, the hover is the tile that holds
    it: the coordinate divided by the tile size, rounded down, with no
    rounding error; the outline is drawn when that tile is in the map. *)
Theorem hover_tile_holds_world_point (s : Gl.Session) (mx my : Z) :
  Gl.zoom_ok s -> Gl.near (Gl.offset_x s) -> Gl.near (Gl.offset_y s) ->
  0 <= mx <= 65536 -> 0 <= my <= 65536 ->
  0 <= val (Gl.world_of_screen mx (Gl.zoom s) (Gl.offset_x s)) ->
  0 <= val (Gl.world_of_screen my (Gl.zoom s) (Gl.offset_y s)) ->
  Gl.hover s mx my
  = Some (if Gl.in_grid
               (val (Gl.world_of_screen mx (Gl.zoom s) (Gl.offset_x s)) / (TILE_WIDTH * 2 ^ 149))
               (val (Gl.world_of_screen my (Gl.zoom s) (Gl.offset_y s)) / (TILE_HEIGHT * 2 ^ 149))
          then Some (val (Gl.world_of_screen mx (Gl.zoom s) (Gl.offset_x s))
                     / (TILE_WIDTH * 2 ^ 149),
                     val (Gl.world_of_screen my (Gl.zoom s) (Gl.offset_y s))
                     / (TILE_HEIGHT * 2 ^ 149))
          else None).
Proof.
  intros [V R] Nx Ny Hx Hy Wx Wy. unfold Gl.hover, TILE_WIDTH, TILE_HEIGHT.
  rewrite (gl_hover_coord_nonneg mx _ _ V R Hx Nx Wx).
  rewrite (gl_hover_coord_nonneg my _ _ V R Hy Ny Wy).
  reflexivity.
Qed.

Lemma hover_tile_holds_world_point_witness :
  Gl.zoom_ok Gl.initial_session /\
  Gl.near (Gl.offset_x Gl.initial_session) /\ Gl.near (Gl.offset_y Gl.initial_session) /\
  0 <= val (Gl.world_of_screen 400 (Gl.zoom Gl.initial_session)
              (Gl.offset_x Gl.initial_session)) /\
  0 <= val (Gl.world_of_screen 300 (Gl.zoom Gl.initial_session)
              (Gl.offset_y Gl.initial_session)) /\
  Gl.hover Gl.initial_session 400 300
  = Some (if Gl.in_grid
               (val (Gl.world_of_screen 400 (Gl.zoom Gl.initial_session)
                       (Gl.offset_x Gl.initial_session)) / (TILE_WIDTH * 2 ^ 149))
               (val (Gl.world_of_screen 300 (Gl.zoom Gl.initial_session)
                       (Gl.offset_y Gl.initial_session)) / (TILE_HEIGHT * 2 ^ 149))
          then Some (val (Gl.world_of_screen 400 (Gl.zoom Gl.initial_session)
                            (Gl.offset_x Gl.initial_session)) / (TILE_WIDTH * 2 ^ 149),
                     val (Gl.world_of_screen 300 (Gl.zoom Gl.initial_session)
                            (Gl.offset_y Gl.initial_session)) / (TILE_HEIGHT * 2 ^ 149))
          else None).
Proof.
  assert (H1 : Gl.zoom_ok Gl.initial_session) by (repeat split; reflexivity).
  assert (H2 : Gl.near (Gl.offset_x Gl.initial_session)) by (repeat split; reflexivity).
  assert (H3 : Gl.near (Gl.offset_y Gl.initial_session)) by (repeat split; reflexivity).
  assert (H4 : 0 <= val (Gl.world_of_screen 400 (Gl.zoom Gl.initial_session)
                           (Gl.offset_x Gl.initial_session)))
    by (vm_compute; discriminate).
  assert (H5 : 0 <= val (Gl.world_of_screen 300 (Gl.zoom Gl.initial_session)
                           (Gl.offset_y Gl.initial_session)))
    by (vm_compute; discriminate).
  split; [exact H1 | ]. split; [exact H2 | ]. split; [exact H3 | ].
  split; [exact H4 | ]. split; [exact H5 | ].
  apply (hover_tile_holds_world_point Gl.initial_session 400 300 H1 H2 H3); try lia;
    assumption.
Defined.

(** X20. In [main.c] a drag step is exact.  With the camera offset a multiple of
    a quarter of a pixel below [2^20] pixels and a pointer step below
    [2^20] pixels, the new offset is the old one plus the pointer
    difference divided by the zoom, with no rounding; moving the pointer
    back restores the offset. *)
Theorem sdl_drag_is_exact (t : Sdl.Session) (x y jx jy : Z) :
  Sdl.zoom t = 1 \/ Sdl.zoom t = 2 \/ Sdl.zoom t = 4 ->
  Sdl.dragging t = true ->
  valid (Sdl.offset_x t) -> is_finite (Sdl.offset_x t) = true ->
  val (Sdl.offset_x t) = jx * 2 ^ 147 -> Z.abs jx < 2 ^ 22 ->
  valid (Sdl.offset_y t) -> is_finite (Sdl.offset_y t) = true ->
  val (Sdl.offset_y t) = jy * 2 ^ 147 -> Z.abs jy < 2 ^ 22 ->
  Z.abs (x - Sdl.last_mouse_x t) < 2 ^ 20 -> Z.abs (y - Sdl.last_mouse_y t) < 2 ^ 20 ->
  val (Sdl.offset_x (Sdl.handle_event t (Sdl.MouseMotion x y)))
  = val (Sdl.offset_x t) + (x - Sdl.last_mouse_x t) * (2 ^ 149 / Sdl.zoom t) /\
  val (Sdl.offset_y (Sdl.handle_event t (Sdl.MouseMotion x y)))
  = val (Sdl.offset_y t) + (y - Sdl.last_mouse_y t) * (2 ^ 149 / Sdl.zoom t) /\
  val (Sdl.offset_x (Sdl.handle_events t [Sdl.MouseMotion x y;
                                          Sdl.MouseMotion (Sdl.last_mouse_x t)
                                                          (Sdl.last_mouse_y t)]))
  = val (Sdl.offset_x t) /\
  val (Sdl.offset_y (Sdl.handle_events t [Sdl.MouseMotion x y;
                                          Sdl.MouseMotion (Sdl.last_mouse_x t)
                                                          (Sdl.last_mouse_y t)]))
  = val (Sdl.offset_y t).
Proof.
  intros Hz Hd Vx Fx Ex Bx Vy Fy Ey By Dx Dy.
  assert (H4 : 1 <= 4 / Sdl.zoom t <= 4 /\ 2 ^ 149 / Sdl.zoom t = 4 / Sdl.zoom t * 2 ^ 147).
  { destruct Hz as [-> | [-> | ->]]; split; try reflexivity; vm_compute; split; discriminate. }
  destruct H4 as [H4 E4].
  change (2 ^ 22) with 4194304 in *. change (2 ^ 20) with 1048576 in *.
  assert (Q : forall o j d j',
             valid o -> is_finite o = true -> val o = j * 2 ^ 147 ->
             Z.abs d < 1048576 -> j' = j + d * (4 / Sdl.zoom t) -> Z.abs j' < 2 ^ 24 ->
             valid (add o (div (of_int d) (of_int (Sdl.zoom t)))) /\
             is_finite (add o (div (of_int d) (of_int (Sdl.zoom t)))) = true /\
             val (add o (div (of_int d) (of_int (Sdl.zoom t)))) = j' * 2 ^ 147).
  { intros o j d j' Vo Fo Eo Hdd -> Hj.
    apply sdl_pan_step; try assumption.
    change (2 ^ 24) with 16777216. lia. }
  destruct (Q (Sdl.offset_x t) jx (x - Sdl.last_mouse_x t) _ Vx Fx Ex Dx eq_refl)
    as (Vx1 & Fx1 & Ex1); [change (2 ^ 24) with 16777216; nia | ].
  destruct (Q (Sdl.offset_y t) jy (y - Sdl.last_mouse_y t) _ Vy Fy Ey Dy eq_refl)
    as (Vy1 & Fy1 & Ey1); [change (2 ^ 24) with 16777216; nia | ].
  unfold Sdl.handle_events. cbn [fold_left].
  cbn [Sdl.handle_event]. rewrite Hd.
  cbn [Sdl.dragging Sdl.offset_x Sdl.offset_y Sdl.zoom Sdl.last_mouse_x Sdl.last_mouse_y].
  rewrite ?Hd.
  cbn [Sdl.dragging Sdl.offset_x Sdl.offset_y Sdl.zoom Sdl.last_mouse_x Sdl.last_mouse_y].
  assert (S31 : 1048576 < 2 ^ 31) by reflexivity.
  rewrite !(int_sub_small x), !(int_sub_small y),
    !(int_sub_small (Sdl.last_mouse_x t)), !(int_sub_small (Sdl.last_mouse_y t)) by lia.
  split; [rewrite Ex1, Ex, E4; ring | ]. split; [rewrite Ey1, Ey, E4; ring | ].
  destruct (Q _ _ (Sdl.last_mouse_x t - x) _ Vx1 Fx1 Ex1 ltac:(lia) eq_refl)
    as (_ & _ & Ex2); [change (2 ^ 24) with 16777216; nia | ].
  destruct (Q _ _ (Sdl.last_mouse_y t - y) _ Vy1 Fy1 Ey1 ltac:(lia) eq_refl)
    as (_ & _ & Ey2); [change (2 ^ 24) with 16777216; nia | ].
  split; [rewrite Ex2, Ex; ring | rewrite Ey2, Ey; ring].
Qed.

Lemma sdl_drag_is_exact_witness :
  val (Sdl.offset_x (Sdl.handle_events
                       (Sdl.handle_events Sdl.initial_session
                          [Sdl.MouseWheel 1; Sdl.LeftButtonDown 100 100])
                       [Sdl.MouseMotion 131 57; Sdl.MouseMotion 100 100]))
  = val (Sdl.offset_x Sdl.initial_session).
Proof.
  refine (proj1 (proj2 (proj2
            (sdl_drag_is_exact
               (Sdl.handle_events Sdl.initial_session
                  [Sdl.MouseWheel 1; Sdl.LeftButtonDown 100 100])
               131 57 (-62400) (-62800) _ _ _ _ _ _ _ _ _ _ _ _))));
    try reflexivity; right; left; reflexivity.
Defined.

(** ** The error of a quotient *)

(** A quotient of finite numbers is within one unit in the last place of
    the exact quotient: [w] is that unit, one for a subnormal result and
    at most [2^-23] of the result otherwise. *)
Lemma SFdiv_error (sx sy : bool) (mx my : positive) (ex ey : Z) :
  valid (S754_finite sx mx ex) -> valid (S754_finite sy my ey) ->
  -149 <= ex - ey ->
  is_finite (SFdiv prec emax (S754_finite sx mx ex) (S754_finite sy my ey)) = true ->
  exists w : Z,
    0 < w /\
    (w = 1 \/ 2 ^ 23 * w <= Z.abs (val (SFdiv prec emax (S754_finite sx mx ex)
                                                       (S754_finite sy my ey)))) /\
    Z.abs (Z.abs (val (SFdiv prec emax (S754_finite sx mx ex) (S754_finite sy my ey)))
           * (Zpos my * 2 ^ (ey + 149))
           - Zpos mx * 2 ^ (ex + 149) * 2 ^ 149)
    <= w * (Zpos my * 2 ^ (ey + 149)).
Proof.
  intros Vx Vy Hee Hfin.
  pose proof (valid_finite_inv _ _ _ Vx) as (Hex & Hmx & _).
  pose proof (valid_finite_inv _ _ _ Vy) as (Hey & Hmy & _).
  pose proof (SFdiv_spec sx sy mx my ex ey) as Hs. cbv zeta in Hs.
  pose proof (div_exponent_ok mx my ex ey) as [Hq0 He]. cbv zeta in Hq0, He.
  set (e' := Z.min (fexp32 (Zdigits2 (Zpos mx) + ex - (Zdigits2 (Zpos my) + ey))) (ex - ey)) in *.
  set (sg := ex - ey - e') in *.
  set (qq := Zpos mx * 2 ^ sg) in *.
  set (q := qq / Zpos my) in *.
  set (c := fexp32 (Zdigits2 q + e')) in *.
  assert (Hsg : 0 <= sg) by (unfold sg, e'; lia).
  assert (He'lo : -149 <= e') by (unfold e', fexp32; lia).
  assert (Hc : -149 <= c) by (unfold c, fexp32; lia).
  pose proof (pow2_pos sg Hsg) as Hpsg.
  pose proof (pow2_pos (c - e') ltac:(lia)) as Hps.
  pose proof (pow2_pos (e' + 149) ltac:(lia)) as Hpe.
  pose proof (pow2_pos (ey + 149) ltac:(lia)) as Hpy.
  pose proof (pow2_pos (c + 149) ltac:(lia)) as Hpc.
  assert (Hqq : 0 < qq) by (unfold qq; lia).
  pose proof (Z.div_mod qq (Zpos my) ltac:(lia)) as Hdm.
  pose proof (Z.mod_pos_bound qq (Zpos my) ltac:(lia)) as Hmb.
  fold q in Hdm.
  pose proof (Z.div_mod q (2 ^ (c - e')) ltac:(lia)) as Hdm2.
  pose proof (Z.mod_pos_bound q (2 ^ (c - e')) ltac:(lia)) as Hmb2.
  (* common factor *)
  assert (EK : Zpos mx * 2 ^ (ex + 149) * 2 ^ 149
               = qq * (2 ^ (e' + 149) * 2 ^ (ey + 149))).
  { unfold qq. rewrite <- !Z.mul_assoc, <- !Z.pow_add_r by lia.
    do 2 f_equal. unfold sg. lia. }
  assert (EC : 2 ^ (c + 149) = 2 ^ (c - e') * 2 ^ (e' + 149)).
  { rewrite <- Z.pow_add_r by lia. f_equal. lia. }
  destruct Hs as (m1 & Hm1 & Hres).
  fold c in Hm1, Hres.
  set (f := q / 2 ^ (c - e')) in *.
  assert (Hf0 : 0 <= f) by (apply Z.div_pos; lia).
  (* one unit in the last place, on the mantissas *)
  assert (Hulp : Z.abs (m1 * 2 ^ (c - e') * Zpos my - qq) <= 2 ^ (c - e') * Zpos my).
  { assert (Hlo : (m1 - 1) * 2 ^ (c - e') <= q) by nia.
    assert (Hhi : q + 1 <= (m1 + 1) * 2 ^ (c - e')) by nia.
    assert (Hlo' : (m1 - 1) * 2 ^ (c - e') * Zpos my <= q * Zpos my)
      by (apply Z.mul_le_mono_nonneg_r; lia).
    assert (Hhi' : (q + 1) * Zpos my <= (m1 + 1) * 2 ^ (c - e') * Zpos my)
      by (apply Z.mul_le_mono_nonneg_r; lia).
    apply Z.abs_le. split; nia. }
  (* the value of the result *)
  assert (Hval : Z.abs (val (SFdiv prec emax (S754_finite sx mx ex) (S754_finite sy my ey)))
                 = m1 * 2 ^ (c + 149)).
  { destruct Hres as [[Hz Hr] | Hr].
    - rewrite Hr, Hz. reflexivity.
    - rewrite (rounded_val _ _ _ _ Hr Hc Hfin).
      assert (0 <= m1 * 2 ^ (c + 149)) by (apply Z.mul_nonneg_nonneg; lia).
      destruct (xorb sx sy); cbn [cond_Zopp]; lia. }
  exists (2 ^ (c + 149)). split; [exact Hpc | ]. split.
  - destruct (Z.eq_dec c (-149)) as [E | E]; [left; rewrite E; reflexivity | right].
    rewrite Hval. apply Z.mul_le_mono_nonneg_r; [lia | ].
    assert (Ec : c = Zdigits2 q + e' - 24) by (unfold c, fexp32 in *; lia).
    assert (Hqpos : 0 < q).
    { destruct (Z.eq_dec q 0) as [E0 | E0]; [ | lia].
      rewrite E0 in Ec. cbn [Zdigits2] in Ec. lia. }
    pose proof (Zdigits2_bounds q Hqpos) as [Blo _].
    eapply Z.le_trans; [ | exact (proj1 Hm1)]. fold f.
    apply Z.div_le_lower_bound; [lia | ].
    rewrite <- Z.pow_add_r by lia.
    replace (c - e' + 23) with (Zdigits2 q - 1) by lia. exact Blo.
  - rewrite Hval, EK, EC.
    replace (m1 * (2 ^ (c - e') * 2 ^ (e' + 149)) * (Zpos my * 2 ^ (ey + 149))
             - qq * (2 ^ (e' + 149) * 2 ^ (ey + 149)))
      with ((m1 * 2 ^ (c - e') * Zpos my - qq) * (2 ^ (e' + 149) * 2 ^ (ey + 149))) by ring.
    rewrite Z.abs_mul.
    rewrite (Z.abs_eq (2 ^ (e' + 149) * 2 ^ (ey + 149))) by (apply Z.mul_nonneg_nonneg; lia).
    replace (2 ^ (c - e') * 2 ^ (e' + 149) * (Zpos my * 2 ^ (ey + 149)))
      with (2 ^ (c - e') * Zpos my * (2 ^ (e' + 149) * 2 ^ (ey + 149))) by ring.
    apply Z.mul_le_mono_nonneg_r; [apply Z.mul_nonneg_nonneg; lia | exact Hulp].
Qed.

(** ** How many tiles a frame draws *)

(** The relative error of a normal quotient of positive numbers. *)
Lemma div_rel_error (x y : float) :
  valid x -> valid y -> 0 < val x -> 0 < val y -> val y < 2 ^ (24 + 149) ->
  is_finite (div x y) = true -> 2 ^ 23 <= val (div x y) ->
  val (div x y) * val y * (2 ^ 23 - 1) <= val x * 2 ^ 149 * 2 ^ 23 /\
  val x * 2 ^ 149 * 2 ^ 23 <= val (div x y) * val y * (2 ^ 23 + 1).
Proof.
  intros Vx Vy Hx Hy Hy1 Hf Hn.
  destruct (positive_val_inv x Hx) as (mx & ex & ->).
  destruct (positive_val_inv y Hy) as (my & ey & ->).
  pose proof (valid_finite_inv _ _ _ Vx) as (Hex & _).
  pose proof (valid_finite_inv _ _ _ Vy) as (Hey & Hmy & Hny).
  assert (Hey0 : ey <= 0).
  { cbn [val cond_Zopp] in Hy1.
    destruct (Z_le_gt_dec ey 0) as [G | G]; [exact G | exfalso].
    destruct Hny as [Hny | Hny]; [ | lia].
    pose proof (pow2_le 150 (ey + 149) ltac:(lia)) as G1.
    assert (G2 : 2 ^ 23 * 2 ^ 150 <= Zpos my * 2 ^ (ey + 149)).
    { apply Z.mul_le_mono_nonneg; lia. }
    change (2 ^ 23 * 2 ^ 150) with (2 ^ (24 + 149)) in G2. lia. }
  unfold div in *.
  destruct (SFdiv_error false false mx my ex ey Vx Vy ltac:(lia) Hf) as (w & Hw & Hwn & Herr).
  cbn [val cond_Zopp] in *.
  set (R := val (SFdiv prec emax (S754_finite false mx ex) (S754_finite false my ey))) in *.
  set (Y := Zpos my * 2 ^ (ey + 149)) in *.
  set (X := Zpos mx * 2 ^ (ex + 149) * 2 ^ 149) in *.
  rewrite (Z.abs_eq R) in Herr, Hwn by lia.
  assert (Hw23 : 2 ^ 23 * w <= R) by (destruct Hwn as [-> | H]; lia).
  assert (HwY : 2 ^ 23 * (w * Y) <= R * Y).
  { rewrite Z.mul_assoc. apply Z.mul_le_mono_nonneg_r; lia. }
  apply Z.abs_le in Herr. change (2 ^ 23) with 8388608 in *. lia.
Qed.

(** The width of the window in world units. *)
Lemma screen_quotient_bound (screen : Z) (z : float) :
  valid z -> Gl.zoom_in_range z -> 0 < screen <= 65536 ->
  0 <= val (div (of_int screen) z) /\
  val (div (of_int screen) z) * val z * (2 ^ 23 - 1) <= screen * 2 ^ 149 * 2 ^ 149 * 2 ^ 23.
Proof.
  intros V R Hs.
  destruct (screen_over_zoom screen z V R Hs) as (Va & Fa & Ha).
  destruct (zoom_in_range_inv z V R) as (mz & ez & Ez & Hm & He & Hlo & Hhi).
  destruct (of_int_small screen ltac:(change (2 ^ 24) with 16777216; lia)) as (Vs & Fs & Es).
  pose proof (pow2_pos 149 ltac:(lia)) as H149.
  assert (Hzpos : 0 < val z).
  { rewrite Ez. cbn [val cond_Zopp]. pose proof (pow2_pos (ez + 149) ltac:(lia)). lia. }
  assert (Hz1 : val z <= 2 ^ 149 * 16).
  { eapply Z.le_trans; [exact Hhi | ]. vm_compute. discriminate. }
  (* the quotient is at least 2^-5 *)
  destruct (positive_val_inv (of_int screen) ltac:(rewrite Es; nia)) as (ms & es & Eos).
  rewrite Eos in *. subst z.
  pose proof (valid_finite_inv _ _ _ Vs) as (Hes & _).
  unfold div in *.
  destruct (SFdiv_error false false ms mz es ez Vs V ltac:(lia) Fa) as (w & Hw & Hwn & Herr).
  cbn [val cond_Zopp] in *.
  set (Q := val (SFdiv prec emax (S754_finite false ms es) (S754_finite false mz ez))) in *.
  set (Y := Zpos mz * 2 ^ (ez + 149)) in *.
  rewrite Es in Herr.
  assert (Hsign : 0 <= Q).
  { unfold Q. destruct (SFdiv_spec false false ms mz es ez) as (m1 & Hm1 & [[_ Hr] | Hr]).
    - rewrite Hr. cbn. lia.
    - cbv zeta in Hm1.
      pose proof (div_exponent_ok ms mz es ez) as [Hq0 He']. cbv zeta in Hq0, He'.
      match type of Hr with rounded _ _ ?c _ =>
        assert (Hc : -149 <= c) by (unfold fexp32; lia);
        rewrite (rounded_val _ _ _ _ Hr Hc Fa)
      end.
      cbn [xorb cond_Zopp]. apply Z.mul_nonneg_nonneg; [ | apply Z.pow_nonneg; lia].
      eapply Z.le_trans; [ | exact (proj1 Hm1)].
      apply Z.div_pos; [exact Hq0 | ]. apply Z.pow_pos_nonneg; lia. }
  split; [exact Hsign | ].
  rewrite (Z.abs_eq Q) in Herr, Hwn by lia.
  apply Z.abs_le in Herr.
  assert (Hbig : 2 ^ 23 <= Q).
  { destruct Hwn as [-> | Hn]; [ | nia].
    assert (G1 : 2 ^ 149 * 2 ^ 149 <= screen * 2 ^ 149 * 2 ^ 149) by nia.
    assert (HQY : 2 ^ 149 * 2 ^ 149 - Y <= Q * Y) by lia.
    destruct (Z_le_gt_dec (2 ^ 23) Q) as [G | G]; [exact G | exfalso].
    assert (G2 : Q * Y <= 2 ^ 23 * Y) by (apply Z.mul_le_mono_nonneg_r; lia).
    assert (G3 : (2 ^ 23 + 1) * (2 ^ 149 * 16) < 2 ^ 149 * 2 ^ 149) by (vm_compute; reflexivity).
    nia. }
  assert (Hw23 : 2 ^ 23 * w <= Q) by (destruct Hwn as [-> | H]; lia).
  assert (HwY : 2 ^ 23 * (w * Y) <= Q * Y).
  { rewrite Z.mul_assoc. apply Z.mul_le_mono_nonneg_r; lia. }
  change (2 ^ 23) with 8388608 in *. lia.
Qed.

(** The stride is at least the threshold divided by the size of a tile on
    screen, up to the rounding of the quotient. *)
Lemma lod_lower_bound (z : float) (l : Z) :
  valid z -> Gl.zoom_in_range z -> Gl.lod_of_zoom z = Some l ->
  1 <= l <= 1024 /\
  8 * 2 ^ 149 * 2 ^ 23 <= l * (32 * val z) * (2 ^ 23 + 1).
Proof.
  intros V R Hl.
  destruct (lod_of_zoom_defined z V R) as (l' & Hl' & Hb & Hlt & Hge).
  rewrite Hl in Hl'. injection Hl' as <-.
  split; [exact Hb | ].
  destruct (tile_screen_size_spec z V R) as (Vt & Ft & Et).
  destruct (zoom_in_range_inv z V R) as (mz & ez & Ez & Hm & He & Hlo & Hhi).
  unfold TILE_WIDTH in Et.
  assert (ET : val Gl.LOD_PIXEL_THRESHOLD = 8 * 2 ^ 149) by reflexivity.
  pose proof (pow2_pos 149 ltac:(lia)) as H149.
  assert (Hzpos : 0 < val z).
  { rewrite Ez. cbn [val cond_Zopp]. pose proof (pow2_pos (ez + 149) ltac:(lia)). lia. }
  destruct (Z_lt_ge_dec (val (Gl.tile_screen_size z)) (val Gl.LOD_PIXEL_THRESHOLD)) as [C | C].
  - specialize (Hlt C). clear Hge.
    destruct (lod_quotient_spec (Gl.tile_screen_size z) Vt Ft) as (m & e & Eq & Vq & Heq).
    { unfold TILE_WIDTH. rewrite Et. lia. }
    assert (Fq : is_finite (div Gl.LOD_PIXEL_THRESHOLD (Gl.tile_screen_size z)) = true)
      by (rewrite Eq; reflexivity).
    assert (Hq23 : 2 ^ 23 <= val (div Gl.LOD_PIXEL_THRESHOLD (Gl.tile_screen_size z))).
    { rewrite Eq. cbn [val cond_Zopp].
      pose proof (valid_finite_inv _ _ _ Vq) as (_ & _ & [Hn | Hn]); [ | lia].
      pose proof (pow2_pos (e + 149) ltac:(lia)). nia. }
    assert (VT : valid Gl.LOD_PIXEL_THRESHOLD) by reflexivity.
    assert (PT : 0 < val Gl.LOD_PIXEL_THRESHOLD) by reflexivity.
    assert (Pt : 0 < val (Gl.tile_screen_size z)) by (rewrite Et; lia).
    assert (Bt : val (Gl.tile_screen_size z) < 2 ^ (24 + 149))
      by (eapply Z.lt_trans; [exact C | reflexivity]).
    destruct (div_rel_error Gl.LOD_PIXEL_THRESHOLD (Gl.tile_screen_size z)
                VT Vt PT Pt Bt Fq Hq23) as [_ Hrel].
    rewrite ET, Et in Hrel.
    set (Q := val (div Gl.LOD_PIXEL_THRESHOLD (Gl.tile_screen_size z))) in *.
    assert (G1 : Q * (32 * val z) <= l * 2 ^ 149 * (32 * val z))
      by (apply Z.mul_le_mono_nonneg_r; lia).
    change (2 ^ 23) with 8388608 in *.
    assert (G2 : 8 * 2 ^ 149 * 2 ^ 149 * 8388608
                 <= l * 2 ^ 149 * (32 * val z) * (8388608 + 1)) by nia.
    nia.
  - rewrite (Hge ltac:(lia)). rewrite ET, Et in C. change (2 ^ 23) with 8388608. lia.
Qed.

(** The arithmetic behind the bound: a window of [screen] pixels spans at
    most [screen / 8 + 1] strides. *)
Lemma window_in_strides (A Zv u screen l : Z) :
  0 <= A -> 0 < Zv -> 0 < u -> 0 < screen <= 65536 -> 1 <= l ->
  A * Zv * 8388607 <= screen * u * u * 8388608 ->
  8 * u * 8388608 <= l * (32 * Zv) * 8388609 ->
  A <= 32 * u * l * (screen / 8 + 1).
Proof.
  intros HA HZ Hu Hs Hl F1 L1.
  set (k := screen / 8 + 1).
  assert (Hk : screen + 1 <= 8 * k).
  { unfold k. pose proof (Z.mul_succ_div_gt screen 8 ltac:(lia)). lia. }
  assert (Hk0 : 0 < k) by lia.
  assert (T1 : u * k * (8 * u * 8388608) <= u * k * (l * (32 * Zv) * 8388609)).
  { apply Z.mul_le_mono_nonneg_l; [apply Z.mul_nonneg_nonneg; lia | exact L1]. }
  assert (T2 : u * u * 8388608 * (screen + 1) <= u * u * 8388608 * (8 * k)).
  { apply Z.mul_le_mono_nonneg_l; [ | exact Hk].
    apply Z.mul_nonneg_nonneg; [apply Z.mul_nonneg_nonneg; lia | lia]. }
  assert (T3 : A * Zv * 8388607 * 8388609 <= screen * u * u * 8388608 * 8388609).
  { apply Z.mul_le_mono_nonneg_r; [lia | exact F1]. }
  assert (T4 : u * u * 8388608 * (screen * 8388609)
               <= u * u * 8388608 * ((screen + 1) * 8388607)).
  { apply Z.mul_le_mono_nonneg_l; [ | lia].
    apply Z.mul_nonneg_nonneg; [apply Z.mul_nonneg_nonneg; lia | lia]. }
  assert (T5 : u * u * 8388608 * (screen + 1) * 8388607
               <= u * k * (l * (32 * Zv) * 8388609) * 8388607).
  { apply Z.mul_le_mono_nonneg_r; [lia | ].
    eapply Z.le_trans; [exact T2 | ].
    replace (u * u * 8388608 * (8 * k)) with (u * k * (8 * u * 8388608)) by ring.
    exact T1. }
  assert (T6 : A * Zv * (8388607 * 8388609) <= (32 * u * l * k) * Zv * (8388607 * 8388609)).
  { replace (A * Zv * (8388607 * 8388609)) with (A * Zv * 8388607 * 8388609) by ring.
    replace ((32 * u * l * k) * Zv * (8388607 * 8388609))
      with (u * k * (l * (32 * Zv) * 8388609) * 8388607) by ring.
    eapply Z.le_trans; [exact T3 | ].
    replace (screen * u * u * 8388608 * 8388609)
      with (u * u * 8388608 * (screen * 8388609)) by ring.
    eapply Z.le_trans; [exact T4 | ].
    replace (u * u * 8388608 * ((screen + 1) * 8388607))
      with (u * u * 8388608 * (screen + 1) * 8388607) by ring.
    exact T5. }
  apply Z.mul_le_mono_pos_r in T6; [ | lia].
  apply Z.mul_le_mono_pos_r in T6; [ | lia].
  exact T6.
Qed.

(** The ceiling of the quotient by the tile size. *)
Lemma div_tile_ceil_upper (x : float) :
  valid x -> is_finite x = true -> Z.abs (val x) < 2 ^ (33 + 149) ->
  - ((- val (div x (of_int 32))) / 2 ^ 149) <= Z.max (val x) 0 / (32 * 2 ^ 149) + 1.
Proof.
  intros V F Hb. pose proof (pow2_pos 149 ltac:(lia)) as H149.
  assert (Hm : 0 <= Z.max (val x) 0 / (32 * 2 ^ 149)) by (apply Z.div_pos; lia).
  destruct (tile_multiple_dec (val x)) as [D | D].
  - destruct (div_pow2_exact x (of_int 32) 5 V F (of_int_valid 32) ltac:(lia)
                tile_size_val D) as (_ & _ & E).
    rewrite E.
    assert (E2 : val x / 2 ^ 5 / 2 ^ 149 = val x / (32 * 2 ^ 149))
      by (rewrite Z.div_div by lia; reflexivity).
    assert (Hmono : val x / (32 * 2 ^ 149) <= Z.max (val x) 0 / (32 * 2 ^ 149))
      by (apply Z.div_le_mono; lia).
    set (Cq := val x / 2 ^ 5) in *.
    pose proof (Z.div_mod (- Cq) (2 ^ 149) ltac:(lia)) as G1.
    pose proof (Z.mod_pos_bound (- Cq) (2 ^ 149) ltac:(lia)) as G2.
    pose proof (Z.div_mod Cq (2 ^ 149) ltac:(lia)) as G3.
    pose proof (Z.mod_pos_bound Cq (2 ^ 149) ltac:(lia)) as G4.
    assert (- ((- Cq) / 2 ^ 149) <= Cq / 2 ^ 149 + 1) by nia.
    lia.
  - destruct (not_tile_multiple_tiny x V F D) as (s & m & e & -> & He).
    destruct (div_tile_tiny s m e V He) as [_ H2].
    assert (G : 2 ^ 24 < 2 ^ 149) by reflexivity.
    assert (-1 <= (- val (div (S754_finite s m e) (of_int 32))) / 2 ^ 149).
    { apply Z.div_le_lower_bound; lia. }
    lia.
Qed.

(** The raw maximum, against the exact difference. *)
Lemma raw_max_upper (screen : Z) (z o : float) (mx : Z) :
  valid z -> Gl.zoom_in_range z -> 0 < screen <= 65536 -> Gl.near o ->
  Gl.raw_max screen z o 32 = Some mx ->
  exists A B : Z,
    A = val (div (of_int screen) z) /\
    0 <= A <= 2 ^ (27 + 149) /\
    A * val z * (2 ^ 23 - 1) <= screen * 2 ^ 149 * 2 ^ 149 * 2 ^ 23 /\
    2 ^ 24 * Z.abs (B - (A - val o)) <= Z.abs (A - val o) /\
    mx <= Z.max B 0 / (32 * 2 ^ 149) + 1.
Proof.
  intros V R Hs (Vo & Fo & Ho) Hmx.
  destruct (screen_over_zoom screen z V R Hs) as (Va & Fa & Ha).
  destruct (screen_quotient_bound screen z V R Hs) as (Ha0 & HF1).
  unfold Gl.raw_max in Hmx.
  set (a := div (of_int screen) z) in *.
  assert (Hdiff : Z.abs (val a - val o) < 2 ^ (27 + 149) + 2 ^ (30 + 149)) by lia.
  assert (Fb : is_finite (sub a o) = true).
  { apply SFsub_no_overflow; try assumption.
    eapply Z.lt_trans; [exact Hdiff | ]. reflexivity. }
  destruct (SFsub_spec a o Va Vo Fa Fo) as (Vb & _ & Herr). specialize (Herr Fb).
  fold (sub a o) in Vb, Herr.
  assert (Hb : Z.abs (val (sub a o)) < 2 ^ (33 + 149)).
  { change (2 ^ 24) with 16777216 in Herr.
    assert (2 ^ (27 + 149) + 2 ^ (30 + 149) + 2 ^ (30 + 149) < 2 ^ (33 + 149)) by reflexivity.
    pose proof (pow2_pos (30 + 149) ltac:(lia)). lia. }
  destruct (div_tile_spec (sub a o) Vb Fb Hb) as (Vd & Fd & Hd).
  rewrite (int_of_ceilf_val _ Vd Fd Hd) in Hmx. injection Hmx as <-.
  exists (val a), (val (sub a o)).
  split; [reflexivity | ]. split; [rewrite Z.abs_eq in Ha by lia; lia | ].
  split; [exact HF1 | ]. split; [exact Herr | ].
  apply div_tile_ceil_upper; assumption.
Qed.

(** The number of iterations of the draw loop on one axis. *)
Lemma axis_iterations (screen : Z) (z o : float) (l mn mx st : Z) :
  valid z -> Gl.zoom_in_range z -> 0 < screen <= 65536 -> Gl.near o ->
  Gl.lod_of_zoom z = Some l ->
  Gl.raw_min o 32 = Some mn -> Gl.raw_max screen z o 32 = Some mx ->
  Gl.align_start (Gl.clamp_min mn) l = Some st ->
  (Gl.clamp_max mx 1000 - st + l - 1) / l <= screen / 8 + 4.
Proof.
  intros V R Hs No Hl Hmn Hmx Hst.
  destruct (lod_lower_bound z l V R Hl) as (Hlb & L1).
  destruct (gl_raw_min_exact o No) as (mn' & Hmn' & Emn).
  rewrite Hmn in Hmn'. injection Hmn' as <-.
  pose proof (clamp_min_nonneg mn) as Hc0.
  destruct (align_start_bounds _ _ _ Hc0 (proj1 Hlb) Hst) as [Hst1 Hst2].
  pose proof (clamp_max_le mx 1000) as HM.
  assert (HM' : Gl.clamp_max mx 1000 <= mx)
    by (unfold Gl.clamp_max; destruct (Z.ltb_spec 1000 mx); lia).
  assert (Hk : 0 <= screen / 8) by (apply Z.div_pos; lia).
  destruct (Z_le_gt_dec (Gl.clamp_max mx 1000) st) as [Hempty | Hne].
  - assert ((Gl.clamp_max mx 1000 - st + l - 1) / l <= 0).
    { apply Z.lt_succ_r. apply Z.div_lt_upper_bound; lia. }
    lia.
  - destruct (raw_max_upper screen z o mx V R Hs No Hmx)
      as (A & B & _ & [HA0 HA1] & HF1 & Herr & Hub).
    destruct (zoom_in_range_inv z V R) as (mz & ez & Ez & Hm & He & Hlo & Hhi).
    pose proof (pow2_pos 149 ltac:(lia)) as H149.
    assert (Hzpos : 0 < val z).
    { rewrite Ez. cbn [val cond_Zopp]. pose proof (pow2_pos (ez + 149) ltac:(lia)). lia. }
    set (u := 2 ^ 149) in *.
    change (2 ^ 23 - 1) with 8388607 in HF1. change (2 ^ 23) with 8388608 in HF1, L1.
    change (8388608 + 1) with 8388609 in L1.
    pose proof (window_in_strides A (val z) u screen l HA0 Hzpos H149 Hs ltac:(lia) HF1 L1)
      as K1.
    set (mnc := Gl.clamp_min mn) in *.
    assert (Hmnc : mnc <= 2022) by lia.
    (* the exact minimum *)
    assert (HO : - val o < (mnc + 1) * (32 * u)).
    { pose proof (Z.mul_succ_div_gt (- val o) (32 * u) ltac:(lia)) as G.
      assert (G2 : (- val o) / (32 * u) <= mnc) by lia.
      assert (G3 : 32 * u * Z.succ ((- val o) / (32 * u)) <= 32 * u * (mnc + 1))
        by (apply Z.mul_le_mono_nonneg_l; lia).
      lia. }
    assert (K2 : (mx - mnc - 3) * (32 * u) <= A).
    { destruct (Z_le_gt_dec B 0) as [HB | HB].
      - rewrite Z.max_r in Hub by lia. rewrite Z.div_0_l in Hub by lia.
        assert (mx - mnc - 3 <= 0) by lia.
        assert ((mx - mnc - 3) * (32 * u) <= 0) by nia. lia.
      - rewrite Z.max_l in Hub by lia.
        assert (G1 : (mx - 1) * (32 * u) <= B).
        { pose proof (Z.mul_div_le B (32 * u) ltac:(lia)) as G.
          assert (G' : (mx - 1) * (32 * u) <= B / (32 * u) * (32 * u))
            by (apply Z.mul_le_mono_nonneg_r; lia).
          lia. }
        change (2 ^ 24) with 16777216 in Herr.
        assert (HD : 0 < A - val o) by lia.
        assert (HD2 : A - val o < 2 ^ 28 * u).
        { change (2 ^ (27 + 149)) with (2 ^ 27 * u) in HA1.
          change (2 ^ 28) with 268435456. change (2 ^ 27) with 134217728 in HA1. lia. }
        assert (HB2 : B <= A - val o + 16 * u).
        { change (2 ^ 28) with 268435456 in HD2. lia. }
        lia. }
    assert (K3 : mx - mnc - 3 <= l * (screen / 8 + 1)).
    { assert (G : (mx - mnc - 3) * (32 * u) <= l * (screen / 8 + 1) * (32 * u)).
      { eapply Z.le_trans; [exact K2 | ]. eapply Z.le_trans; [exact K1 | ].
        apply Z.eq_le_incl. ring. }
      apply Z.mul_le_mono_pos_r in G; lia. }
    apply Z.lt_succ_r. apply Z.div_lt_upper_bound; [lia | ].
    assert (G : Gl.clamp_max mx 1000 - st + l - 1 <= l * (screen / 8 + 1) + 3 + 2 * l - 2)
      by lia.
    nia.
Qed.

Lemma gl_visible_range_full (s : Gl.Session) (screen_w screen_h : Z) (r : Gl.VisibleRange) :
  Gl.visible_range s screen_w screen_h = Some r ->
  exists mnx mny mxx mxy : Z,
    Gl.lod_of_zoom (Gl.zoom s) = Some (Gl.lod r) /\
    Gl.raw_min (Gl.offset_x s) 32 = Some mnx /\
    Gl.raw_min (Gl.offset_y s) 32 = Some mny /\
    Gl.raw_max screen_w (Gl.zoom s) (Gl.offset_x s) 32 = Some mxx /\
    Gl.raw_max screen_h (Gl.zoom s) (Gl.offset_y s) 32 = Some mxy /\
    Gl.align_start (Gl.clamp_min mnx) (Gl.lod r) = Some (Gl.start_x r) /\
    Gl.align_start (Gl.clamp_min mny) (Gl.lod r) = Some (Gl.start_y r) /\
    Gl.max_x r = Gl.clamp_max mxx 1000 /\ Gl.max_y r = Gl.clamp_max mxy 1000.
Proof.
  unfold Gl.visible_range, TILE_WIDTH, TILE_HEIGHT, MAP_WIDTH, MAP_HEIGHT.
  destruct (Gl.lod_of_zoom (Gl.zoom s)) as [l | ]; [ | discriminate].
  destruct (Gl.raw_min (Gl.offset_x s) 32) as [mnx | ]; [ | discriminate].
  destruct (Gl.raw_min (Gl.offset_y s) 32) as [mny | ]; [ | discriminate].
  destruct (Gl.raw_max screen_w (Gl.zoom s) (Gl.offset_x s) 32) as [mxx | ];
    [ | discriminate].
  destruct (Gl.raw_max screen_h (Gl.zoom s) (Gl.offset_y s) 32) as [mxy | ];
    [ | discriminate].
  destruct (Gl.align_start (Gl.clamp_min mnx) l) as [sx | ] eqn:Ex; [ | discriminate].
  destruct (Gl.align_start (Gl.clamp_min mny) l) as [sy | ] eqn:Ey; [ | discriminate].
  intros H. injection H as <-. cbn.
  exists mnx, mny, mxx, mxy. repeat split; assumption.
Qed.

Lemma gl_draw_count (s : Gl.Session) (screen_w screen_h : Z) (r : Gl.VisibleRange) :
  Gl.zoom_ok s -> Gl.near (Gl.offset_x s) -> Gl.near (Gl.offset_y s) ->
  0 < screen_w <= 65536 -> 0 < screen_h <= 65536 ->
  Gl.visible_range s screen_w screen_h = Some r ->
  exists cells : list (Z * Z),
    Gl.draw_cells 1001 r = Some cells /\
    Z.of_nat (length cells) <= (screen_w / 8 + 4) * (screen_h / 8 + 4).
Proof.
  intros Hz Nx Ny Hw Hh Hr.
  destruct (gl_draw_cells_frame s screen_w screen_h r Hz Hr)
    as (Hl & Hx & Hy & HMx & HMy & Hsx & Hsy & Dx & Dy).
  destruct (gl_visible_range_full s screen_w screen_h r Hr)
    as (mnx & mny & mxx & mxy & El & Emnx & Emny & Emxx & Emxy & Esx & Esy & EMx & EMy).
  destruct Hz as [V R].
  pose proof (axis_iterations screen_w _ _ _ _ _ _ V R Hw Nx El Emnx Emxx Esx) as Bx.
  pose proof (axis_iterations screen_h _ _ _ _ _ _ V R Hh Ny El Emny Emxy Esy) as By.
  rewrite <- EMx in Bx. rewrite <- EMy in By.
  assert (Fx : (Z.to_nat (Gl.max_x r - Gl.start_x r) < 1001)%nat)
    by (unfold MAP_WIDTH in HMx; lia).
  assert (Fy : (Z.to_nat (Gl.max_y r - Gl.start_y r) < 1001)%nat)
    by (unfold MAP_HEIGHT in HMy; lia).
  destruct (for_cells_spec 1001 (Gl.start_x r) (Gl.start_y r) (Gl.max_x r) (Gl.max_y r)
              (Gl.lod r) Hl Fx Fy) as (cells & Hc & _).
  exists cells. split; [exact Hc | ].
  rewrite (for_cells_length _ _ _ _ _ _ _ Hl Fx Fy Hc), Nat2Z.inj_mul.
  assert (Kx : 0 <= screen_w / 8) by (apply Z.div_pos; lia).
  assert (Ky : 0 <= screen_h / 8) by (apply Z.div_pos; lia).
  set (nx := (Gl.max_x r - Gl.start_x r + Gl.lod r - 1) / Gl.lod r) in *.
  set (ny := (Gl.max_y r - Gl.start_y r + Gl.lod r - 1) / Gl.lod r) in *.
  assert (Ax : 0 <= Z.of_nat (Z.to_nat nx) <= screen_w / 8 + 4) by lia.
  assert (Ay : 0 <= Z.of_nat (Z.to_nat ny) <= screen_h / 8 + 4) by lia.
  rewrite Z.mul_comm. apply Z.mul_le_mono_nonneg; lia.
Qed.

(** ** One step of the wheel *)

(** The product of two normal numbers, when it is neither tiny nor huge,
    is within half a unit in the last place of the exact product. *)
Lemma normal_product_error (m mf : positive) (e ef : Z) :
  valid (S754_finite false m e) -> valid (S754_finite false mf ef) ->
  2 ^ 23 <= Zpos m < 2 ^ 24 -> 2 ^ 23 <= Zpos mf < 2 ^ 24 ->
  -149 <= e + ef <= -19 ->
  valid (SFmul prec emax (S754_finite false m e) (S754_finite false mf ef)) /\
  is_finite (SFmul prec emax (S754_finite false m e) (S754_finite false mf ef)) = true /\
  Z.abs (val (SFmul prec emax (S754_finite false m e) (S754_finite false mf ef))
         - Zpos m * Zpos mf * 2 ^ (e + ef + 149))
  <= 2 ^ 23 * 2 ^ (e + ef + 149).
Proof.
  intros V Vf Hm Hmf He.
  destruct (SFmul_spec false false m mf e ef V Vf) as (m1 & Hm1 & Herr & Hres).
  set (d := Zdigits2 (Zpos m * Zpos mf)) in *.
  assert (Hd : 47 <= d <= 48).
  { assert (L : 2 ^ 46 <= Zpos m * Zpos mf).
    { change (2 ^ 46) with (2 ^ 23 * 2 ^ 23). apply Z.mul_le_mono_nonneg; lia. }
    assert (U : Zpos m * Zpos mf < 2 ^ 48).
    { change (2 ^ 48) with (2 ^ 24 * 2 ^ 24). apply Z.mul_lt_mono_nonneg; lia. }
    pose proof (Zdigits2_bounds (Zpos m * Zpos mf) ltac:(lia)) as [Blo Bhi]. fold d in Blo, Bhi.
    pose proof (Zdigits2_pos (Zpos m * Zpos mf) ltac:(lia)) as Pd. fold d in Pd.
    split.
    - destruct (Z_le_gt_dec 47 d) as [G | G]; [exact G | exfalso].
      pose proof (pow2_le d 46 ltac:(lia)). lia.
    - destruct (Z_le_gt_dec d 48) as [G | G]; [exact G | exfalso].
      pose proof (pow2_le 48 (d - 1) ltac:(lia)). lia. }
  assert (Hc : fexp32 (d + (e + ef)) = d + (e + ef) - 24) by (unfold fexp32; lia).
  rewrite Hc in *. replace (d + (e + ef) - 24 - (e + ef)) with (d - 24) in Herr by lia.
  pose proof (pow2_pos (e + ef + 149) ltac:(lia)) as Hp.
  pose proof (pow2_pos (d - 24) ltac:(lia)) as Hps.
  assert (Hs : 2 ^ (d - 24) <= 2 * 2 ^ 23).
  { change (2 * 2 ^ 23) with (2 ^ 24). apply pow2_le. lia. }
  destruct Hres as [[H0 _] | Hr].
  - exfalso. rewrite H0 in Herr. rewrite Z.mul_0_l, Z.sub_0_l, Z.abs_opp in Herr.
    assert (L : 2 ^ 46 <= Zpos m * Zpos mf).
    { change (2 ^ 46) with (2 ^ 23 * 2 ^ 23). apply Z.mul_le_mono_nonneg; lia. }
    rewrite Z.abs_eq in Herr by lia.
    change (2 * 2 ^ 23) with (2 ^ 24) in Hs. assert (2 ^ 24 < 2 ^ 46) by reflexivity. lia.
  - cbn [xorb] in Hr.
    assert (E : 2 ^ (d + (e + ef) - 24 + 149) = 2 ^ (d - 24) * 2 ^ (e + ef + 149)).
    { rewrite <- Z.pow_add_r by lia. f_equal. lia. }
    assert (F : is_finite (SFmul prec emax (S754_finite false m e) (S754_finite false mf ef))
                = true).
    { apply (rounded_finite _ _ _ _ Hr); [lia | ]. rewrite E.
      assert (B1 : m1 * 2 ^ (d - 24) <= 2 ^ 49).
      { assert (U : Zpos m * Zpos mf < 2 ^ 48).
        { change (2 ^ 48) with (2 ^ 24 * 2 ^ 24). apply Z.mul_lt_mono_nonneg; lia. }
        change (2 ^ 49) with (2 ^ 48 + 2 ^ 48). change (2 * 2 ^ 23) with (2 ^ 24) in Hs.
        assert (2 ^ 24 < 2 ^ 48) by reflexivity. lia. }
      pose proof (pow2_le (e + ef + 149) 130 ltac:(lia)) as B2.
      rewrite Z.mul_assoc.
      assert (B3 : m1 * 2 ^ (d - 24) * 2 ^ (e + ef + 149) <= 2 ^ 49 * 2 ^ 130).
      { apply Z.mul_le_mono_nonneg; lia. }
      assert (2 ^ 49 * 2 ^ 130 < 2 ^ 277) by reflexivity. lia. }
    split; [exact (rounded_valid _ _ _ _ Hr) | ]. split; [exact F | ].
    rewrite (rounded_val _ _ _ _ Hr ltac:(lia) F). cbn [cond_Zopp].
    rewrite E, Z.mul_assoc.
    replace (m1 * 2 ^ (d - 24) * 2 ^ (e + ef + 149) - Zpos m * Zpos mf * 2 ^ (e + ef + 149))
      with ((m1 * 2 ^ (d - 24) - Zpos m * Zpos mf) * 2 ^ (e + ef + 149)) by ring.
    rewrite Z.abs_mul, (Z.abs_eq (2 ^ (e + ef + 149))) by lia.
    apply Z.mul_le_mono_nonneg_r; lia.
Qed.

Lemma clamp_zoom_val (r : float) :
  valid r -> is_finite r = true ->
  val (Gl.clamp_zoom r) = Z.min (val Gl.MAX_ZOOM) (Z.max (val Gl.MIN_ZOOM) (val r)).
Proof.
  intros V F. unfold Gl.clamp_zoom.
  assert (VM : valid Gl.MIN_ZOOM) by reflexivity.
  assert (VX : valid Gl.MAX_ZOOM) by reflexivity.
  assert (FM : is_finite Gl.MIN_ZOOM = true) by reflexivity.
  assert (FX : is_finite Gl.MAX_ZOOM = true) by reflexivity.
  assert (Hlt : val Gl.MIN_ZOOM < val Gl.MAX_ZOOM) by reflexivity.
  destruct (ltb r Gl.MIN_ZOOM) eqn:H1.
  - apply (ltb_val r _ V VM F FM) in H1.
    change (ltb Gl.MAX_ZOOM Gl.MIN_ZOOM) with false. cbv iota. lia.
  - assert (G1 : ~ val r < val Gl.MIN_ZOOM).
    { intros G. apply (ltb_val r _ V VM F FM) in G. rewrite G in H1. discriminate. }
    destruct (ltb Gl.MAX_ZOOM r) eqn:H2.
    + apply (ltb_val _ r VX V FX F) in H2. lia.
    + assert (G2 : ~ val Gl.MAX_ZOOM < val r).
      { intros G. apply (ltb_val _ r VX V FX F) in G. rewrite G in H2. discriminate. }
      lia.
Qed.

Lemma wheel_step_monotone (z : float) (wheel_y : Z) :
  valid z -> Gl.zoom_in_range z ->
  (0 < wheel_y ->
   val z <= val (Gl.clamp_zoom (mul z (Gl.zoom_factor wheel_y))) /\
   (val z < val Gl.MAX_ZOOM -> val z < val (Gl.clamp_zoom (mul z (Gl.zoom_factor wheel_y))))) /\
  (wheel_y <= 0 ->
   val (Gl.clamp_zoom (mul z (Gl.zoom_factor wheel_y))) <= val z /\
   (val Gl.MIN_ZOOM < val z -> val (Gl.clamp_zoom (mul z (Gl.zoom_factor wheel_y))) < val z)).
Proof.
  intros V R. destruct (zoom_in_range_inv z V R) as (m & e & -> & Hm & He & Hlo & Hhi).
  pose proof (pow2_pos (e + 125) ltac:(lia)) as Hp.
  assert (E149 : 2 ^ (e + 149) = 2 ^ 24 * 2 ^ (e + 125))
    by (rewrite <- Z.pow_add_r by lia; f_equal; lia).
  assert (E126 : 2 ^ (e + 126) = 2 * 2 ^ (e + 125))
    by (replace (e + 126) with (1 + (e + 125)) by lia; rewrite Z.pow_add_r by lia; reflexivity).
  unfold Gl.zoom_factor, mul. split.
  - intros Hw. destruct (Z.ltb_spec 0 wheel_y) as [_ | ]; [ | lia].
    change Gl.ZOOM_STEP with (S754_finite false 9227469 (-23)).
    destruct (normal_product_error m 9227469 e (-23) V eq_refl Hm)
      as (Vr & Fr & Herr); [vm_compute; split; [discriminate | reflexivity] | lia | ].
    rewrite (clamp_zoom_val _ Vr Fr).
    set (r := val (SFmul prec emax (S754_finite false m e) (S754_finite false 9227469 (-23)))) in *.
    cbn [val cond_Zopp] in *.
    replace (e + -23 + 149) with (e + 126) in Herr by lia.
    rewrite E126 in Herr. rewrite E149 in *.
    apply Z.abs_le in Herr. change (2 ^ 23) with 8388608 in *. change (2 ^ 24) with 16777216 in *.
    assert (G : Zpos m * (16777216 * 2 ^ (e + 125)) < r) by nia.
    lia.
  - intros Hw. destruct (Z.ltb_spec 0 wheel_y) as [ | _]; [lia | ].
    change (div (of_int 1) Gl.ZOOM_STEP) with (S754_finite false 15252014 (-24)).
    destruct (normal_product_error m 15252014 e (-24) V eq_refl Hm)
      as (Vr & Fr & Herr); [vm_compute; split; [discriminate | reflexivity] | lia | ].
    rewrite (clamp_zoom_val _ Vr Fr).
    set (r := val (SFmul prec emax (S754_finite false m e) (S754_finite false 15252014 (-24)))) in *.
    cbn [val cond_Zopp] in *.
    replace (e + -24 + 149) with (e + 125) in Herr by lia.
    rewrite E149 in *.
    apply Z.abs_le in Herr. change (2 ^ 23) with 8388608 in *. change (2 ^ 24) with 16777216 in *.
    assert (G : r < Zpos m * (16777216 * 2 ^ (e + 125))) by nia.
    lia.
Qed.

(** ** The size of the drawn quads *)

(** A number between two powers of two is normal. *)
Lemma normal_inv (x : float) (lo hi : Z) :
  valid x -> 24 <= lo -> lo <= hi -> 2 ^ lo <= val x < 2 ^ hi ->
  exists m e, x = S754_finite false m e /\
              2 ^ 23 <= Zpos m < 2 ^ 24 /\ lo - 172 <= e <= hi - 173.
Proof.
  intros V Hlo Hhi [L U].
  assert (Hpos : 0 < val x) by (pose proof (pow2_pos lo ltac:(lia)); lia).
  destruct (positive_val_inv x Hpos) as (m & e & ->).
  exists m, e. split; [reflexivity | ].
  pose proof (valid_finite_inv _ _ _ V) as (He & Hm & Hn).
  cbn [val cond_Zopp] in L, U.
  pose proof (pow2_pos (e + 149) ltac:(lia)) as Hp.
  assert (He1 : lo - 172 <= e).
  { destruct (Z_le_gt_dec (lo - 172) e) as [H | H]; [exact H | exfalso].
    pose proof (pow2_le (e + 149) (lo - 24) ltac:(lia)) as Hle.
    assert (E : 2 ^ lo = 2 ^ 24 * 2 ^ (lo - 24))
      by (rewrite <- Z.pow_add_r by lia; f_equal; lia).
    pose proof (pow2_pos (lo - 24) ltac:(lia)).
    assert (Zpos m * 2 ^ (e + 149) < 2 ^ 24 * 2 ^ (lo - 24)).
    { apply Z.le_lt_trans with (Zpos m * 2 ^ (lo - 24)).
      - apply Z.mul_le_mono_nonneg_l; lia.
      - apply Z.mul_lt_mono_pos_r; lia. }
    lia. }
  assert (Hn' : 2 ^ 23 <= Zpos m).
  { destruct Hn as [Hn | Hn]; [exact Hn | exfalso]. lia. }
  split; [lia | ]. split; [exact He1 | ].
  destruct (Z_le_gt_dec e (hi - 173)) as [H | H]; [exact H | exfalso].
  pose proof (pow2_le (hi - 23) (e + 149) ltac:(lia)) as Hle.
  assert (E : 2 ^ hi = 2 ^ 23 * 2 ^ (hi - 23))
    by (rewrite <- Z.pow_add_r by lia; f_equal; lia).
  pose proof (pow2_pos (hi - 23) ltac:(lia)).
  assert (2 ^ 23 * 2 ^ (hi - 23) <= Zpos m * 2 ^ (e + 149)).
  { apply Z.mul_le_mono_nonneg; lia. }
  lia.
Qed.

(** The width [TILE_WIDTH * zoom * lod] of a quad is within one part in
    [2 ^ 23] of [32 * zoom * lod]. *)
Lemma quad_size_error (z : float) (l : Z) :
  valid z -> Gl.zoom_in_range z -> 1 <= l <= 1024 ->
  valid (mul (Gl.tile_screen_size z) (of_int l)) /\
  is_finite (mul (Gl.tile_screen_size z) (of_int l)) = true /\
  Z.abs (val (mul (Gl.tile_screen_size z) (of_int l)) - 32 * val z * l) * 2 ^ 23
  <= 32 * val z * l.
Proof.
  intros V R Hl.
  destruct (tile_screen_size_spec z V R) as (Vt & Ft & Et). unfold TILE_WIDTH in Et.
  destruct (zoom_in_range_inv z V R) as (mz & ez & Ez & Hmz & Hez & Hlo & Hhi).
  destruct (of_int_small l) as (Vl & Fl & El).
  { change (2 ^ 24) with 16777216. lia. }
  pose proof (pow2_pos 149 ltac:(lia)) as H149.
  assert (Bt : 2 ^ 144 <= val (Gl.tile_screen_size z) < 2 ^ 159).
  { rewrite Et.
    assert (M : 2 ^ 139 <= val Gl.MIN_ZOOM) by (vm_compute; discriminate).
    assert (X : val Gl.MAX_ZOOM = 2 ^ 153) by reflexivity.
    change (2 ^ 144) with (32 * 2 ^ 139). change (2 ^ 159) with (64 * 2 ^ 153). lia. }
  destruct (normal_inv _ 144 159 Vt ltac:(lia) ltac:(lia) Bt) as (mt & et & Eqt & Hmt & Het).
  assert (Bl : 2 ^ 149 <= val (of_int l) < 2 ^ 160).
  { rewrite El. change (2 ^ 160) with (2048 * 2 ^ 149). nia. }
  destruct (normal_inv _ 149 160 Vl ltac:(lia) ltac:(lia) Bl) as (ml & el & Eql & Hml & Hel).
  unfold mul. rewrite Eqt, Eql in *.
  destruct (normal_product_error mt ml et el Vt Vl Hmt Hml ltac:(lia)) as (Vr & Fr & Herr).
  split; [exact Vr | ]. split; [exact Fr | ].
  set (r := val (SFmul prec emax (S754_finite false mt et) (S754_finite false ml el))) in *.
  cbn [val cond_Zopp] in Et, El.
  pose proof (pow2_pos (et + el + 149) ltac:(lia)) as Hp.
  assert (EP : 32 * val z * l = Zpos mt * Zpos ml * 2 ^ (et + el + 149)).
  { rewrite <- Et.
    assert (E1 : 2 ^ (et + 149) * 2 ^ (el + 149) = 2 ^ (et + el + 149) * 2 ^ 149)
      by (rewrite <- !Z.pow_add_r by lia; f_equal; lia).
    apply (Z.mul_cancel_r _ _ (2 ^ 149)); [lia | ].
    replace (Zpos mt * 2 ^ (et + 149) * l * 2 ^ 149)
      with (Zpos mt * 2 ^ (et + 149) * (l * 2 ^ 149)) by ring.
    rewrite <- El.
    replace (Zpos mt * 2 ^ (et + 149) * (Zpos ml * 2 ^ (el + 149)))
      with (Zpos mt * Zpos ml * (2 ^ (et + 149) * 2 ^ (el + 149))) by ring.
    rewrite E1. ring. }
  rewrite EP.
  assert (M46 : 2 ^ 23 * 2 ^ 23 <= Zpos mt * Zpos ml)
    by (apply Z.mul_le_mono_nonneg; lia).
  apply Z.le_trans with (2 ^ 23 * 2 ^ (et + el + 149) * 2 ^ 23).
  - apply Z.mul_le_mono_nonneg_r; [lia | exact Herr].
  - replace (2 ^ 23 * 2 ^ (et + el + 149) * 2 ^ 23)
      with (2 ^ 23 * 2 ^ 23 * 2 ^ (et + el + 149)) by ring.
    apply Z.mul_le_mono_nonneg_r; lia.
Qed.

(** With the stride of the level of detail the quads are never smaller
    than the threshold, and smaller than twice the threshold when the
    stride is not one (up to the rounding of the three operations). *)
Lemma lod_quad_bounds (z : float) (l : Z) :
  valid z -> Gl.zoom_in_range z -> Gl.lod_of_zoom z = Some l ->
  8 * 2 ^ 149 * (2 ^ 21 - 1) <= val (mul (Gl.tile_screen_size z) (of_int l)) * 2 ^ 21 /\
  (1 < l ->
   val (mul (Gl.tile_screen_size z) (of_int l)) * 2 ^ 21 < 16 * 2 ^ 149 * (2 ^ 21 + 1)).
Proof.
  intros V R Hl.
  destruct (lod_lower_bound z l V R Hl) as [Hb Hlow].
  destruct (quad_size_error z l V R Hb) as (_ & _ & Herr).
  destruct (zoom_in_range_inv z V R) as (mz & ez & Ez & Hmz & Hez & Hlo & Hhi).
  pose proof (pow2_pos 149 ltac:(lia)) as H149.
  assert (Hzpos : 0 < val z).
  { rewrite Ez. cbn [val cond_Zopp]. pose proof (pow2_pos (ez + 149) ltac:(lia)). lia. }
  set (w := val (mul (Gl.tile_screen_size z) (of_int l))) in *.
  set (P := 32 * val z * l) in *.
  assert (HP : 0 < P) by (unfold P; nia).
  replace (l * (32 * val z)) with P in Hlow by (unfold P; ring).
  set (u := 2 ^ 149) in *.
  change (2 ^ 23) with 8388608 in *. change (2 ^ 21) with 2097152.
  split.
  - assert (G : P * 8388607 <= w * 8388608) by lia.
    nia.
  - intros H1.
    destruct (lod_of_zoom_defined z V R) as (l' & Hl' & _ & Hlt & Hge).
    rewrite Hl in Hl'. injection Hl' as <-.
    destruct (tile_screen_size_spec z V R) as (Vt & Ft & Et). unfold TILE_WIDTH in Et.
    assert (ET : val Gl.LOD_PIXEL_THRESHOLD = 8 * u) by reflexivity.
    destruct (Z_lt_ge_dec (val (Gl.tile_screen_size z)) (val Gl.LOD_PIXEL_THRESHOLD))
      as [C | C]; [ | specialize (Hge ltac:(lia)); lia].
    specialize (Hlt C).
    destruct (lod_quotient_spec (Gl.tile_screen_size z) Vt Ft) as (m & e & Eq & Vq & Heq).
    { unfold TILE_WIDTH. rewrite Et. lia. }
    assert (Fq : is_finite (div Gl.LOD_PIXEL_THRESHOLD (Gl.tile_screen_size z)) = true)
      by (rewrite Eq; reflexivity).
    assert (Hq23 : 2 ^ 23 <= val (div Gl.LOD_PIXEL_THRESHOLD (Gl.tile_screen_size z))).
    { rewrite Eq. cbn [val cond_Zopp].
      pose proof (valid_finite_inv _ _ _ Vq) as (_ & _ & [Hn | Hn]); [ | lia].
      pose proof (pow2_pos (e + 149) ltac:(lia)). nia. }
    assert (VT : valid Gl.LOD_PIXEL_THRESHOLD) by reflexivity.
    assert (PT : 0 < val Gl.LOD_PIXEL_THRESHOLD) by reflexivity.
    assert (Pt : 0 < val (Gl.tile_screen_size z)) by (rewrite Et; lia).
    assert (Bt : val (Gl.tile_screen_size z) < 2 ^ (24 + 149))
      by (eapply Z.lt_trans; [exact C | reflexivity]).
    destruct (div_rel_error Gl.LOD_PIXEL_THRESHOLD (Gl.tile_screen_size z)
                VT Vt PT Pt Bt Fq Hq23) as [Hrel _].
    rewrite ET, Et in Hrel. rewrite ET, Et in C.
    set (Q := val (div Gl.LOD_PIXEL_THRESHOLD (Gl.tile_screen_size z))) in *.
    fold u in Hrel. change (2 ^ 23) with 8388608 in Hrel.
    assert (G1 : (l - 1) * u * (32 * val z) < Q * (32 * val z))
      by (apply Z.mul_lt_mono_pos_r; lia).
    assert (G2 : (l - 1) * u * (32 * val z) * 8388607 < 8 * u * u * 8388608) by nia.
    assert (G3 : (l - 1) * (32 * val z) * 8388607 < 8 * u * 8388608) by nia.
    assert (G4 : P * 8388607 < 8 * u * 8388608 + 8 * u * 8388607) by (unfold P; nia).
    assert (G5 : w * 8388608 <= P * 8388609) by lia.
    nia.
Qed.

Lemma all_some_In (A : Type) (l : list (option A)) (r : list A) (a : A) :
  all_some l = Some r -> In a r -> In (Some a) l.
Proof.
  revert r. induction l as [ | o l IH]; intros r H Hin.
  - injection H as <-. destruct Hin.
  - destruct o as [b | ]; [ | discriminate]. cbn [all_some] in H.
    destruct (all_some l) as [r' | ] eqn:E; [ | discriminate].
    injection H as <-. destruct Hin as [-> | Hin].
    + left. reflexivity.
    + right. exact (IH r' eq_refl Hin).
Qed.

Lemma gl_visible_range_lod (s : Gl.Session) (screen_w screen_h : Z) (r : Gl.VisibleRange) :
  Gl.visible_range s screen_w screen_h = Some r ->
  Gl.lod_of_zoom (Gl.zoom s) = Some (Gl.lod r).
Proof.
  unfold Gl.visible_range.
  destruct (Gl.lod_of_zoom (Gl.zoom s)) as [l | ]; [ | discriminate].
  destruct (Gl.raw_min (Gl.offset_x s) TILE_WIDTH) as [mnx | ]; [ | discriminate].
  destruct (Gl.raw_min (Gl.offset_y s) TILE_HEIGHT) as [mny | ]; [ | discriminate].
  destruct (Gl.raw_max screen_w (Gl.zoom s) (Gl.offset_x s) TILE_WIDTH) as [mxx | ];
    [ | discriminate].
  destruct (Gl.raw_max screen_h (Gl.zoom s) (Gl.offset_y s) TILE_HEIGHT) as [mxy | ];
    [ | discriminate].
  destruct (Gl.align_start (Gl.clamp_min mnx) l) as [sx | ]; [ | discriminate].
  destruct (Gl.align_start (Gl.clamp_min mny) l) as [sy | ]; [ | discriminate].
  intros H. injection H as <-. reflexivity.
Qed.

(** Every quad of a frame comes from one call of [draw_tile], made with
    the zoom and the offsets of the session and the stride of the frame. *)
Lemma frame_quad_call (ts : Gl.Tileset) (tiles : list Z) (s : Gl.Session)
    (screen_w screen_h : Z) (r : Gl.VisibleRange) (quads : list Gl.Quad) (q : Gl.Quad) :
  Gl.visible_range s screen_w screen_h = Some r ->
  Gl.frame_quads ts tiles s screen_w screen_h = Some quads -> In q quads ->
  exists tx ty tile_index,
    Gl.draw_tile tx ty tile_index ts (Gl.zoom s) (Gl.offset_x s) (Gl.offset_y s)
                 (Gl.lod r) (Gl.uv_step (Gl.cols ts)) (Gl.uv_step (Gl.rows ts)) = Some q.
Proof.
  intros Hv Hq Hin. unfold Gl.frame_quads in Hq. rewrite Hv in Hq.
  destruct (Gl.draw_cells 1001 r) as [cells | ]; [ | discriminate].
  pose proof (all_some_In _ _ _ q Hq Hin) as H.
  apply in_map_iff in H. destruct H as (c & Hc & _).
  destruct (read_tile tiles c) as [t | ]; [ | discriminate].
  exists (fst c), (snd c), t. exact Hc.
Qed.

(** ** Texture coordinates *)

(** The product of a normal number with a power of two is exact, when
    it is neither tiny nor huge. *)
Lemma mul_pow2_exact (m : positive) (e j : Z) :
  valid (S754_finite false m e) -> valid (S754_finite false 8388608 j) ->
  2 ^ 23 <= Zpos m -> -149 <= e + j <= 0 ->
  valid (SFmul prec emax (S754_finite false m e) (S754_finite false 8388608 j)) /\
  is_finite (SFmul prec emax (S754_finite false m e) (S754_finite false 8388608 j)) = true /\
  val (SFmul prec emax (S754_finite false m e) (S754_finite false 8388608 j))
  = Zpos m * 8388608 * 2 ^ (e + j + 149).
Proof.
  intros V Vj Hm He.
  pose proof (valid_finite_inv _ _ _ V) as (_ & Hm24 & _).
  destruct (SFmul_spec false false m 8388608 e j V Vj) as (m1 & _ & Herr & Hres).
  assert (Hd : Zdigits2 (Zpos m * 8388608) = 47).
  { apply Zdigits2_unique; [ | lia].
    change (2 ^ (47 - 1)) with (2 ^ 23 * 8388608). change (2 ^ 47) with (2 ^ 24 * 8388608). lia. }
  rewrite Hd in *.
  assert (Hf : fexp32 (47 + (e + j)) = e + j + 23) by (unfold fexp32; lia).
  rewrite Hf in *. replace (e + j + 23 - (e + j)) with 23 in Herr by lia.
  assert (Hm1 : m1 = Zpos m).
  { apply (half_step_multiple m1 (Zpos m) 23); [lia | ]. exact Herr. }
  subst m1. destruct Hres as [[H0 _] | Hr]; [lia | ]. cbn [xorb] in Hr.
  pose proof (pow2_pos (e + j + 149) ltac:(lia)) as Hp.
  assert (E : 2 ^ (e + j + 23 + 149) = 8388608 * 2 ^ (e + j + 149)).
  { replace (e + j + 23 + 149) with (23 + (e + j + 149)) by lia.
    rewrite Z.pow_add_r by lia. reflexivity. }
  assert (F : is_finite (SFmul prec emax (S754_finite false m e)
                                         (S754_finite false 8388608 j)) = true).
  { apply (rounded_finite _ _ _ _ Hr); [lia | ]. rewrite E.
    pose proof (pow2_le (e + j + 149) 149 ltac:(lia)) as Hle.
    pose proof (mul_le_bound (Zpos m) (2 ^ (e + j + 149)) (2 ^ 24) (2 ^ 149)
                  ltac:(lia) ltac:(lia)) as Hb.
    assert (8388608 * (2 ^ 24 * 2 ^ 149) < 2 ^ 277) by reflexivity. lia. }
  split; [exact (rounded_valid _ _ _ _ Hr) | ]. split; [exact F | ].
  rewrite (rounded_val _ _ _ _ Hr ltac:(lia) F). cbn [cond_Zopp].
  rewrite E. ring.
Qed.

(** [1.0f / n] for a power of two [n]. *)
Lemma uv_step_pow2 (k : Z) :
  0 <= k <= 23 ->
  Gl.uv_step (2 ^ k) = S754_finite false 8388608 (-23 - k) /\
  valid (S754_finite false 8388608 (-23 - k)).
Proof.
  intros Hk. unfold Gl.uv_step.
  assert (Hn : Z.abs (2 ^ k) < 2 ^ 24).
  { pose proof (pow2_pos k ltac:(lia)). pose proof (pow2_le k 23 ltac:(lia)).
    assert (2 ^ 23 < 2 ^ 24) by reflexivity. lia. }
  destruct (of_int_small (2 ^ k) Hn) as (Vn & Fn & En).
  destruct (of_int_small 1 ltac:(reflexivity)) as (V1 & F1 & E1).
  destruct (div_pow2_exact (of_int 1) (of_int (2 ^ k)) k V1 F1 Vn (proj1 Hk)) as (Vd & Fd & Ed).
  - rewrite En, Z.pow_add_r by lia. reflexivity.
  - rewrite E1, Z.mul_1_l. exists (2 ^ (149 - k)).
    rewrite <- Z.pow_add_r by lia. f_equal. lia.
  - rewrite E1, Z.mul_1_l in Ed.
    assert (Ev : val (div (of_int 1) (of_int (2 ^ k))) = 2 ^ (149 - k)).
    { rewrite Ed. replace 149 with ((149 - k) + k) at 1 by lia.
      rewrite Z.pow_add_r by lia. apply Z.div_mul. apply Z.pow_nonzero; lia. }
    assert (B : 2 ^ (149 - k) <= val (div (of_int 1) (of_int (2 ^ k))) < 2 ^ (150 - k)).
    { rewrite Ev. split; [lia | ]. apply Z.pow_lt_mono_r; lia. }
    destruct (normal_inv _ (149 - k) (150 - k) Vd ltac:(lia) ltac:(lia) B)
      as (m & e & Eq & Hm & He).
    rewrite Eq in *. cbn [val cond_Zopp] in Ev.
    assert (Ee : e = -23 - k) by lia. subst e.
    replace (-23 - k + 149) with (126 - k) in Ev by lia.
    assert (E2 : 2 ^ (149 - k) = 8388608 * 2 ^ (126 - k)).
    { change 8388608 with (2 ^ 23). rewrite <- Z.pow_add_r by lia. f_equal. lia. }
    rewrite E2 in Ev. apply Z.mul_cancel_r in Ev; [ | apply Z.pow_nonzero; lia].
    assert (Em : m = 8388608%positive) by (apply Pos2Z.inj; exact Ev).
    subst m. split; [reflexivity | exact Vd].
Qed.

(** The edges of the [i]-th of [2 ^ k] texture cells are exactly
    [i / 2 ^ k] and [(i + 1) / 2 ^ k]. *)
Lemma uv_exact (k i : Z) :
  0 <= k <= 23 -> 0 <= i < 2 ^ k ->
  val (mul (of_int i) (Gl.uv_step (2 ^ k))) * 2 ^ k = i * 2 ^ 149 /\
  val (add (mul (of_int i) (Gl.uv_step (2 ^ k))) (Gl.uv_step (2 ^ k))) * 2 ^ k
  = (i + 1) * 2 ^ 149.
Proof.
  intros Hk Hi. destruct (uv_step_pow2 k Hk) as [-> Vs].
  pose proof (pow2_pos k ltac:(lia)) as Hpk. pose proof (pow2_le k 23 ltac:(lia)) as Hk23.
  pose proof (pow2_pos (149 - k) ltac:(lia)) as Hq.
  assert (E149 : 2 ^ 149 = 2 ^ (149 - k) * 2 ^ k)
    by (rewrite <- Z.pow_add_r by lia; f_equal; lia).
  assert (Es : val (S754_finite false 8388608 (-23 - k)) = 2 ^ (149 - k)).
  { cbn [val cond_Zopp]. change 8388608 with (2 ^ 23).
    rewrite <- Z.pow_add_r by lia. f_equal. lia. }
  assert (Hi24 : Z.abs i < 2 ^ 24).
  { assert (2 ^ 23 < 2 ^ 24) by reflexivity. lia. }
  destruct (of_int_small i Hi24) as (Vi & Fi & Ei).
  assert (Hu : valid (mul (of_int i) (S754_finite false 8388608 (-23 - k))) /\
               is_finite (mul (of_int i) (S754_finite false 8388608 (-23 - k))) = true /\
               val (mul (of_int i) (S754_finite false 8388608 (-23 - k)))
               = i * 2 ^ (149 - k)).
  { destruct (Z.eq_dec i 0) as [-> | Hnz].
    - change (of_int 0) with (S754_zero false). cbn. repeat split.
    - assert (Bi : 2 ^ 149 <= val (of_int i) < 2 ^ 173).
      { rewrite Ei. change (2 ^ 173) with (2 ^ 24 * 2 ^ 149).
        pose proof (pow2_pos 149 ltac:(lia)).
        split; [nia | ]. apply Z.mul_lt_mono_pos_r; lia. }
      destruct (normal_inv _ 149 173 Vi ltac:(lia) ltac:(lia) Bi) as (m & e & Eq & Hm & He).
      rewrite Eq in *. cbn [val cond_Zopp] in Ei. unfold mul.
      assert (Ev : Zpos m * 8388608 * 2 ^ (e + (-23 - k) + 149) = i * 2 ^ (149 - k)).
      { apply (Z.mul_cancel_r _ _ (2 ^ k)); [lia | ].
        rewrite <- (Z.mul_assoc i), <- E149, <- Ei.
        replace (e + (-23 - k) + 149) with (e + 126 - k) by lia.
        replace (e + 149) with (23 + k + (e + 126 - k)) by lia.
        rewrite (Z.pow_add_r 2 (23 + k)), (Z.pow_add_r 2 23 k) by lia.
        change (2 ^ 23) with 8388608. ring. }
      destruct (mul_pow2_exact m e (-23 - k) Vi Vs (proj1 Hm) ltac:(lia)) as (Vr & Fr & Er).
      split; [exact Vr | ]. split; [exact Fr | ]. rewrite Er. exact Ev. }
  destruct Hu as (Vu & Fu & Eu). split.
  - rewrite Eu, <- Z.mul_assoc, <- E149. reflexivity.
  - unfold add.
    destruct (SFadd_exact (mul (of_int i) (S754_finite false 8388608 (-23 - k)))
                (S754_finite false 8388608 (-23 - k)) (i + 1) (149 - k) Vu Vs Fu eq_refl)
      as (_ & _ & Ea).
    + rewrite Eu, Es. ring.
    + lia.
    + assert (2 ^ 23 < 2 ^ 24) by reflexivity. lia.
    + rewrite Eu, Es. rewrite Z.abs_eq by nia.
      replace (i * 2 ^ (149 - k) + 2 ^ (149 - k)) with ((i + 1) * 2 ^ (149 - k)) by ring.
      assert (G : (i + 1) * 2 ^ (149 - k) <= 2 ^ k * 2 ^ (149 - k))
        by (apply Z.mul_le_mono_nonneg_r; lia).
      rewrite (Z.mul_comm (2 ^ k)), <- E149 in G.
      assert (2 ^ 149 < 2 ^ 276) by reflexivity. lia.
    + rewrite Ea, Eu, Es.
      replace (i * 2 ^ (149 - k) + 2 ^ (149 - k)) with ((i + 1) * 2 ^ (149 - k)) by ring.
      rewrite <- Z.mul_assoc, <- E149. reflexivity.
Qed.

(** ** What the level of detail buys *)

(** X21. Whatever the zoom in the range, a frame of [maingl.c] draws at most
    [(screen_w / 8 + 4) * (screen_h / 8 + 4)] tiles: the stride grows as
    the tiles shrink, so that the number of draw calls is bounded by the
    area of the window in squares of [LOD_PIXEL_THRESHOLD] pixels, and
    not by the number of tiles in view. *)
Theorem draw_calls_are_bounded
    (s : Gl.Session) (screen_w screen_h : Z) (r : Gl.VisibleRange) :
  Gl.zoom_ok s -> Gl.near (Gl.offset_x s) -> Gl.near (Gl.offset_y s) ->
  0 < screen_w <= 65536 -> 0 < screen_h <= 65536 ->
  Gl.visible_range s screen_w screen_h = Some r ->
  exists cells : list (Z * Z),
    Gl.draw_cells 1001 r = Some cells /\
    Z.of_nat (length cells) <= (screen_w / 8 + 4) * (screen_h / 8 + 4).
Proof. apply gl_draw_count. Qed.

Lemma draw_calls_are_bounded_witness :
  Gl.zoom_ok (Gl.session_at (of_int (-100)) (of_int (-50)) (literal 1 1)) /\
  Gl.near (of_int (-100)) /\ Gl.near (of_int (-50)) /\
  exists cells : list (Z * Z),
    Gl.draw_cells 1001 {| Gl.min_x := 3; Gl.min_y := 1; Gl.max_x := 254; Gl.max_y := 190;
                          Gl.lod := 3; Gl.start_x := 3; Gl.start_y := 0 |} = Some cells /\
    Z.of_nat (length cells) <= (800 / 8 + 4) * (600 / 8 + 4).
Proof.
  assert (Z1 : Gl.zoom_ok (Gl.session_at (of_int (-100)) (of_int (-50)) (literal 1 1)))
    by (repeat split; reflexivity).
  assert (N1 : Gl.near (of_int (-100))) by (repeat split; reflexivity).
  assert (N2 : Gl.near (of_int (-50))) by (repeat split; reflexivity).
  split; [exact Z1 | ]. split; [exact N1 | ]. split; [exact N2 | ].
  apply (draw_calls_are_bounded
           (Gl.session_at (of_int (-100)) (of_int (-50)) (literal 1 1)) 800 600
           {| Gl.min_x := 3; Gl.min_y := 1; Gl.max_x := 254; Gl.max_y := 190;
              Gl.lod := 3; Gl.start_x := 3; Gl.start_y := 0 |} Z1 N1 N2);
    try lia; reflexivity.
Defined.

(** ** The wheel *)

(** X22. In [maingl.c] a wheel event with [wheel.y > 0] never lowers the zoom,
    and raises it unless it is [MAX_ZOOM] already; every other wheel event
    (also one with [wheel.y = 0], a horizontal scroll) never raises it, and
    lowers it unless it is [MIN_ZOOM] already. *)
Theorem wheel_step_is_monotone (s : Gl.Session) (wheel_y mx my : Z) :
  Gl.zoom_ok s ->
  (0 < wheel_y ->
   val (Gl.zoom s) <= val (Gl.zoom (Gl.handle_event s (Gl.MouseWheel wheel_y mx my))) /\
   (val (Gl.zoom s) < val Gl.MAX_ZOOM ->
    val (Gl.zoom s) < val (Gl.zoom (Gl.handle_event s (Gl.MouseWheel wheel_y mx my))))) /\
  (wheel_y <= 0 ->
   val (Gl.zoom (Gl.handle_event s (Gl.MouseWheel wheel_y mx my))) <= val (Gl.zoom s) /\
   (val Gl.MIN_ZOOM < val (Gl.zoom s) ->
    val (Gl.zoom (Gl.handle_event s (Gl.MouseWheel wheel_y mx my))) < val (Gl.zoom s))).
Proof.
  intros [V R]. cbn [Gl.handle_event Gl.zoom].
  exact (wheel_step_monotone (Gl.zoom s) wheel_y V R).
Qed.

Lemma wheel_step_is_monotone_witness :
  Gl.zoom_ok Gl.initial_session /\
  val (Gl.zoom Gl.initial_session)
  < val (Gl.zoom (Gl.handle_event Gl.initial_session (Gl.MouseWheel 1 400 300))) /\
  val (Gl.zoom (Gl.handle_event Gl.initial_session (Gl.MouseWheel 0 400 300)))
  < val (Gl.zoom Gl.initial_session).
Proof.
  assert (Z1 : Gl.zoom_ok Gl.initial_session) by (repeat split; reflexivity).
  split; [exact Z1 | ]. split.
  - apply (proj1 (wheel_step_is_monotone Gl.initial_session 1 400 300 Z1)); reflexivity.
  - apply (proj2 (wheel_step_is_monotone Gl.initial_session 0 400 300 Z1));
      [lia | reflexivity].
Defined.

(** ** The size of the quads *)

(** X23. The stride of the level of detail keeps the quads of [maingl.c] at the
    threshold: every quad drawn in a frame is at least
    [LOD_PIXEL_THRESHOLD * (1 - 2^-21)] pixels wide and high, and, when
    the stride is not one, less than twice the threshold times
    [1 + 2^-21].  The margins are the rounding of the multiplications and
    of the division that picks the stride. *)
Theorem frame_quads_keep_threshold
    (ts : Gl.Tileset) (tiles : list Z) (s : Gl.Session) (screen_w screen_h : Z)
    (r : Gl.VisibleRange) (quads : list Gl.Quad) (q : Gl.Quad) :
  Gl.zoom_ok s ->
  Gl.tile_width ts = TILE_WIDTH -> Gl.tile_height ts = TILE_HEIGHT ->
  Gl.visible_range s screen_w screen_h = Some r ->
  Gl.frame_quads ts tiles s screen_w screen_h = Some quads -> In q quads ->
  (8 * 2 ^ 149 * (2 ^ 21 - 1) <= val (Gl.quad_w q) * 2 ^ 21 /\
   8 * 2 ^ 149 * (2 ^ 21 - 1) <= val (Gl.quad_h q) * 2 ^ 21) /\
  (1 < Gl.lod r ->
   val (Gl.quad_w q) * 2 ^ 21 < 16 * 2 ^ 149 * (2 ^ 21 + 1) /\
   val (Gl.quad_h q) * 2 ^ 21 < 16 * 2 ^ 149 * (2 ^ 21 + 1)).
Proof.
  intros [V R] Hw Hh Hv Hq Hin.
  destruct (frame_quad_call ts tiles s screen_w screen_h r quads q Hv Hq Hin)
    as (tx & ty & t & Hd).
  destruct (lod_quad_bounds (Gl.zoom s) (Gl.lod r) V R (gl_visible_range_lod _ _ _ _ Hv))
    as [Hlo Hhi].
  unfold Gl.draw_tile in Hd. destruct (Gl.atlas_cell ts t) as [[sx sy] | ]; [ | discriminate].
  injection Hd as <-. cbn [Gl.quad_w Gl.quad_h]. rewrite Hw, Hh.
  change (mul (of_int TILE_HEIGHT) (Gl.zoom s)) with (Gl.tile_screen_size (Gl.zoom s)).
  change (mul (of_int TILE_WIDTH) (Gl.zoom s)) with (Gl.tile_screen_size (Gl.zoom s)).
  split; [split; exact Hlo | ]. intros H1. split; exact (Hhi H1).
Qed.

Lemma frame_quads_keep_threshold_witness :
  Gl.zoom_ok (Gl.session_at (of_int (-100)) (of_int (-50)) (literal 1 1)) /\
  exists (tiles : list Z) (quads : list Gl.Quad) (q : Gl.Quad),
    Gl.frame_quads {| Gl.tile_width := 32; Gl.tile_height := 32; Gl.rows := 2; Gl.cols := 8;
                      Gl.use_shift := true; Gl.shift_bits := 3 |}
                   tiles (Gl.session_at (of_int (-100)) (of_int (-50)) (literal 1 1)) 800 600
    = Some quads /\
    In q quads /\
    8 * 2 ^ 149 * (2 ^ 21 - 1) <= val (Gl.quad_w q) * 2 ^ 21 /\
    val (Gl.quad_w q) * 2 ^ 21 < 16 * 2 ^ 149 * (2 ^ 21 + 1).
Proof.
  assert (Z1 : Gl.zoom_ok (Gl.session_at (of_int (-100)) (of_int (-50)) (literal 1 1)))
    by (repeat split; reflexivity).
  split; [exact Z1 | ].
  assert (R1 : forall k : nat, 0 <= Z.of_nat k) by (intros k; lia).
  assert (R2 : 0 < 16) by lia.
  destruct (fill_in_range (fun k => Z.of_nat k) 16 R2 R1) as (tiles & _ & Hlen & Hall).
  destruct (gl_frame_quads_defined
              {| Gl.tile_width := 32; Gl.tile_height := 32; Gl.rows := 2; Gl.cols := 8;
                 Gl.use_shift := true; Gl.shift_bits := 3 |}
              tiles (Gl.session_at (of_int (-100)) (of_int (-50)) (literal 1 1)) 800 600
              {| Gl.min_x := 3; Gl.min_y := 1; Gl.max_x := 254; Gl.max_y := 190;
                 Gl.lod := 3; Gl.start_x := 3; Gl.start_y := 0 |})
    as (cells & quads & Hcells & Hq & Hl);
    [cbn; lia | cbn; lia | intros _; cbn; split; [lia | reflexivity]
    | exact Hlen | exact Hall | exact Z1 | reflexivity | ].
  destruct quads as [ | q quads].
  { exfalso. vm_compute in Hcells. injection Hcells as <-. discriminate Hl. }
  clear Hcells Hl.
  exists tiles, (q :: quads), q.
  split; [exact Hq | ]. split; [left; reflexivity | ].
  destruct (frame_quads_keep_threshold
              {| Gl.tile_width := 32; Gl.tile_height := 32; Gl.rows := 2; Gl.cols := 8;
                 Gl.use_shift := true; Gl.shift_bits := 3 |}
              tiles (Gl.session_at (of_int (-100)) (of_int (-50)) (literal 1 1)) 800 600
              {| Gl.min_x := 3; Gl.min_y := 1; Gl.max_x := 254; Gl.max_y := 190;
                 Gl.lod := 3; Gl.start_x := 3; Gl.start_y := 0 |} (q :: quads) q
              Z1 eq_refl eq_refl eq_refl Hq (or_introl eq_refl)) as [[Hlo _] Hhi].
  split; [exact Hlo | ]. apply Hhi. cbn. lia.
Defined.

(** ** The texture coordinates of a power-of-two atlas *)

(** X24. From start-up to [draw_tile] in [maingl.c]: when the atlas has a power
    of two of columns (at most [2^23]), the left and right texture edges
    of every tile are exactly [sx / cols] and [(sx + 1) / cols], with
    [sx = tile_index mod cols]: no rounding in [1.0f / cols], in
    [sx * step_u] and in [u + step_u], so that neighbouring atlas cells
    share their edge and the last column ends at exactly 1.  The same
    holds for the rows when their number is a power of two. *)
Theorem power_of_two_atlas_exact_edges
    (w h tile_index tx ty lod : Z) (zoom offset_x offset_y : float) :
  32 <= w <= CInt.INT_MAX -> 32 <= h <= CInt.INT_MAX ->
  0 <= tile_index < (w / 32) * (h / 32) ->
  exists (ts : Gl.Tileset) (q : Gl.Quad),
    Gl.main_tileset (Some (w, h)) = Some ts /\
    Gl.draw_tile tx ty tile_index ts zoom offset_x offset_y lod
                 (Gl.uv_step (Gl.cols ts)) (Gl.uv_step (Gl.rows ts)) = Some q /\
    (forall k, 0 <= k <= 23 -> w / 32 = 2 ^ k ->
       val (Gl.quad_u q) * 2 ^ k = (tile_index mod 2 ^ k) * 2 ^ 149 /\
       val (Gl.quad_u2 q) * 2 ^ k = (tile_index mod 2 ^ k + 1) * 2 ^ 149) /\
    (forall k, 0 <= k <= 23 -> h / 32 = 2 ^ k ->
       val (Gl.quad_v q) * 2 ^ k = (tile_index / (w / 32)) * 2 ^ 149 /\
       val (Gl.quad_v2 q) * 2 ^ k = (tile_index / (w / 32) + 1) * 2 ^ 149).
Proof.
  intros Hw Hh Ht.
  destruct (main_tileset_geometry w h Hw ltac:(lia)) as (ts & Hts & Hc & Hr & Hc1 & Hr1 & Hs).
  rewrite <- Hc, <- Hr in Ht.
  destruct (atlas_cell_in_atlas ts tile_index Hc1 Hr1 Hs Ht) as (Ha & Hsx & Hsy).
  exists ts. unfold Gl.draw_tile. rewrite Ha. eexists.
  split; [exact Hts | ]. split; [reflexivity | ].
  cbn [Gl.quad_u Gl.quad_u2 Gl.quad_v Gl.quad_v2]. rewrite Hc, Hr in *. split.
  - intros k Hk Ek. rewrite Ek in *. exact (uv_exact k (tile_index mod 2 ^ k) Hk Hsx).
  - intros k Hk Ek. rewrite Ek in *. exact (uv_exact k (tile_index / (w / 32)) Hk Hsy).
Qed.

Lemma power_of_two_atlas_exact_edges_witness :
  exists (ts : Gl.Tileset) (q : Gl.Quad),
    Gl.main_tileset (Some (256, 64)) = Some ts /\
    Gl.draw_tile 5 7 11 ts (of_int 1) (of_int 0) (of_int 0) 1
                 (Gl.uv_step (Gl.cols ts)) (Gl.uv_step (Gl.rows ts)) = Some q /\
    (val (Gl.quad_u q) * 2 ^ 3 = 3 * 2 ^ 149 /\ val (Gl.quad_u2 q) * 2 ^ 3 = 4 * 2 ^ 149) /\
    (val (Gl.quad_v q) * 2 ^ 1 = 1 * 2 ^ 149 /\ val (Gl.quad_v2 q) * 2 ^ 1 = 2 * 2 ^ 149).
Proof.
  assert (H1 : 32 <= 256 <= CInt.INT_MAX) by (unfold CInt.INT_MAX; lia).
  assert (H2 : 32 <= 64 <= CInt.INT_MAX) by (unfold CInt.INT_MAX; lia).
  assert (H3 : 0 <= 11 < (256 / 32) * (64 / 32)) by (vm_compute; split; [discriminate | reflexivity]).
  destruct (power_of_two_atlas_exact_edges 256 64 11 5 7 1 (of_int 1) (of_int 0) (of_int 0)
              H1 H2 H3) as (ts & q & Hts & Hq & Hu & Hv).
  assert (K3 : 0 <= 3 <= 23) by lia. assert (K1 : 0 <= 1 <= 23) by lia.
  exists ts, q. split; [exact Hts | ]. split; [exact Hq | ].
  split; [exact (Hu 3 K3 eq_refl) | exact (Hv 1 K1 eq_refl)].
Defined.

(** ** The highlight of [main.c] and its draw loop *)

(** A difference that is representable is computed exactly. *)
Lemma SFsub_exact (x y : spec_float) (m' k : Z) :
  valid x -> valid y -> is_finite x = true -> is_finite y = true ->
  val x - val y = m' * 2 ^ k -> 0 <= k -> Z.abs m' < 2 ^ 24 ->
  Z.abs (val x - val y) < 2 ^ 276 ->
  valid (SFsub prec emax x y) /\ is_finite (SFsub prec emax x y) = true /\
  val (SFsub prec emax x y) = val x - val y.
Proof.
  intros Vx Vy Fx Fy Hrep Hk Hm' Hlt.
  split; [exact (SFsub_valid x y Vx Vy) | ].
  pose proof (SFsub_no_overflow x y Vx Vy Fx Fy Hlt) as Hf.
  split; [exact Hf | ].
  destruct x as [sx | sx | | sx mx ex]; try discriminate Fx;
    destruct y as [sy | sy | | sy my ey]; try discriminate Fy.
  - destruct sx, sy; reflexivity.
  - cbn. destruct sy; cbn; lia.
  - cbn. lia.
  - pose proof (valid_finite_inv _ _ _ Vx) as (Hex & _).
    pose proof (valid_finite_inv _ _ _ Vy) as (Hey & _).
    cbn [SFsub] in *.
    set (ez := Z.min ex ey) in *.
    assert (Hez : -149 <= ez) by (subst ez; lia).
    pose proof (val_aligned sx mx ex ez ltac:(lia)) as Ax.
    pose proof (val_aligned sy my ey ez ltac:(lia)) as Ay.
    set (M := cond_Zopp sx (Zpos (fst (shl_align mx ex ez)))
              - cond_Zopp sy (Zpos (fst (shl_align my ey ez)))) in *.
    assert (A : M * 2 ^ (ez + 149)
                = val (S754_finite sx mx ex) - val (S754_finite sy my ey)).
    { unfold M. rewrite Z.mul_sub_distr_r, Ax, Ay. reflexivity. }
    pose proof (pow2_pos (ez + 149) ltac:(lia)) as Hp.
    pose proof (pow2_pos k Hk) as Hpk.
    rewrite <- A.
    assert (Hr : exists m2 k2, M = m2 * 2 ^ k2 /\ 0 <= k2 /\ Z.abs m2 < 2 ^ 24).
    { rewrite Hrep in A. destruct (Z_le_gt_dec (ez + 149) k) as [H | H].
      - exists m', (k - (ez + 149)). split; [ | split; lia].
        assert (E : 2 ^ k = 2 ^ (k - (ez + 149)) * 2 ^ (ez + 149))
          by (rewrite <- Z.pow_add_r by lia; f_equal; lia).
        rewrite E in A. nia.
      - exists M, 0. rewrite Z.pow_0_r. split; [lia | ]. split; [lia | ].
        assert (E : 2 ^ (ez + 149) = 2 ^ (ez + 149 - k) * 2 ^ k)
          by (rewrite <- Z.pow_add_r by lia; f_equal; lia).
        rewrite E in A. pose proof (pow2_pos (ez + 149 - k) ltac:(lia)).
        assert (M * 2 ^ (ez + 149 - k) = m') by nia.
        assert (Z.abs M <= Z.abs m') by nia. lia. }
    destruct Hr as (m2 & k2 & E2 & Hk2 & Hm2).
    exact (binary_normalize_exact M ez m2 k2 false Hez E2 Hk2 Hm2 Hf).
Qed.

(** A quarter-pixel count divided by the tile size and cast to [int]. *)
Lemma quarter_tile_cast (x : float) (j : Z) :
  valid x -> is_finite x = true -> val x = j * 2 ^ 147 -> Z.abs j < 2 ^ 24 ->
  int_of_float (div x (of_int 32)) = Some (Z.quot j 128).
Proof.
  intros V F E Hj.
  assert (E147 : 2 ^ 147 = 2 ^ 142 * 2 ^ 5) by reflexivity.
  destruct (div_pow2_exact x (of_int 32) 5 V F (of_int_valid 32) ltac:(lia) eq_refl)
    as (Vd & Fd & Ed).
  { rewrite E, E147. exists (j * 2 ^ 142). ring. }
  assert (Ed' : val (div x (of_int 32)) = j * 2 ^ 142).
  { rewrite Ed, E, E147, Z.mul_assoc. apply Z.div_mul. discriminate. }
  rewrite (int_of_float_val _ Vd Fd).
  - f_equal. rewrite Ed'. replace (2 ^ 149) with (128 * 2 ^ 142) by reflexivity.
    apply Z.quot_mul_cancel_r; [discriminate | apply Z.pow_nonzero; lia].
  - rewrite Ed', Z.abs_mul. change (Z.abs (2 ^ 142)) with (2 ^ 142).
    change (2 ^ (28 + 149)) with (2 ^ 35 * 2 ^ 142).
    apply Z.mul_le_mono_nonneg_r; [discriminate | ].
    assert (2 ^ 24 < 2 ^ 35) by reflexivity. lia.
Qed.

(** The bounds of [main.c] for a camera offset of [j] quarter pixels. *)
Lemma sdl_raw_min_quarter (o : float) (j : Z) :
  valid o -> is_finite o = true -> val o = j * 2 ^ 147 -> Z.abs j < 2 ^ 22 ->
  Sdl.raw_min o 32 = Some (Z.quot (- j) 128).
Proof.
  intros V F E Hj. unfold Sdl.raw_min.
  destruct (opp_spec o V) as (Vo & Fo & Ho). rewrite F in Fo.
  apply (quarter_tile_cast (opp o) (- j) Vo Fo).
  - rewrite Ho, E. ring.
  - rewrite Z.abs_opp. assert (2 ^ 22 < 2 ^ 24) by reflexivity. lia.
Qed.

Lemma sdl_raw_max_quarter (screen zoom : Z) (o : float) (j : Z) :
  zoom = 1 \/ zoom = 2 \/ zoom = 4 -> 0 <= screen <= 65536 ->
  valid o -> is_finite o = true -> val o = j * 2 ^ 147 -> Z.abs j < 2 ^ 22 ->
  Sdl.raw_max screen zoom o 32 = Some (Z.quot (screen * (4 / zoom) - j) 128 + 1).
Proof.
  intros Hz Hs V F E Hj. unfold Sdl.raw_max.
  assert (H4 : 1 <= 4 / zoom <= 4).
  { destruct Hz as [-> | [-> | ->]]; vm_compute; split; discriminate. }
  change (2 ^ 22) with 4194304 in Hj.
  destruct (sdl_delta_exact screen zoom Hz) as (Vw & Fw & Ew).
  { change (2 ^ 24) with 16777216. lia. }
  assert (Hm : Z.abs (screen * (4 / zoom) - j) < 2 ^ 24).
  { change (2 ^ 24) with 16777216. nia. }
  destruct (SFsub_exact (div (of_int screen) (of_int zoom)) o
              (screen * (4 / zoom) - j) 147 Vw V Fw F) as (Vs & Fs & Es).
  - rewrite Ew, E. ring.
  - lia.
  - exact Hm.
  - rewrite Ew, E.
    replace (screen * (4 / zoom) * 2 ^ 147 - j * 2 ^ 147)
      with ((screen * (4 / zoom) - j) * 2 ^ 147) by ring.
    rewrite Z.abs_mul. change (Z.abs (2 ^ 147)) with (2 ^ 147).
    change (2 ^ 276) with (2 ^ 129 * 2 ^ 147).
    apply Z.mul_lt_mono_pos_r; [reflexivity | ].
    assert (2 ^ 24 < 2 ^ 129) by reflexivity. lia.
  - unfold sub.
    rewrite (quarter_tile_cast _ (screen * (4 / zoom) - j) Vs Fs); [reflexivity | | exact Hm].
    rewrite Es, Ew, E. ring.
Qed.

(** The hovered tile of [main.c] for a camera offset of [j] quarter
    pixels. *)
Lemma sdl_hover_coord_quarter (p zoom : Z) (o : float) (j : Z) :
  zoom = 1 \/ zoom = 2 \/ zoom = 4 -> Z.abs p <= 2 ^ 30 ->
  valid o -> is_finite o = true -> val o = j * 2 ^ 147 -> Z.abs j < 2 ^ 22 ->
  Sdl.hover_coord p zoom o 32 = Some (Z.quot (Z.quot p zoom - Z.quot j 4) 32).
Proof.
  intros Hz Hp V F E Hj.
  assert (N : Sdl.near o).
  { split; [exact V | ]. split; [exact F | ].
    rewrite E, Z.abs_mul. change (Z.abs (2 ^ 147)) with (2 ^ 147).
    change (2 ^ (28 + 149)) with (2 ^ 30 * 2 ^ 147).
    apply Z.mul_lt_mono_pos_r; [reflexivity | ].
    assert (2 ^ 22 < 2 ^ 30) by reflexivity. lia. }
  destruct (sdl_hover_coord_defined p zoom o Hz Hp N) as (n & Hn & Hh).
  rewrite Hh. do 3 f_equal.
  assert (En : n = Z.quot (val o) (2 ^ 149)).
  { rewrite (int_of_float_val o V F) in Hn; [congruence | ].
    destruct N as (_ & _ & Hb). lia. }
  rewrite En, E. replace (2 ^ 149) with (4 * 2 ^ 147) by reflexivity.
  apply Z.quot_mul_cancel_r; [discriminate | apply Z.pow_nonzero; lia].
Qed.

(** The integer arithmetic behind the containment of the hovered tile. *)
Lemma hovered_tile_in_range (p zoom screen j tile : Z) :
  zoom = 1 \/ zoom = 2 \/ zoom = 4 -> screen = 800 \/ screen = 600 ->
  0 <= p < screen ->
  tile = Z.quot (Z.quot p zoom - Z.quot j 4) 32 -> 0 <= tile < 1000 ->
  Gl.clamp_min (Z.quot (- j) 128) <= tile /\
  tile < Gl.clamp_max (Z.quot (screen * (4 / zoom) - j) 128 + 1) 1000.
Proof.
  intros Hz Hs Hp Et Ht.
  rewrite clamp_min_max. unfold Gl.clamp_max.
  assert (Hq : Z.quot p zoom = p / zoom)
    by (apply Z.quot_div_nonneg; destruct Hz as [-> | [-> | ->]]; lia).
  rewrite Hq in Et.
  pose proof (Z.quot_rem' j 4) as Qj.
  pose proof (Z.rem_bound_abs j 4 ltac:(discriminate)) as Bj.
  pose proof (Z.rem_sign_nz j 4 ltac:(discriminate)) as Sj.
  set (o := Z.quot j 4) in *. set (rj := Z.rem j 4) in *.
  set (q := p / zoom) in *.
  assert (HB : 4 * (q - o) + 1 <= screen * (4 / zoom) - j).
  { assert (Hq4 : 4 * q + 4 <= screen * (4 / zoom)).
    { unfold q. destruct Hz as [-> | [-> | ->]]; destruct Hs as [-> | ->];
        change (4 / 1) with 4; change (4 / 2) with 2; change (4 / 4) with 1;
        try rewrite Z.div_1_r; try lia.
      - pose proof (Z.div_mod p 2 ltac:(lia)). pose proof (Z.mod_pos_bound p 2 ltac:(lia)). lia.
      - pose proof (Z.div_mod p 2 ltac:(lia)). pose proof (Z.mod_pos_bound p 2 ltac:(lia)). lia.
      - pose proof (Z.div_mod p 4 ltac:(lia)). pose proof (Z.mod_pos_bound p 4 ltac:(lia)). lia.
      - pose proof (Z.div_mod p 4 ltac:(lia)). pose proof (Z.mod_pos_bound p 4 ltac:(lia)). lia. }
    assert (Hr3 : -3 <= rj <= 3) by (change (Z.abs 4) with 4 in Bj; lia).
    assert (Ho : j - 3 <= 4 * o).
    { destruct (Z_lt_ge_dec rj 0) as [Hn | Hn]; [ | lia].
      destruct (Z.eq_dec rj 0) as [E0 | E0]; [lia | ].
      specialize (Sj E0). destruct (Z_lt_ge_dec j 0) as [Hj | Hj]; [lia | ].
      exfalso. destruct (Z.eq_dec j 0) as [-> | Hj0]; [vm_compute in rj; lia | ].
      rewrite (Z.sgn_pos j), (Z.sgn_neg rj) in Sj by lia. discriminate. }
    lia. }
  set (a := q - o) in *. set (b := screen * (4 / zoom) - j) in *.
  pose proof (Z.quot_rem' a 32) as Qa.
  pose proof (Z.rem_bound_abs a 32 ltac:(discriminate)) as Ba.
  change (Z.abs 32) with 32 in Ba. rewrite <- Et in Qa.
  pose proof (Z.quot_rem' b 128) as Qb.
  pose proof (Z.rem_bound_abs b 128 ltac:(discriminate)) as Bb.
  change (Z.abs 128) with 128 in Bb.
  pose proof (Z.quot_rem' (- j) 128) as Qm.
  pose proof (Z.rem_bound_abs (- j) 128 ltac:(discriminate)) as Bm.
  change (Z.abs 128) with 128 in Bm.
  split.
  - destruct (Z_le_gt_dec (Z.quot (- j) 128) 0) as [C | C]; [lia | ].
    assert (Hj0 : 0 < - j) by lia.
    assert (Hrm : 0 <= Z.rem (- j) 128) by (apply Z.rem_nonneg; lia).
    assert (Hjn : 128 <= - j) by lia.
    assert (Ha0 : 0 <= a).
    { unfold a. assert (0 <= q) by (unfold q; apply Z.div_pos; destruct Hz as [-> | [-> | ->]]; lia).
      lia. }
    assert (Hra : 0 <= Z.rem a 32) by (apply Z.rem_nonneg; lia).
    assert (Hq0 : 0 <= q) by (unfold q; apply Z.div_pos; destruct Hz as [-> | [-> | ->]]; lia).
    lia.
  - assert (Hn : tile <= Z.quot b 128).
    { destruct (Z_lt_ge_dec a 0) as [Ha | Ha].
      - assert (Hra : Z.rem a 32 <= 0) by (apply Z.rem_nonpos; lia).
        assert (tile = 0) by lia.
        assert (Hb127 : -127 <= b) by lia.
        destruct (Z_lt_ge_dec b 0) as [Hb | Hb].
        + assert (Hrb : Z.rem b 128 <= 0) by (apply Z.rem_nonpos; lia). lia.
        + assert (Hrb : 0 <= Z.rem b 128) by (apply Z.rem_nonneg; lia). lia.
      - assert (Hra : 0 <= Z.rem a 32) by (apply Z.rem_nonneg; lia).
        assert (Hrb : 0 <= Z.rem b 128) by (apply Z.rem_nonneg; lia). lia. }
    destruct (Z.ltb_spec 1000 (Z.quot b 128 + 1)); lia.
Qed.

(** X25. In [main.c], with the camera offset a multiple of a quarter of a
    pixel below [2^20] pixels (as dragging at zoom 1, 2 or 4 leaves it)
    and the pointer inside the window, the highlighted tile is one of the
    tiles that the draw loop of the same frame has drawn: it lies in the
    clamped visible range on both axes. *)
Theorem sdl_highlight_is_drawn
    (t : Sdl.Session) (mx my jx jy : Z) (r : Sdl.VisibleRange) (tile_x tile_y : Z) :
  Sdl.zoom t = 1 \/ Sdl.zoom t = 2 \/ Sdl.zoom t = 4 ->
  valid (Sdl.offset_x t) -> is_finite (Sdl.offset_x t) = true ->
  val (Sdl.offset_x t) = jx * 2 ^ 147 -> Z.abs jx < 2 ^ 22 ->
  valid (Sdl.offset_y t) -> is_finite (Sdl.offset_y t) = true ->
  val (Sdl.offset_y t) = jy * 2 ^ 147 -> Z.abs jy < 2 ^ 22 ->
  0 <= mx < SCREEN_WIDTH -> 0 <= my < SCREEN_HEIGHT ->
  Sdl.visible_range t = Some r ->
  Sdl.hover t mx my = Some (Some (tile_x, tile_y)) ->
  Sdl.min_x r <= tile_x < Sdl.max_x r /\ Sdl.min_y r <= tile_y < Sdl.max_y r.
Proof.
  intros Hz Vx Fx Ex Bx Vy Fy Ey By Hmx Hmy Hr Hh.
  destruct (sdl_visible_range_fields t r Hr)
    as (mnx & mny & mxx & mxy & Hmnx & Hmny & Hmxx & Hmxy & -> & -> & -> & ->).
  rewrite (sdl_raw_min_quarter _ jx Vx Fx Ex Bx) in Hmnx.
  rewrite (sdl_raw_min_quarter _ jy Vy Fy Ey By) in Hmny.
  rewrite (sdl_raw_max_quarter SCREEN_WIDTH _ _ jx Hz ltac:(unfold SCREEN_WIDTH; lia)
             Vx Fx Ex Bx) in Hmxx.
  rewrite (sdl_raw_max_quarter SCREEN_HEIGHT _ _ jy Hz ltac:(unfold SCREEN_HEIGHT; lia)
             Vy Fy Ey By) in Hmxy.
  assert (E1 : mnx = Z.quot (- jx) 128) by congruence.
  assert (E2 : mny = Z.quot (- jy) 128) by congruence.
  assert (E3 : mxx = Z.quot (SCREEN_WIDTH * (4 / Sdl.zoom t) - jx) 128 + 1) by congruence.
  assert (E4 : mxy = Z.quot (SCREEN_HEIGHT * (4 / Sdl.zoom t) - jy) 128 + 1) by congruence.
  subst mnx mny mxx mxy. clear Hmnx Hmny Hmxx Hmxy.
  unfold Sdl.hover in Hh. cbn [Sdl.tile_width Sdl.tile_height Sdl.initial_tileset] in Hh.
  change TILE_WIDTH with 32 in Hh. change TILE_HEIGHT with 32 in Hh.
  assert (Pmx : Z.abs mx <= 2 ^ 30)
    by (unfold SCREEN_WIDTH in Hmx; change (2 ^ 30) with 1073741824; lia).
  assert (Pmy : Z.abs my <= 2 ^ 30)
    by (unfold SCREEN_HEIGHT in Hmy; change (2 ^ 30) with 1073741824; lia).
  rewrite (sdl_hover_coord_quarter mx _ _ jx Hz Pmx Vx Fx Ex Bx) in Hh.
  rewrite (sdl_hover_coord_quarter my _ _ jy Hz Pmy Vy Fy Ey By) in Hh.
  destruct (Gl.in_grid _ _) eqn:G in Hh; [ | discriminate].
  assert (Etx : tile_x = Z.quot (Z.quot mx (Sdl.zoom t) - Z.quot jx 4) 32) by congruence.
  assert (Ety : tile_y = Z.quot (Z.quot my (Sdl.zoom t) - Z.quot jy 4) 32) by congruence.
  rewrite <- Etx, <- Ety in G. unfold Gl.in_grid in G.
  apply andb_true_iff in G. destruct G as [G G4].
  apply andb_true_iff in G. destruct G as [G G3].
  apply andb_true_iff in G. destruct G as [G1 G2].
  apply Z.leb_le in G1, G3. apply Z.ltb_lt in G2, G4.
  unfold MAP_WIDTH in G2. unfold MAP_HEIGHT in G4.
  unfold SCREEN_WIDTH, SCREEN_HEIGHT, MAP_WIDTH, MAP_HEIGHT in *.
  split.
  - exact (hovered_tile_in_range mx (Sdl.zoom t) 800 jx tile_x Hz (or_introl eq_refl)
             Hmx Etx (conj G1 G2)).
  - exact (hovered_tile_in_range my (Sdl.zoom t) 600 jy tile_y Hz (or_intror eq_refl)
             Hmy Ety (conj G3 G4)).
Qed.

Lemma sdl_highlight_is_drawn_witness :
  Sdl.visible_range Sdl.initial_session
  = Some {| Sdl.min_x := 487; Sdl.min_y := 490; Sdl.max_x := 513; Sdl.max_y := 510 |} /\
  Sdl.hover Sdl.initial_session 799 0 = Some (Some (512, 490)) /\
  (487 <= 512 < 513 /\ 490 <= 490 < 510).
Proof.
  split; [reflexivity | ]. split; [reflexivity | ].
  refine (sdl_highlight_is_drawn Sdl.initial_session 799 0 (-62400) (-62800)
            {| Sdl.min_x := 487; Sdl.min_y := 490; Sdl.max_x := 513; Sdl.max_y := 510 |}
            512 490 _ _ _ _ _ _ _ _ _ _ _ _ _);
    try reflexivity; try (left; reflexivity);
    try (unfold SCREEN_WIDTH, SCREEN_HEIGHT; lia).
Defined.

(** X26. In [main.c] the destination rectangles tile the screen: when the
    rectangles of a tile and of its right and lower neighbours are
    computed (no overflow), the right neighbour starts exactly where the
    tile ends, on the same row, and the lower neighbour exactly below it,
    in the same column; all have the same size.  No gap and no overlap,
    at every camera offset and zoom. *)
Theorem sdl_tiles_abut (ts : Sdl.Tileset) (t : Sdl.Session) (x y : Z)
    (r rr rd : Sdl.Rect) :
  Sdl.tile_rect ts t x y = Some r ->
  Sdl.tile_rect ts t (x + 1) y = Some rr ->
  Sdl.tile_rect ts t x (y + 1) = Some rd ->
  (Sdl.rect_x rr = Sdl.rect_x r + Sdl.rect_w r /\ Sdl.rect_y rr = Sdl.rect_y r) /\
  (Sdl.rect_y rd = Sdl.rect_y r + Sdl.rect_h r /\ Sdl.rect_x rd = Sdl.rect_x r) /\
  (Sdl.rect_w rr = Sdl.rect_w r /\ Sdl.rect_h rr = Sdl.rect_h r /\
   Sdl.rect_w rd = Sdl.rect_w r /\ Sdl.rect_h rd = Sdl.rect_h r).
Proof.
  unfold Sdl.tile_rect, Sdl.screen_coord.
  intros H1 H2 H3.
  destruct (int_of_float (Sdl.offset_x t)) as [ox | ]; [ | discriminate H1].
  repeat match goal with
         | H : context [if ?c then _ else _] |- _ =>
             destruct c; [ | first [discriminate H1 | discriminate H2 | discriminate H3]]
         end.
  destruct (int_of_float (Sdl.offset_y t)) as [oy | ]; [ | discriminate H1].
  repeat match goal with
         | H : context [if ?c then _ else _] |- _ =>
             destruct c; [ | first [discriminate H1 | discriminate H2 | discriminate H3]]
         end.
  injection H1 as <-. injection H2 as <-. injection H3 as <-.
  cbn [Sdl.rect_x Sdl.rect_y Sdl.rect_w Sdl.rect_h].
  repeat split; ring.
Qed.

Lemma sdl_tiles_abut_witness :
  Sdl.tile_rect Sdl.initial_tileset Sdl.initial_session 500 500
  = Some {| Sdl.rect_x := 400; Sdl.rect_y := 300; Sdl.rect_w := 32; Sdl.rect_h := 32 |} /\
  Sdl.tile_rect Sdl.initial_tileset Sdl.initial_session 501 500
  = Some {| Sdl.rect_x := 432; Sdl.rect_y := 300; Sdl.rect_w := 32; Sdl.rect_h := 32 |} /\
  Sdl.tile_rect Sdl.initial_tileset Sdl.initial_session 500 501
  = Some {| Sdl.rect_x := 400; Sdl.rect_y := 332; Sdl.rect_w := 32; Sdl.rect_h := 32 |} /\
  432 = 400 + 32 /\ 332 = 300 + 32.
Proof.
  split; [reflexivity | ]. split; [reflexivity | ]. split; [reflexivity | ].
  destruct (sdl_tiles_abut Sdl.initial_tileset Sdl.initial_session 500 500
              {| Sdl.rect_x := 400; Sdl.rect_y := 300; Sdl.rect_w := 32; Sdl.rect_h := 32 |}
              {| Sdl.rect_x := 432; Sdl.rect_y := 300; Sdl.rect_w := 32; Sdl.rect_h := 32 |}
              {| Sdl.rect_x := 400; Sdl.rect_y := 332; Sdl.rect_w := 32; Sdl.rect_h := 32 |}
              eq_refl eq_refl eq_refl) as ((H1 & _) & (H2 & _) & _).
  exact (conj H1 H2).
Defined.

(** * Rounding is monotone: the order of the visible bounds *)

(** [binary_round] moves its argument to the nearest multiple of the unit
    of its binade: the result is within half a unit of the exact value. *)
Lemma binary_round_grid (sx : bool) (mx : positive) (ex : Z) :
  -149 <= ex ->
  exists m1 : Z,
    2 * Z.abs (m1 * 2 ^ (fexp32 (Zdigits2 (Zpos mx) + ex) + 149) - Zpos mx * 2 ^ (ex + 149))
    <= 2 ^ (fexp32 (Zdigits2 (Zpos mx) + ex) + 149) /\
    ((m1 = 0 /\ binary_round prec emax sx mx ex = S754_zero sx) \/
     rounded sx m1 (fexp32 (Zdigits2 (Zpos mx) + ex)) (binary_round prec emax sx mx ex)).
Proof.
  intros Hex. set (c := fexp32 (Zdigits2 (Zpos mx) + ex)).
  unfold binary_round. rewrite fexp_32.
  change (Zpos (digits2_pos mx)) with (Zdigits2 (Zpos mx)). fold c.
  pose proof (shl_align_spec mx ex c) as [Hez Hmz].
  destruct (shl_align mx ex c) as [mz ez]. cbn [fst snd] in Hez, Hmz.
  rewrite <- Hez in Hmz.
  pose proof (Zdigits2_pos (Zpos mx) ltac:(lia)) as Hd.
  assert (Hc : -149 <= c) by (subst c; unfold fexp32; lia).
  assert (Hpre : fexp32 (Zdigits2 (Zpos mz) + ez) = c).
  { rewrite Hmz, Zdigits2_mul_pow2 by lia. subst c.
    destruct (Z_le_gt_dec ex (fexp32 (Zdigits2 (Zpos mx) + ex))) as [H | H].
    - replace (ex - ez) with 0 by lia. rewrite Z.add_0_r.
      replace ez with ex by lia. reflexivity.
    - replace (Zdigits2 (Zpos mx) + (ex - ez) + ez) with (Zdigits2 (Zpos mx) + ex) by lia.
      reflexivity. }
  destruct (binary_round_aux_spec sx (Zpos mz) ez loc_Exact ltac:(lia) ltac:(lia))
    as (m1 & Hb & Herr & Hres).
  rewrite Hpre in *. specialize (Herr eq_refl).
  exists m1. split; [ | exact Hres].
  assert (Hn : 0 <= c - ez) by lia.
  pose proof (pow2_pos (c - ez) Hn) as Hp.
  pose proof (pow2_pos (ez + 149) ltac:(lia)) as Hq.
  assert (E1 : 2 ^ (c + 149) = 2 ^ (c - ez) * 2 ^ (ez + 149)).
  { rewrite <- Z.pow_add_r by lia. f_equal. lia. }
  assert (E2 : Zpos mx * 2 ^ (ex + 149) = Zpos mz * 2 ^ (ez + 149)).
  { rewrite Hmz, <- Z.mul_assoc, <- Z.pow_add_r by lia. do 2 f_equal. lia. }
  rewrite E1, E2.
  replace (m1 * (2 ^ (c - ez) * 2 ^ (ez + 149)) - Zpos mz * 2 ^ (ez + 149))
    with ((m1 * 2 ^ (c - ez) - Zpos mz) * 2 ^ (ez + 149)) by ring.
  rewrite Z.abs_mul, (Z.abs_eq (2 ^ (ez + 149))), Z.mul_assoc by lia.
  apply Z.mul_le_mono_nonneg_r; [lia | exact Herr].
Qed.

(** Rounding to nearest never goes below a representable number that the
    exact value is not below. *)
Lemma round_ge_representable (mx : positive) (ex : Z) (r : float) :
  -149 <= ex -> valid r -> 0 < val r <= Zpos mx * 2 ^ (ex + 149) ->
  is_finite (binary_round prec emax false mx ex) = true ->
  val r <= val (binary_round prec emax false mx ex).
Proof.
  intros Hex Vr [Hr0 HrV] F.
  destruct (positive_val_inv r Hr0) as (my & ey & ->).
  pose proof (valid_finite_inv _ _ _ Vr) as (Hey & Hmy & Hny).
  cbn [val cond_Zopp] in *.
  destruct (binary_round_grid false mx ex Hex) as (m1 & Herr & Hres).
  pose proof (Zdigits2_bounds (Zpos mx) ltac:(lia)) as [Blo Bhi].
  pose proof (Zdigits2_pos (Zpos mx) ltac:(lia)) as Hd.
  set (d := Zdigits2 (Zpos mx)) in *. set (c := fexp32 (d + ex)) in *.
  assert (Hc : -149 <= c) by (subst c; unfold fexp32; lia).
  pose proof (pow2_pos (c + 149) ltac:(lia)) as Hpc.
  pose proof (pow2_pos (ex + 149) ltac:(lia)) as Hpe.
  pose proof (pow2_pos (ey + 149) ltac:(lia)) as Hpy.
  set (V := Zpos mx * 2 ^ (ex + 149)) in *.
  (* a multiple of the unit that is not above the exact value is not above
     the rounded one *)
  assert (G : forall g : Z, g * 2 ^ (c + 149) <= V -> g <= m1).
  { intros g Hg. destruct (Z_le_gt_dec g m1) as [H | H]; [exact H | exfalso].
    assert ((m1 + 1) * 2 ^ (c + 149) <= g * 2 ^ (c + 149))
      by (apply Z.mul_le_mono_nonneg_r; lia).
    lia. }
  assert (Hm1 : val (S754_finite false my ey) <= m1 * 2 ^ (c + 149)).
  { cbn [val cond_Zopp]. destruct (Z_le_gt_dec c ey) as [H | H].
    - assert (E : 2 ^ (ey + 149) = 2 ^ (ey - c) * 2 ^ (c + 149))
        by (rewrite <- Z.pow_add_r by lia; f_equal; lia).
      rewrite E, Z.mul_assoc. apply Z.mul_le_mono_nonneg_r; [lia | ].
      apply G. rewrite <- Z.mul_assoc, <- E. exact HrV.
    - assert (Ec : c = d + ex - 24) by (subst c; unfold fexp32 in *; lia).
      assert (H23 : 2 ^ 23 <= m1).
      { apply G. rewrite <- Z.pow_add_r by lia.
        replace (23 + (c + 149)) with ((d - 1) + (ex + 149)) by lia.
        rewrite Z.pow_add_r by lia. unfold V.
        apply Z.mul_le_mono_nonneg_r; lia. }
      pose proof (pow2_le (ey + 149) (c - 1 + 149) ltac:(lia)) as Hle.
      assert (E : 2 ^ (c + 149) = 2 * 2 ^ (c - 1 + 149)).
      { replace (c + 149) with (1 + (c - 1 + 149)) by lia.
        rewrite Z.pow_add_r by lia. reflexivity. }
      pose proof (pow2_pos (c - 1 + 149) ltac:(lia)) as Hp1.
      apply Z.le_trans with (2 ^ 24 * 2 ^ (c - 1 + 149)).
      + apply Z.mul_le_mono_nonneg; lia.
      + rewrite E. change (2 ^ 24) with (2 ^ 23 * 2).
        rewrite <- Z.mul_assoc. apply Z.mul_le_mono_nonneg_r; lia. }
  cbn [val cond_Zopp] in Hm1.
  destruct Hres as [[H0 _] | Hr].
  - exfalso. rewrite H0 in Hm1. lia.
  - rewrite (rounded_val _ _ _ _ Hr Hc F). cbn [cond_Zopp]. exact Hm1.
Qed.

(** Subtracting a negative number from a non-negative one gives at least
    its opposite: [a - o >= - o] for [a >= 0], also after rounding. *)
Lemma sub_ge_opp (a o : float) :
  valid a -> valid o -> is_finite a = true -> is_finite o = true ->
  0 <= val a -> val o < 0 -> is_finite (sub a o) = true ->
  - val o <= val (sub a o).
Proof.
  intros Va Vo Fa Fo Ha Ho F. unfold sub in *.
  destruct o as [so | so | | so mo eo]; try discriminate Fo; [cbn in Ho; lia | ].
  assert (Hso : so = true).
  { destruct so; [reflexivity | exfalso]. cbn [val cond_Zopp] in Ho.
    pose proof (valid_finite_inv _ _ _ Vo) as (Heo & _).
    pose proof (pow2_pos (eo + 149) ltac:(lia)). lia. }
  subst so.
  destruct a as [sa | sa | | sa ma ea]; try discriminate Fa.
  - cbn. lia.
  - assert (Hsa : sa = false).
    { destruct sa; [exfalso | reflexivity]. cbn [val cond_Zopp] in Ha.
      pose proof (valid_finite_inv _ _ _ Va) as (Hea & _).
      pose proof (pow2_pos (ea + 149) ltac:(lia)). lia. }
    subst sa.
    pose proof (valid_finite_inv _ _ _ Va) as (Hea & _).
    pose proof (valid_finite_inv _ _ _ Vo) as (Heo & _).
    cbn [SFsub] in *. set (ez := Z.min ea eo) in *.
    pose proof (val_aligned false ma ea ez ltac:(lia)) as Aa.
    pose proof (val_aligned true mo eo ez ltac:(lia)) as Ao.
    cbn [cond_Zopp] in *.
    change (Zpos (fst (shl_align ma ea ez)) - - Zpos (fst (shl_align mo eo ez)))
      with (Zpos (fst (shl_align ma ea ez) + fst (shl_align mo eo ez))) in *.
    cbn [binary_normalize] in *.
    assert (Vr : valid (S754_finite false mo eo)) by exact Vo.
    apply (Z.le_trans _ (val (S754_finite false mo eo))); [cbn [val cond_Zopp]; lia | ].
    apply round_ge_representable; [lia | exact Vr | | exact F].
    pose proof (pow2_pos (ez + 149) ltac:(lia)) as Hp.
    pose proof (pow2_pos (eo + 149) ltac:(lia)) as Hq.
    rewrite Pos2Z.inj_add, Z.mul_add_distr_r.
    cbn [val cond_Zopp] in *. split; [lia | ]. lia.
Qed.

(** A positive raw minimum of the visible range is not above the raw
    maximum. *)
Lemma gl_raw_order (screen : Z) (z o : float) (mn mx : Z) :
  valid z -> Gl.zoom_in_range z -> 0 < screen <= 65536 -> Gl.near o ->
  Gl.raw_min o 32 = Some mn -> Gl.raw_max screen z o 32 = Some mx ->
  0 < mn -> mn <= mx.
Proof.
  intros V R Hs N Hmn Hmx Hpos.
  pose proof N as (Vo & Fo & Bo).
  pose proof (pow2_pos 149 ltac:(lia)) as H149.
  destruct (gl_raw_min_exact o N) as (n & Hn & En).
  rewrite Hmn in Hn. injection Hn as <-.
  rewrite clamp_min_max in En.
  assert (Emn : mn = (- val o) / (32 * 2 ^ 149)) by lia.
  assert (Hneg : val o < 0).
  { destruct (Z_lt_ge_dec (val o) 0) as [H | H]; [exact H | exfalso].
    assert ((- val o) / (32 * 2 ^ 149) <= 0); [ | lia].
    apply Z.div_le_upper_bound; lia. }
  destruct (screen_over_zoom screen z V R Hs) as (Va & Fa & _).
  destruct (screen_quotient_bound screen z V R Hs) as [Ha _].
  destruct (world_spec screen z o V R ltac:(lia) N) as (Vw & Fw & Bw).
  unfold Gl.world_of_screen in *.
  pose proof (sub_ge_opp _ o Va Vo Fa Fo Ha Hneg Fw) as Hge.
  set (w := sub (div (of_int screen) z) o) in *.
  assert (Hw0 : 0 <= val w) by lia.
  destruct (div_tile_nonneg w Vw Fw Bw Hw0) as [Hd0 Ed].
  destruct (div_tile_spec w Vw Fw Bw) as (Vd & Fd & Bd).
  unfold Gl.raw_max in Hmx. fold w in Hmx.
  rewrite (int_of_ceilf_val _ Vd Fd Bd) in Hmx.
  assert (Emx : mx = - ((- val (div w (of_int 32))) / 2 ^ 149)) by congruence.
  assert (Hceil : val (div w (of_int 32)) / 2 ^ 149 <= mx).
  { rewrite Emx.
    pose proof (Z.mul_div_le (val (div w (of_int 32))) (2 ^ 149) ltac:(lia)).
    pose proof (Z.mul_div_le (- val (div w (of_int 32))) (2 ^ 149) ltac:(lia)).
    nia. }
  rewrite Ed in Hceil. rewrite Emn.
  apply Z.le_trans with (val w / (32 * 2 ^ 149)); [ | exact Hceil].
  apply Z.div_le_mono; lia.
Qed.

(** C4 (amended).  Whenever the visible range is computed, for any camera,
    the minimum on each axis is at least 0 and the maximum at most the grid
    dimension.  For every camera within [2^30] pixels of the origin, every
    zoom in the range and every window of at most 65536 pixels a side the
    range is computed, and on each axis [min <= max] holds exactly when the
    maximum is not negative and the minimum is not above the grid
    dimension; the bounds then satisfy [0 <= min <= max <= grid dimension].
    The order fails only for a camera panned wholly past the grid on that
    axis, where the minimum is not clamped from above nor the maximum from
    below; the range is then empty. *)
Theorem visible_range_clamped (s : Gl.Session) (screen_w screen_h : Z) :
  (forall r : Gl.VisibleRange,
     Gl.visible_range s screen_w screen_h = Some r ->
     0 <= Gl.min_x r /\ Gl.max_x r <= MAP_WIDTH /\
     0 <= Gl.min_y r /\ Gl.max_y r <= MAP_HEIGHT) /\
  (Gl.near (Gl.offset_x s) -> Gl.near (Gl.offset_y s) -> Gl.zoom_ok s ->
   0 < screen_w <= 65536 -> 0 < screen_h <= 65536 ->
   exists r : Gl.VisibleRange,
     Gl.visible_range s screen_w screen_h = Some r /\
     (Gl.min_x r <= Gl.max_x r <-> 0 <= Gl.max_x r /\ Gl.min_x r <= MAP_WIDTH) /\
     (Gl.min_y r <= Gl.max_y r <-> 0 <= Gl.max_y r /\ Gl.min_y r <= MAP_HEIGHT) /\
     (0 <= Gl.max_x r -> Gl.min_x r <= MAP_WIDTH ->
      0 <= Gl.min_x r <= Gl.max_x r /\ Gl.max_x r <= MAP_WIDTH) /\
     (0 <= Gl.max_y r -> Gl.min_y r <= MAP_HEIGHT ->
      0 <= Gl.min_y r <= Gl.max_y r /\ Gl.max_y r <= MAP_HEIGHT)).
Proof.
  split.
  - intros r H. destruct (visible_range_inv s screen_w screen_h r H)
      as (mnx & mny & mxx & mxy & Ex & Ey & Emx & Emy & _).
    rewrite Ex, Ey, Emx, Emy.
    pose proof (clamp_min_nonneg mnx). pose proof (clamp_min_nonneg mny).
    pose proof (clamp_max_le mxx MAP_WIDTH). pose proof (clamp_max_le mxy MAP_HEIGHT).
    lia.
  - intros Nx Ny [V R] Hw Hh.
    destruct (visible_range_defined s screen_w screen_h Nx Ny (conj V R) Hw Hh) as [r Hr].
    exists r. split; [exact Hr | ].
    destruct (gl_visible_range_fields s screen_w screen_h r Hr)
      as (mnx & mny & mxx & mxy & Hmnx & Hmny & Hmxx & Hmxy & Ex & Ey & Emx & Emy).
    unfold TILE_WIDTH, TILE_HEIGHT in *.
    pose proof (gl_raw_order screen_w _ _ mnx mxx V R Hw Nx Hmnx Hmxx) as Ox.
    pose proof (gl_raw_order screen_h _ _ mny mxy V R Hh Ny Hmny Hmxy) as Oy.
    rewrite Ex, Ey, Emx, Emy. rewrite !clamp_min_max.
    unfold Gl.clamp_max, MAP_WIDTH, MAP_HEIGHT.
    destruct (Z.ltb_spec 1000 mxx); destruct (Z.ltb_spec 1000 mxy); lia.
Qed.

Lemma visible_range_clamped_witness :
  Gl.near (of_int (-100)) /\ Gl.near (of_int (-50)) /\
  Gl.zoom_ok (Gl.session_at (of_int (-100)) (of_int (-50)) (literal 1 1)) /\
  Gl.visible_range (Gl.session_at (of_int (-100)) (of_int (-50)) (literal 1 1)) 800 600
  = Some {| Gl.min_x := 3; Gl.min_y := 1; Gl.max_x := 254; Gl.max_y := 190;
            Gl.lod := 3; Gl.start_x := 3; Gl.start_y := 0 |} /\
  exists r : Gl.VisibleRange,
    Gl.visible_range (Gl.session_at (of_int (-100)) (of_int (-50)) (literal 1 1)) 800 600
    = Some r /\
    (0 <= Gl.min_x r <= Gl.max_x r /\ Gl.max_x r <= MAP_WIDTH) /\
    (0 <= Gl.min_y r <= Gl.max_y r /\ Gl.max_y r <= MAP_HEIGHT).
Proof.
  assert (N1 : Gl.near (of_int (-100))) by (repeat split; reflexivity).
  assert (N2 : Gl.near (of_int (-50))) by (repeat split; reflexivity).
  assert (Z1 : Gl.zoom_ok (Gl.session_at (of_int (-100)) (of_int (-50)) (literal 1 1)))
    by (repeat split; reflexivity).
  assert (W1 : 0 < 800 <= 65536) by lia. assert (W2 : 0 < 600 <= 65536) by lia.
  split; [exact N1 | ]. split; [exact N2 | ]. split; [exact Z1 | ].
  split; [reflexivity | ].
  destruct (proj2 (visible_range_clamped
                     (Gl.session_at (of_int (-100)) (of_int (-50)) (literal 1 1)) 800 600)
              N1 N2 Z1 W1 W2) as (r & Hr & _ & _ & Hx & Hy).
  exists r. split; [exact Hr | ].
  assert (E : r = {| Gl.min_x := 3; Gl.min_y := 1; Gl.max_x := 254; Gl.max_y := 190;
                     Gl.lod := 3; Gl.start_x := 3; Gl.start_y := 0 |}).
  { assert (H : Gl.visible_range
                  (Gl.session_at (of_int (-100)) (of_int (-50)) (literal 1 1)) 800 600
                = Some {| Gl.min_x := 3; Gl.min_y := 1; Gl.max_x := 254; Gl.max_y := 190;
                          Gl.lod := 3; Gl.start_x := 3; Gl.start_y := 0 |}) by reflexivity.
    rewrite Hr in H. injection H as H. exact H. }
  split; [apply Hx | apply Hy]; rewrite E; cbn; unfold MAP_WIDTH, MAP_HEIGHT; lia.
Defined.

(** * The rounding of a drag step *)

(** The sign of a quotient. *)
Lemma SFdiv_sign (sx sy : bool) (mx my : positive) (ex ey : Z) :
  is_finite (SFdiv prec emax (S754_finite sx mx ex) (S754_finite sy my ey)) = true ->
  val (SFdiv prec emax (S754_finite sx mx ex) (S754_finite sy my ey))
  = cond_Zopp (xorb sx sy)
      (Z.abs (val (SFdiv prec emax (S754_finite sx mx ex) (S754_finite sy my ey)))).
Proof.
  intros F. destruct (SFdiv_spec sx sy mx my ex ey) as (m1 & _ & [[_ Hr] | Hr]).
  - rewrite Hr. cbn [val]. destruct (xorb sx sy); reflexivity.
  - destruct Hr as (m & e & Hr & _ & _ & Hc). rewrite Hr in F |- *.
    destruct (e <=? 104); [ | discriminate F].
    apply canonical_inv in Hc. destruct Hc as (He & _).
    pose proof (pow2_pos (e + 149) ltac:(lia)) as Hp.
    cbn [val]. destruct (xorb sx sy); cbn [cond_Zopp]; lia.
Qed.

(** The pointer difference over the zoom: the quotient that the motion
    handler adds is finite and within [2^-22] of the exact quotient,
    relatively. *)
Lemma drag_quotient_error (d : Z) (z : float) :
  valid z -> Gl.zoom_in_range z -> CInt.in_range d = true ->
  valid (div (of_int d) z) /\ is_finite (div (of_int d) z) = true /\
  2 ^ 22 * Z.abs (val (div (of_int d) z) * val z - d * 2 ^ 149 * 2 ^ 149)
  <= Z.abs d * 2 ^ 149 * 2 ^ 149.
Proof.
  intros V R Hd. split; [apply SFdiv_valid | ].
  destruct (zoom_in_range_inv z V R) as (mz & ez & -> & Hmz & Hez & _).
  unfold CInt.in_range, CInt.INT_MIN, CInt.INT_MAX in Hd.
  apply andb_true_iff in Hd. rewrite !Z.leb_le in Hd.
  change (2 ^ 31) with 2147483648 in Hd.
  pose proof (pow2_pos 149 ltac:(lia)) as H149.
  assert (Vx : valid (of_int d)) by apply of_int_valid.
  assert (Fx : is_finite (of_int d) = true).
  { apply binary_normalize_finite; [lia | ].
    rewrite Z.abs_mul. change (Z.abs (2 ^ (0 + 149))) with (2 ^ 149).
    change (2 ^ 276) with (2 ^ 127 * 2 ^ 149).
    apply Z.mul_lt_mono_pos_r; [exact H149 | ].
    assert (2147483648 < 2 ^ 127) by reflexivity. lia. }
  destruct (binary_normalize_spec d 0 false ltac:(lia)) as (_ & _ & Hx).
  destruct (Hx Fx) as [Hrel _]. clear Hx. fold (of_int d) in Hrel.
  change (2 ^ (0 + 149)) with (2 ^ 149) in Hrel. change (2 ^ 24) with 16777216 in Hrel.
  assert (E181 : 2 ^ (32 + 149) = 4294967296 * 2 ^ 149) by reflexivity.
  assert (EK : 8388606 * (2 ^ 24 * 2 ^ 130) <= 2 ^ 149 * 2 ^ 149) by (vm_compute; discriminate).
  remember (2 ^ 149) as u eqn:Eu. remember (2 ^ 24 * 2 ^ 130) as K eqn:EKd.
  unfold div. destruct (of_int d) as [sx | sx | | sx mx ex] eqn:Ex; try discriminate Fx.
  - (* the difference is zero *)
    cbn [val] in Hrel. assert (d = 0) by nia. subst d.
    split; [reflexivity | ]. cbn [SFdiv val]. lia.
  - pose proof (valid_finite_inv _ _ _ Vx) as (Hex & _).
    pose proof (pow2_pos (ex + 149) ltac:(lia)) as Hpx.
    pose proof (pow2_pos (ez + 149) ltac:(lia)) as Hpz.
    assert (HvX : val (S754_finite sx mx ex) = cond_Zopp sx (Zpos mx * 2 ^ (ex + 149)))
      by reflexivity.
    assert (HvZ : val (S754_finite false mz ez) = Zpos mz * 2 ^ (ez + 149)) by reflexivity.
    assert (HB0 : 0 < Zpos mx * 2 ^ (ex + 149)) by (apply Z.mul_pos_pos; lia).
    assert (HZv : 0 < Zpos mz * 2 ^ (ez + 149)) by (apply Z.mul_pos_pos; lia).
    assert (HZu : Zpos mz * 2 ^ (ez + 149) <= K).
    { pose proof (pow2_le (ez + 149) 130 ltac:(lia)). rewrite EKd.
      apply Z.mul_le_mono_nonneg; lia. }
    assert (Hmag0 : forall Kk, Z.abs (val (S754_finite sx mx ex)) < 2 ^ (Kk + 149) ->
                    Zdigits2 (Zpos mx) + ex <= Kk)
      by (intros Kk; apply magnitude_le; lia).
    assert (F : is_finite (SFdiv prec emax (S754_finite sx mx ex) (S754_finite false mz ez))
                = true).
    { apply SFdiv_magnitude. cbv zeta.
      assert (Hdz : 24 <= Zdigits2 (Zpos mz))
        by (apply (Zdigits2_ge (Zpos mz) 23); lia).
      assert (Zdigits2 (Zpos mx) + ex <= 32); [ | lia].
      apply Hmag0. rewrite E181, HvX.
      assert (Ha : Z.abs (cond_Zopp sx (Zpos mx * 2 ^ (ex + 149))) = Zpos mx * 2 ^ (ex + 149))
        by (destruct sx; cbn [cond_Zopp]; lia).
      rewrite Ha. rewrite HvX in Hrel.
      assert (Hdu : Z.abs (d * u) <= 2147483648 * u).
      { rewrite Z.abs_mul, (Z.abs_eq u) by lia. apply Z.mul_le_mono_nonneg_r; lia. }
      destruct sx; cbn [cond_Zopp] in Hrel; lia. }
    split; [exact F | ].
    destruct (SFdiv_error sx false mx mz ex ez Vx V ltac:(lia) F) as (w & Hw0 & Hw & Herr).
    rewrite (SFdiv_sign sx false mx mz ex ez F), xorb_false_r, HvZ.
    rewrite <- Eu in Herr.
    remember (Zpos mx * 2 ^ (ex + 149)) as B eqn:EB.
    remember (Zpos mz * 2 ^ (ez + 149)) as Zv eqn:EZv.
    remember (Z.abs (val (SFdiv prec emax (S754_finite sx mx ex) (S754_finite false mz ez))))
      as A eqn:EA.
    assert (HA0 : 0 <= A) by (rewrite EA; apply Z.abs_nonneg).
    clear EA EB EZv Hmag0 Ex F Vx Fx V R Hpx Hpz Hmz Hez Hex.
    rewrite HvX in Hrel. clear HvX HvZ.
    assert (HB : 16777216 * Z.abs (B - Z.abs d * u) <= Z.abs d * u).
    { destruct sx; cbn [cond_Zopp] in Hrel;
        rewrite Z.abs_mul, (Z.abs_eq u) in Hrel by lia; lia. }
    assert (Hsgn : cond_Zopp sx (Z.abs d) = d).
    { destruct sx; cbn [cond_Zopp] in Hrel |- *; nia. }
    assert (Hd1 : 1 <= Z.abs d).
    { destruct (Z.eq_dec d 0) as [E | E]; [ | lia]. exfalso. subst d.
      change (Z.abs 0) with 0 in HB. rewrite Z.mul_0_l, Z.sub_0_r in HB. lia. }
    clear Hrel.
    assert (Eabs : Z.abs (cond_Zopp sx A * Zv - d * u * u)
                   = Z.abs (A * Zv - Z.abs d * u * u)).
    { rewrite <- Hsgn at 1. destruct sx; cbn [cond_Zopp].
      - replace (- A * Zv - - Z.abs d * u * u) with (- (A * Zv - Z.abs d * u * u)) by ring.
        apply Z.abs_opp.
      - reflexivity. }
    rewrite Eabs. clear Eabs Hsgn.
    (* the two errors: of the conversion and of the division *)
    assert (T1 : Z.abs (A * Zv - Z.abs d * u * u)
                 <= Z.abs (A * Zv - B * u) + Z.abs (B - Z.abs d * u) * u).
    { replace (A * Zv - Z.abs d * u * u)
        with ((A * Zv - B * u) + (B - Z.abs d * u) * u) by ring.
      eapply Z.le_trans; [apply Z.abs_triangle | ].
      rewrite (Z.abs_mul (B - Z.abs d * u)), (Z.abs_eq u) by lia. lia. }
    assert (T2 : 16777216 * (Z.abs (B - Z.abs d * u) * u) <= Z.abs d * u * u).
    { replace (16777216 * (Z.abs (B - Z.abs d * u) * u))
        with (16777216 * Z.abs (B - Z.abs d * u) * u) by ring.
      apply Z.mul_le_mono_nonneg_r; lia. }
    assert (HBD : 16777216 * (B * u) <= 16777217 * (Z.abs d * u * u)).
    { replace (16777216 * (B * u)) with (16777216 * B * u) by ring.
      replace (16777217 * (Z.abs d * u * u)) with (16777217 * (Z.abs d * u) * u) by ring.
      apply Z.mul_le_mono_nonneg_r; lia. }
    assert (HD : u * u <= Z.abs d * u * u).
    { rewrite <- Z.mul_assoc. rewrite <- (Z.mul_1_l (u * u)) at 1.
      apply Z.mul_le_mono_nonneg_r; [apply Z.mul_nonneg_nonneg; lia | exact Hd1]. }
    assert (T3 : 8388607 * (w * Zv) <= B * u \/ w * Zv <= K).
    { destruct Hw as [-> | Hw]; [right; lia | left].
      change (2 ^ 23) with 8388608 in Hw.
      assert (H1 : 8388608 * (w * Zv) <= A * Zv).
      { replace (8388608 * (w * Zv)) with (8388608 * w * Zv) by ring.
        apply Z.mul_le_mono_nonneg_r; lia. }
      lia. }
    remember (Z.abs d * u * u) as D eqn:ED.
    remember (w * Zv) as wz eqn:Ewz. remember (B * u) as Bu eqn:EBu.
    remember (A * Zv) as Az eqn:EAz. remember (u * u) as uu eqn:Euu.
    remember (Z.abs (B - Z.abs d * u) * u) as X eqn:EX.
    clear - T1 T2 T3 HBD HD Herr EK HZu Hw0 HZv.
    change (2 ^ 22) with 4194304.
    assert (T4 : 8388606 * wz <= D) by (destruct T3 as [T3 | T3]; lia).
    lia.
Qed.

Lemma SFadd_finite (x y : spec_float) :
  is_finite (SFadd prec emax x y) = true -> is_finite x = true /\ is_finite y = true.
Proof.
  destruct x as [sx | sx | | sx mx ex], y as [sy | sy | | sy my ey];
    try destruct sx; try destruct sy; cbn; intros H; try discriminate H;
    split; reflexivity.
Qed.

(** One axis of a drag step: the offset after it is the binary32 sum of the
    offset before and the binary32 quotient of the pointer difference by
    the zoom; the quotient is finite and within [2^-22], relatively, of the
    exact quotient, and the sum, unless it overflows, within [2^-24] of the
    exact sum. *)
Lemma drag_axis (o : float) (d : Z) (z : float) :
  valid o -> valid z -> Gl.zoom_in_range z -> CInt.in_range d = true ->
  is_finite (div (of_int d) z) = true /\
  2 ^ 22 * Z.abs (val (div (of_int d) z) * val z - d * 2 ^ 149 * 2 ^ 149)
  <= Z.abs d * 2 ^ 149 * 2 ^ 149 /\
  (is_finite (add o (div (of_int d) z)) = true ->
   2 ^ 24 * Z.abs (val (add o (div (of_int d) z)) - (val o + val (div (of_int d) z)))
   <= Z.abs (val o + val (div (of_int d) z))).
Proof.
  intros Vo V R Hd. destruct (drag_quotient_error d z V R Hd) as (Vq & Fq & Hq).
  split; [exact Fq | ]. split; [exact Hq | ].
  intros F. unfold add in *. destruct (SFadd_finite _ _ F) as [Fo _].
  exact (proj2 (proj2 (SFadd_spec o _ Vo Vq Fo Fq)) F).
Qed.

(** C8, as stated, fails in [maingl.c]: the offset does not change by
    exactly the quotient.  After one wheel step up (zoom 1.1f) a drag of
    7 pixels moves the offset by [13344768 * 2^-21], while the binary32
    quotient [7 / zoom] is [13345512 * 2^-21]; and the change times the
    zoom is not 7. *)
Lemma drag_pan_inexact :
  Gl.dragging (Gl.handle_events Gl.initial_session
                 [Gl.MouseWheel 1 400 300; Gl.LeftButtonDown 0 0]) = true /\
  Gl.last_mouse_x (Gl.handle_events Gl.initial_session
                     [Gl.MouseWheel 1 400 300; Gl.LeftButtonDown 0 0]) = 0 /\
  val (Gl.offset_x (Gl.handle_events Gl.initial_session
                      [Gl.MouseWheel 1 400 300; Gl.LeftButtonDown 0 0; Gl.MouseMotion 7 0]))
  - val (Gl.offset_x (Gl.handle_events Gl.initial_session
                        [Gl.MouseWheel 1 400 300; Gl.LeftButtonDown 0 0]))
  = 13344768 * 2 ^ 128 /\
  val (div (of_int (7 - 0))
           (Gl.zoom (Gl.handle_events Gl.initial_session
                       [Gl.MouseWheel 1 400 300; Gl.LeftButtonDown 0 0])))
  = 13345512 * 2 ^ 128 /\
  13344768 * 2 ^ 128
  * val (Gl.zoom (Gl.handle_events Gl.initial_session
                    [Gl.MouseWheel 1 400 300; Gl.LeftButtonDown 0 0]))
  <> (7 - 0) * 2 ^ 149 * 2 ^ 149.
Proof.
  split; [reflexivity | ]. split; [reflexivity | ].
  split; [vm_compute; reflexivity | ]. split; [vm_compute; reflexivity | ].
  vm_compute. discriminate.
Qed.

(** C8 (amended).  While dragging, with a zoom in the range and a pointer
    difference in the range of [int], a motion event of either renderer
    stores the current pointer as the last one, leaves zoom and flags as
    they are, and on each axis replaces the offset [o] by the binary32 sum
    [o + q] of the offset and the binary32 quotient [q] of the pointer
    difference by the zoom (the integer zoom of [main.c] converted to
    [float]).  The offset changes by [(current - last) / zoom] up to these
    two roundings: [q] is finite and [|q * zoom - (current - last)|] is at
    most [2^-22 * |current - last|]; the new offset, unless it overflows,
    is within [2^-24 * |o + q|] of [o + q].  The sum is stored as it is,
    with no clamp: dragging 100000 pixels to the right from the initial
    session puts the left edge of the grid at 84400. *)
Theorem drag_pan_update (s : Gl.Session) (t : Sdl.Session) (x y : Z) :
  Gl.dragging s = true -> Sdl.dragging t = true ->
  Gl.zoom_ok s -> Sdl.zoom t = 1 \/ Sdl.zoom t = 2 \/ Sdl.zoom t = 4 ->
  valid (Gl.offset_x s) -> valid (Gl.offset_y s) ->
  valid (Sdl.offset_x t) -> valid (Sdl.offset_y t) ->
  CInt.in_range (x - Gl.last_mouse_x s) = true ->
  CInt.in_range (y - Gl.last_mouse_y s) = true ->
  CInt.in_range (x - Sdl.last_mouse_x t) = true ->
  CInt.in_range (y - Sdl.last_mouse_y t) = true ->
  let s' := Gl.handle_event s (Gl.MouseMotion x y) in
  let t' := Sdl.handle_event t (Sdl.MouseMotion x y) in
  (Gl.last_mouse_x s' = x /\ Gl.last_mouse_y s' = y /\ Gl.zoom s' = Gl.zoom s /\
   Gl.dragging s' = true /\ Gl.running s' = Gl.running s) /\
  (Sdl.last_mouse_x t' = x /\ Sdl.last_mouse_y t' = y /\ Sdl.zoom t' = Sdl.zoom t /\
   Sdl.dragging t' = true /\ Sdl.running t' = Sdl.running t) /\
  (forall (o o' : float) (d : Z) (z : float),
     In (o, o', d, z)
        [(Gl.offset_x s, Gl.offset_x s', x - Gl.last_mouse_x s, Gl.zoom s);
         (Gl.offset_y s, Gl.offset_y s', y - Gl.last_mouse_y s, Gl.zoom s);
         (Sdl.offset_x t, Sdl.offset_x t', x - Sdl.last_mouse_x t, of_int (Sdl.zoom t));
         (Sdl.offset_y t, Sdl.offset_y t', y - Sdl.last_mouse_y t, of_int (Sdl.zoom t))] ->
     o' = add o (div (of_int d) z) /\
     is_finite (div (of_int d) z) = true /\
     2 ^ 22 * Z.abs (val (div (of_int d) z) * val z - d * 2 ^ 149 * 2 ^ 149)
     <= Z.abs d * 2 ^ 149 * 2 ^ 149 /\
     (is_finite o' = true ->
      2 ^ 24 * Z.abs (val o' - (val o + val (div (of_int d) z)))
      <= Z.abs (val o + val (div (of_int d) z)))) /\
  Gl.offset_x (Gl.handle_events Gl.initial_session
                 [Gl.LeftButtonDown 0 0; Gl.MouseMotion 100000 0]) = of_int 84400 /\
  Sdl.offset_x (Sdl.handle_events Sdl.initial_session
                  [Sdl.LeftButtonDown 0 0; Sdl.MouseMotion 100000 0]) = of_int 84400.
Proof.
  intros Hs Ht [V R] Hz Vx Vy Vx' Vy' Rx Ry Rx' Ry' s' t'. subst s' t'.
  destruct (sdl_zoom_float (Sdl.zoom t) Hz) as [V' R'].
  cbn [Gl.handle_event Sdl.handle_event]. rewrite Hs, Ht.
  cbn [Gl.last_mouse_x Gl.last_mouse_y Gl.zoom Gl.dragging Gl.running Gl.offset_x Gl.offset_y
       Sdl.last_mouse_x Sdl.last_mouse_y Sdl.zoom Sdl.dragging Sdl.running
       Sdl.offset_x Sdl.offset_y].
  rewrite !int_sub_exact by assumption.
  split; [repeat split | ]. split; [repeat split | ].
  split; [ | split; reflexivity].
  intros o o' d z Hin. cbn [In] in Hin.
  destruct Hin as [E | [E | [E | [E | []]]]]; injection E as <- <- <- <-;
    (split; [reflexivity | apply drag_axis; assumption]).
Qed.

Lemma drag_pan_update_witness :
  Gl.dragging (Gl.handle_event Gl.initial_session (Gl.LeftButtonDown 10 10)) = true /\
  Sdl.dragging (Sdl.handle_event Sdl.initial_session (Sdl.LeftButtonDown 10 10)) = true /\
  CInt.in_range (30 - 10) = true /\ CInt.in_range (5 - 10) = true /\
  Gl.last_mouse_x (Gl.handle_event
                     (Gl.handle_event Gl.initial_session (Gl.LeftButtonDown 10 10))
                     (Gl.MouseMotion 30 5)) = 30 /\
  Gl.offset_x (Gl.handle_event
                 (Gl.handle_event Gl.initial_session (Gl.LeftButtonDown 10 10))
                 (Gl.MouseMotion 30 5))
  = add (of_int (-15600)) (div (of_int (30 - 10)) (of_int 1)) /\
  2 ^ 22 * Z.abs (val (div (of_int (30 - 10)) (of_int 1)) * val (of_int 1)
                  - (30 - 10) * 2 ^ 149 * 2 ^ 149)
  <= Z.abs (30 - 10) * 2 ^ 149 * 2 ^ 149.
Proof.
  split; [reflexivity | ]. split; [reflexivity | ].
  split; [reflexivity | ]. split; [reflexivity | ].
  assert (Z1 : Gl.zoom_ok (Gl.handle_event Gl.initial_session (Gl.LeftButtonDown 10 10)))
    by (repeat split; reflexivity).
  destruct (drag_pan_update
              (Gl.handle_event Gl.initial_session (Gl.LeftButtonDown 10 10))
              (Sdl.handle_event Sdl.initial_session (Sdl.LeftButtonDown 10 10))
              30 5 eq_refl eq_refl Z1 (or_introl eq_refl)
              eq_refl eq_refl eq_refl eq_refl eq_refl eq_refl eq_refl eq_refl)
    as ((H1 & _) & _ & Hax & _).
  split; [exact H1 | ].
  destruct (Hax _ _ _ _ (or_introl eq_refl)) as (E & _ & Hq & _).
  split; [exact E | exact Hq].
Defined.
